(** * Blockize and Tensorize (tir/schedule/primitive/blockize_tensorize.cc)

    A shallow embedding of the schedule primitives Blockize (single-loop and
    group form) and Tensorize, together with the helpers of the same file:
    the trivial subspace division, the binding deriver, the inner and init
    generators, region relaxation and union, and the collector and rewriter
    of the group form.

    IR nodes are immutable values.  Where the C++ code compares object
    pointers (variables, loops, blocks, buffers, srefs) the node carries a
    numeric identity; fresh objects draw their identity from a counter that
    is threaded through the functions which allocate. *)

From Stdlib Require Import ZArith String List Bool Lia.
From stdpp Require Import base option list gmap strings.

Open Scope string_scope.
Open Scope list_scope.
Open Scope Z_scope.

(** ** Data types of the IR *)

Inductive TypeCode := kInt | kUInt | kFloat | kHandle.

Record DataType := mkDataType { code : TypeCode; bits : Z; lanes : Z }.

Definition DInt (b : Z) : DataType := mkDataType kInt b 1.
Definition DBool : DataType := mkDataType kUInt 1 1.

(** A [Var] has identity ([vid]), a name hint and a data type. *)
Record Var := mkVar { vid : nat; name_hint : string; vdtype : DataType }.

Inductive BinaryOp :=
| OpAdd | OpSub | OpMul | OpFloorDiv | OpFloorMod | OpMin | OpMax
| OpEQ | OpLT | OpAnd.

Inductive PrimExpr :=
| EVar (v : Var)
| IntImm (dt : DataType) (value : Z)
| Cast (dt : DataType) (value : PrimExpr)
| BinOp (op : BinaryOp) (a b : PrimExpr).

Definition is_cmp (op : BinaryOp) : bool :=
  match op with OpEQ | OpLT | OpAnd => true | _ => false end.

Fixpoint dtype (e : PrimExpr) : DataType :=
  match e with
  | EVar v => vdtype v
  | IntImm dt _ => dt
  | Cast dt _ => dt
  | BinOp op a _ => if is_cmp op then DBool else dtype a
  end.

#[global] Instance TypeCode_eq_dec : EqDecision TypeCode.
Proof. solve_decision. Defined.
#[global] Instance DataType_eq_dec : EqDecision DataType.
Proof. solve_decision. Defined.
#[global] Instance Var_eq_dec : EqDecision Var.
Proof. solve_decision. Defined.
#[global] Instance BinaryOp_eq_dec : EqDecision BinaryOp.
Proof. solve_decision. Defined.
#[global] Instance PrimExpr_eq_dec : EqDecision PrimExpr.
Proof. solve_decision. Defined.

(** [is_const_int(x, 1)]: an integer immediate of value one. *)
Definition is_one (e : PrimExpr) : bool :=
  match e with IntImm _ 1 => true | _ => false end.

Definition make_zero (dt : DataType) : PrimExpr := IntImm dt 0.
Definition make_const (dt : DataType) (v : Z) : PrimExpr := IntImm dt v.
(** [Bool(true)] and [make_const(DataType::Bool(), true)]. *)
Definition BoolTrue : PrimExpr := IntImm DBool 1.

Record Range := mkRange { r_min : PrimExpr; r_extent : PrimExpr }.

Definition FromMinExtent (min extent : PrimExpr) : Range := mkRange min extent.

Inductive IterVarType :=
| kDataPar | kThreadIndex | kCommReduce | kOrdered | kOpaque.

#[global] Instance IterVarType_eq_dec : EqDecision IterVarType.
Proof. solve_decision. Defined.

Record IterVar := mkIterVar { dom : Range; var : Var; iter_type : IterVarType }.

Record Buffer := mkBuffer {
  buf_id : nat; buf_name : string; shape : list PrimExpr; buf_dtype : DataType }.

Record BufferRegion := mkBufferRegion { buffer : Buffer; region : list Range }.

(** [MatchBufferRegion(buffer, source)]: [buffer] is the matched view and
    [source] the region of the enclosing buffer it aliases. *)
Record MatchBufferRegion := mkMatchBufferRegion {
  mb_buffer : Buffer; mb_source : BufferRegion }.

Scheme All for list.
Scheme All for option.

Inductive ForKind := kSerial | kParallel | kVectorized | kUnrolled | kThreadBinding.

Definition Annotations := list (string * string).

Module For.
Record t (S : Type) := mk {
    node : nat;
    loop_var : Var;
    min : PrimExpr;
    extent : PrimExpr;
    kind : ForKind;
    body : S;
    thread_binding : option IterVar;
    annotations : Annotations }.
Arguments mk {S}.
Arguments node {S}.
Arguments loop_var {S}.
Arguments min {S}.
Arguments extent {S}.
Arguments kind {S}.
Arguments body {S}.
Arguments thread_binding {S}.
Arguments annotations {S}.
Scheme All for t.
End For.

Module Block.
Record t (S : Type) := mk {
    node : nat;
    iter_vars : list IterVar;
    reads : list BufferRegion;
    writes : list BufferRegion;
    name_hint : string;
    body : S;
    init : option S;
    alloc_buffers : list Buffer;
    match_buffers : list MatchBufferRegion;
    annotations : Annotations }.
Arguments mk {S}.
Arguments node {S}.
Arguments iter_vars {S}.
Arguments reads {S}.
Arguments writes {S}.
Arguments name_hint {S}.
Arguments body {S}.
Arguments init {S}.
Arguments alloc_buffers {S}.
Arguments match_buffers {S}.
Arguments annotations {S}.
Scheme All for t.
End Block.

Module BlockRealize.
Record t (S : Type) := mk {
    iter_values : list PrimExpr;
    predicate : PrimExpr;
    block : Block.t S }.
Arguments mk {S}.
Arguments iter_values {S}.
Arguments predicate {S}.
Arguments block {S}.
Scheme All for t.
End BlockRealize.

Inductive Stmt :=
| SFor (f : For.t Stmt)
| SSeqStmt (seq : list Stmt)
| SIfThenElse (condition : PrimExpr) (then_case : Stmt) (else_case : option Stmt)
| SBlockRealize (r : BlockRealize.t Stmt)
| SBlock (b : Block.t Stmt)
| SBufferStore (buf : Buffer) (value : PrimExpr) (indices : list PrimExpr)
| SEvaluate (value : PrimExpr).

Abbreviation For := (For.t Stmt).
Abbreviation Block := (Block.t Stmt).
Abbreviation BlockRealize := (BlockRealize.t Stmt).

(** [Array<T>{nullptr}]: an array handle that may be undefined.  [size] of
    an undefined array is 0, [clear] leaves it undefined, [push_back]
    allocates, and moving out of it leaves it undefined. *)
Definition Array (T : Type) := option (list T).

Definition arr_defined {T} (a : Array T) : bool :=
  match a with Some _ => true | None => false end.
Definition arr_list {T} (a : Array T) : list T :=
  match a with Some l => l | None => [] end.
Definition arr_size {T} (a : Array T) : nat := length (arr_list a).
Definition arr_push_back {T} (a : Array T) (x : T) : Array T :=
  Some (arr_list a ++ [x]).
Definition arr_clear {T} (a : Array T) : Array T :=
  match a with Some _ => Some [] | None => None end.

(** [a.empty()] *)
Definition arr_empty {T} (l : list T) : bool :=
  match l with [] => true | _ => false end.

(** ** Certificates of the arithmetic solver

    [IterMark(source, extent)], [IterSplitExpr(mark)] and
    [IterSumExpr(args, base)], as this file constructs and reads them. *)
Inductive IterMapExpr :=
| IterSplitExpr (source : IterMark)
| IterSumExpr (args : list IterMapExpr) (base : PrimExpr)
with IterMark :=
| mkIterMark (source : MarkSource) (extent : PrimExpr)
with MarkSource :=
| SrcPrim (e : PrimExpr)
| SrcIterMap (e : IterMapExpr).

Definition mark_source (m : IterMark) : MarkSource :=
  match m with mkIterMark s _ => s end.
Definition mark_extent (m : IterMark) : PrimExpr :=
  match m with mkIterMark _ e => e end.

(** Interval sets are values of the arithmetic library. *)
Record IntSet := mkIntSet { is_min : PrimExpr; is_max : PrimExpr }.

(** The arithmetic analyzer is a scratchpad of variable domains. *)
Definition Analyzer := list (Var * Range).

(** ** Schedule tree references *)

Inductive StmtSRef :=
| mkSRef (sref_id : nat) (stmt : Stmt) (parent : option StmtSRef).

Definition sref_id (s : StmtSRef) : nat := match s with mkSRef i _ _ => i end.
Definition sref_stmt (s : StmtSRef) : Stmt := match s with mkSRef _ st _ => st end.
Definition sref_parent (s : StmtSRef) : option StmtSRef :=
  match s with mkSRef _ _ p => p end.

(** Pointer comparison [a == b.get()] of two sref handles. *)
Definition sref_same (a : option StmtSRef) (b : StmtSRef) : bool :=
  match a with Some a' => Nat.eqb (sref_id a') (sref_id b) | None => false end.

Record IRModule := mkIRModule { mod_id : nat }.

(** ** Errors *)

Module SubspaceNotDivisibleError.
Record t := mk { mod_ : IRModule; scope_loop_ : For; inner_block_ : Block }.

Definition FastErrorString (_ : t) : string :=
    "ScheduleError: The bindings of the inner block can not be blockized.".

Definition DetailRenderTemplate (_ : t) : string :=
    "ScheduleError: The bindings of the inner block {0} can not be blockized by the loops "
    +:+ "starting at {1}.".

Definition mod' (e : t) : IRModule := mod_ e.

Definition LocationsOfInterest (e : t) : list Stmt :=
    [SBlock (inner_block_ e); SFor (scope_loop_ e)].
End SubspaceNotDivisibleError.

Inductive Error :=
| ScheduleError (e : SubspaceNotDivisibleError.t)
| InternalError (msg : string)     (* a failed ICHECK or LOG(FATAL) *)
| IndexError (msg : string)        (* Array/Map access out of range *)
| ExternalError (msg : string).    (* raised by a collaborator *)

Inductive Result (A : Type) :=
| Ok (a : A)
| Err (e : Error).
Arguments Ok {A}.
Arguments Err {A}.

(** State-and-error monad: the state carries the supply of fresh
    identities (and, in the group form, the members of the rewriter). *)
Definition M (St A : Type) := St -> Result (A * St).

Definition ret {St A} (a : A) : M St A := fun s => Ok (a, s).
Definition bind {St A B} (m : M St A) (k : A -> M St B) : M St B :=
  fun s => match m s with
           | Ok (a, s') => k a s'
           | Err e => Err e
           end.
Definition throw {St A} (e : Error) : M St A := fun _ => Err e.
Definition get {St} : M St St := fun s => Ok (s, s).
Definition put {St} (s : St) : M St unit := fun _ => Ok (tt, s).
Definition modify {St} (f : St -> St) : M St unit := fun s => Ok (tt, f s).
Definition lift_result {St A} (r : Result A) : M St A :=
  fun s => match r with Ok a => Ok (a, s) | Err e => Err e end.

Declare Scope monad_scope.
Delimit Scope monad_scope with monad.
Notation "'let*' x ':=' m 'in' k" := (bind m (fun x => k))
  (at level 10, x pattern, m at level 100, k at level 200) : monad_scope.
Notation "m ';;' k" := (bind m (fun _ => k))
  (at level 100, k at level 200, right associativity) : monad_scope.

(** Run a computation on a component of the state. *)
Definition zoom {S1 S2 A} (proj : S2 -> S1) (upd : S1 -> S2 -> S2)
    (m : M S1 A) : M S2 A :=
  fun s => match m (proj s) with
           | Ok (a, s1) => Ok (a, upd s1 s)
           | Err e => Err e
           end.

Definition ICHECK {St} (c : bool) (msg : string) : M St unit :=
  if c then ret tt else throw (InternalError msg).

Definition res_bind {A B} (r : Result A) (k : A -> Result B) : Result B :=
  match r with Ok a => k a | Err e => Err e end.

(** [Array::operator[]] with its bounds check. *)
Definition at_index {A} (l : list A) (i : nat) : Result A :=
  match l !! i with
  | Some x => Ok x
  | None => Err (IndexError "Array index out of range")
  end.

(** Modelled from the spec: the constructor of BlockRealize, whose
    definition is outside blockize_tensorize.cc.  The spec gives BlockRealize
    the invariant [|iter_values| == |block.iter_vars|]; the constructor
    refuses the arguments that break it. *)
Definition BlockRealize_new (iter_values : list PrimExpr) (predicate : PrimExpr)
    (block : Block) : Result BlockRealize :=
  if Nat.eqb (length (Block.iter_vars block)) (length iter_values) then
    Ok (BlockRealize.mk iter_values predicate block)
  else Err (InternalError "BlockRealize: |iter_values| == |block.iter_vars|").

(** Fresh identities for new objects. *)
Definition fresh : M nat nat := fun n => Ok (n, S n).

(** [var.copy_with_suffix(suffix)]: a new variable object. *)
Definition copy_with_suffix (v : Var) (suffix : string) : M nat Var :=
  (let* i := fresh in
   ret (mkVar i (name_hint v +:+ suffix) (vdtype v)))%monad.

(** ** Variable use *)

Fixpoint UsesVarExpr (e : PrimExpr) (f : Var -> bool) : bool :=
  match e with
  | EVar v => f v
  | IntImm _ _ => false
  | Cast _ a => UsesVarExpr a f
  | BinOp _ a b => UsesVarExpr a f || UsesVarExpr b f
  end.

Definition UsesVarRange (r : Range) (f : Var -> bool) : bool :=
  UsesVarExpr (r_min r) f || UsesVarExpr (r_extent r) f.

Definition UsesVarRegion (r : BufferRegion) (f : Var -> bool) : bool :=
  existsb (fun x => UsesVarRange x f) (region r).

Fixpoint UsesVarStmt (s : Stmt) (f : Var -> bool) : bool :=
  let block_uses (b : Block) : bool :=
    existsb (fun iv => UsesVarRange (dom iv) f) (Block.iter_vars b)
    || existsb (fun r => UsesVarRegion r f) (Block.reads b)
    || existsb (fun r => UsesVarRegion r f) (Block.writes b)
    || existsb (fun m => UsesVarRegion (mb_source m) f) (Block.match_buffers b)
    || match Block.init b with Some i => UsesVarStmt i f | None => false end
    || UsesVarStmt (Block.body b) f in
  match s with
  | SFor l =>
      UsesVarExpr (For.min l) f || UsesVarExpr (For.extent l) f
      || UsesVarStmt (For.body l) f
  | SSeqStmt seq =>
      (fix go (l : list Stmt) : bool :=
         match l with
         | [] => false
         | x :: l' => UsesVarStmt x f || go l'
         end) seq
  | SIfThenElse c t e =>
      UsesVarExpr c f || UsesVarStmt t f
      || match e with Some e' => UsesVarStmt e' f | None => false end
  | SBlockRealize r =>
      existsb (fun e => UsesVarExpr e f) (BlockRealize.iter_values r)
      || UsesVarExpr (BlockRealize.predicate r) f
      || block_uses (BlockRealize.block r)
  | SBlock b => block_uses b
  | SBufferStore _ v idx =>
      UsesVarExpr v f || existsb (fun e => UsesVarExpr e f) idx
  | SEvaluate v => UsesVarExpr v f
  end.

(** [UsesVar(x, var)] of this file: use of one variable, by identity. *)
Definition same_var (tgt v : Var) : bool := Nat.eqb (vid v) (vid tgt).
Definition UsesVar_expr (x : PrimExpr) (v : Var) : bool := UsesVarExpr x (same_var v).
Definition UsesVar_stmt (x : Stmt) (v : Var) : bool := UsesVarStmt x (same_var v).

Definition RangeFromExtent (extent : PrimExpr) : Range :=
  FromMinExtent (make_zero (dtype extent)) extent.

(** ** Collaborators outside this file

    The arithmetic library (affine solver, prover, simplifier, interval
    sets), the operators on expressions (which fold constants), the deep
    copy and the index-type normalizer are used through their interfaces. *)
Class Arith := {
  (** [arith::SubspaceDivide(bindings, input_iters, sub_iters, predicate,
      Surjective, analyzer, simplify_trivial_iterators)] *)
  arith_SubspaceDivide :
    list PrimExpr -> gmap nat Range -> list Var -> PrimExpr -> Analyzer ->
    bool -> list (list IterMark);
  NormalizeIterMapToExpr : IterMapExpr -> PrimExpr;
  CanProveEqual : Analyzer -> PrimExpr -> PrimExpr -> bool;
  Simplify : Analyzer -> PrimExpr -> PrimExpr;
  EvalSet : list Range -> gmap nat IntSet -> list IntSet;
  CoverRange : IntSet -> Range -> Range;
  IntSet_FromRange : Range -> IntSet;
  IntSet_Union : list IntSet -> IntSet;
  (** [a * b], [a + b] and [cast(t, a)] on expressions *)
  mul : PrimExpr -> PrimExpr -> PrimExpr;
  add : PrimExpr -> PrimExpr -> PrimExpr;
  cast : DataType -> PrimExpr -> PrimExpr;
  (** [Range(begin, end)] *)
  Range_begin_end : PrimExpr -> PrimExpr -> Range
}.

(** Functions of a primitive function and tensor intrinsics. *)
Record PrimFunc := mkPrimFunc {
  params : list Var;
  buffer_map : gmap nat Buffer;       (* keyed by the identity of the parameter *)
  func_body : Stmt }.

Record TensorIntrin := mkTensorIntrin { desc : PrimFunc; impl : PrimFunc }.

(** What the structural comparator has recorded after a successful match. *)
Record TensorizeComparator := mkComparator {
  rhs_buffer_map_ : gmap nat Buffer;           (* desc buffer -> current buffer *)
  buffer_indices_ : gmap nat (list PrimExpr)   (* current buffer -> base indices *) }.

(** The IR library: substitution by a variable-to-variable map, deep copy,
    index-type normalization and the structural comparator. *)
Class TirLib := {
  Substitute_stmt_vars : Stmt -> gmap nat Var -> Stmt;
  Substitute_expr_vars : PrimExpr -> gmap nat Var -> PrimExpr;
  DeepCopy : PrimFunc -> PrimFunc;
  IndexDataTypeNormalizer_Rewrite : DataType -> PrimFunc -> PrimFunc;
  (** [TensorizeComparator(mod, true).VisitStmt(realize, desc_body)] *)
  Comparator_VisitStmt : IRModule -> BlockRealize -> Stmt -> Result TensorizeComparator
}.

(** ** Schedule state *)

Record BlockInfo := mkBlockInfo {
  scope : nat; affine_binding : bool; region_cover : bool; stage_pipeline : bool }.

Definition BlockInfo_default : BlockInfo := mkBlockInfo 0 false false false.

Record ScheduleState := mkState {
  st_mod : IRModule;
  stmt2ref : gmap nat StmtSRef;        (* keyed by the identity of the IR node *)
  block_info : gmap nat BlockInfo      (* keyed by the identity of the sref *) }.

Class Schedule := {
  CheckGetSingleChildBlockRealizeOnSRefTree :
    ScheduleState -> StmtSRef -> Result BlockRealize;
  Replace : ScheduleState -> StmtSRef -> Stmt -> gmap nat Block -> ScheduleState;
  UpdateScopeBlockInfo : ScheduleState -> Stmt -> ScheduleState;
  IsAffineBlockBinding : ScheduleState -> StmtSRef -> bool;
  GetScopeRoot : ScheduleState -> StmtSRef -> Result StmtSRef;
  GetBlockRealize : ScheduleState -> StmtSRef -> Result BlockRealize;
  GetSRefLowestCommonAncestor : list StmtSRef -> Result StmtSRef
}.

(** The mutable objects a transformation works on: the supply of fresh
    identities, the block reuse map and the analyzer. *)
Record Frame := mkFrame {
  next_id : nat;
  block_sref_reuse : gmap nat Block;   (* identity of the old block -> new block *)
  analyzer : Analyzer }.

Definition with_fresh {A} (m : M nat A) : M Frame A :=
  zoom next_id (fun n f => mkFrame n (block_sref_reuse f) (analyzer f)) m.

Definition reuse_Set (src : Block) (tgt : Block) : M Frame unit :=
  modify (fun f => mkFrame (next_id f) (<[Block.node src := tgt]> (block_sref_reuse f))
                     (analyzer f)).

Definition analyzer_Bind (v : Var) (r : Range) : M Frame unit :=
  modify (fun f => mkFrame (next_id f) (block_sref_reuse f) (analyzer f ++ [(v, r)])).

Section Primitives.
Context `{Arith, TirLib, Schedule}.

(** ** TrivialSubspaceDivision *)

Definition make_uses_var (vars : list Var) : PrimExpr -> bool :=
  let var_set : gset nat := list_to_set (map vid vars) in
  fun expr => UsesVarExpr expr (fun v => bool_decide (vid v ∈ var_set)).

Definition unit_iter_mark : IterMark :=
  mkIterMark (SrcIterMap (IterSumExpr [] (IntImm (DInt 32) 0))) (IntImm (DInt 32) 1).

Definition is_VarNode (e : PrimExpr) : bool :=
  match e with EVar _ => true | _ => false end.

(** The body of the loop over [bindings] at index [i]: [None] is the early
    [return {}]. *)
Definition trivial_division_entry (iter_vars : list IterVar)
    (use_outer_loop_vars use_inner_loop_vars : PrimExpr -> bool)
    (i : nat) (binding : PrimExpr) : Result (option (list IterMark)) :=
  let outer := use_outer_loop_vars binding in
  let inner := use_inner_loop_vars binding in
  res_bind (at_index iter_vars i) (fun iv =>
  let iter_mark :=
    if is_VarNode binding then
      mkIterMark
        (SrcIterMap (IterSplitExpr (mkIterMark (SrcPrim binding) (r_extent (dom iv)))))
        (r_extent (dom iv))
    else
      mkIterMark (SrcIterMap (IterSumExpr [] binding)) (r_extent (dom iv)) in
  if outer && negb inner then Ok (Some [iter_mark; unit_iter_mark])
  else if inner && negb outer then Ok (Some [unit_iter_mark; iter_mark])
  else if negb outer && negb inner then Ok (Some [unit_iter_mark; unit_iter_mark])
  else Ok None).

Fixpoint trivial_division_loop (iter_vars : list IterVar)
    (use_outer use_inner : PrimExpr -> bool)
    (i : nat) (bindings : list PrimExpr) (res : list (list IterMark))
    : Result (option (list (list IterMark))) :=
  match bindings with
  | [] => Ok (Some res)
  | b :: rest =>
      res_bind (trivial_division_entry iter_vars use_outer use_inner i b) (fun e =>
      match e with
      | None => Ok None
      | Some entry =>
          trivial_division_loop iter_vars use_outer use_inner (S i) rest (res ++ [entry])
      end)
  end.

Definition predicate_marks : list IterMark :=
  [mkIterMark (SrcIterMap (IterSumExpr [] (IntImm (DInt 32) 0))) BoolTrue;
   mkIterMark (SrcIterMap (IterSumExpr [] (IntImm (DInt 32) 0))) BoolTrue].

Definition TrivialSubspaceDivision (iter_vars : list IterVar) (bindings : list PrimExpr)
    (predicate : PrimExpr) (outer_iters inner_iters : list Var)
    : Result (list (list IterMark)) :=
  if negb (is_one predicate) then Ok []
  else
    let use_outer_loop_vars := make_uses_var outer_iters in
    let use_inner_loop_vars := make_uses_var inner_iters in
    res_bind
      (trivial_division_loop iter_vars use_outer_loop_vars use_inner_loop_vars
         0%nat bindings [])
      (fun r => match r with
                | None => Ok []
                | Some res => Ok (res ++ [predicate_marks])
                end).

(** ** SubspaceDivide *)

Record LoopWalk := mkLoopWalk {
  w_loops : list For;            (* the inner loops, innermost first *)
  w_inner_vars : list Var;
  w_outer_vars : list Var;
  w_loop_var_domain : gmap nat Range }.

(** The walk from the parent of the block up through the enclosing loops. *)
Fixpoint walk_loops (loop_sref : StmtSRef) (loop_sref_as_outer : bool)
    (sref : StmtSRef) (inner : bool) (w : LoopWalk) : LoopWalk :=
  match sref with
  | mkSRef _ (SFor loop) parent =>
      let w1 :=
        if inner then
          mkLoopWalk (w_loops w ++ [loop]) (w_inner_vars w ++ [For.loop_var loop])
                     (w_outer_vars w) (w_loop_var_domain w)
        else
          mkLoopWalk (w_loops w) (w_inner_vars w)
                     (w_outer_vars w ++ [For.loop_var loop]) (w_loop_var_domain w) in
      let w2 :=
        mkLoopWalk (w_loops w1) (w_inner_vars w1) (w_outer_vars w1)
          (<[vid (For.loop_var loop) := FromMinExtent (For.min loop) (For.extent loop)]>
             (w_loop_var_domain w1)) in
      let inner' :=
        if (loop_sref_as_outer && sref_same parent loop_sref)
           || Nat.eqb (sref_id sref) (sref_id loop_sref)
        then false else inner in
      match parent with
      | Some p => walk_loops loop_sref loop_sref_as_outer p inner' w2
      | None => w2
      end
  | _ => w
  end.

Definition collect_loops (block_sref loop_sref : StmtSRef) (loop_sref_as_outer : bool)
    (loops : list For) : LoopWalk :=
  match sref_parent block_sref with
  | Some p => walk_loops loop_sref loop_sref_as_outer p true (mkLoopWalk loops [] [] ∅)
  | None => mkLoopWalk loops [] [] ∅
  end.

(** Returns the extended [loops] list and the division. *)
Definition SubspaceDivide (realize : BlockRealize) (block_sref loop_sref : StmtSRef)
    (loops : list For) (analyzer : Analyzer) (preserve_unit_iters : bool)
    (loop_sref_as_outer : bool) : Result (list For * list (list IterMark)) :=
  let w := collect_loops block_sref loop_sref loop_sref_as_outer loops in
  let result :=
    arith_SubspaceDivide (BlockRealize.iter_values realize) (w_loop_var_domain w)
      (w_inner_vars w) (BlockRealize.predicate realize) analyzer
      (negb preserve_unit_iters) in
  if negb (arr_empty result) then Ok (w_loops w, result)
  else
    res_bind
      (TrivialSubspaceDivision (Block.iter_vars (BlockRealize.block realize))
         (BlockRealize.iter_values realize) (BlockRealize.predicate realize)
         (w_outer_vars w) (w_inner_vars w))
      (fun d => Ok (w_loops w, d)).

(** ** DeriveBlockBinding *)

Record Bindings := mkBindings {
  outer_iter_vars : list IterVar;
  outer_bindings : list PrimExpr;
  inner_iter_vars : list IterVar;
  inner_bindings : list PrimExpr;
  block_var_subst : gmap nat PrimExpr }.

(** [Downcast<IterMapExpr>(mark->source)] *)
Definition Downcast_IterMapExpr {St} (m : IterMark) : M St IterMapExpr :=
  match mark_source m with
  | SrcIterMap e => ret e
  | SrcPrim _ => throw (InternalError "Downcast to IterMapExpr failed")
  end.

(** One iteration of the loop of [DeriveBlockBinding], at index [i].  The
    constructor of IterVar is defined outside blockize_tensorize.cc and the
    spec gives IterVar no invariant: an IterVar is built as the plain
    record, so the results below on this function are about the runs that
    succeed. *)
Definition derive_binding_step (division : list (list IterMark))
    (preserve_unit_iters reuse_outer : bool)
    (i : nat) (iter_var : IterVar) (b : Bindings) : M nat Bindings :=
  (let ana : Analyzer := [] in
   let* di := lift_result (at_index division i) in
   let* outer_mark := lift_result (at_index di 0) in
   let* inner_mark := lift_result (at_index di 1) in
   let* outer_binding := Downcast_IterMapExpr outer_mark in
   let* inner_binding := Downcast_IterMapExpr inner_mark in
   let* (outer_iter, b1) :=
     if reuse_outer && Nat.ltb i (length (outer_iter_vars b)) then
       let* outer_iter := lift_result (at_index (outer_iter_vars b) i) in
       ICHECK (CanProveEqual ana (r_extent (dom outer_iter)) (mark_extent outer_mark))
         "outer extent" ;;
       let* ob := lift_result (at_index (outer_bindings b) i) in
       ICHECK (CanProveEqual ana ob (NormalizeIterMapToExpr outer_binding))
         "outer binding" ;;
       ret (outer_iter, b)
     else
       let* v := copy_with_suffix (var iter_var) "_o" in
       let outer_iter :=
         mkIterVar (RangeFromExtent (mark_extent outer_mark)) v (iter_type iter_var) in
       ret (outer_iter,
            mkBindings (outer_iter_vars b ++ [outer_iter])
              (outer_bindings b ++ [NormalizeIterMapToExpr outer_binding])
              (inner_iter_vars b) (inner_bindings b) (block_var_subst b)) in
   let* (sub, b2) :=
     if is_one (mark_extent inner_mark) then
       if is_one (mark_extent outer_mark) && negb preserve_unit_iters then
         ret (make_zero (dtype (mark_extent outer_mark)), b1)
       else
         ret (EVar (var outer_iter), b1)
     else
       let* v := copy_with_suffix (var iter_var) "_i" in
       let inner_iter :=
         mkIterVar (RangeFromExtent (mark_extent inner_mark)) v (iter_type iter_var) in
       let b2 :=
         mkBindings (outer_iter_vars b1) (outer_bindings b1)
           (inner_iter_vars b1 ++ [inner_iter])
           (inner_bindings b1 ++ [NormalizeIterMapToExpr inner_binding])
           (block_var_subst b1) in
       if is_one (mark_extent outer_mark) then
         ret (EVar (var inner_iter), b2)
       else
         ret (add (mul (EVar (var outer_iter)) (mark_extent inner_mark))
                  (EVar (var inner_iter)), b2) in
   ret (mkBindings (outer_iter_vars b2) (outer_bindings b2)
          (inner_iter_vars b2) (inner_bindings b2)
          (<[vid (var iter_var) := sub]> (block_var_subst b2))))%monad.

Fixpoint derive_binding_loop (division : list (list IterMark))
    (preserve_unit_iters reuse_outer : bool)
    (i : nat) (iter_vars : list IterVar) (b : Bindings) : M nat Bindings :=
  match iter_vars with
  | [] => ret b
  | iter_var :: rest =>
      (let* b' := derive_binding_step division preserve_unit_iters reuse_outer
                    i iter_var b in
       derive_binding_loop division preserve_unit_iters reuse_outer (S i) rest b')%monad
  end.

(** The four out-lists are passed in [b] (with an empty map) and returned
    extended; the substitution plan is the map of the result. *)
Definition DeriveBlockBinding (iter_vars : list IterVar)
    (division : list (list IterMark)) (b : Bindings)
    (preserve_unit_iters reuse_outer : bool) : M nat Bindings :=
  (ICHECK (Nat.eqb (length iter_vars + 1) (length division)) "iter_vars.size() + 1 == division.size()" ;;
   derive_binding_loop division preserve_unit_iters reuse_outer 0%nat iter_vars
     (mkBindings (outer_iter_vars b) (outer_bindings b)
        (inner_iter_vars b) (inner_bindings b) ∅))%monad.

(** ** GenerateInner *)

Definition GenerateInner (is_write_reduction : bool) (iter_vars : list IterVar)
    (iter_values : list PrimExpr) (predicate : PrimExpr) (block : Block)
    : M nat BlockRealize :=
  (let* n := fresh in
   let reads :=
     if is_write_reduction then Block.writes block ++ Block.reads block
     else Block.reads block in
   lift_result
     (BlockRealize_new iter_values predicate
        (Block.mk n iter_vars reads (Block.writes block) (Block.name_hint block)
           (Block.body block) None (Block.alloc_buffers block)
           (Block.match_buffers block) (Block.annotations block))))%monad.

(** ** GenerateOuterInit *)

Record InitIters := mkInitIters {
  init_subst_map : gmap nat Var;
  init_iter_vars : list IterVar;
  init_iter_values : list PrimExpr }.

(** Step 1: the iterators of the init block. *)
Fixpoint init_iters_loop (block_init : Stmt)
    (iters : list (IterVar * PrimExpr)) (acc : InitIters) : M nat InitIters :=
  match iters with
  | [] => ret acc
  | (old_iter_var, iter_value) :: rest =>
      if bool_decide (iter_type old_iter_var = kDataPar)
         && UsesVar_stmt block_init (var old_iter_var) then
        (let* v := copy_with_suffix (var old_iter_var) "_init" in
         let new_iter_var := mkIterVar (dom old_iter_var) v (iter_type old_iter_var) in
         init_iters_loop block_init rest
           (mkInitIters (<[vid (var old_iter_var) := v]> (init_subst_map acc))
              (init_iter_vars acc ++ [new_iter_var])
              (init_iter_values acc ++ [iter_value])))%monad
      else init_iters_loop block_init rest acc
  end.

(** Step 3: the loop nest on top of the init block. *)
Fixpoint init_loops_loop (iter_values : list PrimExpr) (loops : list For)
    (stmt : Stmt) (subst_map : gmap nat Var) : M nat (Stmt * gmap nat Var) :=
  match loops with
  | [] => ret (stmt, subst_map)
  | loop :: rest =>
      let is_init_loop :=
        existsb (fun init_binding => UsesVar_expr init_binding (For.loop_var loop))
          iter_values in
      if is_init_loop then
        (let* n := fresh in
         let* v := copy_with_suffix (For.loop_var loop) "" in
         let new_loop :=
           For.mk n v (For.min loop) (For.extent loop) (For.kind loop) stmt
             (For.thread_binding loop) (For.annotations loop) in
         init_loops_loop iter_values rest (SFor new_loop)
           (<[vid (For.loop_var loop) := v]> subst_map))%monad
      else init_loops_loop iter_values rest stmt subst_map
  end.

Definition GenerateOuterInit (block_init : Stmt) (inner_realize : BlockRealize)
    (loops : list For) (block_name : string) : M nat Stmt :=
  (let inner_block := BlockRealize.block inner_realize in
   ICHECK (Nat.eqb (length (Block.iter_vars inner_block))
                   (length (BlockRealize.iter_values inner_realize)))
     "inner_block->iter_vars.size() == inner_realize->iter_values.size()" ;;
   let* it := init_iters_loop block_init
                (zip (Block.iter_vars inner_block) (BlockRealize.iter_values inner_realize))
                (mkInitIters ∅ [] []) in
   let* n := fresh in
   let* init_realize :=
     lift_result
       (BlockRealize_new (init_iter_values it) (BlockRealize.predicate inner_realize)
          (Block.mk n (init_iter_vars it) [] (Block.writes inner_block) block_name
             block_init None [] [] [])) in
   let stmt := SBlockRealize init_realize in
   let* (stmt, subst_map) :=
     init_loops_loop (init_iter_values it) loops stmt (init_subst_map it) in
   ret (Substitute_stmt_vars stmt subst_map))%monad.

(** ** Substitute (with simplification and block tracking)

    The [Replacer] overrides the visit of expressions, of variables and of
    blocks; every other node is rebuilt by the mutator only when one of its
    children changed, which the boolean of the result records. *)

Definition same_as_var (e : PrimExpr) (v : Var) : bool :=
  match e with EVar v' => Nat.eqb (vid v') (vid v) | _ => false end.

Fixpoint Replacer_VisitExpr (sub : gmap nat PrimExpr) (ana : Analyzer)
    (op : PrimExpr) : PrimExpr * bool :=
  let '(result, changed) :=
    match op with
    | EVar v =>
        match sub !! vid v with
        | Some e => (e, negb (same_as_var e v))
        | None => (op, false)
        end
    | IntImm _ _ => (op, false)
    | Cast dt a =>
        let '(a', c) := Replacer_VisitExpr sub ana a in
        if c then (Cast dt a', true) else (op, false)
    | BinOp o a b =>
        let '(a', ca) := Replacer_VisitExpr sub ana a in
        let '(b', cb) := Replacer_VisitExpr sub ana b in
        if ca || cb then (BinOp o a' b', true) else (op, false)
    end in
  if changed then (Simplify ana result, true) else (result, false).

Definition Replacer_exprs (sub : gmap nat PrimExpr) (ana : Analyzer)
    (l : list PrimExpr) : list PrimExpr * bool :=
  let r := map (Replacer_VisitExpr sub ana) l in
  (map fst r, existsb snd r).

Definition Replacer_range (sub : gmap nat PrimExpr) (ana : Analyzer)
    (r : Range) : Range * bool :=
  let '(mn, c1) := Replacer_VisitExpr sub ana (r_min r) in
  let '(ex, c2) := Replacer_VisitExpr sub ana (r_extent r) in
  (mkRange mn ex, c1 || c2).

Definition Replacer_regions (sub : gmap nat PrimExpr) (ana : Analyzer)
    (l : list BufferRegion) : list BufferRegion * bool :=
  let r := map (fun br =>
                  let rs := map (Replacer_range sub ana) (region br) in
                  (mkBufferRegion (buffer br) (map fst rs), existsb snd rs)) l in
  (map fst r, existsb snd r).

Definition Replacer_iter_vars (sub : gmap nat PrimExpr) (ana : Analyzer)
    (l : list IterVar) : list IterVar * bool :=
  let r := map (fun iv =>
                  let '(d, c) := Replacer_range sub ana (dom iv) in
                  (mkIterVar d (var iv) (iter_type iv), c)) l in
  (map fst r, existsb snd r).

Definition Replacer_match_buffers (sub : gmap nat PrimExpr) (ana : Analyzer)
    (l : list MatchBufferRegion) : list MatchBufferRegion * bool :=
  let r := map (fun m =>
                  let rs := map (Replacer_range sub ana) (region (mb_source m)) in
                  (mkMatchBufferRegion (mb_buffer m)
                     (mkBufferRegion (buffer (mb_source m)) (map fst rs)),
                   existsb snd rs)) l in
  (map fst r, existsb snd r).

Definition new_node : M Frame nat := with_fresh fresh.

Fixpoint Replacer_VisitStmt (sub : gmap nat PrimExpr) (s : Stmt) {struct s}
    : M Frame (Stmt * bool) :=
  let visit_block (src : Block) : M Frame (Block * bool) :=
    (let* f := get in
     let ana := analyzer f in
     let '(ivs, c1) := Replacer_iter_vars sub ana (Block.iter_vars src) in
     let '(rds, c2) := Replacer_regions sub ana (Block.reads src) in
     let '(wrs, c3) := Replacer_regions sub ana (Block.writes src) in
     let '(mbs, c4) := Replacer_match_buffers sub ana (Block.match_buffers src) in
     let* (ini, c5) :=
       match Block.init src with
       | Some i => let* (i', c) := Replacer_VisitStmt sub i in ret (Some i', c)
       | None => ret (None, false)
       end in
     let* (bdy, c6) := Replacer_VisitStmt sub (Block.body src) in
     if c1 || c2 || c3 || c4 || c5 || c6 then
       let* n := new_node in
       let tgt :=
         Block.mk n ivs rds wrs (Block.name_hint src) bdy ini
           (Block.alloc_buffers src) mbs (Block.annotations src) in
       reuse_Set src tgt ;;
       ret (tgt, true)
     else ret (src, false))%monad in
  (match s with
   | SFor l =>
       let* f := get in
       let '(mn, c1) := Replacer_VisitExpr sub (analyzer f) (For.min l) in
       let '(ex, c2) := Replacer_VisitExpr sub (analyzer f) (For.extent l) in
       let* (bdy, c3) := Replacer_VisitStmt sub (For.body l) in
       if c1 || c2 || c3 then
         let* n := new_node in
         ret (SFor (For.mk n (For.loop_var l) mn ex (For.kind l) bdy
                      (For.thread_binding l) (For.annotations l)), true)
       else ret (s, false)
   | SSeqStmt seq =>
       let* (seq', c) :=
         (fix go (l : list Stmt) : M Frame (list Stmt * bool) :=
            match l with
            | [] => ret ([], false)
            | x :: l' =>
                let* (x', c1) := Replacer_VisitStmt sub x in
                let* (l'', c2) := go l' in
                ret (x' :: l'', c1 || c2)
            end) seq in
       if c then ret (SSeqStmt seq', true) else ret (s, false)
   | SIfThenElse cnd t e =>
       let* f := get in
       let '(cnd', c1) := Replacer_VisitExpr sub (analyzer f) cnd in
       let* (t', c2) := Replacer_VisitStmt sub t in
       let* (e', c3) :=
         match e with
         | Some e0 => let* (e1, c) := Replacer_VisitStmt sub e0 in ret (Some e1, c)
         | None => ret (None, false)
         end in
       if c1 || c2 || c3 then ret (SIfThenElse cnd' t' e', true) else ret (s, false)
   | SBlockRealize r =>
       let* f := get in
       let '(vals, c1) := Replacer_exprs sub (analyzer f) (BlockRealize.iter_values r) in
       let '(prd, c2) := Replacer_VisitExpr sub (analyzer f) (BlockRealize.predicate r) in
       let* (blk, c3) := visit_block (BlockRealize.block r) in
       if c1 || c2 || c3 then ret (SBlockRealize (BlockRealize.mk vals prd blk), true)
       else ret (s, false)
   | SBlock b =>
       let* (blk, c) := visit_block b in
       ret (SBlock blk, c)
   | SBufferStore bf v idx =>
       let* f := get in
       let '(v', c1) := Replacer_VisitExpr sub (analyzer f) v in
       let '(idx', c2) := Replacer_exprs sub (analyzer f) idx in
       if c1 || c2 then ret (SBufferStore bf v' idx', true) else ret (s, false)
   | SEvaluate v =>
       let* f := get in
       let '(v', c) := Replacer_VisitExpr sub (analyzer f) v in
       if c then ret (SEvaluate v', true) else ret (s, false)
   end)%monad.

(** [Downcast<Block>(Substitute(block, sub, block_sref_reuse, analyzer))] *)
Definition Substitute_block (block : Block) (sub : gmap nat PrimExpr)
    : M Frame (Block * bool) :=
  (let* (r, c) := Replacer_VisitStmt sub (SBlock block) in
   match r with
   | SBlock b => ret (b, c)
   | _ => throw (InternalError "Downcast to Block failed")
   end)%monad.

(** ** EvalSetRegions *)

Definition EvalSetRegions {St} (regions : list BufferRegion)
    (dom_map : gmap nat IntSet) : M St (list BufferRegion) :=
  (fix go (l : list BufferRegion) : M St (list BufferRegion) :=
     match l with
     | [] => ret []
     | buffer_region :: rest =>
         (let buffer := buffer buffer_region in
          let relaxed := EvalSet (region buffer_region) dom_map in
          ICHECK (Nat.eqb (length relaxed) (length (shape buffer)))
            "relaxed.size() == buffer->shape.size()" ;;
          let new_region :=
            zip_with (fun r s => CoverRange r (RangeFromExtent s)) relaxed (shape buffer) in
          let* results := go rest in
          ret (mkBufferRegion buffer new_region :: results))%monad
     end) regions.

(** ** UnionRegions *)

Record UnionAcc := mkUnionAcc {
  intset_map : gmap nat (list (list IntSet));
  buffer_order : list Buffer }.

(** Append [region[dim]] to the sets of dimension [dim], for every dimension
    of the buffer. *)
Fixpoint union_add_dims (region : list Range) (dim : nat)
    (sets : list (list IntSet)) : Result (list (list IntSet)) :=
  match sets with
  | [] => Ok []
  | d :: rest =>
      res_bind (at_index region dim) (fun r =>
      res_bind (union_add_dims region (S dim) rest) (fun rest' =>
      Ok ((d ++ [IntSet_FromRange r]) :: rest')))
  end.

Fixpoint union_collect (regions : list BufferRegion) (acc : UnionAcc)
    : Result UnionAcc :=
  match regions with
  | [] => Ok acc
  | buffer_region :: rest =>
      let buffer := buffer buffer_region in
      let acc1 :=
        match intset_map acc !! buf_id buffer with
        | None =>
            mkUnionAcc
              (<[buf_id buffer := replicate (length (shape buffer)) []]> (intset_map acc))
              (buffer_order acc ++ [buffer])
        | Some _ => acc
        end in
      res_bind
        (union_add_dims (region buffer_region) 0%nat
           (default [] (intset_map acc1 !! buf_id buffer)))
        (fun sets =>
           union_collect rest
             (mkUnionAcc (<[buf_id buffer := sets]> (intset_map acc1)) (buffer_order acc1)))
  end.

Definition UnionRegions (regions : list BufferRegion) : Result (list BufferRegion) :=
  let analyzer : Analyzer := [] in
  res_bind (union_collect regions (mkUnionAcc ∅ [])) (fun acc =>
  Ok (map (fun buffer =>
             let sets := default [] (intset_map acc !! buf_id buffer) in
             mkBufferRegion buffer
               (map (fun s =>
                       let intset := IntSet_Union s in
                       Range_begin_end
                         (Simplify analyzer (is_min intset))
                         (Simplify analyzer
                            (add (is_max intset) (make_const (dtype (is_max intset)) 1))))
                    sets))
          (buffer_order acc))).

(** ** MakeLoopNest *)

Fixpoint MakeLoopNest (stmt : Stmt) (loops : list For) : M nat Stmt :=
  match loops with
  | [] => ret stmt
  | loop :: rest =>
      (let* n := fresh in
       MakeLoopNest
         (SFor (For.mk n (For.loop_var loop) (For.min loop) (For.extent loop)
                  (For.kind loop) stmt (For.thread_binding loop) (For.annotations loop)))
         rest)%monad
  end.

(** ** BlockizeImpl *)

(** [stmt2ref.at(node)] *)
Definition stmt2ref_at {St} (self : ScheduleState) (node : nat) : M St StmtSRef :=
  match stmt2ref self !! node with
  | Some r => ret r
  | None => throw (IndexError "stmt2ref.at")
  end.

(** [v.back()] *)
Definition back {St A} (l : list A) : M St A :=
  match last l with
  | Some x => ret x
  | None => throw (IndexError "back() of an empty array")
  end.

Definition has_reduction (iter_vars : list IterVar) : bool :=
  existsb (fun iter_var => bool_decide (iter_type iter_var = kCommReduce)) iter_vars.

Definition BlockizeImpl (self : ScheduleState) (loop_sref : StmtSRef)
    (preserve_unit_iters : bool) : M Frame BlockRealize :=
  (match sref_stmt loop_sref with
   | SFor _ => ret tt
   | _ => throw (InternalError "TypeError: Expects StmtSRef `loop_sref` points to `Loop`")
   end ;;
   (* Step 1: Check and get the only block under `loop`. *)
   let* block_realize :=
     lift_result (CheckGetSingleChildBlockRealizeOnSRefTree self loop_sref) in
   let block := BlockRealize.block block_realize in
   let* block_sref := stmt2ref_at self (Block.node block) in
   (* Step 2: Derive subspace division *)
   let* f := get in
   let* (loops, division) :=
     lift_result (SubspaceDivide block_realize block_sref loop_sref [] (analyzer f)
                    preserve_unit_iters false) in
   (if arr_empty division then
      let* top := back loops in
      throw (ScheduleError (SubspaceNotDivisibleError.mk (st_mod self) top block))
    else ret tt) ;;
   let* last_division := back division in
   let* outer_predicate_mark := lift_result (at_index last_division 0) in
   let* inner_predicate_mark := lift_result (at_index last_division 1) in
   let outer_predicate := mark_extent outer_predicate_mark in
   let inner_predicate := mark_extent inner_predicate_mark in
   (* Step 3. Derive block bindings for both outer and inner block. *)
   let* b :=
     with_fresh (DeriveBlockBinding (Block.iter_vars block) division
                   (mkBindings [] [] [] [] ∅) preserve_unit_iters false) in
   let block_var_subst := block_var_subst b in
   (* Step 4: Do var substitution to adjust to the new block bindings *)
   let inner_iter_dom : gmap nat IntSet :=
     foldl (fun m iter => <[vid (var iter) := IntSet_FromRange (dom iter)]> m) ∅
       (inner_iter_vars b) in
   (fix bind_all (l : list IterVar) : M Frame unit :=
      match l with
      | [] => ret tt
      | iter :: rest => analyzer_Bind (var iter) (dom iter) ;; bind_all rest
      end) (inner_iter_vars b) ;;
   let* (block_subst, _) := Substitute_block block block_var_subst in
   (* Step 5: Generate the inner block. *)
   let has_outer_reduction :=
     match Block.init block_subst with
     | Some _ => has_reduction (outer_iter_vars b)
     | None => false
     end in
   let* inner_realize :=
     with_fresh (GenerateInner has_outer_reduction (inner_iter_vars b) (inner_bindings b)
                   inner_predicate block_subst) in
   reuse_Set block (BlockRealize.block inner_realize) ;;
   (* Step 6: Generate the outer block. *)
   let* reads := EvalSetRegions (Block.reads block_subst) inner_iter_dom in
   let* writes := EvalSetRegions (Block.writes block_subst) inner_iter_dom in
   let* body := with_fresh (MakeLoopNest (SBlockRealize inner_realize) loops) in
   let* init :=
     match Block.init block_subst with
     | Some i =>
         let* s := with_fresh (GenerateOuterInit i inner_realize loops
                                 (Block.name_hint block_subst +:+ "_init")) in
         ret (Some s)
     | None => ret None
     end in
   let* n := new_node in
   lift_result
     (BlockRealize_new (outer_bindings b) outer_predicate
        (Block.mk n (outer_iter_vars b) reads writes
           (Block.name_hint block_subst +:+ "_o") body init [] [] [])))%monad.

(** ** Blockize, single-loop form *)

Definition set_affine_binding (self : ScheduleState) (sref : StmtSRef) (v : bool)
    : ScheduleState :=
  let info := default BlockInfo_default (block_info self !! sref_id sref) in
  mkState (st_mod self) (stmt2ref self)
    (<[sref_id sref :=
         mkBlockInfo (scope info) v (region_cover info) (stage_pipeline info)]>
       (block_info self)).

Definition Blockize (self : ScheduleState) (loop_sref : StmtSRef)
    (preserve_unit_iters : bool) : M nat (ScheduleState * StmtSRef) :=
  fun n0 =>
  match BlockizeImpl self loop_sref preserve_unit_iters (mkFrame n0 ∅ []) with
  | Err e => Err e
  | Ok (blockized, f) =>
      (let self1 := Replace self loop_sref (SBlockRealize blockized) (block_sref_reuse f) in
       let* result := stmt2ref_at self1 (Block.node (BlockRealize.block blockized)) in
       let* scope_root := lift_result (GetScopeRoot self1 result) in
       let scope_block_affine_binding := IsAffineBlockBinding self1 scope_root in
       let* root_realize := lift_result (GetBlockRealize self1 scope_root) in
       let self2 := UpdateScopeBlockInfo self1 (SBlockRealize root_realize) in
       let self3 := set_affine_binding self2 scope_root scope_block_affine_binding in
       ret (self3, result))%monad (next_id f)
  end.

End Primitives.

(** ** Blockize, group form: the collector of the enclosing loops *)

Definition is_lca_loop (lca : StmtSRef) (loop : For) : bool :=
  match sref_stmt lca with
  | SFor l => Nat.eqb (For.node l) (For.node loop)
  | _ => false
  end.

Definition is_lca_block (lca : StmtSRef) (block : Block) : bool :=
  match sref_stmt lca with
  | SBlock b => Nat.eqb (Block.node b) (Block.node block)
  | _ => false
  end.

(** [a.pop_back()] *)
Definition arr_pop_back {St T} (a : Array T) : M St (Array T) :=
  match a with
  | Some ((_ :: _) as l) => ret (Some (removelast l))
  | _ => throw (InternalError "cannot pop_back an empty array")
  end.

Module CollectSubstInfo.
Section Collector.
Context `{Arith, TirLib, Schedule}.

Record t := mk {
  outer_iter_vars_ : Array IterVar;
  outer_bindings_ : Array PrimExpr;
  block_var_subst_ : gmap nat PrimExpr;
  outer_extent : list PrimExpr;
  in_lca : bool;
  num_outer_iter_vars : Z;
  num_travered : Z;
  next : nat }.

Definition set_lists (oiv : Array IterVar) (ob : Array PrimExpr)
    (sub : gmap nat PrimExpr) (oe : list PrimExpr) (c : t) : t :=
  mk oiv ob sub oe (in_lca c) (num_outer_iter_vars c) (num_travered c) (next c).
Definition set_in_lca (v : bool) (c : t) : t :=
  mk (outer_iter_vars_ c) (outer_bindings_ c) (block_var_subst_ c) (outer_extent c)
     v (num_outer_iter_vars c) (num_travered c) (next c).
Definition set_counts (n_iter n_trav : Z) (c : t) : t :=
  mk (outer_iter_vars_ c) (outer_bindings_ c) (block_var_subst_ c) (outer_extent c)
     (in_lca c) n_iter n_trav (next c).

Definition fresh_id : M t nat :=
  zoom next (fun n c => mk (outer_iter_vars_ c) (outer_bindings_ c) (block_var_subst_ c)
                          (outer_extent c) (in_lca c) (num_outer_iter_vars c)
                          (num_travered c) n) fresh.

(** The loop over the iterators of a block met inside the common ancestor. *)
Fixpoint collect_iter_vars (iter_vars : list IterVar) (i : nat) : M t unit :=
  match iter_vars with
  | [] => ret tt
  | iter_var :: rest =>
      (let* c := get in
       (if Nat.ltb i (length (outer_extent c)) then
          let ana : Analyzer := [] in
          let* oe := lift_result (at_index (outer_extent c) i) in
          ICHECK (CanProveEqual ana oe (r_extent (dom iter_var))) "outer extent" ;;
          let* ob := lift_result (at_index (arr_list (outer_bindings_ c)) i) in
          let* outer_bind :=
            match ob with
            | EVar v => ret v
            | _ => throw (InternalError "Downcast to Var failed")
            end in
          let* n := fresh_id in
          let outer_iter :=
            mkIterVar (dom iter_var)
              (mkVar n ("v" +:+ name_hint outer_bind) (vdtype (var iter_var)))
              (iter_type iter_var) in
          if Z.eqb (num_outer_iter_vars c) 0 then
            modify (fun c =>
              set_lists (arr_push_back (outer_iter_vars_ c) outer_iter)
                (outer_bindings_ c)
                (<[vid (var iter_var) := EVar (var outer_iter)]> (block_var_subst_ c))
                (outer_extent c) c)
          else ret tt
        else ret tt) ;;
       collect_iter_vars rest (S i))%monad
  end.

Fixpoint VisitStmt (lca : StmtSRef) (s : Stmt) {struct s} : M t unit :=
  let visit_block (block : Block) : M t unit :=
    (if is_lca_block lca block && String.eqb (Block.name_hint block) "root" then
       (* nothing needs to be substituted: every output stays undefined *)
       ret tt
     else
       let* c := get in
       if in_lca c && negb (arr_empty (Block.iter_vars block)) then
         collect_iter_vars (Block.iter_vars block) 0%nat ;;
         modify (fun c => set_counts (num_outer_iter_vars c + 1) (num_travered c) c)
       else
         match Block.init block with
         | Some i => VisitStmt lca i
         | None => ret tt
         end ;;
         VisitStmt lca (Block.body block))%monad in
  (match s with
   | SFor loop =>
       let* c := get in
       if negb (in_lca c) then
         (if is_lca_loop lca loop then modify (set_in_lca true) else ret tt) ;;
         modify (fun c =>
           set_lists (outer_iter_vars_ c)
             (arr_push_back (outer_bindings_ c) (EVar (For.loop_var loop)))
             (block_var_subst_ c) (outer_extent c ++ [For.extent loop]) c) ;;
         (* traverse lca *)
         modify (fun c => set_counts (num_outer_iter_vars c) (num_travered c + 1) c) ;;
         VisitStmt lca (For.body loop) ;;
         modify (fun c => set_counts (num_outer_iter_vars c) (num_travered c - 1) c) ;;
         let* c := get in
         (if negb (in_lca c) then
            let* ob := arr_pop_back (outer_bindings_ c) in
            modify (set_lists (outer_iter_vars_ c) ob (block_var_subst_ c)
                      (removelast (outer_extent c)))
          else ret tt) ;;
         let* c := get in
         if Z.eqb (num_travered c) 0 then modify (set_in_lca false) else ret tt
       else VisitStmt lca (For.body loop)
   | SSeqStmt seq =>
       (fix go (l : list Stmt) : M t unit :=
          match l with
          | [] => ret tt
          | x :: l' => VisitStmt lca x ;; go l'
          end) seq
   | SIfThenElse _ t e =>
       VisitStmt lca t ;;
       match e with
       | Some e' => VisitStmt lca e'
       | None => ret tt
       end
   | SBlockRealize r => visit_block (BlockRealize.block r)
   | SBlock b => visit_block b
   | SBufferStore _ _ _ => ret tt
   | SEvaluate _ => ret tt
   end)%monad.

Definition initial (n : nat) : t := mk None None ∅ [] false 0 0 n.

(** The outputs are the three out-parameters and the identity supply. *)
Definition Collect (self : ScheduleState) (lca block_sref : StmtSRef) (n : nat)
    : Result (t * nat) :=
  res_bind (GetScopeRoot self block_sref) (fun scope_root =>
  match sref_stmt scope_root with
  | SBlock block =>
      match VisitStmt lca (SBlock block) (initial n) with
      | Ok (_, c) => Ok (c, next c)
      | Err e => Err e
      end
  | _ => Err (InternalError "the scope root is not a block")
  end).

End Collector.
End CollectSubstInfo.

(** ** Blockize, group form: the rewriter *)

Module BlockizeBlocks.
Section Rewriter.
Context `{Arith, TirLib, Schedule}.

Record t := mk {
  blockized_ : option BlockRealize;       (* the out-parameter, null at first *)
  seq_body : list Stmt;
  outer_iter_vars : Array IterVar;
  outer_bindings : Array PrimExpr;
  inner_iter_vars : Array IterVar;
  block_var_subst : gmap nat PrimExpr;
  read_regions : list BufferRegion;
  write_regions : list BufferRegion;
  outer_block_name : string;
  loop_var_subst : gmap nat Var;
  tmp_in_block : option Block;
  inner_iter_dom : gmap nat IntSet;
  _first_in : bool;
  _target_in : bool;
  frame : Frame }.

Definition set_blockized (r : BlockRealize) (oiv : Array IterVar)
    (ob : Array PrimExpr) (s : t) : t :=
  mk (Some r) (seq_body s) oiv ob (inner_iter_vars s) (block_var_subst s)
     (read_regions s) (write_regions s) (outer_block_name s) (loop_var_subst s)
     (tmp_in_block s) (inner_iter_dom s) (_first_in s) (_target_in s) (frame s).
Definition set_outer (oiv : Array IterVar) (ob : Array PrimExpr) (s : t) : t :=
  mk (blockized_ s) (seq_body s) oiv ob (inner_iter_vars s) (block_var_subst s)
     (read_regions s) (write_regions s) (outer_block_name s) (loop_var_subst s)
     (tmp_in_block s) (inner_iter_dom s) (_first_in s) (_target_in s) (frame s).
Definition set_seq_body (b : list Stmt) (s : t) : t :=
  mk (blockized_ s) b (outer_iter_vars s) (outer_bindings s) (inner_iter_vars s)
     (block_var_subst s) (read_regions s) (write_regions s) (outer_block_name s)
     (loop_var_subst s) (tmp_in_block s) (inner_iter_dom s) (_first_in s)
     (_target_in s) (frame s).
Definition set_inner (iiv : Array IterVar) (sub : gmap nat PrimExpr) (s : t) : t :=
  mk (blockized_ s) (seq_body s) (outer_iter_vars s) (outer_bindings s) iiv sub
     (read_regions s) (write_regions s) (outer_block_name s) (loop_var_subst s)
     (tmp_in_block s) (inner_iter_dom s) (_first_in s) (_target_in s) (frame s).
Definition set_regions (rd wr : list BufferRegion) (name : string)
    (d : gmap nat IntSet) (s : t) : t :=
  mk (blockized_ s) (seq_body s) (outer_iter_vars s) (outer_bindings s)
     (inner_iter_vars s) (block_var_subst s) rd wr name (loop_var_subst s)
     (tmp_in_block s) d (_first_in s) (_target_in s) (frame s).
Definition set_tmp_in_block (b : Block) (s : t) : t :=
  mk (blockized_ s) (seq_body s) (outer_iter_vars s) (outer_bindings s)
     (inner_iter_vars s) (block_var_subst s) (read_regions s) (write_regions s)
     (outer_block_name s) (loop_var_subst s) (Some b) (inner_iter_dom s)
     (_first_in s) (_target_in s) (frame s).
Definition set_first_in (v : bool) (s : t) : t :=
  mk (blockized_ s) (seq_body s) (outer_iter_vars s) (outer_bindings s)
     (inner_iter_vars s) (block_var_subst s) (read_regions s) (write_regions s)
     (outer_block_name s) (loop_var_subst s) (tmp_in_block s) (inner_iter_dom s)
     v (_target_in s) (frame s).
Definition set_target_in (v : bool) (s : t) : t :=
  mk (blockized_ s) (seq_body s) (outer_iter_vars s) (outer_bindings s)
     (inner_iter_vars s) (block_var_subst s) (read_regions s) (write_regions s)
     (outer_block_name s) (loop_var_subst s) (tmp_in_block s) (inner_iter_dom s)
     (_first_in s) v (frame s).
Definition set_frame (f : Frame) (s : t) : t :=
  mk (blockized_ s) (seq_body s) (outer_iter_vars s) (outer_bindings s)
     (inner_iter_vars s) (block_var_subst s) (read_regions s) (write_regions s)
     (outer_block_name s) (loop_var_subst s) (tmp_in_block s) (inner_iter_dom s)
     (_first_in s) (_target_in s) f.

Definition in_frame {A} (m : M Frame A) : M t A := zoom frame set_frame m.
Definition fresh_id : M t nat := in_frame new_node.
Definition fresh_var {A} (m : M nat A) : M t A := in_frame (with_fresh m).

(** The outer BlockRealize of the group: built at both places where a run
    of target blocks ends. *)
Definition make_blockized : M t BlockRealize :=
  (let* s := get in
   (if negb (arr_defined (outer_iter_vars s)) then
      let ob := arr_clear (outer_bindings s) in
      (* new_var is automatically eliminated for "with T.block("root"):" *)
      let* i := fresh_id in
      let new_var := mkVar i "init" (DInt 32) in
      let* v := fresh_var (copy_with_suffix new_var "_o") in
      let outer_iter := mkIterVar (RangeFromExtent (IntImm (DInt 32) 1)) v kDataPar in
      modify (set_outer (arr_push_back (outer_iter_vars s) outer_iter)
                (arr_push_back ob (make_zero (vdtype new_var))))
    else ret tt) ;;
   let* s := get in
   let* reads := lift_result (UnionRegions (read_regions s)) in
   let* writes := lift_result (UnionRegions (write_regions s)) in
   let* n := fresh_id in
   let* r :=
     lift_result
       (BlockRealize_new (arr_list (outer_bindings s)) (make_const DBool 1)
          (Block.mk n (arr_list (outer_iter_vars s)) reads writes (outer_block_name s)
             (SSeqStmt (seq_body s)) None [] [] [])) in
   (* both arrays are moved into the new node *)
   modify (set_blockized r None None) ;;
   ret r)%monad.

Record SeqLoop := mkSeqLoop {
  idx_start : Z; found_cnt : Z; last_found_idx : Z; cur_idx : Z; new_seq : list Stmt }.

(** What [RewriteSeq] does with element [it] of the sequence once it has
    been visited, giving [stmt]. *)
Definition rewrite_seq_step (is_last : bool) (it stmt : Stmt) (l : SeqLoop)
    : M t SeqLoop :=
  (let* s := get in
   if _target_in s then
     let* idx_start' :=
       (if Z.eqb (idx_start l) (-1) then ret (cur_idx l)
        else
          ICHECK (Z.eqb (last_found_idx l) (cur_idx l - 1))
            "Target blocks must be consecutive!" ;;
          ret (idx_start l)) in
     modify (fun s => set_seq_body (seq_body s ++ [stmt]) s) ;;
     let l1 := mkSeqLoop idx_start' (found_cnt l + 1) (cur_idx l) (cur_idx l) (new_seq l) in
     let* l2 :=
       (if is_last then
          let* r := make_blockized in
          ret (mkSeqLoop (idx_start l1) (found_cnt l1) (last_found_idx l1) (cur_idx l1)
                 (new_seq l1 ++ [SBlockRealize r]))
        else ret l1) in
     ret (mkSeqLoop (idx_start l2) (found_cnt l2) (last_found_idx l2) (cur_idx l2 + 1)
            (new_seq l2))
   else
     let* ns :=
       (if negb (Z.eqb (idx_start l) (-1)) && Z.eqb (last_found_idx l) (cur_idx l - 1) then
          let* r := make_blockized in
          ret (new_seq l ++ [SBlockRealize r])
        else ret (new_seq l)) in
     ret (mkSeqLoop (idx_start l) (found_cnt l) (last_found_idx l) (cur_idx l + 1)
            (ns ++ [it])))%monad.

(** A target block: mint the inner iterators, substitute, collect regions. *)
Fixpoint mint_inner_iters (iter_vars : list IterVar) : M t unit :=
  match iter_vars with
  | [] => ret tt
  | iter_var :: rest =>
      (let* v := fresh_var (copy_with_suffix (var iter_var) "_i") in
       let inner_iter :=
         mkIterVar (RangeFromExtent (r_extent (dom iter_var))) v (iter_type iter_var) in
       modify (fun s =>
         set_inner (arr_push_back (inner_iter_vars s) inner_iter)
           (<[vid (var iter_var) := EVar (var inner_iter)]> (block_var_subst s)) s) ;;
       mint_inner_iters rest)%monad
  end.

Definition visit_target (block : Block) : M t (Stmt * bool) :=
  (modify (set_target_in true) ;;
   mint_inner_iters (Block.iter_vars block) ;;
   (* substitute block *)
   modify (set_tmp_in_block block) ;;
   let* s := get in
   let* (block_subst, c) := in_frame (Substitute_block block (block_var_subst s)) in
   (* Collect reads/writes info *)
   (if arr_defined (inner_iter_vars s) then
      let d :=
        foldl (fun m iter => <[vid (var iter) := IntSet_FromRange (dom iter)]> m)
          (inner_iter_dom s) (arr_list (inner_iter_vars s)) in
      let* reads := EvalSetRegions (Block.reads block_subst) d in
      let* writes := EvalSetRegions (Block.writes block_subst) d in
      modify (fun s => set_regions (read_regions s ++ reads) (write_regions s ++ writes)
                         (outer_block_name s) d s)
    else
      modify (fun s => set_regions (read_regions s ++ Block.reads block_subst)
                         (write_regions s ++ Block.writes block_subst)
                         (outer_block_name s) (inner_iter_dom s) s)) ;;
   modify (fun s => set_regions (read_regions s) (write_regions s)
                      (outer_block_name s +:+ Block.name_hint block_subst +:+ "_")
                      (inner_iter_dom s) s) ;;
   ret (SBlock block_subst, c))%monad.

Definition is_target (blocks : list StmtSRef) (block : Block) : bool :=
  existsb (fun block_sref =>
             match sref_stmt block_sref with
             | SBlock b => Nat.eqb (Block.node b) (Block.node block)
             | _ => false
             end) blocks.

(** The wrapping of a visited target block into the inner BlockRealize. *)
Definition realize_target (blockrealize : BlockRealize) (stmt : Stmt)
    : M t (Stmt * bool) :=
  match stmt with
  | SBlock block_subst =>
      (let* s := get in
       (* Generate the inner block. No reduction iter vars allowed for the outer loops. *)
       let has_outer_reduction :=
         match Block.init block_subst with
         | Some _ => has_reduction (arr_list (outer_iter_vars s))
         | None => false
         end in
       ICHECK (negb has_outer_reduction)
         "No reduction iter vars allowed for the outer loops when blockize multiple blocks" ;;
       (* loop_var_subst is a defined map in every run *)
       let new_inner_iter_vars :=
         map (fun v => Substitute_expr_vars v (loop_var_subst s))
           (BlockRealize.iter_values blockrealize) in
       let* inner_realize :=
         fresh_var (GenerateInner has_outer_reduction (arr_list (inner_iter_vars s))
                      new_inner_iter_vars (BlockRealize.predicate blockrealize)
                      block_subst) in
       match tmp_in_block s with
       | Some tmp => in_frame (reuse_Set tmp (BlockRealize.block inner_realize))
       | None => throw (InternalError "tmp_in_block is null")
       end ;;
       ret (SBlockRealize inner_realize, true))%monad
  | _ => throw (InternalError "The blocks is null!")
  end.

Definition map_is_empty {V} (m : gmap nat V) : bool :=
  match map_to_list m with [] => true | _ => false end.

(** [RewriteSeq], over the visit of the rewriter. *)
Fixpoint rewrite_seq_loop (visit : Stmt -> M t (Stmt * bool)) (seq_size : nat)
    (items : list Stmt) (i : nat) (l : SeqLoop) : M t SeqLoop :=
  match items with
  | [] => ret l
  | it :: rest =>
      (modify (set_target_in false) ;;
       let* (stmt, _) := visit it in
       let* l' := rewrite_seq_step (Nat.eqb (S i) seq_size) it stmt l in
       rewrite_seq_loop visit seq_size rest (S i) l')%monad
  end.

Definition RewriteSeq (visit : Stmt -> M t (Stmt * bool)) (stmt : Stmt) : M t Stmt :=
  match stmt with
  | SSeqStmt seq =>
      (let seq_size := length seq in
       let* l := rewrite_seq_loop visit seq_size seq 0%nat (mkSeqLoop (-1) 0 (-1) 0 []) in
       match new_seq l with
       | [x] => ret x
       | ns => ret (SSeqStmt ns)
       end)%monad
  | _ => throw (InternalError "Target blocks must not be nested with each other!")
  end.

(** The default visit of a sequence by the mutator. *)
Fixpoint visit_seq (visit : Stmt -> M t (Stmt * bool)) (l : list Stmt)
    : M t (list Stmt * bool) :=
  match l with
  | [] => ret ([], false)
  | x :: l' =>
      (let* (x', c1) := visit x in
       let* (l'', c2) := visit_seq visit l' in
       ret (x' :: l'', c1 || c2))%monad
  end.

(** The visit of a block node. *)
Definition VisitBlock (visit : Stmt -> M t (Stmt * bool)) (blocks : list StmtSRef)
    (lca : StmtSRef) (block : Block) : M t (Stmt * bool) :=
  (if is_lca_block lca block then
     modify (set_first_in true) ;;
     let* body := RewriteSeq visit (Block.body block) in
     let* n := fresh_id in
     ret (SBlock (Block.mk n (Block.iter_vars block) (Block.reads block)
                    (Block.writes block) (Block.name_hint block) body
                    (Block.init block) (Block.alloc_buffers block)
                    (Block.match_buffers block) (Block.annotations block)), true)
   else
     let* s := get in
     if _first_in s && is_target blocks block then visit_target block
     else ret (SBlock block, false))%monad.

Fixpoint VisitStmt (blocks : list StmtSRef) (lca : StmtSRef) (s : Stmt) {struct s}
    : M t (Stmt * bool) :=
  (match s with
   | SFor loop =>
       if is_lca_loop lca loop then
         modify (set_first_in true) ;;
         let* body := RewriteSeq (VisitStmt blocks lca) (For.body loop) in
         let* n := fresh_id in
         ret (SFor (For.mk n (For.loop_var loop) (For.min loop) (For.extent loop)
                      (For.kind loop) body (For.thread_binding loop)
                      (For.annotations loop)), true)
       else
         let* st := get in
         if negb (map_is_empty (loop_var_subst st)) then
           (* substitute outter_var name *)
           let* loop_var :=
             match Substitute_expr_vars (EVar (For.loop_var loop)) (loop_var_subst st) with
             | EVar v => ret v
             | _ => throw (InternalError "Downcast to Var failed")
             end in
           let* (body, _) := VisitStmt blocks lca (For.body loop) in
           let* n := fresh_id in
           ret (SFor (For.mk n loop_var (For.min loop) (For.extent loop)
                        (For.kind loop) body (For.thread_binding loop)
                        (For.annotations loop)), true)
         else
           let* (body, c) := VisitStmt blocks lca (For.body loop) in
           if c then
             let* n := fresh_id in
             ret (SFor (For.mk n (For.loop_var loop) (For.min loop) (For.extent loop)
                          (For.kind loop) body (For.thread_binding loop)
                          (For.annotations loop)), true)
           else ret (s, false)
   | SIfThenElse condition then_case else_case =>
       let* st := get in
       if negb (map_is_empty (loop_var_subst st)) then
         let new_condition := Substitute_expr_vars condition (loop_var_subst st) in
         let* (stmt_then, _) := VisitStmt blocks lca then_case in
         let* else_case' :=
           match else_case with
           | Some e => let* (e', _) := VisitStmt blocks lca e in ret (Some e')
           | None => ret None
           end in
         ret (SIfThenElse new_condition stmt_then else_case', true)
       else
         let* (t', c1) := VisitStmt blocks lca then_case in
         let* (e', c2) :=
           match else_case with
           | Some e => let* (e1, c) := VisitStmt blocks lca e in ret (Some e1, c)
           | None => ret (None, false)
           end in
         if c1 || c2 then ret (SIfThenElse condition t' e', true) else ret (s, false)
   | SBlock block => VisitBlock (VisitStmt blocks lca) blocks lca block
   | SBlockRealize blockrealize =>
       modify (fun s => set_inner (arr_clear (inner_iter_vars s)) (block_var_subst s) s) ;;
       let* (stmt, _) :=
         VisitBlock (VisitStmt blocks lca) blocks lca (BlockRealize.block blockrealize) in
       let* st := get in
       if negb (_target_in st) then ret (s, false)
       else realize_target blockrealize stmt
   | SSeqStmt seq =>
       let* (seq', c) := visit_seq (VisitStmt blocks lca) seq in
       if c then ret (SSeqStmt seq', true) else ret (s, false)
   | SBufferStore _ _ _ => ret (s, false)
   | SEvaluate _ => ret (s, false)
   end)%monad.

(** The pairs of [loop_var_subst], from the outputs of the collector. *)
Fixpoint make_loop_var_subst (n i : nat) (bindings : list PrimExpr)
    (iter_vars : list IterVar) (m : gmap nat Var) : Result (gmap nat Var) :=
  match n with
  | O => Ok m
  | S n' =>
      res_bind (at_index bindings i) (fun ob =>
      res_bind (at_index iter_vars i) (fun oiv =>
      make_loop_var_subst n' (S i) bindings iter_vars
        match ob with
        | EVar v => <[vid v := var oiv]> m
        | _ => m
        end))
  end.

(** [front()] of the list of targets *)
Definition front {A} (l : list A) : Result A :=
  match l with
  | x :: _ => Ok x
  | [] => Err (IndexError "front() of an empty array")
  end.

(** The constructor of the rewriter. *)
Definition create (self : ScheduleState) (block_srefs : list StmtSRef)
    (lca : StmtSRef) (f : Frame) : Result t :=
  res_bind (front block_srefs) (fun first =>
  res_bind (CollectSubstInfo.Collect self lca first (next_id f)) (fun '(c, n) =>
  let oiv := CollectSubstInfo.outer_iter_vars_ c in
  let ob := CollectSubstInfo.outer_bindings_ c in
  res_bind (make_loop_var_subst (arr_size oiv) 0%nat (arr_list ob) (arr_list oiv) ∅)
    (fun lvs =>
  Ok (mk None [] oiv ob None (CollectSubstInfo.block_var_subst_ c) [] [] "outer_"
        lvs None ∅ false false
        (mkFrame n (block_sref_reuse f) []))))).

Definition Rewrite (self : ScheduleState) (block_srefs : list StmtSRef)
    (lca : StmtSRef) (f : Frame) : Result (Stmt * t) :=
  res_bind (create self block_srefs lca f) (fun rewriter =>
  match VisitStmt block_srefs lca (sref_stmt lca) rewriter with
  | Ok ((new_lca, _), rewriter') => Ok (new_lca, rewriter')
  | Err e => Err e
  end).

End Rewriter.
End BlockizeBlocks.

Section Group.
Context `{Arith, TirLib, Schedule}.

(** ** Blockize, group form *)

Definition Blockize_blocks (self : ScheduleState) (blocks : list StmtSRef)
    (preserve_unit_iters : bool) : M nat (ScheduleState * StmtSRef) :=
  fun n0 =>
  res_bind (GetSRefLowestCommonAncestor blocks) (fun lca =>
  res_bind (BlockizeBlocks.Rewrite self blocks lca (mkFrame n0 ∅ [])) (fun '(new_lca, rw) =>
  let reuse := block_sref_reuse (BlockizeBlocks.frame rw) in
  let self1 := Replace self lca new_lca reuse in
  match BlockizeBlocks.blockized_ rw with
  | None => Err (InternalError "blockized is null")
  | Some blockized =>
      (let* result := stmt2ref_at self1 (Block.node (BlockRealize.block blockized)) in
       let* scope_root := lift_result (GetScopeRoot self1 result) in
       let* root_realize := lift_result (GetBlockRealize self1 scope_root) in
       let self2 := UpdateScopeBlockInfo self1 (SBlockRealize root_realize) in
       ret (self2, result))%monad (next_id (BlockizeBlocks.frame rw))
  end)).

End Group.

(** ** Tensorize *)

Section Tensorize.
Context `{Arith, TirLib, Schedule}.

(** [f_update_max_dtype_bits_from_region] *)
Definition f_update_max_dtype_bits_from_region (index_dtype_bits : Z)
    (buffer_regions : list BufferRegion) : Z :=
  foldl (fun acc buffer_region =>
           foldl (fun acc range => Z.max acc (bits (dtype (r_min range))))
             acc (region buffer_region))
    index_dtype_bits buffer_regions.

Definition index_dtype_bits_of (block : Block) : Z :=
  f_update_max_dtype_bits_from_region
    (f_update_max_dtype_bits_from_region (-1) (Block.reads block))
    (Block.writes block).

(** The implementation of the intrinsic as Tensorize uses it: a deep copy,
    rewritten to the index width of the block. *)
Definition normalized_impl {St} (intrin : TensorIntrin) (block : Block) : M St PrimFunc :=
  (let intrin_impl := DeepCopy (impl intrin) in
   let index_dtype_bits := index_dtype_bits_of block in
   ICHECK (Z.ltb 0 index_dtype_bits) "index_dtype_bits > 0" ;;
   ret (IndexDataTypeNormalizer_Rewrite (DInt index_dtype_bits) intrin_impl))%monad.

(** [m[k]] and [m.at(k)] of a map *)
Definition map_at {St V} (m : gmap nat V) (k : nat) (what : string) : M St V :=
  match m !! k with
  | Some v => ret v
  | None => throw (IndexError what)
  end.

(** Step 3.1: impl buffers to desc buffers, by parameter position. *)
Fixpoint make_impl2desc {St} (intrin_desc intrin_impl : PrimFunc) (n i : nat)
    (impl2desc : gmap nat (Buffer * Buffer)) : M St (gmap nat (Buffer * Buffer)) :=
  match n with
  | O => ret impl2desc
  | S n' =>
      (let* dp := lift_result (at_index (params intrin_desc) i) in
       let* ip := lift_result (at_index (params intrin_impl) i) in
       let* desc := map_at (buffer_map intrin_desc) (vid dp) "buffer_map" in
       let* impl := map_at (buffer_map intrin_impl) (vid ip) "buffer_map" in
       make_impl2desc intrin_desc intrin_impl n' (S i)
         (<[buf_id impl := (impl, desc)]> impl2desc))%monad
  end.

(** Step 3.2: impl buffers to the buffers of the current IR. *)
Fixpoint make_impl2cur {St} (comparator : TensorizeComparator)
    (pairs : list (nat * (Buffer * Buffer))) (impl2cur : gmap nat Buffer)
    : M St (gmap nat Buffer) :=
  match pairs with
  | [] => ret impl2cur
  | (k, (impl, desc)) :: rest =>
      (let* cur := match rhs_buffer_map_ comparator !! buf_id desc with
                   | Some c => ret c
                   | None => throw (InternalError "comparator.rhs_buffer_map_.count(desc)")
                   end in
       make_impl2cur comparator rest (<[k := cur]> impl2cur))%monad
  end.

(** Step 3.3: [emplace] keeps the first region recorded for a buffer. *)
Definition emplace_regions (regions : list BufferRegion)
    (impl2region : gmap nat (list Range)) : gmap nat (list Range) :=
  foldl (fun m br =>
           match m !! buf_id (buffer br) with
           | Some _ => m
           | None => <[buf_id (buffer br) := region br]> m
           end) impl2region regions.

(** Step 4, for one parameter: the region of the current buffer that the
    impl buffer is matched against. *)
Fixpoint point_dims (indices_base : list PrimExpr) (n i : nat) (new_region : list Range)
    : Result (list Range) :=
  match n with
  | O => Ok new_region
  | S n' =>
      res_bind (at_index indices_base i) (fun min =>
      let extent := make_const (dtype min) 1 in
      point_dims indices_base n' (S i) (new_region ++ [FromMinExtent min extent]))
  end.

Fixpoint region_dims (indices_base : list PrimExpr) (old_region : list Range)
    (offset : nat) (n i : nat) (new_region : list Range) : Result (list Range) :=
  match n with
  | O => Ok new_region
  | S n' =>
      res_bind (at_index indices_base (i + offset)) (fun min =>
      res_bind (at_index old_region i) (fun r =>
      let extent := cast (dtype min) (r_extent r) in
      region_dims indices_base old_region offset n' (S i)
        (new_region ++ [FromMinExtent min extent])))
  end.

Definition match_region {St} (indices_base : list PrimExpr) (old_region : list Range)
    : M St (list Range) :=
  (let offset := (Z.of_nat (length indices_base) - Z.of_nat (length old_region))%Z in
   ICHECK (Z.leb 0 offset) "offset >= 0" ;;
   let* r1 := lift_result (point_dims indices_base (Z.to_nat offset) 0%nat []) in
   lift_result (region_dims indices_base old_region (Z.to_nat offset)
                  (length old_region) 0%nat r1))%monad.

Definition match_buffer_of_param {St} (intrin_impl : PrimFunc)
    (comparator : TensorizeComparator) (impl2cur : gmap nat Buffer)
    (impl2region : gmap nat (list Range)) (param : Var) : M St MatchBufferRegion :=
  (let* impl := map_at (buffer_map intrin_impl) (vid param) "buffer_map.at" in
   let* cur := map_at impl2cur (buf_id impl) "impl2cur.at" in
   let* old_region := map_at impl2region (buf_id impl) "impl2region.at" in
   let* indices_base := map_at (buffer_indices_ comparator) (buf_id cur) "buffer_indices_.at" in
   let* new_region := match_region indices_base old_region in
   ret (mkMatchBufferRegion impl (mkBufferRegion cur new_region)))%monad.

Fixpoint match_buffers_of_params {St} (intrin_impl : PrimFunc)
    (comparator : TensorizeComparator) (impl2cur : gmap nat Buffer)
    (impl2region : gmap nat (list Range)) (ps : list Var)
    : M St (list MatchBufferRegion) :=
  match ps with
  | [] => ret []
  | p :: rest =>
      (let* m := match_buffer_of_param intrin_impl comparator impl2cur impl2region p in
       let* ms := match_buffers_of_params intrin_impl comparator impl2cur impl2region rest in
       ret (m :: ms))%monad
  end.

(** Step 5: the annotations of the intrinsic are added unless the block has
    the key with another value. *)
Definition annot_get (a : Annotations) (key : string) : option string :=
  snd <$> List.find (fun kv => String.eqb (fst kv) key) a.

Definition annot_set (a : Annotations) (key val : string) : Annotations :=
  match annot_get a key with
  | Some _ => map (fun kv => if String.eqb (fst kv) key then (key, val) else kv) a
  | None => a ++ [(key, val)]
  end.

Definition merge_annotations (block_annotations impl_annotations : Annotations)
    : Annotations :=
  foldl (fun a kv =>
           match annot_get a (fst kv) with
           | Some v =>
               if negb (String.eqb v (snd kv)) then a   (* warning; value skipped *)
               else annot_set a (fst kv) (snd kv)
           | None => annot_set a (fst kv) (snd kv)
           end) block_annotations impl_annotations.

(** Step 1: the BlockRealize to tensorize, and the block it replaces when
    the target is a block. *)
Definition Tensorize_target (self : ScheduleState) (sref : StmtSRef)
    (preserve_unit_iters : bool) : M nat (BlockRealize * option Block) :=
  match sref_stmt sref with
  | SBlock _ =>
      (let* r := lift_result (GetBlockRealize self sref) in
       ret (r, Some (BlockRealize.block r)))%monad
  | SFor _ =>
      fun n0 =>
        match BlockizeImpl self sref preserve_unit_iters (mkFrame n0 ∅ []) with
        | Ok (r, f) => Ok ((r, None), next_id f)
        | Err e => Err e
        end
  | _ => throw (InternalError "TypeError: Tensorize only support For or Block")
  end.

(** Steps 1 to 5: the rewritten BlockRealize. *)
Definition Tensorize_rewrite (self : ScheduleState) (sref : StmtSRef)
    (intrin : TensorIntrin) (preserve_unit_iters : bool)
    : M nat (BlockRealize * option Block) :=
  (* Step 1: Blockize the subtree rooted at the given loop if needed *)
  (let* (block_realize, old_block) := Tensorize_target self sref preserve_unit_iters in
   let intrin_desc := desc intrin in
   let* intrin_impl := normalized_impl intrin (BlockRealize.block block_realize) in
   (* Step 2: Structural pattern matching *)
   let* comparator :=
     lift_result (Comparator_VisitStmt (st_mod self) block_realize (func_body intrin_desc)) in
   (* Step 3: Prepare necessary mapping *)
   ICHECK (Nat.eqb (length (params intrin_desc)) (length (params intrin_impl)))
     "intrin_desc->params.size() == intrin_impl->params.size()" ;;
   let* impl2desc :=
     make_impl2desc intrin_desc intrin_impl (length (params intrin_desc)) 0%nat ∅ in
   let* impl2cur := make_impl2cur comparator (map_to_list impl2desc) ∅ in
   let* impl_block :=
     match func_body intrin_impl with
     | SBlockRealize r => ret (BlockRealize.block r)
     | _ => throw (InternalError "Downcast to BlockRealize failed")
     end in
   let impl2region :=
     emplace_regions (Block.writes impl_block)
       (emplace_regions (Block.reads impl_block) ∅) in
   (* Step 4: Create MatchBufferRegion for the params of the impl function *)
   let* match_buffer_regions :=
     match_buffers_of_params intrin_impl comparator impl2cur impl2region
       (params intrin_impl) in
   (* Step 5: Replace the subtree in the original IR with the tensor intrin impl. *)
   let old := BlockRealize.block block_realize in
   let* n := match old_block with
             | Some _ => fresh
             | None => ret (Block.node old)
             end in
   let block :=
     Block.mk n (Block.iter_vars old) (Block.reads old) (Block.writes old)
       (Block.name_hint old) (Block.body impl_block) (Block.init old)
       (Block.alloc_buffers old) match_buffer_regions
       (merge_annotations (Block.annotations old) (Block.annotations impl_block)) in
   ret (BlockRealize.mk (BlockRealize.iter_values block_realize)
          (BlockRealize.predicate block_realize) block, old_block))%monad.

Definition Tensorize (self : ScheduleState) (sref : StmtSRef) (intrin : TensorIntrin)
    (preserve_unit_iters : bool) : M nat ScheduleState :=
  (let* (block_realize, old_block) :=
     Tensorize_rewrite self sref intrin preserve_unit_iters in
   let block := BlockRealize.block block_realize in
   let self1 :=
     match old_block with
     | Some ob => Replace self sref (SBlock block) {[Block.node ob := block]}
     | None => Replace self sref (SBlockRealize block_realize) ∅
     end in
   (* Step 6: Update the cached flags. *)
   let* result := stmt2ref_at self1 (Block.node block) in
   let* scope_root := lift_result (GetScopeRoot self1 result) in
   match sref_stmt scope_root with
   | SBlock root => ret (UpdateScopeBlockInfo self1 (Block.body root))
   | _ => throw (InternalError "the scope root is not a block")
   end)%monad.

End Tensorize.

(** * Reference collaborators and sample programs

    Simple stand-ins for the collaborators, used to run the primitives on
    concrete programs: a solver that always gives up (so that the trivial
    fallback decides), a prover that compares syntactically, operators
    that build plain nodes, and a cast that leaves a value of the target
    type alone. *)

Definition ref_Normalize (e : IterMapExpr) : PrimExpr :=
  match e with
  | IterSumExpr _ base => base
  | IterSplitExpr (mkIterMark (SrcPrim e) _) => e
  | _ => IntImm (DInt 32) 0
  end.

(** [cast(t, value)]: the value itself when it has the type already, a
    constant of the new type for an integer constant, a Cast node
    otherwise. *)
Definition ref_cast (t : DataType) (value : PrimExpr) : PrimExpr :=
  if bool_decide (dtype value = t) then value
  else match value with
       | IntImm _ v => IntImm t v
       | _ => Cast t value
       end.

Definition ref_arith : Arith := {|
  arith_SubspaceDivide := fun _ _ _ _ _ _ => [];
  NormalizeIterMapToExpr := ref_Normalize;
  CanProveEqual := fun _ a b => bool_decide (a = b);
  Simplify := fun _ e => e;
  EvalSet := fun rs _ =>
    map (fun r => mkIntSet (r_min r) (BinOp OpAdd (r_min r) (r_extent r))) rs;
  CoverRange := fun _ r => r;
  IntSet_FromRange := fun r => mkIntSet (r_min r) (BinOp OpAdd (r_min r) (r_extent r));
  IntSet_Union := fun l => default (mkIntSet (IntImm (DInt 32) 0) (IntImm (DInt 32) 0)) (head l);
  mul := BinOp OpMul;
  add := BinOp OpAdd;
  cast := ref_cast;
  Range_begin_end := fun b e => mkRange b (BinOp OpSub e b)
|}.

Definition i32 (n : Z) : PrimExpr := IntImm (DInt 32) n.

(** Renaming of variables in expressions and statements. *)
Fixpoint ref_subst_expr (e : PrimExpr) (m : gmap nat Var) : PrimExpr :=
  match e with
  | EVar v => match m !! vid v with Some v' => EVar v' | None => e end
  | IntImm _ _ => e
  | Cast dt a => Cast dt (ref_subst_expr a m)
  | BinOp o a b => BinOp o (ref_subst_expr a m) (ref_subst_expr b m)
  end.

Definition ref_subst_range (r : Range) (m : gmap nat Var) : Range :=
  mkRange (ref_subst_expr (r_min r) m) (ref_subst_expr (r_extent r) m).

Definition ref_subst_region (br : BufferRegion) (m : gmap nat Var) : BufferRegion :=
  mkBufferRegion (buffer br) (map (fun r => ref_subst_range r m) (region br)).

Fixpoint ref_subst_stmt (s : Stmt) (m : gmap nat Var) {struct s} : Stmt :=
  let subst_block (b : Block) : Block :=
    Block.mk (Block.node b)
      (map (fun iv => mkIterVar (ref_subst_range (dom iv) m) (var iv) (iter_type iv))
           (Block.iter_vars b))
      (map (fun r => ref_subst_region r m) (Block.reads b))
      (map (fun r => ref_subst_region r m) (Block.writes b))
      (Block.name_hint b)
      (ref_subst_stmt (Block.body b) m)
      (match Block.init b with Some i => Some (ref_subst_stmt i m) | None => None end)
      (Block.alloc_buffers b) (Block.match_buffers b) (Block.annotations b) in
  match s with
  | SFor l =>
      SFor (For.mk (For.node l) (For.loop_var l) (ref_subst_expr (For.min l) m)
              (ref_subst_expr (For.extent l) m) (For.kind l)
              (ref_subst_stmt (For.body l) m) (For.thread_binding l) (For.annotations l))
  | SSeqStmt seq =>
      SSeqStmt ((fix go (l : list Stmt) : list Stmt :=
                   match l with
                   | [] => []
                   | x :: l' => ref_subst_stmt x m :: go l'
                   end) seq)
  | SIfThenElse c t e =>
      SIfThenElse (ref_subst_expr c m) (ref_subst_stmt t m)
        (match e with Some e' => Some (ref_subst_stmt e' m) | None => None end)
  | SBlockRealize r =>
      SBlockRealize
        (BlockRealize.mk (map (fun e => ref_subst_expr e m) (BlockRealize.iter_values r))
           (ref_subst_expr (BlockRealize.predicate r) m)
           (subst_block (BlockRealize.block r)))
  | SBlock b => SBlock (subst_block b)
  | SBufferStore bf v idx =>
      SBufferStore bf (ref_subst_expr v m) (map (fun e => ref_subst_expr e m) idx)
  | SEvaluate v => SEvaluate (ref_subst_expr v m)
  end.

(** A schedule state over srefs whose identity is the identity of their
    node.  [Replace] registers the blocks and loops of the new subtree and
    leaves every [block_info] entry alone; [UpdateScopeBlockInfo] recomputes
    the flags of the blocks of a subtree (here: every binding counts as
    affine). *)
Fixpoint ref_single_child (s : Stmt) : Result BlockRealize :=
  match s with
  | SFor l => ref_single_child (For.body l)
  | SBlockRealize r => Ok r
  | _ => Err (ExternalError "the loop has no single child block")
  end.

Fixpoint ref_register (parent : option StmtSRef) (s : Stmt)
    (m : gmap nat StmtSRef) {struct s} : gmap nat StmtSRef :=
  let reg_block (b : Block) (m : gmap nat StmtSRef) : gmap nat StmtSRef :=
    let me := mkSRef (Block.node b) (SBlock b) parent in
    ref_register (Some me) (Block.body b) (<[Block.node b := me]> m) in
  match s with
  | SFor l =>
      let me := mkSRef (For.node l) s parent in
      ref_register (Some me) (For.body l) (<[For.node l := me]> m)
  | SSeqStmt seq =>
      (fix go (l : list Stmt) (m : gmap nat StmtSRef) : gmap nat StmtSRef :=
         match l with
         | [] => m
         | x :: l' => go l' (ref_register parent x m)
         end) seq m
  | SIfThenElse _ t e =>
      let m1 := ref_register parent t m in
      match e with Some e' => ref_register parent e' m1 | None => m1 end
  | SBlockRealize r => reg_block (BlockRealize.block r) m
  | SBlock b => reg_block b m
  | _ => m
  end.

Fixpoint ref_find_realize (node : nat) (s : Stmt) {struct s} : option BlockRealize :=
  match s with
  | SFor l => ref_find_realize node (For.body l)
  | SSeqStmt seq =>
      (fix go (l : list Stmt) : option BlockRealize :=
         match l with
         | [] => None
         | x :: l' =>
             match ref_find_realize node x with
             | Some r => Some r
             | None => go l'
             end
         end) seq
  | SBlockRealize r =>
      if Nat.eqb (Block.node (BlockRealize.block r)) node then Some r else None
  | _ => None
  end.

Fixpoint ref_scope_root (s : StmtSRef) : Result StmtSRef :=
  match s with
  | mkSRef _ _ (Some p) =>
      match sref_stmt p with
      | SBlock _ => Ok p
      | _ => ref_scope_root p
      end
  | mkSRef _ _ None => Err (ExternalError "no scope root")
  end.

Fixpoint ref_block_nodes (s : Stmt) {struct s} : list nat :=
  match s with
  | SFor l => ref_block_nodes (For.body l)
  | SSeqStmt seq =>
      (fix go (l : list Stmt) : list nat :=
         match l with
         | [] => []
         | x :: l' => ref_block_nodes x ++ go l'
         end) seq
  | SIfThenElse _ t e =>
      ref_block_nodes t ++ match e with Some e' => ref_block_nodes e' | None => [] end
  | SBlockRealize r =>
      Block.node (BlockRealize.block r) :: ref_block_nodes (Block.body (BlockRealize.block r))
  | SBlock b => Block.node b :: ref_block_nodes (Block.body b)
  | _ => []
  end.

Definition ref_schedule : Schedule := {|
  CheckGetSingleChildBlockRealizeOnSRefTree := fun _ loop_sref =>
    match sref_stmt loop_sref with
    | SFor l => ref_single_child (For.body l)
    | _ => Err (ExternalError "not a loop")
    end;
  Replace := fun self target new_stmt _ =>
    mkState (st_mod self)
      (ref_register (sref_parent target) new_stmt (stmt2ref self)) (block_info self);
  UpdateScopeBlockInfo := fun self stmt =>
    mkState (st_mod self) (stmt2ref self)
      (foldl (fun m n => <[n := mkBlockInfo 0 true true true]> m) (block_info self)
         (ref_block_nodes stmt));
  IsAffineBlockBinding := fun self sref =>
    affine_binding (default BlockInfo_default (block_info self !! sref_id sref));
  GetScopeRoot := fun _ sref => ref_scope_root sref;
  GetBlockRealize := fun _ sref =>
    match sref_stmt sref, sref_parent sref with
    | SBlock b, Some p =>
        match ref_find_realize (Block.node b) (sref_stmt p) with
        | Some r => Ok r
        | None => Err (ExternalError "no BlockRealize")
        end
    | SBlock b, None => Ok (BlockRealize.mk [] BoolTrue b)
    | _, _ => Err (ExternalError "not a block")
    end;
  GetSRefLowestCommonAncestor := fun blocks =>
    match blocks with
    | b :: rest =>
        match sref_parent b with
        | Some p =>
            if forallb (fun b' => match sref_parent b' with
                                  | Some p' => Nat.eqb (sref_id p') (sref_id p)
                                  | None => false
                                  end) rest
            then Ok p else Err (ExternalError "no common parent")
        | None => Err (ExternalError "no parent")
        end
    | [] => Err (ExternalError "no blocks")
    end
|}.

Definition var_i : Var := mkVar 1 "i" (DInt 32).
Definition var_j : Var := mkVar 2 "j" (DInt 32).
Definition var_vi : Var := mkVar 11 "vi" (DInt 32).
Definition var_vj : Var := mkVar 12 "vj" (DInt 32).
Definition var_vk : Var := mkVar 13 "vk" (DInt 32).

Definition spatial (v : Var) (extent : Z) : IterVar :=
  mkIterVar (mkRange (i32 0) (i32 extent)) v kDataPar.

(** for i in 0..4: for j in 0..4: block B(vi = i, vj = j, vk = 0) *)
Definition sample_block : Block :=
  Block.mk 100 [spatial var_vi 4; spatial var_vj 4; spatial var_vk 1] [] [] "B"
    (SEvaluate (BinOp OpAdd (EVar var_vi) (EVar var_vj))) None [] [] [].
Definition sample_realize : BlockRealize :=
  BlockRealize.mk [EVar var_i; EVar var_j; i32 0] BoolTrue sample_block.
Definition sample_loop_j : For :=
  For.mk 101 var_j (i32 0) (i32 4) kSerial (SBlockRealize sample_realize) None [].
Definition sample_loop_i : For :=
  For.mk 102 var_i (i32 0) (i32 4) kSerial (SFor sample_loop_j) None [].
Definition sample_root : Block :=
  Block.mk 103 [] [] [] "root" (SFor sample_loop_i) None [] [] [].

Definition sref_root : StmtSRef := mkSRef 103 (SBlock sample_root) None.
Definition sref_loop_i : StmtSRef := mkSRef 102 (SFor sample_loop_i) (Some sref_root).
Definition sref_loop_j : StmtSRef := mkSRef 101 (SFor sample_loop_j) (Some sref_loop_i).
Definition sref_block : StmtSRef := mkSRef 100 (SBlock sample_block) (Some sref_loop_j).

(** A comparator that pairs the regions of the block with those of the
    descriptor by position and takes the lower bounds of a region as its base
    indices. *)
Definition ref_compare (_ : IRModule) (realize : BlockRealize) (desc_body : Stmt)
    : Result TensorizeComparator :=
  match desc_body with
  | SBlockRealize d =>
      let cur := Block.reads (BlockRealize.block realize)
                 ++ Block.writes (BlockRealize.block realize) in
      let dsc := Block.reads (BlockRealize.block d) ++ Block.writes (BlockRealize.block d) in
      Ok (mkComparator
            (foldl (fun m p => <[buf_id (buffer (snd p)) := buffer (fst p)]> m) ∅
               (zip cur dsc))
            (foldl (fun m r => <[buf_id (buffer r) := map r_min (region r)]> m) ∅ cur))
  | _ => Err (ExternalError "structural mismatch")
  end.

Definition ref_tir : TirLib := {|
  Substitute_stmt_vars := ref_subst_stmt;
  Substitute_expr_vars := ref_subst_expr;
  DeepCopy := fun f => f;
  IndexDataTypeNormalizer_Rewrite := fun _ f => f;
  Comparator_VisitStmt := ref_compare
|}.

(** A block reading A[vi, 0:16] of a 4x16 buffer, matched against an
    intrinsic over a 16-element buffer. *)
Definition buf_A : Buffer := mkBuffer 200 "A" [i32 4; i32 16] (DInt 8).
Definition buf_A_desc : Buffer := mkBuffer 201 "A_desc" [i32 16] (DInt 8).
Definition buf_A_impl : Buffer := mkBuffer 202 "A_impl" [i32 16] (DInt 8).

Definition tensor_block : Block :=
  Block.mk 110 [spatial var_vi 4]
    [mkBufferRegion buf_A [mkRange (EVar var_vi) (i32 1); mkRange (i32 0) (i32 16)]] []
    "T" (SEvaluate (EVar var_vi)) None [] [] [].
Definition tensor_realize : BlockRealize :=
  BlockRealize.mk [EVar var_i] BoolTrue tensor_block.
Definition tensor_loop : For :=
  For.mk 111 var_i (i32 0) (i32 4) kSerial (SBlockRealize tensor_realize) None [].
Definition tensor_root : Block :=
  Block.mk 112 [] [] [] "root" (SFor tensor_loop) None [] [] [].
Definition sref_tensor_root : StmtSRef := mkSRef 112 (SBlock tensor_root) None.
Definition sref_tensor_loop : StmtSRef :=
  mkSRef 111 (SFor tensor_loop) (Some sref_tensor_root).
Definition sref_tensor_block : StmtSRef :=
  mkSRef 110 (SBlock tensor_block) (Some sref_tensor_loop).

Definition tensor_state : ScheduleState :=
  mkState (mkIRModule 0)
    (<[110%nat := sref_tensor_block]>
       (<[111%nat := sref_tensor_loop]> (<[112%nat := sref_tensor_root]> ∅)))
    (<[110%nat := mkBlockInfo 0 true true true]>
       (<[112%nat := mkBlockInfo 0 false true true]> ∅)).

Definition param_desc : Var := mkVar 30 "a" (mkDataType kHandle 64 1).
Definition param_impl : Var := mkVar 31 "a" (mkDataType kHandle 64 1).

Definition intrin_block (node : nat) (b : Buffer) (body : Stmt) : Stmt :=
  SBlockRealize
    (BlockRealize.mk [] BoolTrue
       (Block.mk node [] [mkBufferRegion b [mkRange (i32 0) (i32 16)]] [] "intrin"
          body None [] [] [("pragma", "mma")])).

Definition sample_intrin : TensorIntrin :=
  mkTensorIntrin
    (mkPrimFunc [param_desc] (<[30%nat := buf_A_desc]> ∅)
       (intrin_block 120 buf_A_desc (SEvaluate (i32 0))))
    (mkPrimFunc [param_impl] (<[31%nat := buf_A_impl]> ∅)
       (intrin_block 121 buf_A_impl (SEvaluate (i32 1)))).

(** A reduction: for i: for k: C[vi] += A[vi, vk], with init C[vi] = 0. *)
Definition var_k : Var := mkVar 3 "k" (DInt 32).
Definition buf_C : Buffer := mkBuffer 210 "C" [i32 4] (DInt 32).
Definition buf_A2 : Buffer := mkBuffer 211 "A" [i32 4; i32 4] (DInt 32).
Definition point (e : PrimExpr) : Range := mkRange e (i32 1).

Definition red_block : Block :=
  Block.mk 130
    [spatial var_vi 4; mkIterVar (mkRange (i32 0) (i32 4)) var_vk kCommReduce]
    [mkBufferRegion buf_A2 [point (EVar var_vi); point (EVar var_vk)]]
    [mkBufferRegion buf_C [point (EVar var_vi)]]
    "C"
    (SBufferStore buf_C (EVar var_vk) [EVar var_vi])
    (Some (SBufferStore buf_C (i32 0) [EVar var_vi])) [] [] [].
Definition red_realize : BlockRealize :=
  BlockRealize.mk [EVar var_i; EVar var_k] BoolTrue red_block.
Definition red_loop_k : For :=
  For.mk 131 var_k (i32 0) (i32 4) kSerial (SBlockRealize red_realize) None [].
Definition red_loop_i : For :=
  For.mk 132 var_i (i32 0) (i32 4) kSerial (SFor red_loop_k) None [].
Definition red_root : Block :=
  Block.mk 133 [] [] [] "root" (SFor red_loop_i) None [] [] [].
Definition sref_red_root : StmtSRef := mkSRef 133 (SBlock red_root) None.
Definition sref_red_loop_i : StmtSRef := mkSRef 132 (SFor red_loop_i) (Some sref_red_root).
Definition sref_red_loop_k : StmtSRef := mkSRef 131 (SFor red_loop_k) (Some sref_red_loop_i).
Definition sref_red_block : StmtSRef := mkSRef 130 (SBlock red_block) (Some sref_red_loop_k).

Definition red_state : ScheduleState :=
  mkState (mkIRModule 0)
    (<[130%nat := sref_red_block]>
       (<[131%nat := sref_red_loop_k]>
          (<[132%nat := sref_red_loop_i]> (<[133%nat := sref_red_root]> ∅))))
    (<[130%nat := mkBlockInfo 0 true true true]>
       (<[133%nat := mkBlockInfo 0 false true true]> ∅)).

(** A binding that no side owns: for o: for i: for j: block D(vi = o*4 + j),
    blockized at loop [i]. *)
Definition var_o : Var := mkVar 4 "o" (DInt 32).
Definition nd_block : Block :=
  Block.mk 140 [spatial var_vi 16] [] [] "D" (SEvaluate (EVar var_vi)) None [] [] [].
Definition nd_realize : BlockRealize :=
  BlockRealize.mk [BinOp OpAdd (BinOp OpMul (EVar var_o) (i32 4)) (EVar var_j)]
    BoolTrue nd_block.
Definition nd_loop_j : For :=
  For.mk 141 var_j (i32 0) (i32 4) kSerial (SBlockRealize nd_realize) None [].
Definition nd_loop_i : For :=
  For.mk 142 var_i (i32 0) (i32 4) kSerial (SFor nd_loop_j) None [].
Definition nd_loop_o : For :=
  For.mk 143 var_o (i32 0) (i32 4) kSerial (SFor nd_loop_i) None [].
Definition nd_root : Block :=
  Block.mk 144 [] [] [] "root" (SFor nd_loop_o) None [] [] [].
Definition sref_nd_root : StmtSRef := mkSRef 144 (SBlock nd_root) None.
Definition sref_nd_loop_o : StmtSRef := mkSRef 143 (SFor nd_loop_o) (Some sref_nd_root).
Definition sref_nd_loop_i : StmtSRef := mkSRef 142 (SFor nd_loop_i) (Some sref_nd_loop_o).
Definition sref_nd_loop_j : StmtSRef := mkSRef 141 (SFor nd_loop_j) (Some sref_nd_loop_i).
Definition sref_nd_block : StmtSRef := mkSRef 140 (SBlock nd_block) (Some sref_nd_loop_j).

Definition nd_state : ScheduleState :=
  mkState (mkIRModule 7)
    (<[140%nat := sref_nd_block]>
       (<[141%nat := sref_nd_loop_j]>
          (<[142%nat := sref_nd_loop_i]>
             (<[143%nat := sref_nd_loop_o]> (<[144%nat := sref_nd_root]> ∅)))))
    ∅.

(** Two sibling blocks under two loops, each with one iterator bound to
    the outer loop: for i: for j: { B1(vi = i); B2(vi2 = i) }. *)
Definition var_vi2 : Var := mkVar 15 "vi2" (DInt 32).
Definition grp_block (node : nat) (name : string) (v : Var) : Block :=
  Block.mk node [spatial v 4] [] [] name (SEvaluate (EVar v)) None [] [] [].
Definition grp_B1 : Block := grp_block 153 "B1" var_vi.
Definition grp_B2 : Block := grp_block 154 "B2" var_vi2.
Definition grp_seq : Stmt :=
  SSeqStmt [SBlockRealize (BlockRealize.mk [EVar var_i] BoolTrue grp_B1);
            SBlockRealize (BlockRealize.mk [EVar var_i] BoolTrue grp_B2)].
Definition grp_loop_j : For := For.mk 152 var_j (i32 0) (i32 4) kSerial grp_seq None [].
Definition grp_loop_i : For :=
  For.mk 151 var_i (i32 0) (i32 4) kSerial (SFor grp_loop_j) None [].
Definition grp_root : Block :=
  Block.mk 150 [] [] [] "root" (SFor grp_loop_i) None [] [] [].
Definition sref_grp_root : StmtSRef := mkSRef 150 (SBlock grp_root) None.
Definition sref_grp_loop_i : StmtSRef := mkSRef 151 (SFor grp_loop_i) (Some sref_grp_root).
Definition sref_grp_loop_j : StmtSRef := mkSRef 152 (SFor grp_loop_j) (Some sref_grp_loop_i).
Definition sref_grp_B1 : StmtSRef := mkSRef 153 (SBlock grp_B1) (Some sref_grp_loop_j).
Definition sref_grp_B2 : StmtSRef := mkSRef 154 (SBlock grp_B2) (Some sref_grp_loop_j).

Definition grp_state : ScheduleState :=
  mkState (mkIRModule 0)
    (<[150%nat := sref_grp_root]>
       (<[151%nat := sref_grp_loop_i]>
          (<[152%nat := sref_grp_loop_j]>
             (<[153%nat := sref_grp_B1]> (<[154%nat := sref_grp_B2]> ∅)))))
    ∅.

(** The same two blocks directly under the root block. *)
Definition top_root : Block :=
  Block.mk 160 [] [] [] "root" grp_seq None [] [] [].
Definition sref_top_root : StmtSRef := mkSRef 160 (SBlock top_root) None.
Definition sref_top_B1 : StmtSRef := mkSRef 153 (SBlock grp_B1) (Some sref_top_root).
Definition sref_top_B2 : StmtSRef := mkSRef 154 (SBlock grp_B2) (Some sref_top_root).
Definition top_state : ScheduleState :=
  mkState (mkIRModule 0)
    (<[160%nat := sref_top_root]>
       (<[153%nat := sref_top_B1]> (<[154%nat := sref_top_B2]> ∅)))
    ∅.

(** Two sibling blocks under the same two loops, each with one iterator
    per loop: for i: for j: { P1(vi = i, vj = j); P2(vi2 = i, vj2 = j) }. *)
Definition var_vj2 : Var := mkVar 16 "vj2" (DInt 32).
Definition pair_block (node : nat) (name : string) (v w : Var) : Block :=
  Block.mk node [spatial v 4; spatial w 4] [] [] name (SEvaluate (EVar v)) None [] [] [].
Definition pair_P1 : Block := pair_block 173 "P1" var_vi var_vj.
Definition pair_P2 : Block := pair_block 174 "P2" var_vi2 var_vj2.
Definition pair_seq : Stmt :=
  SSeqStmt [SBlockRealize (BlockRealize.mk [EVar var_i; EVar var_j] BoolTrue pair_P1);
            SBlockRealize (BlockRealize.mk [EVar var_i; EVar var_j] BoolTrue pair_P2)].
Definition pair_loop_j : For := For.mk 172 var_j (i32 0) (i32 4) kSerial pair_seq None [].
Definition pair_loop_i : For :=
  For.mk 171 var_i (i32 0) (i32 4) kSerial (SFor pair_loop_j) None [].
Definition pair_root : Block :=
  Block.mk 170 [] [] [] "root" (SFor pair_loop_i) None [] [] [].
Definition sref_pair_root : StmtSRef := mkSRef 170 (SBlock pair_root) None.
Definition sref_pair_loop_i : StmtSRef :=
  mkSRef 171 (SFor pair_loop_i) (Some sref_pair_root).
Definition sref_pair_loop_j : StmtSRef :=
  mkSRef 172 (SFor pair_loop_j) (Some sref_pair_loop_i).
Definition sref_pair_P1 : StmtSRef := mkSRef 173 (SBlock pair_P1) (Some sref_pair_loop_j).
Definition sref_pair_P2 : StmtSRef := mkSRef 174 (SBlock pair_P2) (Some sref_pair_loop_j).

Definition pair_state : ScheduleState :=
  mkState (mkIRModule 0)
    (<[170%nat := sref_pair_root]>
       (<[171%nat := sref_pair_loop_i]>
          (<[172%nat := sref_pair_loop_j]>
             (<[173%nat := sref_pair_P1]> (<[174%nat := sref_pair_P2]> ∅)))))
    ∅.

(** A division of four iterators that shows the four forms of the
    substitution: (i, unit), (unit, j), (unit, unit) and (i, j). *)
Definition var_vl : Var := mkVar 14 "vl" (DInt 32).

Definition sample_iter_vars : list IterVar :=
  [spatial var_vi 4; spatial var_vj 4; spatial var_vk 1; spatial var_vl 16].

Definition sum_mark (e : PrimExpr) (extent : Z) : IterMark :=
  mkIterMark (SrcIterMap (IterSumExpr [] e)) (i32 extent).

Definition sample_division : list (list IterMark) :=
  [ [sum_mark (EVar var_i) 4; sum_mark (i32 0) 1];
    [sum_mark (i32 0) 1; sum_mark (EVar var_j) 4];
    [sum_mark (i32 0) 1; sum_mark (i32 0) 1];
    [sum_mark (EVar var_i) 4; sum_mark (EVar var_j) 4];
    [sum_mark (i32 0) 1; sum_mark (i32 0) 1] ].

(** * Vocabulary of the properties *)

Section Vocabulary.
Context `{Arith}.

(** The mark that carries a binding on the side that uses it. *)
Definition trivial_mark (iv : IterVar) (binding : PrimExpr) : IterMark :=
  if is_VarNode binding then
    mkIterMark
      (SrcIterMap (IterSplitExpr (mkIterMark (SrcPrim binding) (r_extent (dom iv)))))
      (r_extent (dom iv))
  else mkIterMark (SrcIterMap (IterSumExpr [] binding)) (r_extent (dom iv)).

Definition trivial_entry (uo ui : PrimExpr -> bool) (iv : IterVar) (b : PrimExpr)
    : list IterMark :=
  if uo b && negb (ui b) then [trivial_mark iv b; unit_iter_mark]
  else if ui b && negb (uo b) then [unit_iter_mark; trivial_mark iv b]
  else [unit_iter_mark; unit_iter_mark].

(** What the binding deriver records for one original iterator [iv] whose
    division entry is [(om, im)]: the outer iterator, the inner iterator if
    one is allocated, and the substitution [s]. *)
Definition binding_algebra (preserve_unit_iters : bool) (iv : IterVar)
    (om im : IterMark) (outer_iter : IterVar) (alloc : option IterVar)
    (s : option PrimExpr) : Prop :=
  let oe := mark_extent om in
  let ie := mark_extent im in
  dom outer_iter = RangeFromExtent oe /\
  iter_type outer_iter = iter_type iv /\
  name_hint (var outer_iter) = name_hint (var iv) +:+ "_o" /\
  (is_one ie = true ->
     alloc = None /\
     (is_one oe = true /\ preserve_unit_iters = false ->
        s = Some (make_zero (dtype oe))) /\
     (~ (is_one oe = true /\ preserve_unit_iters = false) ->
        s = Some (EVar (var outer_iter)))) /\
  (is_one ie = false ->
     exists inner_iter,
       alloc = Some inner_iter /\
       dom inner_iter = RangeFromExtent ie /\
       iter_type inner_iter = iter_type iv /\
       name_hint (var inner_iter) = name_hint (var iv) +:+ "_i" /\
       (is_one oe = true -> s = Some (EVar (var inner_iter))) /\
       (is_one oe = false ->
          s = Some (add (mul (EVar (var outer_iter)) ie) (EVar (var inner_iter))))).

(** The region built for one parameter: [offset] point dimensions, then the
    dimensions of the region of the impl buffer. *)
Definition region_matches (indices_base : list PrimExpr) (old_region new_region : list Range)
    : Prop :=
  let offset := (length indices_base - length old_region)%nat in
  (length old_region <= length indices_base)%nat /\
  length new_region = length indices_base /\
  (forall k min,
     (k < offset)%nat -> indices_base !! k = Some min ->
     new_region !! k = Some (FromMinExtent min (make_const (dtype min) 1))) /\
  (forall k min rg,
     old_region !! k = Some rg -> indices_base !! (offset + k)%nat = Some min ->
     new_region !! (offset + k)%nat =
       Some (FromMinExtent min (cast (dtype min) (r_extent rg)))).

(** The bit widths of the index types of the bounds of all regions a block
    reads and writes; a range carries its index type on its lower bound. *)
Definition region_bound_bits (block : Block) : list Z :=
  map (fun r => bits (dtype (r_min r)))
    (concat (map region (Block.reads block ++ Block.writes block))).

(** The steps of a successful [BlockizeImpl]. *)
Record BlockizeSteps := mkSteps {
  s_block_realize : BlockRealize;
  s_block_sref : StmtSRef;
  s_loops : list For;
  s_division : list (list IterMark);
  s_bindings : Bindings;
  s_block_subst : Block;
  s_inner_realize : BlockRealize }.

Definition s_has_outer_reduction (t : BlockizeSteps) : bool :=
  match Block.init (s_block_subst t) with
  | Some _ => has_reduction (outer_iter_vars (s_bindings t))
  | None => false
  end.

(** The loops around a statement, outermost first, and the statement
    inside them. *)
Fixpoint strip_loops (s : Stmt) : list For * Stmt :=
  match s with
  | SFor l => let '(ls, core) := strip_loops (For.body l) in (l :: ls, core)
  | _ => ([], s)
  end.

(** [new] is a clone of the loop [old] with a fresh loop variable. *)
Definition loop_copy (new old : For) : Prop :=
  For.min new = For.min old /\ For.extent new = For.extent old /\
  For.kind new = For.kind old /\
  name_hint (For.loop_var new) = name_hint (For.loop_var old) /\
  vdtype (For.loop_var new) = vdtype (For.loop_var old).

(** [new] is the init copy of the iterator of the pair [p]. *)
Definition init_iter_copy (new : IterVar) (p : IterVar * PrimExpr) : Prop :=
  dom new = dom p.1 /\ iter_type new = iter_type p.1 /\
  name_hint (var new) = name_hint (var p.1) +:+ "_init".

(** The iterators of the inner block that the init block keeps: data
    parallel and referenced by the init statement. *)
Definition init_selected (block_init : Stmt) (p : IterVar * PrimExpr) : Prop :=
  iter_type p.1 = kDataPar /\ UsesVar_stmt block_init (var p.1) = true.

#[global] Instance init_selected_dec block_init p : Decision (init_selected block_init p).
Proof. unfold init_selected. apply _. Defined.

(** The inner loops that the init nest clones: those whose loop variable
    appears in at least one init binding. *)
Definition is_init_loop (init_bindings : list PrimExpr) (loop : For) : Prop :=
  existsb (fun init_binding => UsesVar_expr init_binding (For.loop_var loop))
    init_bindings = true.

#[global] Instance is_init_loop_dec bs loop : Decision (is_init_loop bs loop).
Proof. unfold is_init_loop. apply _. Defined.

(** [inner_chain loop_sref p ls]: going up from the sref [p] through loops
    one reaches [loop_sref]; [ls] are the loops passed, bottom-up, the last
    one being the loop of [loop_sref]. *)
Inductive inner_chain (loop_sref : StmtSRef) : StmtSRef -> list For -> Prop :=
| chain_top id l parent :
    id = sref_id loop_sref -> sref_stmt loop_sref = SFor l ->
    inner_chain loop_sref (mkSRef id (SFor l) parent) [l]
| chain_step id l p ls :
    id <> sref_id loop_sref -> inner_chain loop_sref p ls ->
    inner_chain loop_sref (mkSRef id (SFor l) (Some p)) (l :: ls).

(** The invariant of the group rewriter: the outer BlockRealize it has
    produced, if any, has the literal predicate true. *)
Definition outer_predicate_true (st : BlockizeBlocks.t) : Prop :=
  forall r, BlockizeBlocks.blockized_ st = Some r ->
            BlockRealize.predicate r = make_const DBool 1.

Definition keeps_outer_predicate {A} (m : M BlockizeBlocks.t A) : Prop :=
  forall st a st',
    m st = Ok (a, st') -> outer_predicate_true st -> outer_predicate_true st'.

(** The contract of the comparator towards Tensorize: the base indices it
    records for a buffer of the current IR are one per dimension of that
    buffer (they are the indices of an access to it). *)
Definition comparator_indices_per_dimension (cmp : TensorizeComparator) : Prop :=
  forall k cur indices_base,
    rhs_buffer_map_ cmp !! k = Some cur ->
    buffer_indices_ cmp !! buf_id cur = Some indices_base ->
    length indices_base = length (shape cur).

End Vocabulary.

(** * Vocabulary of the further properties *)

Section FurtherVocabulary.
Context `{Arith, TirLib, Schedule}.

(** [new] is the loop [old] with another body: every other field, the loop
    variable included, is the one of [old]. *)
Definition loop_rewrap (new old : For) : Prop :=
  For.loop_var new = For.loop_var old /\
  For.min new = For.min old /\ For.extent new = For.extent old /\
  For.kind new = For.kind old /\
  For.thread_binding new = For.thread_binding old /\
  For.annotations new = For.annotations old.

(** The buffers of a list of regions, each once, in the order in which they
    first appear ([seen] holds the identities already met). *)
Fixpoint first_buffers (seen : gset nat) (regions : list BufferRegion) : list Buffer :=
  match regions with
  | [] => []
  | br :: rest =>
      if decide (buf_id (buffer br) ∈ seen) then first_buffers seen rest
      else buffer br :: first_buffers ({[buf_id (buffer br)]} ∪ seen) rest
  end.

(** The invariant of the collection loop of [UnionRegions]: every buffer
    met has one list of sets per dimension. *)
Definition union_acc_ok (acc : UnionAcc) : Prop :=
  forall b, b ∈ buffer_order acc ->
    exists sets, intset_map acc !! buf_id b = Some sets /\ length sets = length (shape b).

(** The variables a substitution plan replaces. *)
Definition substituted (sub : gmap nat PrimExpr) (v : Var) : bool :=
  bool_decide (is_Some (sub !! vid v)).

(** The substitution leaves a statement that mentions none of its variables
    as it is, and the frame with it. *)
Definition untouched (sub : gmap nat PrimExpr) (s : Stmt) : Prop :=
  UsesVarStmt s (substituted sub) = false ->
  forall f, Replacer_VisitStmt sub s f = Ok ((s, false), f).

(** The visit of [s] returns, and when it flags its result unchanged it has
    left the frame as it was. *)
Definition visit_settles (sub : gmap nat PrimExpr) (s : Stmt) : Prop :=
  forall f, exists s' c f',
    Replacer_VisitStmt sub s f = Ok ((s', c), f') /\ (c = false -> f' = f).

(** What the substitution keeps of a block: its name, the variables and
    kinds of its iterators, the buffers of its regions, its allocations and
    annotations, and whether it has an init. *)
Definition same_block_signature (new old : Block) : Prop :=
  Block.name_hint new = Block.name_hint old /\
  map var (Block.iter_vars new) = map var (Block.iter_vars old) /\
  map iter_type (Block.iter_vars new) = map iter_type (Block.iter_vars old) /\
  map buffer (Block.reads new) = map buffer (Block.reads old) /\
  map buffer (Block.writes new) = map buffer (Block.writes old) /\
  Block.alloc_buffers new = Block.alloc_buffers old /\
  Block.annotations new = Block.annotations old /\
  (is_Some (Block.init new) <-> is_Some (Block.init old)).

(** The loops met going up from an sref while the ancestors are loops,
    bottom-up. *)
Fixpoint loop_chain (s : StmtSRef) : list For :=
  match s with
  | mkSRef _ (SFor l) parent =>
      l :: match parent with Some p => loop_chain p | None => [] end
  | _ => []
  end.

Definition enclosing_loops (block_sref : StmtSRef) : list For :=
  match sref_parent block_sref with
  | Some p => loop_chain p
  | None => []
  end.

(** The statement directly under the common ancestor, which [RewriteSeq]
    rewrites. *)
Definition lca_body (lca : StmtSRef) : option Stmt :=
  match sref_stmt lca with
  | SFor l => Some (For.body l)
  | SBlock b => Some (Block.body b)
  | _ => None
  end.

(** [m] keeps the property [I] of the rewriter. *)
Definition keeps (I : BlockizeBlocks.t -> Prop) {A} (m : M BlockizeBlocks.t A) : Prop :=
  forall st a st', m st = Ok (a, st') -> I st -> I st'.

(** The shape of the outer block that the group form builds. *)
Definition group_outer_shape (r : BlockRealize) : Prop :=
  let b := BlockRealize.block r in
  Block.init b = None /\ Block.alloc_buffers b = [] /\
  Block.match_buffers b = [] /\ Block.annotations b = [] /\
  (exists body, Block.body b = SSeqStmt body) /\
  (exists suffix, Block.name_hint b = "outer_" +:+ suffix).

Definition group_outer_inv (st : BlockizeBlocks.t) : Prop :=
  (exists suffix, BlockizeBlocks.outer_block_name st = "outer_" +:+ suffix) /\
  forall r, BlockizeBlocks.blockized_ st = Some r -> group_outer_shape r.

(** The outer BlockRealize with the synthesized unit iterator. *)
Definition unit_outer (r : BlockRealize) : Prop :=
  BlockRealize.iter_values r = [make_zero (DInt 32)] /\
  exists v,
    Block.iter_vars (BlockRealize.block r) =
      [mkIterVar (RangeFromExtent (IntImm (DInt 32) 1)) v kDataPar] /\
    name_hint v = "init_o" /\ vdtype v = DInt 32.

Definition unit_outer_inv (st : BlockizeBlocks.t) : Prop :=
  BlockizeBlocks.outer_iter_vars st = None /\
  BlockizeBlocks.outer_bindings st = None /\
  forall r, BlockizeBlocks.blockized_ st = Some r -> unit_outer r.

(** The invariant of the collector: one outer extent per outer binding,
    every outer binding a loop variable, and never more outer iterators
    than outer bindings. *)
Definition collector_ok (c : CollectSubstInfo.t) : Prop :=
  length (CollectSubstInfo.outer_extent c) = arr_size (CollectSubstInfo.outer_bindings_ c) /\
  Forall (fun e => exists v, e = EVar v) (arr_list (CollectSubstInfo.outer_bindings_ c)) /\
  (arr_size (CollectSubstInfo.outer_iter_vars_ c)
     <= arr_size (CollectSubstInfo.outer_bindings_ c))%nat /\
  (CollectSubstInfo.num_outer_iter_vars c = 0 ->
     arr_size (CollectSubstInfo.outer_iter_vars_ c) = 0%nat) /\
  0 <= CollectSubstInfo.num_outer_iter_vars c /\
  0 <= CollectSubstInfo.num_travered c.

(** Nothing was collected between [c] and [c']. *)
Definition same_lists (c c' : CollectSubstInfo.t) : Prop :=
  CollectSubstInfo.outer_iter_vars_ c' = CollectSubstInfo.outer_iter_vars_ c /\
  arr_list (CollectSubstInfo.outer_bindings_ c')
    = arr_list (CollectSubstInfo.outer_bindings_ c) /\
  CollectSubstInfo.outer_extent c' = CollectSubstInfo.outer_extent c /\
  CollectSubstInfo.num_outer_iter_vars c' = CollectSubstInfo.num_outer_iter_vars c.

(** What a visit of the collector does to its state: below a loop
    ([num_travered >= 1]) the flag [in_lca] only goes up, and a visit that
    ends outside the common ancestor has collected nothing. *)
Definition collector_step (c c' : CollectSubstInfo.t) : Prop :=
  collector_ok c ->
  collector_ok c' /\
  CollectSubstInfo.num_travered c' = CollectSubstInfo.num_travered c /\
  (1 <= CollectSubstInfo.num_travered c ->
     CollectSubstInfo.in_lca c = true -> CollectSubstInfo.in_lca c' = true) /\
  (1 <= CollectSubstInfo.num_travered c ->
     CollectSubstInfo.in_lca c' = false -> same_lists c c').

(** The size invariant of a BlockRealize: one iter value per iter var. *)
Definition sizes_equal (r : BlockRealize) : Prop :=
  length (BlockRealize.iter_values r) = length (Block.iter_vars (BlockRealize.block r)).

(** Every BlockRealize inside a statement (in loop and block bodies, in the
    inits of blocks, in sequences and in branches) has one iter value per
    iter var. *)
Fixpoint realizes_sized (s : Stmt) {struct s} : bool :=
  let block_sized (b : Block) : bool :=
    realizes_sized (Block.body b) &&
    match Block.init b with
    | Some i => realizes_sized i
    | None => true
    end in
  match s with
  | SFor l => realizes_sized (For.body l)
  | SSeqStmt seq =>
      (fix go (l : list Stmt) : bool :=
         match l with
         | [] => true
         | x :: l' => realizes_sized x && go l'
         end) seq
  | SIfThenElse _ t e =>
      realizes_sized t &&
      match e with
      | Some e' => realizes_sized e'
      | None => true
      end
  | SBlockRealize r =>
      Nat.eqb (length (BlockRealize.iter_values r))
              (length (Block.iter_vars (BlockRealize.block r)))
      && block_sized (BlockRealize.block r)
  | SBlock b => block_sized b
  | SBufferStore _ _ _ => true
  | SEvaluate _ => true
  end.

(** The Replacer keeps the size invariant of the BlockRealizes it visits. *)
Definition visit_keeps_sized (sub : gmap nat PrimExpr) (s : Stmt) : Prop :=
  forall f s' c f',
    Replacer_VisitStmt sub s f = Ok ((s', c), f') ->
    realizes_sized s = true -> realizes_sized s' = true.

(** The rewriter state holds sized statements only: the inner statements
    collected for the outer block and the outer BlockRealize built so far. *)
Definition sized_state (st : BlockizeBlocks.t) : Prop :=
  Forall (fun x => realizes_sized x = true) (BlockizeBlocks.seq_body st) /\
  forall r, BlockizeBlocks.blockized_ st = Some r ->
            realizes_sized (SBlockRealize r) = true.

(** A step of the rewriter that keeps [sized_state] and whose result
    satisfies [Q]. *)
Definition sized_run {A} (m : M BlockizeBlocks.t A) (Q : A -> Prop) : Prop :=
  forall st a st', m st = Ok (a, st') -> sized_state st -> sized_state st' /\ Q a.

Definition visit_sized (visit : Stmt -> M BlockizeBlocks.t (Stmt * bool)) (s : Stmt)
    : Prop :=
  realizes_sized s = true -> sized_run (visit s) (fun a => realizes_sized (fst a) = true).

End FurtherVocabulary.

(** * Properties *)

Section Properties.
Context `{Arith, TirLib, Schedule}.

(** ** The trivial subspace division *)

Lemma trivial_division_entry_ok iter_vars uo ui i b iv :
  iter_vars !! i = Some iv ->
  trivial_division_entry iter_vars uo ui i b =
    Ok (if uo b && ui b then None else Some (trivial_entry uo ui iv b)).
Proof.
  intros Hiv. unfold trivial_division_entry, at_index, trivial_entry, trivial_mark.
  rewrite Hiv. simpl.
  destruct (uo b), (ui b); reflexivity.
Qed.

Lemma trivial_division_loop_spec iter_vars uo ui bindings :
  forall i res,
    (i + length bindings <= length iter_vars)%nat ->
    exists r,
      trivial_division_loop iter_vars uo ui i bindings res = Ok r /\
      (r = None <-> exists b, b ∈ bindings /\ uo b = true /\ ui b = true) /\
      (forall res', r = Some res' ->
         exists entries,
           res' = res ++ entries /\ length entries = length bindings /\
           forall j b iv,
             bindings !! j = Some b -> iter_vars !! (i + j)%nat = Some iv ->
             entries !! j = Some (trivial_entry uo ui iv b)).
Proof.
  induction bindings as [|b rest IH]; intros i res Hlen; simpl in *.
  - exists (Some res). split; [reflexivity|]. split.
    + split; [discriminate|]. intros (b & Hb & _). inversion Hb.
    + intros res' [= <-]. exists []. rewrite app_nil_r.
      repeat split; auto. intros j b iv Hj. rewrite lookup_nil in Hj. discriminate.
  - destruct (lookup_lt_is_Some_2 iter_vars i) as [iv Hiv]; [lia|].
    rewrite (trivial_division_entry_ok _ _ _ _ _ _ Hiv).
    destruct (uo b && ui b) eqn:Hboth; simpl.
    + exists None. split; [reflexivity|]. split; [|discriminate].
      split; [|reflexivity]. intros _. exists b.
      apply andb_true_iff in Hboth. split; [left|]; tauto.
    + destruct (IH (S i) (res ++ [trivial_entry uo ui iv b])) as (r & Hr & Hnone & Hsome);
        [lia|].
      exists r. split; [exact Hr|]. split.
      * rewrite Hnone. split; intros (b' & Hb' & Ho & Hi).
        -- exists b'. split; [right; exact Hb'|]. tauto.
        -- exists b'. apply elem_of_cons in Hb' as [->|Hb'].
           ++ rewrite Ho, Hi in Hboth. discriminate.
           ++ tauto.
      * intros res' Hres'. destruct (Hsome res' Hres') as (entries & -> & Hl & Hent).
        exists (trivial_entry uo ui iv b :: entries).
        rewrite <- app_assoc. simpl. split; [reflexivity|]. split; [lia|].
        intros [|j] b' iv' Hb' Hiv'; simpl in *.
        -- injection Hb' as <-. rewrite Nat.add_0_r in Hiv'.
           rewrite Hiv in Hiv'. injection Hiv' as <-. reflexivity.
        -- apply Hent; [exact Hb'|]. rewrite <- Hiv'. f_equal. lia.
Qed.

(** ** The monad *)

Lemma bind_ok {St A B} (m : M St A) (k : A -> M St B) s r :
  bind m k s = Ok r -> exists a s', m s = Ok (a, s') /\ k a s' = Ok r.
Proof.
  unfold bind. destruct (m s) as [[a s']|]; [eauto|discriminate].
Qed.

Lemma lift_result_ok {St A} (r : Result A) (s : St) a s' :
  lift_result r s = Ok (a, s') -> r = Ok a /\ s' = s.
Proof.
  unfold lift_result. destruct r; [|discriminate]. intros [= -> ->]. auto.
Qed.

Lemma BlockRealize_new_ok iter_values predicate block r :
  BlockRealize_new iter_values predicate block = Ok r ->
  r = BlockRealize.mk iter_values predicate block /\
  length iter_values = length (Block.iter_vars block).
Proof.
  unfold BlockRealize_new.
  destruct (Nat.eqb _ _) eqn:E; [|discriminate].
  apply Nat.eqb_eq in E. intros [= <-]. auto.
Qed.

Lemma ICHECK_ok {St} c msg (s : St) u s' :
  ICHECK c msg s = Ok (u, s') -> c = true /\ s' = s.
Proof.
  unfold ICHECK. destruct c; [|discriminate]. intros [= _ <-]. auto.
Qed.

Lemma at_index_ok {A} (l : list A) i x : at_index l i = Ok x -> l !! i = Some x.
Proof. unfold at_index. destruct (l !! i); [congruence|discriminate]. Qed.

Lemma Downcast_IterMapExpr_ok {St} (m : IterMark) (s : St) e s' :
  Downcast_IterMapExpr m s = Ok (e, s') -> mark_source m = SrcIterMap e /\ s' = s.
Proof.
  unfold Downcast_IterMapExpr. destruct (mark_source m); [discriminate|].
  intros [= -> ->]. auto.
Qed.

(** ** The binding deriver *)

Lemma derive_binding_step_inv division pui reuse i iv b n0 b' n1 :
  derive_binding_step division pui reuse i iv b n0 = Ok (b', n1) ->
  (length (outer_iter_vars b) <= i)%nat ->
  exists di om im ob ib outer_iter alloc,
    division !! i = Some di /\ di !! 0%nat = Some om /\ di !! 1%nat = Some im /\
    mark_source om = SrcIterMap ob /\ mark_source im = SrcIterMap ib /\
    outer_iter_vars b' = outer_iter_vars b ++ [outer_iter] /\
    outer_bindings b' = outer_bindings b ++ [NormalizeIterMapToExpr ob] /\
    inner_iter_vars b' = inner_iter_vars b ++ option_list alloc /\
    inner_bindings b' =
      inner_bindings b ++ option_list (alloc ≫= fun _ => Some (NormalizeIterMapToExpr ib)) /\
    (exists s, block_var_subst b' = <[vid (var iv) := s]> (block_var_subst b) /\
               binding_algebra pui iv om im outer_iter alloc (Some s)).
Proof.
  intros Hstep Hlen. unfold derive_binding_step in Hstep.
  apply bind_ok in Hstep as (di & s1 & Hdi & Hstep).
  apply lift_result_ok in Hdi as [Hdi ->]. apply at_index_ok in Hdi.
  apply bind_ok in Hstep as (om & s1 & Hom & Hstep).
  apply lift_result_ok in Hom as [Hom ->]. apply at_index_ok in Hom.
  apply bind_ok in Hstep as (im & s1 & Him & Hstep).
  apply lift_result_ok in Him as [Him ->]. apply at_index_ok in Him.
  apply bind_ok in Hstep as (ob & s1 & Hob & Hstep).
  apply Downcast_IterMapExpr_ok in Hob as [Hob ->].
  apply bind_ok in Hstep as (ib & s1 & Hib & Hstep).
  apply Downcast_IterMapExpr_ok in Hib as [Hib ->].
  replace (Nat.ltb i (length (outer_iter_vars b))) with false in Hstep
    by (symmetry; apply Nat.ltb_ge; exact Hlen).
  rewrite andb_false_r in Hstep.
  unfold copy_with_suffix, fresh, bind, ret in Hstep. simpl in Hstep.
  set (outer_iter :=
         mkIterVar (RangeFromExtent (mark_extent om))
           (mkVar n0 (name_hint (var iv) +:+ "_o") (vdtype (var iv))) (iter_type iv))
    in *.
  destruct (is_one (mark_extent im)) eqn:Hie.
  - exists di, om, im, ob, ib, outer_iter, None.
    destruct (is_one (mark_extent om) && negb pui) eqn:Hz; simpl in Hstep;
      injection Hstep as <- <-; simpl; rewrite !app_nil_r;
      (repeat split; auto); eexists; (split; [reflexivity|]);
      unfold binding_algebra; simpl; rewrite Hie; (repeat split; auto); try discriminate.
    + intros Hn. exfalso. apply Hn. apply andb_true_iff in Hz as [? Hp].
      split; [assumption|]. destruct pui; [discriminate|reflexivity].
    + intros [Ho ->]. rewrite Ho in Hz. discriminate.
  - set (inner_iter :=
           mkIterVar (RangeFromExtent (mark_extent im))
             (mkVar (Datatypes.S n0) (name_hint (var iv) +:+ "_i") (vdtype (var iv)))
             (iter_type iv)) in *.
    exists di, om, im, ob, ib, outer_iter, (Some inner_iter).
    destruct (is_one (mark_extent om)) eqn:Hoe; simpl in Hstep;
      injection Hstep as <- <-; simpl;
      (repeat split; auto); eexists; (split; [reflexivity|]);
      unfold binding_algebra; simpl; rewrite Hie, Hoe; (repeat split; auto);
      try discriminate; intros _; exists inner_iter; repeat split; auto; discriminate.
Qed.

Lemma omap_id_cons {A} (x : option A) (l : list (option A)) :
  omap id (x :: l) = option_list x ++ omap id l.
Proof. destruct x; reflexivity. Qed.

Lemma derive_binding_loop_inv division pui reuse :
  forall iter_vars i b0 n0 b n1,
    derive_binding_loop division pui reuse i iter_vars b0 n0 = Ok (b, n1) ->
    length (outer_iter_vars b0) = i ->
    NoDup (map (fun iv => vid (var iv)) iter_vars) ->
    exists outers allocs,
      length outers = length iter_vars /\ length allocs = length iter_vars /\
      outer_iter_vars b = outer_iter_vars b0 ++ outers /\
      length (outer_bindings b) = (length (outer_bindings b0) + length iter_vars)%nat /\
      inner_iter_vars b = inner_iter_vars b0 ++ omap id allocs /\
      length (inner_bindings b) =
        (length (inner_bindings b0) + length (omap id allocs))%nat /\
      (forall k, k ∉ map (fun iv => vid (var iv)) iter_vars ->
                 block_var_subst b !! k = block_var_subst b0 !! k) /\
      (forall j iv,
         iter_vars !! j = Some iv ->
         exists di om im outer_iter alloc,
           division !! (i + j)%nat = Some di /\
           di !! 0%nat = Some om /\ di !! 1%nat = Some im /\
           outers !! j = Some outer_iter /\ allocs !! j = Some alloc /\
           binding_algebra pui iv om im outer_iter alloc
             (block_var_subst b !! vid (var iv))).
Proof.
  induction iter_vars as [|iv rest IH]; intros i b0 n0 b n1 Hloop Hlen Hnd; simpl in Hloop.
  - injection Hloop as <- <-. exists [], []. simpl. rewrite !app_nil_r.
    repeat split; auto. intros j iv Hj. rewrite lookup_nil in Hj. discriminate.
  - apply bind_ok in Hloop as (b1 & n' & Hstep & Hloop).
    apply derive_binding_step_inv in Hstep
      as (di & om & im & ob & ib & outer_iter & alloc & Hdi & Hom & Him & _ & _
          & Ho & Hob & Hi & Hib & s & Hs & Halg); [|lia].
    simpl in Hnd. apply NoDup_cons in Hnd as [Hnotin Hnd].
    destruct (IH (Datatypes.S i) b1 n' b n1 Hloop) as
      (outers & allocs & Hlo & Hla & Houter & Hobl & Hinner & Hibl & Hframe & Hall);
      [rewrite Ho, length_app; simpl; lia | exact Hnd |].
    exists (outer_iter :: outers), (alloc :: allocs).
    rewrite omap_id_cons. simpl.
    split; [lia|]. split; [lia|].
    split; [rewrite Houter, Ho, <- app_assoc; reflexivity|].
    split; [rewrite Hobl, Hob, length_app; simpl; lia|].
    split; [rewrite Hinner, Hi, <- app_assoc; reflexivity|].
    split; [rewrite Hibl, Hib, !length_app; destruct alloc; simpl; lia|].
    split.
    + intros k Hk. rewrite Hframe by (intros Hin; apply Hk; right; exact Hin).
      rewrite Hs. apply lookup_insert_ne. intros <-. apply Hk. left.
    + intros [|j] iv' Hj; simpl in Hj.
      * injection Hj as <-. exists di, om, im, outer_iter, alloc.
        rewrite Nat.add_0_r. do 5 (split; [auto|]).
        rewrite Hframe by exact Hnotin. rewrite Hs, lookup_insert_eq. exact Halg.
      * destruct (Hall j iv' Hj)
          as (di' & om' & im' & oi' & al' & G1 & G2 & G3 & G4 & G5 & G6).
        exists di', om', im', oi', al'.
        replace (i + Datatypes.S j)%nat with (Datatypes.S i + j)%nat by lia.
        do 5 (split; [auto|]). exact G6.
Qed.

(** C2. For every original block iterator [iv] (at position [i]) the
    deriver records in the returned map exactly: the constant 0 when the
    outer and inner extents are both 1 and unit iterators are not preserved;
    the outer iterator alone when the inner extent is 1 otherwise; the inner
    iterator alone when the inner extent is not 1 and the outer extent is 1;
    and [outer * inner_extent + inner] in the remaining case.  An inner
    iterator is allocated for [iv] if and only if the inner extent is not 1
    ([allocs] lists, per original iterator, the inner iterator allocated for
    it, and the inner iterators returned are those, in order). *)
Theorem DeriveBlockBinding_binding_algebra
    iter_vars division preserve_unit_iters reuse_outer n0 b n1 :
  DeriveBlockBinding iter_vars division (mkBindings [] [] [] [] ∅)
    preserve_unit_iters reuse_outer n0 = Ok (b, n1) ->
  NoDup (map (fun iv => vid (var iv)) iter_vars) ->
  exists allocs : list (option IterVar),
    length allocs = length iter_vars /\
    inner_iter_vars b = omap id allocs /\
    forall i iv,
      iter_vars !! i = Some iv ->
      exists di om im outer_iter alloc,
        division !! i = Some di /\ di !! 0%nat = Some om /\ di !! 1%nat = Some im /\
        outer_iter_vars b !! i = Some outer_iter /\
        allocs !! i = Some alloc /\
        let oe := mark_extent om in
        let ie := mark_extent im in
        let s := block_var_subst b !! vid (var iv) in
        (alloc <> None <-> is_one ie = false) /\
        (is_one ie = true -> is_one oe = true -> preserve_unit_iters = false ->
           s = Some (make_zero (dtype oe))) /\
        (is_one ie = true -> ~ (is_one oe = true /\ preserve_unit_iters = false) ->
           s = Some (EVar (var outer_iter))) /\
        (is_one ie = false ->
           exists inner_iter,
             alloc = Some inner_iter /\
             dom inner_iter = RangeFromExtent ie /\
             (is_one oe = true -> s = Some (EVar (var inner_iter))) /\
             (is_one oe = false ->
                s = Some (add (mul (EVar (var outer_iter)) ie) (EVar (var inner_iter))))).
Proof.
  intros Hd Hnd. unfold DeriveBlockBinding in Hd.
  apply bind_ok in Hd as (u & n' & Hchk & Hd).
  apply ICHECK_ok in Hchk as [_ ->]. simpl in Hd.
  apply derive_binding_loop_inv in Hd
    as (outers & allocs & Hlo & Hla & Houter & _ & Hinner & _ & _ & Hall); auto.
  simpl in Houter, Hinner.
  exists allocs. split; [exact Hla|]. split; [exact Hinner|].
  intros i iv Hiv.
  destruct (Hall i iv Hiv) as (di & om & im & oi & al & G1 & G2 & G3 & G4 & G5 & Halg).
  exists di, om, im, oi, al. simpl in G1. rewrite Houter.
  repeat (split; [assumption|]).
  destruct Halg as (_ & _ & _ & Hunit & Hnon). cbv zeta.
  destruct (is_one (mark_extent im)) eqn:Hie.
  - destruct (Hunit eq_refl) as (-> & Hz & Ho).
    split; [split; [congruence|discriminate]|].
    split; [intros _ Hoe Hp; apply Hz; auto|].
    split; [intros _ Hn; apply Ho; exact Hn|]. discriminate.
  - destruct (Hnon eq_refl) as (inner & -> & Hdom & _ & _ & Ha & Hb).
    split; [split; [reflexivity|discriminate]|].
    split; [discriminate|]. split; [discriminate|].
    intros _. exists inner. auto.
Qed.

(** ** The buffer regions of Tensorize *)

Lemma point_dims_spec indices_base :
  forall n i acc,
    (i + n <= length indices_base)%nat ->
    exists r,
      point_dims indices_base n i acc = Ok (acc ++ r) /\ length r = n /\
      forall k min,
        (k < n)%nat -> indices_base !! (i + k)%nat = Some min ->
        r !! k = Some (FromMinExtent min (make_const (dtype min) 1)).
Proof.
  induction n as [|n IH]; intros i acc Hle; simpl.
  - exists []. rewrite app_nil_r. repeat split; auto. intros; lia.
  - destruct (lookup_lt_is_Some_2 indices_base i) as [m Hm]; [lia|].
    unfold at_index. rewrite Hm. simpl.
    destruct (IH (Datatypes.S i) (acc ++ [FromMinExtent m (make_const (dtype m) 1)]))
      as (r & Hr & Hl & Hk); [lia|].
    exists (FromMinExtent m (make_const (dtype m) 1) :: r).
    rewrite Hr, <- app_assoc. simpl. split; [reflexivity|]. split; [lia|].
    intros [|k] min Hlt Hmin; simpl.
    + rewrite Nat.add_0_r, Hm in Hmin. injection Hmin as <-. reflexivity.
    + apply Hk; [lia|]. rewrite <- Hmin. f_equal. lia.
Qed.

Lemma region_dims_spec indices_base old_region offset :
  forall n i acc,
    (i + n <= length old_region)%nat ->
    (i + n + offset <= length indices_base)%nat ->
    exists r,
      region_dims indices_base old_region offset n i acc = Ok (acc ++ r) /\
      length r = n /\
      forall k min rg,
        (k < n)%nat ->
        indices_base !! (i + k + offset)%nat = Some min ->
        old_region !! (i + k)%nat = Some rg ->
        r !! k = Some (FromMinExtent min (cast (dtype min) (r_extent rg))).
Proof.
  induction n as [|n IH]; intros i acc Hle1 Hle2; simpl.
  - exists []. rewrite app_nil_r. repeat split; auto. intros; lia.
  - destruct (lookup_lt_is_Some_2 indices_base (i + offset)) as [m Hm]; [lia|].
    destruct (lookup_lt_is_Some_2 old_region i) as [rg0 Hrg]; [lia|].
    unfold at_index. rewrite Hm, Hrg. simpl.
    destruct (IH (Datatypes.S i)
                (acc ++ [FromMinExtent m (cast (dtype m) (r_extent rg0))]))
      as (r & Hr & Hl & Hk); [lia|lia|].
    exists (FromMinExtent m (cast (dtype m) (r_extent rg0)) :: r).
    rewrite Hr, <- app_assoc. simpl. split; [reflexivity|]. split; [lia|].
    intros [|k] min rg Hlt Hmin Hrg'; simpl.
    + rewrite Nat.add_0_r in Hmin, Hrg'. rewrite Hm in Hmin. rewrite Hrg in Hrg'.
      injection Hmin as <-. injection Hrg' as <-. reflexivity.
    + apply Hk; [lia| |].
      * rewrite <- Hmin. f_equal. lia.
      * rewrite <- Hrg'. f_equal. lia.
Qed.

Lemma match_region_inv {St} indices_base old_region (st : St) new_region st' :
  match_region indices_base old_region st = Ok (new_region, st') ->
  st' = st /\ region_matches indices_base old_region new_region.
Proof.
  unfold match_region. intros Hm.
  apply bind_ok in Hm as (u & s1 & Hchk & Hm).
  apply ICHECK_ok in Hchk as [Hoff ->]. apply Z.leb_le in Hoff.
  assert (Hle : (length old_region <= length indices_base)%nat) by lia.
  replace (Z.to_nat (Z.of_nat (length indices_base) - Z.of_nat (length old_region)))
    with (length indices_base - length old_region)%nat in Hm by lia.
  set (offset := (length indices_base - length old_region)%nat) in *.
  destruct (point_dims_spec indices_base offset 0%nat []) as (r1 & Hr1 & Hl1 & Hk1);
    [subst offset; lia|].
  destruct (region_dims_spec indices_base old_region offset (length old_region) 0%nat
              r1) as (r2 & Hr2 & Hl2 & Hk2); [lia|subst offset; lia|].
  apply bind_ok in Hm as (x & s1 & Hx & Hm).
  apply lift_result_ok in Hx as [Hx ->]. apply lift_result_ok in Hm as [Hm ->].
  rewrite Hr1 in Hx. simpl in Hx. injection Hx as <-.
  rewrite Hr2 in Hm. injection Hm as <-.
  split; [reflexivity|]. simpl. unfold region_matches. fold offset.
  split; [exact Hle|]. split; [rewrite length_app; subst offset; lia|]. split.
  - intros k min Hk Hmin. rewrite lookup_app_l by lia. apply Hk1; auto.
  - intros k min rg Hrg Hmin. rewrite lookup_app_r by lia.
    replace (offset + k - length r1)%nat with k by lia.
    apply Hk2; [eapply lookup_lt_Some; eauto| |exact Hrg].
    simpl. rewrite <- Hmin. f_equal. lia.
Qed.

Lemma map_at_ok {St V} (m : gmap nat V) k what (st : St) v st' :
  map_at m k what st = Ok (v, st') -> m !! k = Some v /\ st' = st.
Proof.
  unfold map_at. destruct (m !! k); [|discriminate]. intros [= -> ->]. auto.
Qed.

Lemma match_buffer_of_param_inv {St} intrin_impl cmp impl2cur impl2region param
    (st : St) m st' :
  match_buffer_of_param intrin_impl cmp impl2cur impl2region param st = Ok (m, st') ->
  st' = st /\
  exists impl cur old_region indices_base,
    buffer_map intrin_impl !! vid param = Some impl /\
    impl2cur !! buf_id impl = Some cur /\
    impl2region !! buf_id impl = Some old_region /\
    buffer_indices_ cmp !! buf_id cur = Some indices_base /\
    m = mkMatchBufferRegion impl (mkBufferRegion cur (region (mb_source m))) /\
    region_matches indices_base old_region (region (mb_source m)).
Proof.
  unfold match_buffer_of_param. intros Hm.
  apply bind_ok in Hm as (impl & s1 & Himpl & Hm). apply map_at_ok in Himpl as [Himpl ->].
  apply bind_ok in Hm as (cur & s1 & Hcur & Hm). apply map_at_ok in Hcur as [Hcur ->].
  apply bind_ok in Hm as (old & s1 & Hold & Hm). apply map_at_ok in Hold as [Hold ->].
  apply bind_ok in Hm as (idx & s1 & Hidx & Hm). apply map_at_ok in Hidx as [Hidx ->].
  apply bind_ok in Hm as (new & s1 & Hnew & Hm).
  apply match_region_inv in Hnew as [-> Hnew].
  injection Hm as <- <-. split; [reflexivity|].
  exists impl, cur, old, idx. simpl. auto 10.
Qed.

Lemma match_buffers_of_params_inv {St} intrin_impl cmp impl2cur impl2region :
  forall ps (st : St) ms st',
    match_buffers_of_params intrin_impl cmp impl2cur impl2region ps st = Ok (ms, st') ->
    st' = st /\ length ms = length ps /\
    forall i param,
      ps !! i = Some param ->
      exists m,
        ms !! i = Some m /\
        match_buffer_of_param intrin_impl cmp impl2cur impl2region param st = Ok (m, st).
Proof.
  induction ps as [|p rest IH]; intros st ms st' Hm; simpl in Hm.
  - injection Hm as <- <-. repeat split; auto. intros i param Hi.
    rewrite lookup_nil in Hi. discriminate.
  - apply bind_ok in Hm as (m & s1 & Hp & Hm).
    pose proof (match_buffer_of_param_inv _ _ _ _ _ _ _ _ Hp) as [-> _].
    apply bind_ok in Hm as (ms' & s2 & Hrest & Hm).
    destruct (IH _ _ _ Hrest) as (-> & Hl & Hall).
    injection Hm as <- <-. split; [reflexivity|]. simpl. split; [lia|].
    intros [|i] param Hi; simpl in Hi.
    + injection Hi as <-. exists m. auto.
    + apply Hall. exact Hi.
Qed.

Lemma make_impl2cur_values {St} cmp :
  forall pairs m0 (st : St) m st',
    make_impl2cur cmp pairs m0 st = Ok (m, st') ->
    forall k cur,
      m !! k = Some cur ->
      m0 !! k = Some cur \/ exists kd, rhs_buffer_map_ cmp !! kd = Some cur.
Proof.
  induction pairs as [|[k0 [impl desc0]] rest IH]; intros m0 st m st' Hm k cur Hk;
    simpl in Hm.
  - injection Hm as <- <-. left. exact Hk.
  - apply bind_ok in Hm as (c & s1 & Hc & Hm).
    destruct (rhs_buffer_map_ cmp !! buf_id desc0) as [c'|] eqn:Hd; [|discriminate].
    injection Hc as <- <-.
    destruct (IH _ _ _ _ Hm k cur Hk) as [Hin|Hex]; [|right; exact Hex].
    destruct (decide (k0 = k)) as [->|Hne].
    + rewrite lookup_insert_eq in Hin. injection Hin as <-. right. eauto.
    + rewrite lookup_insert_ne in Hin by exact Hne. left. exact Hin.
Qed.

(** Where the entries of [impl2cur] come from: the comparator's image of
    the desc buffer paired with the impl buffer. *)
Lemma make_impl2cur_source {St} cmp :
  forall pairs m0 (st : St) m st',
    make_impl2cur cmp pairs m0 st = Ok (m, st') ->
    forall k cur,
      m !! k = Some cur ->
      m0 !! k = Some cur \/
      exists impl desc,
        (k, (impl, desc)) ∈ pairs /\ rhs_buffer_map_ cmp !! buf_id desc = Some cur.
Proof.
  induction pairs as [|[k0 [impl desc0]] rest IH]; intros m0 st m st' Hm k cur Hk;
    simpl in Hm.
  - injection Hm as <- <-. left. exact Hk.
  - apply bind_ok in Hm as (c & s1 & Hc & Hm).
    destruct (rhs_buffer_map_ cmp !! buf_id desc0) as [c'|] eqn:Hd; [|discriminate].
    injection Hc as <- <-.
    destruct (IH _ _ _ _ Hm k cur Hk) as [Hin|(impl' & desc' & Hin & Hr)].
    + destruct (decide (k0 = k)) as [->|Hne].
      * rewrite lookup_insert_eq in Hin. injection Hin as <-. right.
        exists impl, desc0. split; [left|exact Hd].
      * rewrite lookup_insert_ne in Hin by exact Hne. left. exact Hin.
    + right. exists impl', desc'. split; [right; exact Hin|exact Hr].
Qed.

(** The entries of [impl2desc] pair the buffers of the parameters at one
    position of the two functions, under the identity of the impl buffer. *)
Lemma make_impl2desc_source {St} intrin_desc intrin_impl :
  forall n i m0 (st : St) m st',
    make_impl2desc intrin_desc intrin_impl n i m0 st = Ok (m, st') ->
    forall k impl desc,
      m !! k = Some (impl, desc) ->
      m0 !! k = Some (impl, desc) \/
      (k = buf_id impl /\
       exists j dp ip,
         params intrin_desc !! j = Some dp /\ params intrin_impl !! j = Some ip /\
         buffer_map intrin_desc !! vid dp = Some desc /\
         buffer_map intrin_impl !! vid ip = Some impl).
Proof.
  induction n as [|n IH]; intros i m0 st m st' Hm k impl desc Hk; simpl in Hm.
  - injection Hm as <- <-. left. exact Hk.
  - apply bind_ok in Hm as (dp & s1 & Hdp & Hm).
    apply lift_result_ok in Hdp as [Hdp ->]. apply at_index_ok in Hdp.
    apply bind_ok in Hm as (ip & s1 & Hip & Hm).
    apply lift_result_ok in Hip as [Hip ->]. apply at_index_ok in Hip.
    apply bind_ok in Hm as (d & s1 & Hd & Hm). apply map_at_ok in Hd as [Hd ->].
    apply bind_ok in Hm as (im & s1 & Him & Hm). apply map_at_ok in Him as [Him ->].
    destruct (IH _ _ _ _ _ Hm k impl desc Hk) as [Hin|Hnew]; [|right; exact Hnew].
    destruct (decide (buf_id im = k)) as [<-|Hne].
    + rewrite lookup_insert_eq in Hin. injection Hin as <- <-. right.
      split; [reflexivity|]. exists i, dp, ip. auto.
    + rewrite lookup_insert_ne in Hin by exact Hne. left. exact Hin.
Qed.

Lemma Tensorize_rewrite_inv self sref intrin pui n0 r old n1 :
  Tensorize_rewrite self sref intrin pui n0 = Ok ((r, old), n1) ->
  exists r0 nmid cmp impl2desc (s1 s2 : nat) impl2cur (s3 s4 : nat) impl_realize,
    Tensorize_target self sref pui n0 = Ok ((r0, old), nmid) /\
    0 < index_dtype_bits_of (BlockRealize.block r0) /\
    let intrin_impl :=
      IndexDataTypeNormalizer_Rewrite
        (DInt (index_dtype_bits_of (BlockRealize.block r0))) (DeepCopy (impl intrin)) in
    let impl_block := BlockRealize.block impl_realize in
    Comparator_VisitStmt (st_mod self) r0 (func_body (desc intrin)) = Ok cmp /\
    make_impl2cur cmp (map_to_list impl2desc) ∅ s1 = Ok (impl2cur, s2) /\
    func_body intrin_impl = SBlockRealize impl_realize /\
    match_buffers_of_params intrin_impl cmp impl2cur
      (emplace_regions (Block.writes impl_block)
         (emplace_regions (Block.reads impl_block) ∅))
      (params intrin_impl) s3 = Ok (Block.match_buffers (BlockRealize.block r), s4) /\
    Block.body (BlockRealize.block r) = Block.body impl_block /\
    BlockRealize.iter_values r = BlockRealize.iter_values r0 /\
    BlockRealize.predicate r = BlockRealize.predicate r0 /\
    Block.iter_vars (BlockRealize.block r) = Block.iter_vars (BlockRealize.block r0) /\
    exists s0 s0' : nat,
      make_impl2desc (desc intrin) intrin_impl (length (params (desc intrin))) 0%nat ∅ s0
        = Ok (impl2desc, s0').
Proof.
  unfold Tensorize_rewrite. intros Hrw.
  apply bind_ok in Hrw as ([r0 old0] & nmid & Htgt & Hrw).
  apply bind_ok in Hrw as (intrin_impl & s1 & Hnorm & Hrw).
  unfold normalized_impl in Hnorm.
  apply bind_ok in Hnorm as (u & s0 & Hchk & Hnorm).
  apply ICHECK_ok in Hchk as [Hw ->]. apply Z.ltb_lt in Hw.
  injection Hnorm as <- <-.
  apply bind_ok in Hrw as (cmp & s1 & Hcmp & Hrw).
  apply lift_result_ok in Hcmp as [Hcmp ->].
  apply bind_ok in Hrw as (u1 & s1 & Hchk & Hrw). apply ICHECK_ok in Hchk as [_ ->].
  apply bind_ok in Hrw as (impl2desc & s1 & Hi2d & Hrw).
  apply bind_ok in Hrw as (impl2cur & s2 & Hi2c & Hrw).
  apply bind_ok in Hrw as (impl_block & s3 & Hblk & Hrw).
  destruct (func_body _) as [| | |impl_realize| | |] eqn:Hbody in Hblk; try discriminate.
  injection Hblk as <- <-.
  apply bind_ok in Hrw as (mbs & s4 & Hmbs & Hrw).
  apply bind_ok in Hrw as (n & s5 & Hn & Hrw).
  injection Hrw as <- <- <-.
  exists r0, nmid, cmp, impl2desc, s1, s2, impl2cur, s2, s4, impl_realize.
  simpl. rewrite Hbody. do 10 (split; [auto; fail|]). eauto.
Qed.

Lemma f_update_max_dtype_bits_from_region_fold acc regions :
  f_update_max_dtype_bits_from_region acc regions =
    foldl Z.max acc (map (fun r => bits (dtype (r_min r))) (concat (map region regions))).
Proof.
  unfold f_update_max_dtype_bits_from_region. revert acc.
  induction regions as [|br rest IH]; intros acc; simpl; [reflexivity|].
  rewrite IH, map_app, foldl_app. f_equal.
  generalize (region br). intros l. revert acc.
  induction l as [|x l IHl]; intros acc; simpl; [reflexivity|]. apply IHl.
Qed.

Lemma index_dtype_bits_of_fold block :
  index_dtype_bits_of block = foldl Z.max (-1) (region_bound_bits block).
Proof.
  unfold index_dtype_bits_of, region_bound_bits.
  rewrite !f_update_max_dtype_bits_from_region_fold.
  rewrite map_app, concat_app, map_app, foldl_app. reflexivity.
Qed.

Lemma foldl_max_spec (l : list Z) :
  forall a,
    a <= foldl Z.max a l /\
    (forall x, x ∈ l -> x <= foldl Z.max a l) /\
    (foldl Z.max a l = a \/ foldl Z.max a l ∈ l).
Proof.
  induction l as [|y l IH]; intros a; simpl.
  - split; [lia|]. split; [|left; reflexivity]. intros x Hx. inversion Hx.
  - destruct (IH (Z.max a y)) as (Hge & Hall & Hin).
    split; [lia|]. split.
    + intros x Hx. apply elem_of_cons in Hx as [->|Hx]; [lia|auto].
    + destruct Hin as [Heq|Hin]; [|right; right; exact Hin].
      destruct (Z.max_spec a y) as [[_ Hm]|[_ Hm]]; rewrite Hm in *.
      * right. rewrite Heq. left.
      * left. exact Heq.
Qed.

(** C8. Tensorize takes as index width the maximum of the bit widths of the
    index types of the region bounds of the reads and writes of the matched
    block (with floor -1 when there is none), fails with a fatal check when
    that width is not positive (in particular when there is no bound at
    all), and otherwise splices the body of a deep copy of the intrinsic's
    implementation rewritten to that width; the intrinsic itself is only
    read. *)
Theorem Tensorize_index_width self sref intrin preserve_unit_iters n0 r0 old nmid :
  Tensorize_target self sref preserve_unit_iters n0 = Ok ((r0, old), nmid) ->
  let bounds := region_bound_bits (BlockRealize.block r0) in
  let w := index_dtype_bits_of (BlockRealize.block r0) in
  (forall b, b ∈ bounds -> b <= w) /\
  (w = -1 \/ w ∈ bounds) /\
  (bounds = [] -> w = -1) /\
  (w <= 0 ->
     Tensorize_rewrite self sref intrin preserve_unit_iters n0 =
       Err (InternalError "index_dtype_bits > 0") /\
     Tensorize self sref intrin preserve_unit_iters n0 =
       Err (InternalError "index_dtype_bits > 0")) /\
  (forall r old' n1,
     Tensorize_rewrite self sref intrin preserve_unit_iters n0 = Ok ((r, old'), n1) ->
     0 < w /\
     exists impl_realize,
       func_body (IndexDataTypeNormalizer_Rewrite (DInt w) (DeepCopy (impl intrin))) =
         SBlockRealize impl_realize /\
       Block.body (BlockRealize.block r) = Block.body (BlockRealize.block impl_realize)).
Proof.
  intros Htgt bounds w.
  pose proof (index_dtype_bits_of_fold (BlockRealize.block r0)) as Hfold.
  fold w bounds in Hfold.
  destruct (foldl_max_spec bounds (-1)) as (_ & Hall & Hin). rewrite <- Hfold in Hall, Hin.
  split; [exact Hall|]. split; [exact Hin|].
  split; [intros Hb; rewrite Hfold, Hb; reflexivity|].
  split.
  - intros Hw.
    assert (Hrw : Tensorize_rewrite self sref intrin preserve_unit_iters n0 =
                  Err (InternalError "index_dtype_bits > 0")).
    { unfold Tensorize_rewrite, bind at 1. rewrite Htgt.
      unfold bind at 1. unfold normalized_impl, bind at 1. fold w.
      replace (Z.ltb 0 w) with false by (symmetry; apply Z.ltb_ge; exact Hw).
      reflexivity. }
    split; [exact Hrw|]. unfold Tensorize, bind at 1. rewrite Hrw. reflexivity.
  - intros r old' n1 Hrw.
    apply Tensorize_rewrite_inv in Hrw
      as (r0' & nmid' & cmp & i2d & s1 & s2 & i2c & s3 & s4 & impl_realize & Htgt' & Hw
          & _ & _ & Hbody & _ & Hb & _).
    rewrite Htgt in Htgt'. injection Htgt' as <- <- <-.
    split; [exact Hw|]. exists impl_realize. split; [exact Hbody|exact Hb].
Qed.

(** C4. For each parameter of the implementation of the intrinsic (the
    deep copy of [impl intrin], rewritten to the index width of the block)
    Tensorize emits one MatchBufferRegion, of the buffer of that parameter
    against a region of the current buffer: the buffer that the comparator
    (run on the block and the body of [desc intrin]) maps the desc buffer of
    the same parameter position to.  The region has as many dimensions as
    the current buffer has (the comparator records one base index per
    dimension); with [offset = |indices_base| - |old_region|], dimension
    [k < offset] is [(indices_base[k], 1)] and dimension [offset + k] is
    [(indices_base[offset + k], cast(dtype of that index, old_region[k].extent))]. *)
Theorem Tensorize_match_buffer_regions
    self sref intrin preserve_unit_iters n0 r0 nmid r old n1 :
  Tensorize_target self sref preserve_unit_iters n0 = Ok ((r0, old), nmid) ->
  (forall cmp,
     Comparator_VisitStmt (st_mod self) r0 (func_body (desc intrin)) = Ok cmp ->
     comparator_indices_per_dimension cmp) ->
  Tensorize_rewrite self sref intrin preserve_unit_iters n0 = Ok ((r, old), n1) ->
  let intrin_impl :=
    IndexDataTypeNormalizer_Rewrite
      (DInt (index_dtype_bits_of (BlockRealize.block r0))) (DeepCopy (impl intrin)) in
  exists cmp impl_realize,
    Comparator_VisitStmt (st_mod self) r0 (func_body (desc intrin)) = Ok cmp /\
    func_body intrin_impl = SBlockRealize impl_realize /\
    length (Block.match_buffers (BlockRealize.block r)) = length (params intrin_impl) /\
    forall i param,
      params intrin_impl !! i = Some param ->
      exists m impl cur old_region indices_base,
        Block.match_buffers (BlockRealize.block r) !! i = Some m /\
        buffer_map intrin_impl !! vid param = Some impl /\
        mb_buffer m = impl /\ buffer (mb_source m) = cur /\
        (exists j dp ip impl_j desc_j,
           params (desc intrin) !! j = Some dp /\
           params intrin_impl !! j = Some ip /\
           buffer_map (desc intrin) !! vid dp = Some desc_j /\
           buffer_map intrin_impl !! vid ip = Some impl_j /\
           buf_id impl_j = buf_id impl /\
           rhs_buffer_map_ cmp !! buf_id desc_j = Some cur) /\
        buffer_indices_ cmp !! buf_id cur = Some indices_base /\
        emplace_regions (Block.writes (BlockRealize.block impl_realize))
          (emplace_regions (Block.reads (BlockRealize.block impl_realize)) ∅)
          !! buf_id impl = Some old_region /\
        length (region (mb_source m)) = length (shape cur) /\
        let offset := (length indices_base - length old_region)%nat in
        (forall k min,
           (k < offset)%nat -> indices_base !! k = Some min ->
           region (mb_source m) !! k = Some (FromMinExtent min (make_const (dtype min) 1))) /\
        (forall k min rg,
           old_region !! k = Some rg -> indices_base !! (offset + k)%nat = Some min ->
           region (mb_source m) !! (offset + k)%nat =
             Some (FromMinExtent min (cast (dtype min) (r_extent rg)))).
Proof.
  intros Htgt0 Hcmp Hrw.
  apply Tensorize_rewrite_inv in Hrw
    as (r0' & nmid' & cmp & i2d & s1 & s2 & i2c & s3 & s4 & impl_realize & Htgt & Hw
        & Hc & Hi2c & Hbody & Hmbs & _ & _ & _ & _ & (s0 & s0' & Hi2d)).
  rewrite Htgt0 in Htgt. injection Htgt as <- <-.
  cbv zeta. exists cmp, impl_realize. split; [exact Hc|]. split; [exact Hbody|].
  apply match_buffers_of_params_inv in Hmbs as (_ & Hlen & Hall).
  split; [exact Hlen|].
  intros i param Hparam. destruct (Hall i param Hparam) as (m & Hm & Hone).
  apply match_buffer_of_param_inv in Hone
    as (_ & ibuf & cur & old_region & idx & Himpl & Hcur & Hold & Hidx & Heq & Hreg).
  exists m, ibuf, cur, old_region, idx.
  split; [exact Hm|]. split; [exact Himpl|].
  split; [rewrite Heq; reflexivity|]. split; [rewrite Heq; reflexivity|].
  assert (Hsrc : exists j dp ip impl_j desc_j,
             params (desc intrin) !! j = Some dp /\
             params (IndexDataTypeNormalizer_Rewrite
                       (DInt (index_dtype_bits_of (BlockRealize.block r0)))
                       (DeepCopy (impl intrin))) !! j = Some ip /\
             buffer_map (desc intrin) !! vid dp = Some desc_j /\
             buffer_map (IndexDataTypeNormalizer_Rewrite
                           (DInt (index_dtype_bits_of (BlockRealize.block r0)))
                           (DeepCopy (impl intrin))) !! vid ip = Some impl_j /\
             buf_id impl_j = buf_id ibuf /\
             rhs_buffer_map_ cmp !! buf_id desc_j = Some cur).
  { destruct (make_impl2cur_source _ _ _ _ _ _ Hi2c _ _ Hcur)
      as [Hemp|(impl_j & desc_j & Hin & Hrhs)].
    - rewrite lookup_empty in Hemp. discriminate.
    - apply elem_of_map_to_list in Hin.
      destruct (make_impl2desc_source _ _ _ _ _ _ _ _ Hi2d _ _ _ Hin)
        as [Hemp|(Hk & j & dp & ip & Hdp & Hip & Hd & Hi)].
      + rewrite lookup_empty in Hemp. discriminate.
      + exists j, dp, ip, impl_j, desc_j. auto 10. }
  split; [exact Hsrc|].
  split; [exact Hidx|]. split; [exact Hold|].
  destruct Hreg as (Hle & Hlen' & Hfirst & Hrest).
  split.
  - rewrite Hlen'.
    destruct Hsrc as (j & dp & ip & impl_j & desc_j & _ & _ & _ & _ & _ & Hrhs).
    exact (Hcmp _ Hc _ _ _ Hrhs Hidx).
  - split; [exact Hfirst|exact Hrest].
Qed.

(** ** Single-loop Blockize *)

Lemma with_fresh_ok {A} (m : M nat A) f a f' :
  with_fresh m f = Ok (a, f') ->
  m (next_id f) = Ok (a, next_id f') /\
  block_sref_reuse f' = block_sref_reuse f /\ analyzer f' = analyzer f.
Proof.
  unfold with_fresh, zoom. destruct (m (next_id f)) as [[a' n]|]; [|discriminate].
  intros [= <- <-]. simpl. auto.
Qed.

Lemma back_ok {St A} (l : list A) (s : St) x s' :
  back l s = Ok (x, s') -> last l = Some x /\ s' = s.
Proof. unfold back. destruct (last l); [|discriminate]. intros [= -> ->]. auto. Qed.

Lemma BlockizeImpl_inv self loop_sref pui f0 r f1 :
  BlockizeImpl self loop_sref pui f0 = Ok (r, f1) ->
  exists (t : BlockizeSteps) inner_predicate,
    let block := BlockRealize.block (s_block_realize t) in
    CheckGetSingleChildBlockRealizeOnSRefTree self loop_sref = Ok (s_block_realize t) /\
    stmt2ref self !! Block.node block = Some (s_block_sref t) /\
    SubspaceDivide (s_block_realize t) (s_block_sref t) loop_sref [] (analyzer f0) pui false
      = Ok (s_loops t, s_division t) /\
    s_division t <> [] /\
    (exists n, DeriveBlockBinding (Block.iter_vars block) (s_division t)
                 (mkBindings [] [] [] [] ∅) pui false (next_id f0)
               = Ok (s_bindings t, n)) /\
    (exists fa fb c, Substitute_block block (block_var_subst (s_bindings t)) fa
                     = Ok ((s_block_subst t, c), fb)) /\
    (exists n n', GenerateInner (s_has_outer_reduction t) (inner_iter_vars (s_bindings t))
                    (inner_bindings (s_bindings t)) inner_predicate (s_block_subst t) n
                  = Ok (s_inner_realize t, n')) /\
    (exists n n', MakeLoopNest (SBlockRealize (s_inner_realize t)) (s_loops t) n
                  = Ok (Block.body (BlockRealize.block r), n')) /\
    match Block.init (s_block_subst t) with
    | Some i =>
        exists stmt n n',
          GenerateOuterInit i (s_inner_realize t) (s_loops t)
            (Block.name_hint (s_block_subst t) +:+ "_init") n = Ok (stmt, n') /\
          Block.init (BlockRealize.block r) = Some stmt
    | None => Block.init (BlockRealize.block r) = None
    end /\
    BlockRealize.iter_values r = outer_bindings (s_bindings t) /\
    Block.iter_vars (BlockRealize.block r) = outer_iter_vars (s_bindings t) /\
    Block.name_hint (BlockRealize.block r) = Block.name_hint (s_block_subst t) +:+ "_o" /\
    BlockRealize.predicate (s_inner_realize t) = inner_predicate.
Proof.
  unfold BlockizeImpl. intros Hrun.
  apply bind_ok in Hrun as (u0 & fa & Hfor & Hrun).
  assert (fa = f0) as ->.
  { destruct (sref_stmt loop_sref); try discriminate. injection Hfor as _ <-. reflexivity. }
  clear Hfor u0.
  apply bind_ok in Hrun as (block_realize & fa & Hchk & Hrun).
  apply lift_result_ok in Hchk as [Hchk ->].
  apply bind_ok in Hrun as (block_sref & fa & Hsref & Hrun).
  unfold stmt2ref_at in Hsref.
  destruct (stmt2ref self !! _) as [bs|] eqn:Hs2r; [|discriminate].
  injection Hsref as <- <-.
  apply bind_ok in Hrun as (f & fa & Hget & Hrun). injection Hget as <- <-.
  apply bind_ok in Hrun as ([loops division] & fa & Hdiv & Hrun).
  apply lift_result_ok in Hdiv as [Hdiv ->].
  apply bind_ok in Hrun as (u1 & fa & Hemp & Hrun).
  assert (division <> [] /\ fa = f0) as [Hne ->].
  { destruct division; simpl in Hemp.
    - apply bind_ok in Hemp as (x & fx & _ & Hthrow). discriminate.
    - injection Hemp as _ <-. split; [discriminate|reflexivity]. }
  clear Hemp u1.
  apply bind_ok in Hrun as (last_division & fa & Hlast & Hrun).
  apply back_ok in Hlast as [Hlast ->].
  apply bind_ok in Hrun as (opm & fa & Hopm & Hrun).
  apply lift_result_ok in Hopm as [Hopm ->].
  apply bind_ok in Hrun as (ipm & fa & Hipm & Hrun).
  apply lift_result_ok in Hipm as [Hipm ->].
  apply bind_ok in Hrun as (b & fa & Hb & Hrun).
  apply with_fresh_ok in Hb as (Hb & Hreuse_a & Hana_a).
  apply bind_ok in Hrun as (u2 & fb & _ & Hrun).
  apply bind_ok in Hrun as ([block_subst c] & fc & Hsub & Hrun).
  apply bind_ok in Hrun as (inner_realize & fd & Hinner & Hrun).
  apply with_fresh_ok in Hinner as (Hinner & Hreuse_d & Hana_d).
  apply bind_ok in Hrun as (u3 & fe & Hset & Hrun).
  unfold reuse_Set, modify in Hset. injection Hset as _ <-.
  apply bind_ok in Hrun as (reads & ff & Hreads & Hrun).
  apply bind_ok in Hrun as (writes & fg & Hwrites & Hrun).
  apply bind_ok in Hrun as (body & fh & Hbody & Hrun).
  apply with_fresh_ok in Hbody as (Hbody & Hreuse_h & Hana_h).
  apply bind_ok in Hrun as (init & fi & Hinit & Hrun).
  apply bind_ok in Hrun as (n & fj & Hn & Hrun).
  apply lift_result_ok in Hrun as [Hrun <-].
  apply BlockRealize_new_ok in Hrun as [-> _].
  exists (mkSteps block_realize bs loops division b block_subst inner_realize),
    (mark_extent ipm).
  simpl. unfold s_has_outer_reduction. simpl.
  split; [exact Hchk|]. split; [exact Hs2r|]. split; [exact Hdiv|].
  split; [exact Hne|]. split; [eauto|]. split; [eauto|]. split; [eauto|].
  split; [eauto|]. split.
  - destruct (Block.init block_subst) as [i|].
    + apply bind_ok in Hinit as (stmt & fk & Hgen & Hret).
      apply with_fresh_ok in Hgen as (Hgen & _ & _). injection Hret as <- <-. eauto.
    + injection Hinit as <- <-. reflexivity.
  - repeat (split; [reflexivity|]).
    unfold GenerateInner, bind, fresh, ret in Hinner.
    apply lift_result_ok in Hinner as [Hinner _].
    apply BlockRealize_new_ok in Hinner as [-> _]. reflexivity.
Qed.

Lemma GenerateInner_ok red ivs vals pred block n r n' :
  GenerateInner red ivs vals pred block n = Ok (r, n') ->
  n' = Datatypes.S n /\
  BlockRealize.iter_values r = vals /\ BlockRealize.predicate r = pred /\
  Block.iter_vars (BlockRealize.block r) = ivs /\
  Block.init (BlockRealize.block r) = None /\
  Block.body (BlockRealize.block r) = Block.body block /\
  Block.writes (BlockRealize.block r) = Block.writes block /\
  Block.reads (BlockRealize.block r) =
    (if red then Block.writes block ++ Block.reads block else Block.reads block) /\
  length vals = length ivs.
Proof.
  unfold GenerateInner, bind, fresh, ret. intros Hrun.
  apply lift_result_ok in Hrun as [Hrun <-].
  apply BlockRealize_new_ok in Hrun as [-> Hlen]. simpl in *. auto 12.
Qed.

Lemma has_reduction_spec ivs :
  has_reduction ivs = true <-> exists iv, iv ∈ ivs /\ iter_type iv = kCommReduce.
Proof.
  unfold has_reduction. rewrite existsb_exists. split.
  - intros (iv & Hin & Hd). exists iv. split; [apply list_elem_of_In; exact Hin|].
    apply bool_decide_eq_true in Hd. exact Hd.
  - intros (iv & Hin & Hd). exists iv. split; [apply list_elem_of_In; exact Hin|].
    apply bool_decide_eq_true. exact Hd.
Qed.

(** C6. In single-loop Blockize the reads of the generated inner block are
    the writes of the substituted block followed by its reads exactly when
    the substituted block has an init and some outer iterator is a
    reduction iterator; otherwise they are the reads of the substituted
    block, unchanged.  (The inner BlockRealize is the statement inside the
    loop nest that is the body of the outer block.) *)
Theorem BlockizeImpl_inner_reads self loop_sref preserve_unit_iters f0 r f1 :
  BlockizeImpl self loop_sref preserve_unit_iters f0 = Ok (r, f1) ->
  exists block_realize block_subst inner_realize loops,
    CheckGetSingleChildBlockRealizeOnSRefTree self loop_sref = Ok block_realize /\
    (exists sub fa fb c,
       Substitute_block (BlockRealize.block block_realize) sub fa
         = Ok ((block_subst, c), fb)) /\
    (exists n n', MakeLoopNest (SBlockRealize inner_realize) loops n
                  = Ok (Block.body (BlockRealize.block r), n')) /\
    let has_outer_reduction :=
      is_Some (Block.init block_subst) /\
      exists iv, iv ∈ Block.iter_vars (BlockRealize.block r) /\
                 iter_type iv = kCommReduce in
    let inner_block := BlockRealize.block inner_realize in
    Block.writes inner_block = Block.writes block_subst /\
    (has_outer_reduction ->
       Block.reads inner_block = Block.writes block_subst ++ Block.reads block_subst) /\
    (~ has_outer_reduction -> Block.reads inner_block = Block.reads block_subst) /\
    (Block.writes block_subst <> [] ->
       (Block.reads inner_block = Block.writes block_subst ++ Block.reads block_subst
        <-> has_outer_reduction)).
Proof.
  intros Hrun.
  apply BlockizeImpl_inv in Hrun
    as (t & ipred & Hchk & _ & _ & _ & _ & Hsub & (n & n' & Hinner) & Hnest & _ & _
        & Hivs & _).
  exists (s_block_realize t), (s_block_subst t), (s_inner_realize t), (s_loops t).
  split; [exact Hchk|]. split; [destruct Hsub as (fa & fb & c & Hsub); eauto|].
  split; [exact Hnest|]. cbv zeta. rewrite Hivs.
  destruct (GenerateInner_ok _ _ _ _ _ _ _ _ Hinner)
    as (_ & _ & _ & _ & _ & _ & Hw & Hrd & _).
  assert (Hiff : s_has_outer_reduction t = true <->
                 is_Some (Block.init (s_block_subst t)) /\
                 exists iv, iv ∈ outer_iter_vars (s_bindings t) /\
                            iter_type iv = kCommReduce).
  { unfold s_has_outer_reduction. destruct (Block.init (s_block_subst t)) as [i|].
    - rewrite has_reduction_spec. split; [intros Hx; split; [eauto|exact Hx]|tauto].
    - split; [discriminate|]. intros [[x Hx] _]. discriminate. }
  split; [exact Hw|].
  destruct (s_has_outer_reduction t) eqn:Hred.
  - split; [intros _; exact Hrd|]. split; [intros Hn; exfalso; apply Hn, Hiff; reflexivity|].
    intros _. split; [intros _; apply Hiff; reflexivity|intros _; exact Hrd].
  - assert (Hnot : ~ (is_Some (Block.init (s_block_subst t)) /\
                      exists iv, iv ∈ outer_iter_vars (s_bindings t) /\
                                 iter_type iv = kCommReduce)).
    { intros Hx. apply Hiff in Hx. discriminate. }
    split; [intros Hx; exfalso; exact (Hnot Hx)|]. split; [intros _; exact Hrd|].
    intros Hne. split; [|intros Hx; exfalso; exact (Hnot Hx)].
    intros Heq. exfalso. rewrite Hrd in Heq.
    apply (f_equal length) in Heq. rewrite length_app in Heq.
    destruct (Block.writes (s_block_subst t)); [congruence|simpl in Heq; lia].
Qed.

(** ** The init subtree *)

Lemma append_empty_r (s : string) : s +:+ "" = s.
Proof.
  induction s as [|c s IH]; [reflexivity|].
  change (String c (s +:+ "") = String c s). f_equal. exact IH.
Qed.

Lemma init_iters_loop_spec block_init :
  forall iters acc n0 it n1,
    init_iters_loop block_init iters acc n0 = Ok (it, n1) ->
    init_iter_values it =
      init_iter_values acc ++ map snd (filter (init_selected block_init) iters) /\
    exists news,
      init_iter_vars it = init_iter_vars acc ++ news /\
      Forall2 init_iter_copy news (filter (init_selected block_init) iters).
Proof.
  induction iters as [|[iv val] rest IH]; intros acc n0 it n1 Hrun; simpl in Hrun.
  - injection Hrun as <- <-. rewrite app_nil_r. split; [reflexivity|].
    exists []. rewrite app_nil_r. split; [reflexivity|constructor].
  - destruct (decide (init_selected block_init (iv, val))) as [Hsel|Hsel].
    + rewrite filter_cons_True by exact Hsel.
      destruct Hsel as [Ht Hu]. simpl in Ht, Hu. rewrite Hu in Hrun.
      rewrite bool_decide_eq_true_2 in Hrun by exact Ht. simpl in Hrun.
      apply bind_ok in Hrun as (v & n' & Hv & Hrun).
      unfold copy_with_suffix, bind, fresh, ret in Hv. injection Hv as <- <-.
      match type of Hrun with
      | init_iters_loop _ _ (mkInitIters _ (_ ++ [?ni]) _) _ = _ =>
          set (new_iter := ni) in *
      end.
      apply IH in Hrun as (Hvals & news & Hvars & Hall). simpl in Hvals, Hvars.
      split; [rewrite Hvals, <- app_assoc; reflexivity|].
      exists (new_iter :: news). split; [rewrite Hvars, <- app_assoc; reflexivity|].
      constructor; [|exact Hall]. subst new_iter. repeat split.
    + rewrite filter_cons_False by exact Hsel.
      assert (bool_decide (iter_type iv = kDataPar) && UsesVar_stmt block_init (var iv)
              = false) as Hf.
      { apply not_true_is_false. intros Hc. apply andb_true_iff in Hc as [Ha Hb].
        apply Hsel. split; [apply bool_decide_eq_true in Ha; exact Ha|exact Hb]. }
      rewrite Hf in Hrun. apply IH in Hrun. exact Hrun.
Qed.

Lemma init_loops_loop_spec iter_values :
  forall loops stmt sm n0 stmt' sm' n1,
    init_loops_loop iter_values loops stmt sm n0 = Ok ((stmt', sm'), n1) ->
    exists copies,
      Forall2 loop_copy copies (filter (is_init_loop iter_values) loops) /\
      strip_loops stmt' =
        (reverse copies ++ (strip_loops stmt).1, (strip_loops stmt).2).
Proof.
  induction loops as [|loop rest IH]; intros stmt sm n0 stmt' sm' n1 Hrun; simpl in Hrun.
  - injection Hrun as <- <- <-. exists []. split; [constructor|].
    simpl. destruct (strip_loops stmt); reflexivity.
  - destruct (decide (is_init_loop iter_values loop)) as [Hsel|Hsel].
    + rewrite filter_cons_True by exact Hsel.
      unfold is_init_loop in Hsel. rewrite Hsel in Hrun.
      apply bind_ok in Hrun as (n & n' & Hn & Hrun). injection Hn as <- <-.
      apply bind_ok in Hrun as (v & n'' & Hv & Hrun).
      unfold copy_with_suffix, bind, fresh, ret in Hv. injection Hv as <- <-.
      match type of Hrun with
      | init_loops_loop _ _ (SFor ?nl) _ _ = _ => set (new_loop := nl) in *
      end.
      apply IH in Hrun as (copies & Hall & Hstrip).
      exists (new_loop :: copies). split.
      * constructor; [|exact Hall]. unfold loop_copy. subst new_loop. simpl.
        do 3 (split; [reflexivity|]). split; [|reflexivity].
        apply append_empty_r.
      * rewrite Hstrip. simpl. destruct (strip_loops stmt) as [ls core]. simpl.
        rewrite reverse_cons, <- app_assoc. reflexivity.
    + rewrite filter_cons_False by exact Hsel.
      unfold is_init_loop in Hsel. apply not_true_is_false in Hsel.
      rewrite Hsel in Hrun. apply IH in Hrun. exact Hrun.
Qed.

Lemma GenerateOuterInit_inv block_init inner_realize loops name n0 stmt n1 :
  GenerateOuterInit block_init inner_realize loops name n0 = Ok (stmt, n1) ->
  let inner_block := BlockRealize.block inner_realize in
  let selected :=
    filter (init_selected block_init)
      (zip (Block.iter_vars inner_block) (BlockRealize.iter_values inner_realize)) in
  exists nest subst_map init_realize copies,
    stmt = Substitute_stmt_vars nest subst_map /\
    strip_loops nest = (reverse copies, SBlockRealize init_realize) /\
    Block.body (BlockRealize.block init_realize) = block_init /\
    Block.writes (BlockRealize.block init_realize) = Block.writes inner_block /\
    BlockRealize.predicate init_realize = BlockRealize.predicate inner_realize /\
    BlockRealize.iter_values init_realize = map snd selected /\
    Forall2 init_iter_copy (Block.iter_vars (BlockRealize.block init_realize)) selected /\
    Forall2 loop_copy copies (filter (is_init_loop (map snd selected)) loops).
Proof.
  intros Hrun inner_block selected. unfold GenerateOuterInit in Hrun.
  apply bind_ok in Hrun as (u & n' & Hchk & Hrun). apply ICHECK_ok in Hchk as [_ ->].
  apply bind_ok in Hrun as (it & n' & Hit & Hrun).
  apply init_iters_loop_spec in Hit as (Hvals & news & Hvars & Hall).
  simpl in Hvals, Hvars. fold inner_block selected in Hvals, Hall.
  apply bind_ok in Hrun as (n & n'' & Hn & Hrun). injection Hn as <- <-.
  apply bind_ok in Hrun as (init_realize & n2 & Hnew & Hrun).
  apply lift_result_ok in Hnew as [Hnew ->].
  apply BlockRealize_new_ok in Hnew as [-> _].
  apply bind_ok in Hrun as ([nest sm] & n3 & Hloops & Hrun).
  injection Hrun as <- <-.
  apply init_loops_loop_spec in Hloops as (copies & Hcopies & Hstrip).
  simpl in Hstrip. rewrite app_nil_r in Hstrip.
  eexists nest, sm, _, copies. split; [reflexivity|]. split; [exact Hstrip|].
  simpl. rewrite Hvals, Hvars in *.
  repeat (split; [reflexivity|]). split; [exact Hall|exact Hcopies].
Qed.


(** *** Sizes of the generated BlockRealizes *)

Lemma derive_binding_loop_lengths division pui reuse :
  forall iter_vars i b0 n0 b n1,
    derive_binding_loop division pui reuse i iter_vars b0 n0 = Ok (b, n1) ->
    length (outer_iter_vars b0) = i ->
    length (outer_bindings b0) = length (outer_iter_vars b0) ->
    length (inner_bindings b0) = length (inner_iter_vars b0) ->
    length (outer_bindings b) = length (outer_iter_vars b) /\
    length (inner_bindings b) = length (inner_iter_vars b).
Proof.
  induction iter_vars as [|iv rest IH]; intros i b0 n0 b n1 Hloop Hi Ho Hin;
    simpl in Hloop.
  - injection Hloop as <- <-. auto.
  - apply bind_ok in Hloop as (b1 & n' & Hstep & Hloop).
    apply derive_binding_step_inv in Hstep
      as (di & om & im & ob & ib & outer_iter & alloc & _ & _ & _ & _ & _
          & Eo & Eob & Ei & Eib & _); [|lia].
    apply (IH _ _ _ _ _ Hloop).
    + rewrite Eo, length_app. simpl. lia.
    + rewrite Eo, Eob, !length_app. simpl. lia.
    + rewrite Ei, Eib, !length_app. destruct alloc; simpl; lia.
Qed.

(** The three BlockRealizes of single-loop Blockize: the lists of iterators
    and of bindings are extended in lockstep by [DeriveBlockBinding], and
    the init block takes its iterators and bindings from a filtered zip. *)
Lemma BlockizeImpl_lockstep_sizes self loop_sref pui f0 r f1 :
  BlockizeImpl self loop_sref pui f0 = Ok (r, f1) ->
  length (BlockRealize.iter_values r) = length (Block.iter_vars (BlockRealize.block r)) /\
  exists inner_realize loops,
    (exists n n', MakeLoopNest (SBlockRealize inner_realize) loops n
                  = Ok (Block.body (BlockRealize.block r), n')) /\
    length (BlockRealize.iter_values inner_realize)
      = length (Block.iter_vars (BlockRealize.block inner_realize)) /\
    forall init,
      Block.init (BlockRealize.block r) = Some init ->
      exists nest subst_map init_realize copies,
        init = Substitute_stmt_vars nest subst_map /\
        strip_loops nest = (reverse copies, SBlockRealize init_realize) /\
        length (BlockRealize.iter_values init_realize)
          = length (Block.iter_vars (BlockRealize.block init_realize)).
Proof.
  intros Hrun.
  apply BlockizeImpl_inv in Hrun
    as (t & ipred & _ & _ & _ & _ & (n & Hd) & _ & (m & m' & Hinner) & Hnest & Hi
        & Hvals & Hivs & _).
  unfold DeriveBlockBinding in Hd.
  apply bind_ok in Hd as (u & n' & Hchk & Hd). apply ICHECK_ok in Hchk as [_ ->].
  apply derive_binding_loop_lengths in Hd as [Ho Hin]; auto.
  rewrite Hvals, Hivs. split; [exact Ho|].
  exists (s_inner_realize t), (s_loops t). split; [exact Hnest|].
  destruct (GenerateInner_ok _ _ _ _ _ _ _ _ Hinner) as (_ & Ev & _ & Eiv & _).
  split; [rewrite Ev, Eiv; exact Hin|].
  intros init Hinit. destruct (Block.init (s_block_subst t)) as [i|]; [|congruence].
  destruct Hi as (stmt & k & k' & Hgen & Hinit'). rewrite Hinit in Hinit'.
  injection Hinit' as <-.
  apply GenerateOuterInit_inv in Hgen
    as (nest & sm & init_realize & copies & G1 & G2 & _ & _ & _ & G4 & G5 & _).
  exists nest, sm, init_realize, copies. split; [exact G1|]. split; [exact G2|].
  rewrite G4, length_map. symmetry. eapply Forall2_length. exact G5.
Qed.

(** X1. Every BlockRealize that single-loop Blockize generates (the outer
    one, the inner one and the one of the init subtree) has as many iter
    values as its block has iter vars. *)
Lemma BlockizeImpl_sizes self loop_sref pui f0 r f1 :
  BlockizeImpl self loop_sref pui f0 = Ok (r, f1) ->
  length (BlockRealize.iter_values r) = length (Block.iter_vars (BlockRealize.block r)) /\
  exists inner_realize loops,
    (exists n n', MakeLoopNest (SBlockRealize inner_realize) loops n
                  = Ok (Block.body (BlockRealize.block r), n')) /\
    length (BlockRealize.iter_values inner_realize)
      = length (Block.iter_vars (BlockRealize.block inner_realize)) /\
    forall init,
      Block.init (BlockRealize.block r) = Some init ->
      exists nest subst_map init_realize copies,
        init = Substitute_stmt_vars nest subst_map /\
        strip_loops nest = (reverse copies, SBlockRealize init_realize) /\
        length (BlockRealize.iter_values init_realize)
          = length (Block.iter_vars (BlockRealize.block init_realize)).
Proof. apply BlockizeImpl_lockstep_sizes. Qed.

(** ** The error of an indivisible subspace *)

Lemma walk_loops_outer loop_sref :
  forall s w, w_loops (walk_loops loop_sref false s false w) = w_loops w.
Proof.
  induction s as [id stmt parent IH] using StmtSRef_ind. intros w.
  destruct stmt; try reflexivity. simpl.
  destruct (Nat.eqb id (sref_id loop_sref)); (destruct IH as [p Hp|]; [rewrite Hp|]);
    reflexivity.
Qed.

Lemma walk_inner_chain loop_sref p ls :
  inner_chain loop_sref p ls ->
  forall w, w_loops (walk_loops loop_sref false p true w) = w_loops w ++ ls.
Proof.
  induction 1 as [id l parent Hid Hl|id l p ls Hid Hchain IH]; intros w; simpl.
  - rewrite Hid, Nat.eqb_refl. destruct parent as [q|]; [|reflexivity].
    rewrite walk_loops_outer. reflexivity.
  - apply Nat.eqb_neq in Hid. rewrite Hid. rewrite IH. simpl.
    rewrite <- app_assoc. reflexivity.
Qed.

Lemma inner_chain_last loop_sref p ls top :
  inner_chain loop_sref p ls -> sref_stmt loop_sref = SFor top -> last ls = Some top.
Proof.
  induction 1 as [id l parent Hid Hl|id l p ls Hid Hchain IH]; intros Htop.
  - rewrite Hl in Htop. injection Htop as <-. reflexivity.
  - specialize (IH Htop). destruct ls; [discriminate|]. exact IH.
Qed.

Lemma SubspaceDivide_loops realize block_sref loop_sref loops ana pui as_outer ls d :
  SubspaceDivide realize block_sref loop_sref loops ana pui as_outer = Ok (ls, d) ->
  ls = w_loops (collect_loops block_sref loop_sref as_outer loops).
Proof.
  unfold SubspaceDivide.
  destruct (negb (arr_empty _)); [intros [= <- _]; reflexivity|].
  destruct (TrivialSubspaceDivision _ _ _ _ _); simpl; [|discriminate].
  intros [= <- _]. reflexivity.
Qed.

(** C5 (as the code has it). When the divider returns an empty division,
    single-loop Blockize raises SubspaceNotDivisible; its short message is
    "ScheduleError: The bindings of the inner block can not be blockized."
    and its locations of interest are the inner block and the loop of
    [loop_sref], which is the topmost of the inner loops (the last of the
    list collected bottom-up). *)
Theorem BlockizeImpl_not_divisible
    self loop_sref preserve_unit_iters f0 top block_realize block_sref p inner_loops loops :
  sref_stmt loop_sref = SFor top ->
  CheckGetSingleChildBlockRealizeOnSRefTree self loop_sref = Ok block_realize ->
  stmt2ref self !! Block.node (BlockRealize.block block_realize) = Some block_sref ->
  sref_parent block_sref = Some p ->
  inner_chain loop_sref p inner_loops ->
  SubspaceDivide block_realize block_sref loop_sref [] (analyzer f0)
    preserve_unit_iters false = Ok (loops, []) ->
  exists e,
    BlockizeImpl self loop_sref preserve_unit_iters f0 = Err (ScheduleError e) /\
    SubspaceNotDivisibleError.FastErrorString e =
      "ScheduleError: The bindings of the inner block can not be blockized." /\
    SubspaceNotDivisibleError.LocationsOfInterest e =
      [SBlock (BlockRealize.block block_realize); SFor top] /\
    SubspaceNotDivisibleError.mod' e = st_mod self /\
    loops = inner_loops /\ last inner_loops = Some top.
Proof.
  intros Htop Hchk Hs2r Hparent Hchain Hdiv.
  pose proof (SubspaceDivide_loops _ _ _ _ _ _ _ _ _ Hdiv) as Hloops.
  unfold collect_loops in Hloops. rewrite Hparent in Hloops.
  rewrite (walk_inner_chain _ _ _ Hchain) in Hloops. simpl in Hloops.
  pose proof (inner_chain_last _ _ _ _ Hchain Htop) as Hlast.
  exists (SubspaceNotDivisibleError.mk (st_mod self) top (BlockRealize.block block_realize)).
  split; [|repeat split; auto].
  unfold BlockizeImpl. rewrite Htop.
  unfold bind at 1. unfold ret at 1.
  unfold bind at 1. rewrite Hchk. unfold lift_result at 1.
  unfold bind at 1. unfold stmt2ref_at at 1. rewrite Hs2r. unfold ret at 1.
  unfold bind at 1. unfold get at 1.
  unfold bind at 1. rewrite Hdiv. unfold lift_result at 1.
  unfold bind at 1. simpl arr_empty. cbv iota.
  unfold bind at 1. unfold back at 1. rewrite Hloops, Hlast. unfold ret at 1.
  reflexivity.
Qed.

(** ** The affine-binding flag of the scope root *)

Lemma stmt2ref_at_ok {St} self node (s : St) r s' :
  stmt2ref_at self node s = Ok (r, s') -> stmt2ref self !! node = Some r /\ s' = s.
Proof.
  unfold stmt2ref_at. destruct (stmt2ref self !! node); [|discriminate].
  intros [= -> ->]. auto.
Qed.

(** C10. After a successful single-loop Blockize the affine_binding flag of
    the scope root in block_info is the value that IsAffineBlockBinding
    returned for it when it was captured, after [Replace] and before
    [UpdateScopeBlockInfo]; as [Replace] leaves the flags of existing blocks
    alone, it is the value from before the replacement: Blockize does not
    change it. *)
Theorem Blockize_keeps_affine_binding self loop_sref preserve_unit_iters n0 self' result n1 :
  (forall target stmt reuse sref,
     IsAffineBlockBinding (Replace self target stmt reuse) sref
       = IsAffineBlockBinding self sref) ->
  Blockize self loop_sref preserve_unit_iters n0 = Ok ((self', result), n1) ->
  exists blockized f scope_root,
    BlockizeImpl self loop_sref preserve_unit_iters (mkFrame n0 ∅ []) = Ok (blockized, f) /\
    let self1 := Replace self loop_sref (SBlockRealize blockized) (block_sref_reuse f) in
    GetScopeRoot self1 result = Ok scope_root /\
    affine_binding <$> (block_info self' !! sref_id scope_root)
      = Some (IsAffineBlockBinding self1 scope_root) /\
    affine_binding <$> (block_info self' !! sref_id scope_root)
      = Some (IsAffineBlockBinding self scope_root).
Proof.
  intros Hframe Hrun. unfold Blockize in Hrun.
  destruct (BlockizeImpl self loop_sref preserve_unit_iters (mkFrame n0 ∅ []))
    as [[blockized f]|e] eqn:Himpl; [|discriminate].
  apply bind_ok in Hrun as (res & s1 & Hres & Hrun).
  apply stmt2ref_at_ok in Hres as [Hres ->].
  apply bind_ok in Hrun as (scope_root & s1 & Hroot & Hrun).
  apply lift_result_ok in Hroot as [Hroot ->].
  apply bind_ok in Hrun as (root_realize & s1 & Hreal & Hrun).
  apply lift_result_ok in Hreal as [Hreal ->].
  injection Hrun as <- <- <-.
  exists blockized, f, scope_root. split; [reflexivity|]. cbv zeta.
  split; [exact Hroot|].
  assert (Hflag : affine_binding <$>
            (block_info
               (set_affine_binding
                  (UpdateScopeBlockInfo
                     (Replace self loop_sref (SBlockRealize blockized) (block_sref_reuse f))
                     (SBlockRealize root_realize)) scope_root
                  (IsAffineBlockBinding
                     (Replace self loop_sref (SBlockRealize blockized) (block_sref_reuse f))
                     scope_root)) !! sref_id scope_root)
          = Some (IsAffineBlockBinding
                    (Replace self loop_sref (SBlockRealize blockized) (block_sref_reuse f))
                    scope_root)).
  { unfold set_affine_binding. simpl. rewrite lookup_insert_eq. reflexivity. }
  split; [exact Hflag|]. rewrite Hflag, Hframe. reflexivity.
Qed.

(** C3. When the affine solver gives up, the divider is the trivial
    fallback: it returns a non-empty division exactly when the predicate is
    the literal 1 and no binding uses both outer and inner loop variables;
    the division then has, for each binding, the pair (mark, unit) when the
    binding uses outer loop variables only, (unit, mark) when it uses inner
    loop variables only, and (unit, unit) when it uses neither, followed by
    the pair of the predicates.  Otherwise the result is empty. *)
Theorem SubspaceDivide_trivial_fallback
    realize block_sref loop_sref loops ana preserve_unit_iters loop_sref_as_outer :
  let w := collect_loops block_sref loop_sref loop_sref_as_outer loops in
  let iter_vars := Block.iter_vars (BlockRealize.block realize) in
  let bindings := BlockRealize.iter_values realize in
  let predicate := BlockRealize.predicate realize in
  let uo := make_uses_var (w_outer_vars w) in
  let ui := make_uses_var (w_inner_vars w) in
  arith_SubspaceDivide bindings (w_loop_var_domain w) (w_inner_vars w) predicate ana
    (negb preserve_unit_iters) = [] ->
  (length bindings <= length iter_vars)%nat ->
  exists division,
    SubspaceDivide realize block_sref loop_sref loops ana preserve_unit_iters
      loop_sref_as_outer = Ok (w_loops w, division) /\
    (division <> [] <->
       is_one predicate = true /\
       forall b, b ∈ bindings -> ~ (uo b = true /\ ui b = true)) /\
    (division <> [] ->
       length division = Datatypes.S (length bindings) /\
       last division = Some predicate_marks /\
       forall i b iv,
         bindings !! i = Some b -> iter_vars !! i = Some iv ->
         exists outer_mark inner_mark,
           division !! i = Some [outer_mark; inner_mark] /\
           (uo b = true -> ui b = false ->
              outer_mark = trivial_mark iv b /\ inner_mark = unit_iter_mark) /\
           (uo b = false -> ui b = true ->
              outer_mark = unit_iter_mark /\ inner_mark = trivial_mark iv b) /\
           (uo b = false -> ui b = false ->
              outer_mark = unit_iter_mark /\ inner_mark = unit_iter_mark)).
Proof.
  intros w iter_vars bindings predicate uo ui Hsolver Hlen.
  unfold SubspaceDivide. fold w. fold bindings predicate iter_vars.
  rewrite Hsolver. simpl negb. cbv iota.
  unfold TrivialSubspaceDivision. fold uo ui.
  destruct (is_one predicate) eqn:Hone; simpl.
  2:{ exists []. split; [reflexivity|]. split.
      - split; [congruence|]. intros [? _]. discriminate.
      - congruence. }
  destruct (trivial_division_loop_spec iter_vars uo ui bindings 0%nat [])
    as (r & Hr & Hnone & Hsome); [simpl; lia|].
  rewrite Hr. simpl. destruct r as [res|].
  - destruct (Hsome res eq_refl) as (entries & -> & Hl & Hent). simpl.
    exists (entries ++ [predicate_marks]). split; [reflexivity|]. split.
    + split.
      * intros _. split; [reflexivity|]. intros b Hb [Ho Hi].
        assert (None = Some entries -> False) by discriminate.
        assert (Some entries = (None : option (list (list IterMark)))) as Hcontra;
          [|discriminate].
        apply Hnone. exists b. tauto.
      * intros _. destruct entries; discriminate.
    + intros _. split; [rewrite length_app; simpl; lia|].
      split; [apply last_snoc|].
      intros i b iv Hb Hiv. specialize (Hent i b iv Hb Hiv).
      rewrite lookup_app_l by (rewrite Hl; eapply lookup_lt_Some; eauto).
      rewrite Hent. unfold trivial_entry.
      destruct (uo b) eqn:Ho, (ui b) eqn:Hi; simpl.
      * exfalso. assert (Some entries = (None : option (list (list IterMark)))) as Hc;
          [|discriminate].
        apply Hnone. exists b. split; [eapply list_elem_of_lookup_2; eauto|]. tauto.
      * eexists _, _. split; [reflexivity|]. repeat split; congruence.
      * eexists _, _. split; [reflexivity|]. repeat split; congruence.
      * eexists _, _. split; [reflexivity|]. repeat split; congruence.
  - exists []. split; [reflexivity|]. split.
    + split; [congruence|]. intros [_ Hno]. exfalso.
      destruct Hnone as [Hn _]. destruct (Hn eq_refl) as (b & Hb & Ho & Hi).
      apply (Hno b Hb). tauto.
    + congruence.
Qed.

End Properties.

(** ** The group rewriter *)

Section RewriterProperties.
Import BlockizeBlocks.
Context `{Arith, TirLib, Schedule}.

Lemma kp_ret {A} (a : A) : keeps_outer_predicate (ret a).
Proof. intros st x st' [= <- <-] Hi. exact Hi. Qed.

Lemma kp_throw {A} e : keeps_outer_predicate (@throw _ A e).
Proof. intros st x st' Hx. discriminate. Qed.

Lemma kp_get : keeps_outer_predicate get.
Proof. intros st x st' [= <- <-] Hi. exact Hi. Qed.

Lemma kp_bind {A B} (m : M t A) (k : A -> M t B) :
  keeps_outer_predicate m -> (forall a, keeps_outer_predicate (k a)) ->
  keeps_outer_predicate (bind m k).
Proof.
  intros Hm Hk st b st' Hrun Hi.
  apply bind_ok in Hrun as (a & s1 & Ha & Hb). eapply Hk; eauto.
Qed.

Lemma kp_lift_result {A} (r : Result A) : keeps_outer_predicate (lift_result r).
Proof. intros st x st' Hx Hi. apply lift_result_ok in Hx as [_ ->]. exact Hi. Qed.

Lemma kp_ICHECK c msg : keeps_outer_predicate (ICHECK c msg).
Proof. intros st x st' Hx Hi. apply ICHECK_ok in Hx as [_ ->]. exact Hi. Qed.

Lemma kp_modify (f : t -> t) :
  (forall st, blockized_ (f st) = blockized_ st) -> keeps_outer_predicate (modify f).
Proof.
  intros Hf st x st' [= _ <-] Hi r Hr. rewrite Hf in Hr. apply Hi. exact Hr.
Qed.

Lemma kp_in_frame {A} (m : M Frame A) : keeps_outer_predicate (in_frame m).
Proof.
  intros st x st' Hx Hi. unfold in_frame, zoom in Hx.
  destruct (m (frame st)) as [[a f]|]; [|discriminate]. injection Hx as _ <-.
  exact Hi.
Qed.

Lemma EvalSetRegions_state {St} regions d :
  forall (st : St) x st', EvalSetRegions regions d st = Ok (x, st') -> st' = st.
Proof.
  induction regions as [|br rest IH]; intros st x st' Hx; simpl in Hx.
  - injection Hx as _ <-. reflexivity.
  - apply bind_ok in Hx as (u & s1 & Hc & Hx). apply ICHECK_ok in Hc as [_ ->].
    apply bind_ok in Hx as (rs & s2 & Hr & Hx). apply IH in Hr as ->.
    injection Hx as _ <-. reflexivity.
Qed.

Lemma kp_EvalSetRegions regions d : keeps_outer_predicate (EvalSetRegions regions d).
Proof. intros st x st' Hx Hi. apply EvalSetRegions_state in Hx as ->. exact Hi. Qed.

Ltac kp_step :=
  match goal with
  | |- keeps_outer_predicate (ret _) => apply kp_ret
  | |- keeps_outer_predicate (throw _) => apply kp_throw
  | |- keeps_outer_predicate get => apply kp_get
  | |- keeps_outer_predicate (bind _ _) => apply kp_bind; [|intros ?]
  | |- keeps_outer_predicate (lift_result _) => apply kp_lift_result
  | |- keeps_outer_predicate (ICHECK _ _) => apply kp_ICHECK
  | |- keeps_outer_predicate (in_frame _) => apply kp_in_frame
  | |- keeps_outer_predicate fresh_id => apply kp_in_frame
  | |- keeps_outer_predicate (fresh_var _) => apply kp_in_frame
  | |- keeps_outer_predicate (EvalSetRegions _ _) => apply kp_EvalSetRegions
  | |- keeps_outer_predicate (modify _) => apply kp_modify; intros; reflexivity
  | |- keeps_outer_predicate (if ?c then _ else _) => destruct c
  | |- keeps_outer_predicate (match ?x with _ => _ end) => destruct x
  | H : keeps_outer_predicate ?m |- keeps_outer_predicate ?m => exact H
  end.

Ltac kp := repeat kp_step.

Lemma make_blockized_spec st r st' :
  make_blockized st = Ok (r, st') ->
  BlockRealize.predicate r = make_const DBool 1 /\ blockized_ st' = Some r.
Proof.
  unfold make_blockized. intros Hrun.
  apply bind_ok in Hrun as (s0 & s1 & Hget & Hrun). injection Hget as <- <-.
  apply bind_ok in Hrun as (u & s1 & _ & Hrun).
  apply bind_ok in Hrun as (s2 & s3 & Hget & Hrun). injection Hget as <- <-.
  apply bind_ok in Hrun as (reads & s3 & Hr & Hrun). apply lift_result_ok in Hr as [_ ->].
  apply bind_ok in Hrun as (writes & s3 & Hw & Hrun). apply lift_result_ok in Hw as [_ ->].
  apply bind_ok in Hrun as (n & s3 & _ & Hrun).
  apply bind_ok in Hrun as (r0 & s4 & Hnew & Hrun).
  apply lift_result_ok in Hnew as [Hnew ->].
  apply BlockRealize_new_ok in Hnew as [-> Hsz].
  apply bind_ok in Hrun as (u2 & s5 & Hm & Hrun).
  injection Hm as _ <-. injection Hrun as <- <-. split; reflexivity.
Qed.

Lemma kp_make_blockized : keeps_outer_predicate make_blockized.
Proof.
  intros st r st' Hrun _ r' Hr'. apply make_blockized_spec in Hrun as [Hp Hb].
  rewrite Hb in Hr'. injection Hr' as <-. exact Hp.
Qed.

Lemma kp_rewrite_seq_step is_last it stmt l :
  keeps_outer_predicate (rewrite_seq_step is_last it stmt l).
Proof.
  unfold rewrite_seq_step. kp; apply kp_make_blockized.
Qed.

Lemma kp_mint_inner_iters ivs : keeps_outer_predicate (mint_inner_iters ivs).
Proof.
  induction ivs as [|iv rest IH]; simpl; [apply kp_ret|].
  kp.
Qed.

Lemma kp_visit_target block : keeps_outer_predicate (visit_target block).
Proof.
  unfold visit_target. kp; apply kp_mint_inner_iters.
Qed.

Lemma kp_realize_target blockrealize stmt :
  keeps_outer_predicate (realize_target blockrealize stmt).
Proof. unfold realize_target. kp. Qed.

Lemma kp_rewrite_seq_loop visit seq_size :
  forall items i l,
    Forall (fun it => keeps_outer_predicate (visit it)) items ->
    keeps_outer_predicate (rewrite_seq_loop visit seq_size items i l).
Proof.
  induction items as [|it rest IH]; intros i l Hall; simpl; [apply kp_ret|].
  apply Forall_cons in Hall as [Hit Hrest].
  kp. - apply kp_rewrite_seq_step. - apply IH. exact Hrest.
Qed.

Lemma kp_RewriteSeq visit stmt :
  (forall seq, stmt = SSeqStmt seq ->
               Forall (fun it => keeps_outer_predicate (visit it)) seq) ->
  keeps_outer_predicate (RewriteSeq visit stmt).
Proof.
  intros Hall. unfold RewriteSeq. destruct stmt; try apply kp_throw.
  specialize (Hall _ eq_refl). kp. apply kp_rewrite_seq_loop. exact Hall.
Qed.

Lemma kp_visit_seq visit :
  forall l,
    Forall (fun it => keeps_outer_predicate (visit it)) l ->
    keeps_outer_predicate (visit_seq visit l).
Proof.
  induction l as [|x l IH]; intros Hall; simpl; [apply kp_ret|].
  apply Forall_cons in Hall as [Hx Hl]. specialize (IH Hl). kp.
Qed.

Lemma kp_VisitBlock visit blocks lca block :
  (forall seq, Block.body block = SSeqStmt seq ->
               Forall (fun it => keeps_outer_predicate (visit it)) seq) ->
  keeps_outer_predicate (VisitBlock visit blocks lca block).
Proof.
  intros Hall. unfold VisitBlock. kp.
  - apply kp_RewriteSeq. exact Hall.
  - apply kp_visit_target.
Qed.

Lemma list_all_Forall (P : Stmt -> Prop) (l : list Stmt) :
  list_all Stmt P l -> Forall P l.
Proof. induction 1; constructor; assumption. Qed.

Lemma kp_VisitStmt blocks lca :
  forall s,
    keeps_outer_predicate (VisitStmt blocks lca s) /\
    (forall seq, s = SSeqStmt seq ->
                 Forall (fun it => keeps_outer_predicate (VisitStmt blocks lca it)) seq).
Proof.
  induction s as [f IH|seq IH|c t IHt e IHe|r IH|b IH| |] using Stmt_ind.
  - split; [|discriminate]. destruct IH as [node lv mn ex k body [IHb IHseq] tb an].
    simpl. kp. apply kp_RewriteSeq. exact IHseq.
  - apply list_all_Forall in IH.
    assert (Hall : Forall (fun it => keeps_outer_predicate (VisitStmt blocks lca it)) seq).
    { eapply Forall_impl; [exact IH|]. intros x [Hx _]. exact Hx. }
    split; [|intros seq' [= <-]; exact Hall].
    simpl. kp. apply kp_visit_seq. exact Hall.
  - split; [|discriminate]. destruct IHt as [IHt _]. simpl.
    destruct IHe as [e [IHe _]|]; kp.
  - split; [|discriminate].
    destruct IH as [vals prd blk IHb].
    destruct IHb as [node ivs rd wr nm body [IHbody IHseq] ini IHini ab mb an].
    simpl. kp.
    + apply kp_VisitBlock. exact IHseq.
    + apply kp_realize_target.
  - split; [|discriminate].
    destruct IH as [node ivs rd wr nm body [IHbody IHseq] ini IHini ab mb an].
    simpl. apply kp_VisitBlock. exact IHseq.
  - split; [|discriminate]. simpl. apply kp_ret.
  - split; [|discriminate]. simpl. apply kp_ret.
Qed.

(** C9. Every outer BlockRealize that the group form produces has the
    literal boolean predicate true: each one that [RewriteSeq] builds (with
    collected outer iterators or with the synthesized unit iterator alike),
    and hence the one a successful rewrite hands back. *)
Theorem BlockizeBlocks_outer_predicate_true :
  (forall st r st',
     make_blockized st = Ok (r, st') ->
     BlockRealize.predicate r = make_const DBool 1 /\
     BlockRealize.predicate r = BoolTrue /\ blockized_ st' = Some r) /\
  (forall self blocks lca f new_lca rw r,
     Rewrite self blocks lca f = Ok (new_lca, rw) ->
     blockized_ rw = Some r ->
     BlockRealize.predicate r = make_const DBool 1).
Proof.
  split.
  - intros st r st' Hrun. apply make_blockized_spec in Hrun as [Hp Hb]. auto.
  - intros self blocks lca f new_lca rw r Hrun Hr.
    unfold Rewrite in Hrun.
    destruct (create self blocks lca f) as [rw0|] eqn:Hcreate; [|discriminate].
    simpl in Hrun.
    destruct (VisitStmt blocks lca (sref_stmt lca) rw0) as [[[nl c] rw']|] eqn:Hvisit;
      [|discriminate].
    injection Hrun as <- <-.
    destruct (kp_VisitStmt blocks lca (sref_stmt lca)) as [Hkeep _].
    apply (Hkeep _ _ _ Hvisit); [|exact Hr].
    intros r0 Hr0. unfold create in Hcreate.
    destruct (front blocks); [|discriminate]. simpl in Hcreate.
    destruct (CollectSubstInfo.Collect _ _ _ _) as [[c0 n]|]; [|discriminate].
    simpl in Hcreate.
    destruct (make_loop_var_subst _ _ _ _ _); [|discriminate].
    injection Hcreate as <-. discriminate.
Qed.

End RewriterProperties.

(** The deriver on [sample_division]: the four substitutions are the outer
    iterator, the inner iterator, 0 and [outer * 4 + inner]. *)
Lemma DeriveBlockBinding_binding_algebra_witness :
  exists b n1 allocs,
    @DeriveBlockBinding ref_arith sample_iter_vars sample_division
      (mkBindings [] [] [] [] ∅) false false 0%nat = Ok (b, n1) /\
    NoDup (map (fun iv => vid (var iv)) sample_iter_vars) /\
    length allocs = 4%nat /\
    inner_iter_vars b = omap id allocs /\
    block_var_subst b !! 11%nat = Some (EVar (mkVar 0 "vi_o" (DInt 32))) /\
    block_var_subst b !! 12%nat = Some (EVar (mkVar 2 "vj_i" (DInt 32))) /\
    block_var_subst b !! 13%nat = Some (i32 0) /\
    block_var_subst b !! 14%nat =
      Some (BinOp OpAdd (BinOp OpMul (EVar (mkVar 4 "vl_o" (DInt 32))) (i32 4))
              (EVar (mkVar 5 "vl_i" (DInt 32)))).
Proof.
  assert (Hnd : NoDup (map (fun iv => vid (var iv)) sample_iter_vars)).
  { simpl. repeat (apply NoDup_cons_2;
      [intros Hin; repeat (apply elem_of_cons in Hin as [Hin|Hin]; [discriminate|]);
       inversion Hin|]).
    apply NoDup_nil_2. }
  destruct (@DeriveBlockBinding ref_arith sample_iter_vars sample_division
              (mkBindings [] [] [] [] ∅) false false 0%nat) as [[b n1]|e] eqn:Hrun;
    [|vm_compute in Hrun; discriminate].
  destruct (@DeriveBlockBinding_binding_algebra ref_arith _ _ _ _ _ _ _ Hrun Hnd)
    as (allocs & Hl & Hin & _).
  exists b, n1, allocs.
  split; [reflexivity|]. split; [exact Hnd|]. split; [exact Hl|]. split; [exact Hin|].
  vm_compute in Hrun. injection Hrun as <- <-.
  repeat split; reflexivity.
Defined.

(** Blockize of the reduction at loop [i]: the outer block has the
    reduction iterator [vk_o] and an init, so the inner block reads [C]
    before [A]. *)
Lemma BlockizeImpl_inner_reads_witness :
  exists r f1 inner_realize,
    @BlockizeImpl ref_arith ref_tir ref_schedule red_state sref_red_loop_i false
      (mkFrame 500 ∅ []) = Ok (r, f1) /\
    (strip_loops (Block.body (BlockRealize.block r))).2 = SBlockRealize inner_realize /\
    map buffer (Block.reads (BlockRealize.block inner_realize)) = [buf_C; buf_A2] /\
    map buffer (Block.writes (BlockRealize.block inner_realize)) = [buf_C].
Proof.
  destruct (@BlockizeImpl ref_arith ref_tir ref_schedule red_state sref_red_loop_i false
              (mkFrame 500 ∅ [])) as [[r f1]|e] eqn:Hrun;
    [|vm_compute in Hrun; discriminate].
  destruct (@BlockizeImpl_inner_reads ref_arith ref_tir ref_schedule _ _ _ _ _ _ Hrun)
    as (block_realize & block_subst & inner_realize & loops & _ & _ & _ & Hw & _).
  vm_compute in Hrun. injection Hrun as <- <-.
  eexists _, _, _. split; [reflexivity|]. split; [reflexivity|].
  split; reflexivity.
Defined.


(** Blockize at loop [i] of the program whose binding [o*4 + j] uses the
    outer loop [o] and the inner loop [j]. *)
Lemma BlockizeImpl_not_divisible_witness :
  exists e,
    @BlockizeImpl ref_arith ref_tir ref_schedule nd_state sref_nd_loop_i false
      (mkFrame 500 ∅ []) = Err (ScheduleError e) /\
    SubspaceNotDivisibleError.LocationsOfInterest e = [SBlock nd_block; SFor nd_loop_i].
Proof.
  assert (Hchain : inner_chain sref_nd_loop_i sref_nd_loop_j [nd_loop_j; nd_loop_i]).
  { apply chain_step; [discriminate|]. apply chain_top; reflexivity. }
  destruct (@BlockizeImpl_not_divisible ref_arith ref_tir ref_schedule nd_state
              sref_nd_loop_i false (mkFrame 500 ∅ []) nd_loop_i nd_realize sref_nd_block
              sref_nd_loop_j [nd_loop_j; nd_loop_i] [nd_loop_j; nd_loop_i]
              eq_refl eq_refl eq_refl eq_refl Hchain eq_refl)
    as (e & Hrun & _ & Hloc & _).
  exists e. split; [exact Hrun|exact Hloc].
Defined.

(** The claim as stated fails on that program: the short message carries
    the prefix "ScheduleError: ", and the loop reported is loop [i], the
    topmost inner loop, not the bottommost inner loop [j]. *)
Lemma BlockizeImpl_error_counterexample :
  exists e,
    @BlockizeImpl ref_arith ref_tir ref_schedule nd_state sref_nd_loop_i false
      (mkFrame 500 ∅ []) = Err (ScheduleError e) /\
    SubspaceNotDivisibleError.FastErrorString e <>
      "The bindings of the inner block can not be blockized." /\
    SubspaceNotDivisibleError.LocationsOfInterest e <> [SBlock nd_block; SFor nd_loop_j] /\
    SubspaceNotDivisibleError.LocationsOfInterest e = [SBlock nd_block; SFor nd_loop_i].
Proof.
  eexists. split; [vm_compute; reflexivity|].
  split; [discriminate|]. split; [|reflexivity].
  vm_compute. intros Heq. discriminate Heq.
Qed.

(** The reference [Replace] leaves the flags alone. *)
Lemma ref_Replace_keeps_flags self target stmt reuse sref :
  @IsAffineBlockBinding ref_schedule (@Replace ref_schedule self target stmt reuse) sref
    = @IsAffineBlockBinding ref_schedule self sref.
Proof. reflexivity. Qed.

(** Blockize of the reduction at loop [i]: the flag of the root is false
    before, the refresh of the scope sets the flags it recomputes, and the
    flag of the root is false afterwards. *)
Lemma Blockize_keeps_affine_binding_witness :
  exists self' result n1,
    @Blockize ref_arith ref_tir ref_schedule red_state sref_red_loop_i false 500%nat
      = Ok ((self', result), n1) /\
    @IsAffineBlockBinding ref_schedule red_state sref_red_root = false /\
    affine_binding <$> (block_info self' !! sref_id sref_red_root) = Some false /\
    region_cover <$> (block_info self' !! sref_id sref_red_root) = Some true.
Proof.
  destruct (@Blockize ref_arith ref_tir ref_schedule red_state sref_red_loop_i false
              500%nat) as [[[self' result] n1]|e] eqn:Hrun;
    [|vm_compute in Hrun; discriminate].
  destruct (@Blockize_keeps_affine_binding ref_arith ref_tir ref_schedule _ _ _ _ _ _ _
              (ref_Replace_keeps_flags red_state) Hrun)
    as (blockized & f & scope_root & _ & Hroot & _ & Hflag).
  exists self', result, n1. split; [reflexivity|]. split; [reflexivity|].
  vm_compute in Hrun. injection Hrun as <- <- <-. split; vm_compute; reflexivity.
Defined.

(** The outer BlockRealize of the two group runs, with collected outer
    iterators and with the synthesized one, has the predicate true. *)
Lemma BlockizeBlocks_outer_predicate_true_witness :
  (exists new_lca rw r,
     @BlockizeBlocks.Rewrite ref_arith ref_tir ref_schedule pair_state
       [sref_pair_P1; sref_pair_P2] sref_pair_loop_j (mkFrame 500 ∅ []) = Ok (new_lca, rw) /\
     BlockizeBlocks.blockized_ rw = Some r /\
     BlockRealize.predicate r = make_const DBool 1) /\
  (exists new_lca rw r,
     @BlockizeBlocks.Rewrite ref_arith ref_tir ref_schedule top_state
       [sref_top_B1; sref_top_B2] sref_top_root (mkFrame 500 ∅ []) = Ok (new_lca, rw) /\
     BlockizeBlocks.blockized_ rw = Some r /\
     BlockRealize.predicate r = make_const DBool 1 /\
     BlockRealize.iter_values r = [i32 0]).
Proof.
  destruct (@BlockizeBlocks_outer_predicate_true ref_arith ref_tir ref_schedule)
    as [_ Hpred].
  split.
  - destruct (@BlockizeBlocks.Rewrite ref_arith ref_tir ref_schedule pair_state
                [sref_pair_P1; sref_pair_P2] sref_pair_loop_j (mkFrame 500 ∅ []))
      as [[new_lca rw]|e] eqn:Hrw; [|vm_compute in Hrw; discriminate].
    destruct (BlockizeBlocks.blockized_ rw) as [r|] eqn:Hr;
      [|vm_compute in Hrw; injection Hrw as _ <-; vm_compute in Hr; discriminate].
    exists new_lca, rw, r. split; [reflexivity|]. split; [exact Hr|].
    exact (Hpred _ _ _ _ _ _ _ Hrw Hr).
  - destruct (@BlockizeBlocks.Rewrite ref_arith ref_tir ref_schedule top_state
                [sref_top_B1; sref_top_B2] sref_top_root (mkFrame 500 ∅ []))
      as [[new_lca rw]|e] eqn:Hrw; [|vm_compute in Hrw; discriminate].
    destruct (BlockizeBlocks.blockized_ rw) as [r|] eqn:Hr;
      [|vm_compute in Hrw; injection Hrw as _ <-; vm_compute in Hr; discriminate].
    exists new_lca, rw, r. split; [reflexivity|]. split; [exact Hr|].
    split; [exact (Hpred _ _ _ _ _ _ _ Hrw Hr)|].
    vm_compute in Hrw. injection Hrw as _ <-. vm_compute in Hr. injection Hr as <-.
    reflexivity.
Defined.

(** Tensorize on the sample block: one parameter, offset 1; the extent 16
    of the impl region has the index type already, so the cast leaves it. *)
Lemma Tensorize_match_buffer_regions_witness :
  exists r old n1 m,
    @Tensorize_rewrite ref_arith ref_tir ref_schedule tensor_state sref_tensor_block
      sample_intrin false 500%nat = Ok ((r, old), n1) /\
    Block.match_buffers (BlockRealize.block r) = [m] /\
    mb_buffer m = buf_A_impl /\ buffer (mb_source m) = buf_A /\
    length (region (mb_source m)) = length (shape buf_A) /\
    region (mb_source m) = [mkRange (EVar var_vi) (i32 1); mkRange (i32 0) (i32 16)].
Proof.
  destruct (@Tensorize_rewrite ref_arith ref_tir ref_schedule tensor_state
              sref_tensor_block sample_intrin false 500%nat)
    as [[[r old] n1]|e] eqn:Hrun; [|vm_compute in Hrun; discriminate].
  assert (Htgt : @Tensorize_target ref_arith ref_tir ref_schedule tensor_state
                   sref_tensor_block false 500%nat
                 = Ok ((tensor_realize, Some tensor_block), 500%nat)) by reflexivity.
  assert (Hold : old = Some tensor_block).
  { vm_compute in Hrun. injection Hrun as _ <- _. reflexivity. }
  subst old.
  assert (Hcontract : forall cmp,
             @Comparator_VisitStmt ref_tir (st_mod tensor_state) tensor_realize
               (func_body (desc sample_intrin)) = Ok cmp ->
             comparator_indices_per_dimension cmp).
  { intros cmp Hc. cbn in Hc. injection Hc as <-.
    intros k cur idx Hk Hidx. cbn in Hk.
    apply lookup_insert_Some in Hk as [[_ <-]|[_ Hk]];
      [|rewrite lookup_empty in Hk; discriminate].
    cbn in Hidx. rewrite lookup_insert_eq in Hidx. injection Hidx as <-. reflexivity. }
  destruct (@Tensorize_match_buffer_regions ref_arith ref_tir ref_schedule _ _ _ _ _ _ _
              _ _ _ Htgt Hcontract Hrun)
    as (cmp & impl_realize & _ & _ & Hlen & Hall).
  vm_compute in Hrun. injection Hrun as <- <-.
  eexists _, _, _, _. split; [reflexivity|]. cbn. repeat split; reflexivity.
Defined.

(** Tensorize on the sample block takes the index width 32 from its read
    region; on a block without regions it fails. *)
Lemma Tensorize_index_width_witness :
  index_dtype_bits_of tensor_block = 32 /\
  (forall b, b ∈ region_bound_bits tensor_block -> b <= 32) /\
  @Tensorize ref_arith ref_tir ref_schedule
    (mkState (mkIRModule 0) (<[100%nat := sref_block]> ∅) ∅) sref_block sample_intrin
    false 500%nat = Err (InternalError "index_dtype_bits > 0").
Proof.
  assert (Htgt : @Tensorize_target ref_arith ref_tir ref_schedule tensor_state
                   sref_tensor_block false 500%nat
                 = Ok ((tensor_realize, Some tensor_block), 500%nat)) by reflexivity.
  destruct (@Tensorize_index_width ref_arith ref_tir ref_schedule _ _ sample_intrin
              _ _ _ _ _ Htgt) as (Hall & _).
  split; [reflexivity|]. split; [exact Hall|].
  assert (Htgt2 : @Tensorize_target ref_arith ref_tir ref_schedule
                    (mkState (mkIRModule 0) (<[100%nat := sref_block]> ∅) ∅)
                    sref_block false 500%nat
                  = Ok ((sample_realize, Some sample_block), 500%nat)) by reflexivity.
  destruct (@Tensorize_index_width ref_arith ref_tir ref_schedule _ _ sample_intrin
              _ _ _ _ _ Htgt2) as (_ & _ & _ & Hfail & _).
  apply Hfail. vm_compute. discriminate.
Defined.

(** A run of the fallback on the sample program, blockizing at loop [j]:
    [vi = i] uses the outer loop only, [vj = j] the inner loop only, and
    [vk = 0] neither. *)
Lemma SubspaceDivide_trivial_fallback_witness :
  exists division,
    @SubspaceDivide ref_arith sample_realize sref_block sref_loop_j [] [] false false
      = Ok ([sample_loop_j], division) /\
    division <> [] /\
    division !! 0%nat =
      Some [trivial_mark (spatial var_vi 4) (EVar var_i); unit_iter_mark] /\
    division !! 1%nat =
      Some [unit_iter_mark; trivial_mark (spatial var_vj 4) (EVar var_j)] /\
    division !! 2%nat = Some [unit_iter_mark; unit_iter_mark].
Proof.
  destruct (@SubspaceDivide_trivial_fallback ref_arith sample_realize sref_block
              sref_loop_j [] [] false false eq_refl)
    as (division & Hd & Hne & Hent); [simpl; lia|].
  exists division. split; [exact Hd|].
  assert (Hnonempty : division <> []).
  { apply Hne. split; [reflexivity|]. intros b Hb [Ho Hi]. simpl in Hb.
    repeat (apply elem_of_cons in Hb as [->|Hb]; [vm_compute in Ho, Hi; congruence|]).
    inversion Hb. }
  split; [exact Hnonempty|].
  destruct (Hent Hnonempty) as (_ & _ & Hall).
  destruct (Hall 0%nat _ _ eq_refl eq_refl) as (o0 & i0 & E0 & A0 & _ & _).
  destruct (Hall 1%nat _ _ eq_refl eq_refl) as (o1 & i1 & E1 & _ & B1 & _).
  destruct (Hall 2%nat _ _ eq_refl eq_refl) as (o2 & i2 & E2 & _ & _ & C2).
  destruct A0 as [-> ->]; [reflexivity..|].
  destruct B1 as [-> ->]; [reflexivity..|].
  destruct C2 as [-> ->]; [reflexivity..|].
  auto.
Defined.

(** * Further properties of the primitives *)

Section FurtherProperties.
Context `{Arith, TirLib, Schedule}.

(** ** The binding deriver *)

Lemma derive_binding_step_effect division pui reuse i iv b n0 b' n1 :
  derive_binding_step division pui reuse i iv b n0 = Ok (b', n1) ->
  exists dout din s,
    length (outer_iter_vars b') = (length (outer_iter_vars b) + dout)%nat /\
    length (outer_bindings b') = (length (outer_bindings b) + dout)%nat /\
    length (inner_iter_vars b') = (length (inner_iter_vars b) + din)%nat /\
    length (inner_bindings b') = (length (inner_bindings b) + din)%nat /\
    block_var_subst b' = <[vid (var iv) := s]> (block_var_subst b).
Proof.
  unfold derive_binding_step. cbv zeta. intros Hrun.
  apply bind_ok in Hrun as (di & s1 & Hdi & Hrun). apply lift_result_ok in Hdi as [Hdi ->].
  apply bind_ok in Hrun as (om & s1 & Hom & Hrun). apply lift_result_ok in Hom as [Hom ->].
  apply bind_ok in Hrun as (im & s1 & Him & Hrun). apply lift_result_ok in Him as [Him ->].
  apply bind_ok in Hrun as (ob & s1 & Hob & Hrun).
  apply Downcast_IterMapExpr_ok in Hob as [Hob ->].
  apply bind_ok in Hrun as (ib & s1 & Hib & Hrun).
  apply Downcast_IterMapExpr_ok in Hib as [Hib ->].
  apply bind_ok in Hrun as ([outer_iter b1] & s1 & Hout & Hrun).
  apply bind_ok in Hrun as ([sub b2] & s2 & Hsub & Hrun).
  injection Hrun as <- <-. simpl.
  assert (Ho : exists dout,
               length (outer_iter_vars b1) = (length (outer_iter_vars b) + dout)%nat /\
               length (outer_bindings b1) = (length (outer_bindings b) + dout)%nat /\
               inner_iter_vars b1 = inner_iter_vars b /\
               inner_bindings b1 = inner_bindings b /\
               block_var_subst b1 = block_var_subst b).
  { destruct (reuse && _).
    - apply bind_ok in Hout as (oi & s3 & _ & Hout).
      apply bind_ok in Hout as (u & s4 & _ & Hout).
      apply bind_ok in Hout as (x & s5 & _ & Hout).
      apply bind_ok in Hout as (u' & s6 & _ & Hout).
      injection Hout as _ <- _. exists 0%nat. repeat split; lia.
    - apply bind_ok in Hout as (v & s3 & _ & Hout). injection Hout as _ <- _. simpl.
      rewrite !length_app. simpl. exists 1%nat. repeat split; lia. }
  destruct Ho as (dout & Ho & Hob' & Hi1 & Hi2 & Hs).
  assert (Hi : exists din,
               outer_iter_vars b2 = outer_iter_vars b1 /\
               outer_bindings b2 = outer_bindings b1 /\
               length (inner_iter_vars b2) = (length (inner_iter_vars b1) + din)%nat /\
               length (inner_bindings b2) = (length (inner_bindings b1) + din)%nat /\
               block_var_subst b2 = block_var_subst b1).
  { destruct (is_one (mark_extent im)).
    - destruct (is_one (mark_extent om) && negb pui); injection Hsub as _ <- _;
        exists 0%nat; repeat split; lia.
    - apply bind_ok in Hsub as (v & s3 & _ & Hsub).
      destruct (is_one (mark_extent om)); injection Hsub as _ <- _; simpl;
        rewrite !length_app; simpl; exists 1%nat; repeat split; lia. }
  destruct Hi as (din & Ho1 & Ho2 & Hi & Hib' & Hs2).
  exists dout, din, sub. rewrite Ho1, Ho2, Hs2, Hs, Hi, Hib', Hi1, Hi2. auto.
Qed.

Lemma derive_binding_loop_effect division pui reuse :
  forall iter_vars i b n0 b' n1,
    derive_binding_loop division pui reuse i iter_vars b n0 = Ok (b', n1) ->
    (exists dout din,
       length (outer_iter_vars b') = (length (outer_iter_vars b) + dout)%nat /\
       length (outer_bindings b') = (length (outer_bindings b) + dout)%nat /\
       length (inner_iter_vars b') = (length (inner_iter_vars b) + din)%nat /\
       length (inner_bindings b') = (length (inner_bindings b) + din)%nat) /\
    forall k, is_Some (block_var_subst b' !! k) <->
              is_Some (block_var_subst b !! k) \/ k ∈ map (fun iv => vid (var iv)) iter_vars.
Proof.
  induction iter_vars as [|iv rest IH]; intros i b n0 b' n1 Hrun; simpl in Hrun.
  - injection Hrun as <- <-. split; [exists 0%nat, 0%nat; lia|]. intros k. simpl.
    split; [auto|]. intros [Hk|Hk]; [exact Hk|inversion Hk].
  - apply bind_ok in Hrun as (b1 & n' & Hstep & Hloop).
    apply derive_binding_step_effect in Hstep as (d1 & d2 & s & E1 & E2 & E3 & E4 & Hs).
    apply IH in Hloop as ((d1' & d2' & F1 & F2 & F3 & F4) & Hdom).
    split; [exists (d1 + d1')%nat, (d2 + d2')%nat; lia|].
    intros k. rewrite Hdom, Hs. simpl.
    rewrite elem_of_cons. destruct (decide (k = vid (var iv))) as [->|Hne].
    + rewrite lookup_insert_eq. split; [auto|]. intros _. left. eauto.
    + rewrite lookup_insert_ne by congruence. tauto.
Qed.

(** X3. [DeriveBlockBinding] extends the list of outer iterators and the
    list of outer bindings by the same number of elements, and likewise
    the two inner lists, with or without reuse of outer iterators; and the
    substitution plan it returns binds exactly the variables of the block
    iterators. *)
Theorem DeriveBlockBinding_lockstep
    iter_vars division b preserve_unit_iters reuse_outer n0 b' n1 :
  DeriveBlockBinding iter_vars division b preserve_unit_iters reuse_outer n0 = Ok (b', n1) ->
  (length (outer_iter_vars b) = length (outer_bindings b) ->
   length (outer_iter_vars b') = length (outer_bindings b')) /\
  (length (inner_iter_vars b) = length (inner_bindings b) ->
   length (inner_iter_vars b') = length (inner_bindings b')) /\
  (forall k, is_Some (block_var_subst b' !! k) <->
             k ∈ map (fun iv => vid (var iv)) iter_vars).
Proof.
  unfold DeriveBlockBinding. intros Hrun.
  apply bind_ok in Hrun as (u & s1 & Hc & Hrun). apply ICHECK_ok in Hc as [_ ->].
  apply derive_binding_loop_effect in Hrun as ((d1 & d2 & E1 & E2 & E3 & E4) & Hdom).
  simpl in *.
  split; [lia|]. split; [lia|]. intros k. rewrite Hdom, lookup_empty.
  split; [intros [[? ?]|Hk]; [discriminate|exact Hk]|auto].
Qed.

(** ** The walk of SubspaceDivide *)

Lemma walk_loops_partition loop_sref as_outer :
  forall s inner w,
    exists ins outs,
      loop_chain s = ins ++ outs /\
      (inner = false -> ins = []) /\
      w_loops (walk_loops loop_sref as_outer s inner w) = w_loops w ++ ins /\
      w_inner_vars (walk_loops loop_sref as_outer s inner w) =
        w_inner_vars w ++ map For.loop_var ins /\
      w_outer_vars (walk_loops loop_sref as_outer s inner w) =
        w_outer_vars w ++ map For.loop_var outs /\
      forall k,
        is_Some (w_loop_var_domain (walk_loops loop_sref as_outer s inner w) !! k) <->
        is_Some (w_loop_var_domain w !! k) \/
        k ∈ map (fun l => vid (For.loop_var l)) (loop_chain s).
Proof.
  induction s as [id stmt parent IH] using StmtSRef_ind. intros inner w.
  destruct stmt as [l| | | | | |].
  2-7: exists [], []; simpl; rewrite !app_nil_r;
       do 5 (split; [auto|]); intros k; split; [auto|];
       intros [Hk|Hk]; [exact Hk|inversion Hk].
  cbn [walk_loops loop_chain].
  assert (Hdom2 : forall (m : gmap nat Range) r k,
            is_Some (<[vid (For.loop_var l) := r]> m !! k) <->
            is_Some (m !! k) \/ k = vid (For.loop_var l)).
  { intros m r k. destruct (decide (k = vid (For.loop_var l))) as [->|Hne].
    - rewrite lookup_insert_eq. split; [auto|]. intros _. eauto.
    - rewrite lookup_insert_ne by congruence. tauto. }
  destruct IH as [p Hp|].
  - match goal with
    | |- context [walk_loops _ _ p ?i ?w2] =>
        destruct (Hp i w2) as (ins & outs & Hchain & Hnil & Hl & Hi & Ho & Hd)
    end.
    destruct inner.
    + exists (l :: ins), outs. rewrite Hchain, Hl, Hi, Ho. simpl.
      rewrite <- !app_assoc. simpl.
      repeat (split; [first [reflexivity|discriminate]|]).
      intros k. rewrite Hd. simpl. rewrite Hdom2, elem_of_cons, ?Hchain. tauto.
    + assert (ins = []) as ->.
      { apply Hnil. destruct (_ || _); reflexivity. }
      exists [], (l :: outs). rewrite Hchain, Hl, Hi, Ho. simpl.
      rewrite !app_nil_r, <- !app_assoc. simpl.
      repeat (split; [reflexivity|]).
      intros k. rewrite Hd. simpl. rewrite Hdom2, elem_of_cons, ?Hchain. tauto.
  - destruct inner.
    + exists [l], []. simpl. rewrite !app_nil_r.
      repeat (split; [first [reflexivity|discriminate]|]).
      intros k. rewrite Hdom2, list_elem_of_singleton. tauto.
    + exists [], [l]. simpl. rewrite !app_nil_r.
      repeat (split; [reflexivity|]).
      intros k. rewrite Hdom2, list_elem_of_singleton. tauto.
Qed.

(** X5. The walk of [SubspaceDivide] splits the loops enclosing the block
    into a lower run, the inner loops it returns in [loops], and the
    remaining upper run: the inner variables are the variables of the
    returned loops, the outer variables those of the remaining loops, and
    the domain map has an entry for the variable of every enclosing loop
    and for nothing else. *)
Theorem collect_loops_partition block_sref loop_sref loop_sref_as_outer :
  let w := collect_loops block_sref loop_sref loop_sref_as_outer [] in
  exists outs,
    enclosing_loops block_sref = w_loops w ++ outs /\
    w_inner_vars w = map For.loop_var (w_loops w) /\
    w_outer_vars w = map For.loop_var outs /\
    forall k,
      is_Some (w_loop_var_domain w !! k) <->
      k ∈ map (fun l => vid (For.loop_var l)) (enclosing_loops block_sref).
Proof.
  cbv zeta. unfold collect_loops, enclosing_loops.
  destruct (sref_parent block_sref) as [p|].
  - destruct (walk_loops_partition loop_sref loop_sref_as_outer p true (mkLoopWalk [] [] [] ∅))
      as (ins & outs & Hchain & _ & Hl & Hi & Ho & Hd).
    simpl in Hl, Hi, Ho. exists outs. rewrite Hl, Hi, Ho.
    split; [exact Hchain|]. split; [reflexivity|]. split; [reflexivity|].
    intros k. rewrite Hd. simpl. rewrite lookup_empty.
    split; [intros [[? ?]|?]; [discriminate|assumption]|auto].
  - exists []. simpl. repeat (split; [reflexivity|]).
    intros k. rewrite lookup_empty. split; [intros [? ?]; discriminate|].
    intros Hk. inversion Hk.
Qed.

(** ** Substitute *)

Lemma Replacer_VisitExpr_unused sub ana :
  forall e, UsesVarExpr e (substituted sub) = false ->
            Replacer_VisitExpr sub ana e = (e, false).
Proof.
  induction e as [v|dt z|dt a IH|op a IHa b IHb]; simpl; intros Hu.
  - unfold substituted in Hu. apply bool_decide_eq_false in Hu.
    destruct (sub !! vid v) as [x|]; [exfalso; apply Hu; eauto|reflexivity].
  - reflexivity.
  - rewrite (IH Hu). reflexivity.
  - apply orb_false_iff in Hu as [Ha Hb]. rewrite (IHa Ha), (IHb Hb). reflexivity.
Qed.

Lemma Replacer_exprs_unused sub ana l :
  existsb (fun e => UsesVarExpr e (substituted sub)) l = false ->
  Replacer_exprs sub ana l = (l, false).
Proof.
  unfold Replacer_exprs. induction l as [|e l IH]; simpl; intros Hu; [reflexivity|].
  apply orb_false_iff in Hu as [He Hl]. specialize (IH Hl).
  rewrite (Replacer_VisitExpr_unused _ _ _ He). simpl.
  injection IH as -> ->. reflexivity.
Qed.

Lemma Replacer_range_unused sub ana r :
  UsesVarRange r (substituted sub) = false -> Replacer_range sub ana r = (r, false).
Proof.
  unfold Replacer_range, UsesVarRange. intros Hu. apply orb_false_iff in Hu as [Ha Hb].
  rewrite (Replacer_VisitExpr_unused _ _ _ Ha), (Replacer_VisitExpr_unused _ _ _ Hb).
  destruct r; reflexivity.
Qed.

Lemma Replacer_ranges_unused sub ana l :
  existsb (fun x => UsesVarRange x (substituted sub)) l = false ->
  map fst (map (Replacer_range sub ana) l) = l /\
  existsb snd (map (Replacer_range sub ana) l) = false.
Proof.
  induction l as [|r l IH]; simpl; intros Hu; [auto|].
  apply orb_false_iff in Hu as [Hr Hl]. destruct (IH Hl) as [-> ->].
  rewrite (Replacer_range_unused _ _ _ Hr). auto.
Qed.

Lemma Replacer_regions_unused sub ana l :
  existsb (fun r => UsesVarRegion r (substituted sub)) l = false ->
  Replacer_regions sub ana l = (l, false).
Proof.
  unfold Replacer_regions. induction l as [|br l IH]; simpl; intros Hu; [reflexivity|].
  apply orb_false_iff in Hu as [Hr Hl]. specialize (IH Hl).
  injection IH as -> ->. unfold UsesVarRegion in Hr.
  destruct (Replacer_ranges_unused sub ana _ Hr) as [-> ->]. destruct br; reflexivity.
Qed.

Lemma Replacer_iter_vars_unused sub ana l :
  existsb (fun iv => UsesVarRange (dom iv) (substituted sub)) l = false ->
  Replacer_iter_vars sub ana l = (l, false).
Proof.
  unfold Replacer_iter_vars. induction l as [|iv l IH]; simpl; intros Hu; [reflexivity|].
  apply orb_false_iff in Hu as [Hr Hl]. specialize (IH Hl).
  injection IH as -> ->. rewrite (Replacer_range_unused _ _ _ Hr). destruct iv; reflexivity.
Qed.

Lemma Replacer_match_buffers_unused sub ana l :
  existsb (fun m => UsesVarRegion (mb_source m) (substituted sub)) l = false ->
  Replacer_match_buffers sub ana l = (l, false).
Proof.
  unfold Replacer_match_buffers. induction l as [|m l IH]; simpl; intros Hu; [reflexivity|].
  apply orb_false_iff in Hu as [Hr Hl]. specialize (IH Hl).
  injection IH as -> ->. unfold UsesVarRegion in Hr.
  destruct (Replacer_ranges_unused sub ana _ Hr) as [-> ->].
  destruct m as [b [bb rr]]; reflexivity.
Qed.

Lemma bind_eq {St A B} (m : M St A) (k : A -> M St B) s a s' :
  m s = Ok (a, s') -> bind m k s = k a s'.
Proof. unfold bind. intros ->. reflexivity. Qed.

Lemma bind_eq_to {St A B} (m : M St A) (k : A -> M St B) s a s' r :
  m s = Ok (a, s') -> k a s' = r -> bind m k s = r.
Proof. unfold bind. intros -> <-. reflexivity. Qed.

Lemma Replacer_block_unused sub (b : Block) :
  untouched sub (Block.body b) ->
  (forall i, Block.init b = Some i -> untouched sub i) ->
  UsesVarStmt (SBlock b) (substituted sub) = false ->
  forall f, Replacer_VisitStmt sub (SBlock b) f = Ok ((SBlock b, false), f).
Proof.
  intros Hbody Hinit Hu f. simpl in Hu.
  repeat (apply orb_false_iff in Hu as [Hu ?]).
  cbn [Replacer_VisitStmt].
  assert (Hvb : forall ini c5,
            (match Block.init b with
             | Some i => bind (Replacer_VisitStmt sub i) (fun '(i', c) => ret (Some i', c))
             | None => ret (None, false)
             end) f = Ok ((ini, c5), f) -> ini = Block.init b /\ c5 = false).
  { intros ini c5. destruct (Block.init b) as [i|].
    - rewrite (bind_eq _ _ f (i, false) f) by (apply (Hinit i eq_refl); assumption).
      intros [= <- <-]. auto.
    - intros [= <- <-]. auto. }
  assert (Hini : (match Block.init b with
             | Some i => bind (Replacer_VisitStmt sub i) (fun '(i', c) => ret (Some i', c))
             | None => ret (None, false)
             end) f = Ok ((Block.init b, false), f)).
  { destruct (Block.init b) as [i|].
    - rewrite (bind_eq _ _ f (i, false) f) by (apply (Hinit i eq_refl); assumption).
      reflexivity.
    - reflexivity. }
  clear Hvb.
  rewrite (bind_eq _ _ f (b, false) f); [reflexivity|].
  rewrite (bind_eq get _ f f f eq_refl).
  rewrite Replacer_iter_vars_unused by assumption.
  rewrite !Replacer_regions_unused by assumption.
  rewrite Replacer_match_buffers_unused by assumption.
  cbv beta iota zeta.
  rewrite (bind_eq _ _ f (Block.init b, false) f) by exact Hini.
  cbv beta iota zeta.
  rewrite (bind_eq _ _ f (Block.body b, false) f) by (apply Hbody; assumption).
  reflexivity.
Qed.

Lemma Replacer_VisitStmt_unused sub : forall s, untouched sub s.
Proof.
  induction s as [l IH|seq IH|c t IHt e IHe|r IH|b IH|bf v idx|v] using Stmt_ind.
  - destruct IH as [node lv mn ex k body IHb tb an]. intros Hu f. simpl in Hu.
    repeat (apply orb_false_iff in Hu as [Hu ?]).
    cbn [Replacer_VisitStmt For.min For.extent For.body].
    rewrite (bind_eq get _ f f f eq_refl).
    rewrite !Replacer_VisitExpr_unused by assumption. cbv beta iota zeta.
    rewrite (bind_eq _ _ f (body, false) f) by (apply IHb; assumption). reflexivity.
  - intros Hu f. simpl in Hu. cbn [Replacer_VisitStmt].
    assert (Hgo : forall f,
      (fix go (l : list Stmt) : M Frame (list Stmt * bool) :=
         match l with
         | [] => ret ([], false)
         | x :: l' =>
             bind (Replacer_VisitStmt sub x) (fun '(x', c1) =>
             bind (go l') (fun '(l'', c2) => ret (x' :: l'', c1 || c2)))
         end) seq f = Ok ((seq, false), f)).
    { induction IH as [|x Hx l Hl IHl]; intros f'; [reflexivity|].
      apply orb_false_iff in Hu as [Hux Hul].
      rewrite (bind_eq _ _ f' (x, false) f') by (apply Hx; assumption).
      cbv beta iota zeta.
      rewrite (bind_eq _ _ f' (l, false) f') by (apply IHl; assumption). reflexivity. }
    rewrite (bind_eq _ _ f (seq, false) f) by apply Hgo. reflexivity.
  - intros Hu f. simpl in Hu.
    repeat (apply orb_false_iff in Hu as [Hu ?]).
    cbn [Replacer_VisitStmt].
    rewrite (bind_eq get _ f f f eq_refl).
    rewrite Replacer_VisitExpr_unused by assumption. cbv beta iota zeta.
    rewrite (bind_eq _ _ f (t, false) f) by (apply IHt; assumption).
    cbv beta iota zeta.
    destruct IHe as [e IHe|].
    + rewrite (bind_eq _ _ f (Some e, false) f); [reflexivity|].
      rewrite (bind_eq _ _ f (e, false) f) by (apply IHe; assumption). reflexivity.
    + reflexivity.
  - destruct IH as [vals prd blk IHb].
    destruct IHb as [node ivs rd wr nm body IHbody ini IHini ab mb an].
    intros Hu f.
    set (b := Block.mk node ivs rd wr nm body ini ab mb an) in *.
    assert (Hb : UsesVarStmt (SBlock b) (substituted sub) = false).
    { cbn [UsesVarStmt BlockRealize.block] in Hu |- *.
      apply orb_false_iff in Hu as [_ Hu]. exact Hu. }
    assert (Hi : forall i, Block.init b = Some i -> untouched sub i).
    { simpl. intros i ->. inversion IHini. assumption. }
    pose proof (Replacer_block_unused sub b IHbody Hi Hb f) as Hblk.
    simpl in Hu. repeat (apply orb_false_iff in Hu as [Hu ?]).
    cbn [Replacer_VisitStmt BlockRealize.iter_values BlockRealize.predicate
         BlockRealize.block] in Hblk |- *.
    rewrite (bind_eq get _ f f f eq_refl).
    rewrite Replacer_exprs_unused by assumption.
    rewrite Replacer_VisitExpr_unused by assumption. cbv beta iota zeta.
    apply bind_ok in Hblk as ([blk' c'] & f' & Hvb & Hret).
    injection Hret as E1 E2 E3. subst.
    rewrite (bind_eq _ _ f (b, false) f) by exact Hvb. reflexivity.
  - destruct IH as [node ivs rd wr nm body IHbody ini IHini ab mb an].
    intros Hu f. apply Replacer_block_unused; [exact IHbody| |exact Hu].
    simpl. intros i ->. inversion IHini. assumption.
  - intros Hu f. simpl in Hu. apply orb_false_iff in Hu as [Hv Hi].
    cbn [Replacer_VisitStmt]. rewrite (bind_eq get _ f f f eq_refl).
    rewrite Replacer_VisitExpr_unused by assumption.
    rewrite Replacer_exprs_unused by assumption. reflexivity.
  - intros Hu f. simpl in Hu.
    cbn [Replacer_VisitStmt]. rewrite (bind_eq get _ f f f eq_refl).
    rewrite Replacer_VisitExpr_unused by assumption. reflexivity.
Qed.

(** X6. Substituting variables that a block does not mention returns the
    very block, flagged unchanged, and leaves the frame as it was: nothing
    is allocated and no block reuse is recorded. *)
Theorem Substitute_block_unused block sub f :
  UsesVarStmt (SBlock block) (substituted sub) = false ->
  Substitute_block block sub f = Ok ((block, false), f).
Proof.
  intros Hu. unfold Substitute_block.
  rewrite (bind_eq _ _ f (SBlock block, false) f)
    by (apply Replacer_VisitStmt_unused; exact Hu).
  reflexivity.
Qed.

Lemma Replacer_iter_vars_signature sub ana l :
  map var (fst (Replacer_iter_vars sub ana l)) = map var l /\
  map iter_type (fst (Replacer_iter_vars sub ana l)) = map iter_type l.
Proof.
  unfold Replacer_iter_vars. simpl. rewrite !map_map.
  split; apply map_ext; intros iv; destruct (Replacer_range sub ana (dom iv));
    reflexivity.
Qed.

Lemma Replacer_regions_buffers sub ana l :
  map buffer (fst (Replacer_regions sub ana l)) = map buffer l.
Proof.
  unfold Replacer_regions. simpl. rewrite !map_map. apply map_ext. reflexivity.
Qed.

Lemma visit_block_settles sub (b : Block) :
  visit_settles sub (Block.body b) ->
  (forall i, Block.init b = Some i -> visit_settles sub i) ->
  forall f, exists b' c f',
    Replacer_VisitStmt sub (SBlock b) f = Ok ((SBlock b', c), f') /\
    (c = false -> b' = b /\ f' = f) /\
    (c = true -> block_sref_reuse f' !! Block.node b = Some b') /\
    same_block_signature b' b.
Proof.
  intros Hbody Hinit f.
  cbn [Replacer_VisitStmt].
  assert (Hini : exists ini c5 f1,
            (match Block.init b with
             | Some i => bind (Replacer_VisitStmt sub i) (fun '(i', c) => ret (Some i', c))
             | None => ret (None, false)
             end) f = Ok ((ini, c5), f1) /\
            (c5 = false -> f1 = f) /\
            (is_Some ini <-> is_Some (Block.init b))).
  { destruct (Block.init b) as [i|].
    - destruct (Hinit i eq_refl f) as (i' & c & f1 & Hi & Hsame).
      exists (Some i'), c, f1. rewrite (bind_eq _ _ _ _ _ Hi).
      split; [reflexivity|]. split; [exact Hsame|]. split; eauto.
    - exists None, false, f. split; [reflexivity|]. split; [auto|]. reflexivity. }
  destruct Hini as (ini & c5 & f1 & Hini & Hs5 & Hsome).
  destruct (Hbody f1) as (bdy & c6 & f2 & Hbdy & Hs6).
  pose proof (Replacer_iter_vars_signature sub (analyzer f) (Block.iter_vars b)) as [Hv Ht].
  pose proof (Replacer_regions_buffers sub (analyzer f) (Block.reads b)) as Hr.
  pose proof (Replacer_regions_buffers sub (analyzer f) (Block.writes b)) as Hw.
  destruct (Replacer_iter_vars sub (analyzer f) (Block.iter_vars b)) as [ivs c1] eqn:E1.
  destruct (Replacer_regions sub (analyzer f) (Block.reads b)) as [rds c2] eqn:E2.
  destruct (Replacer_regions sub (analyzer f) (Block.writes b)) as [wrs c3] eqn:E3.
  destruct (Replacer_match_buffers sub (analyzer f) (Block.match_buffers b))
    as [mbs c4] eqn:E4.
  simpl in Hv, Ht, Hr, Hw.
  destruct (c1 || c2 || c3 || c4 || c5 || c6) eqn:Ec.
  - eexists (Block.mk (next_id f2) ivs rds wrs (Block.name_hint b) bdy ini
               (Block.alloc_buffers b) mbs (Block.annotations b)), true, _.
    split.
    + eapply bind_eq_to.
      { rewrite (bind_eq get _ f f f eq_refl). rewrite E1, E2, E3, E4.
        cbv beta iota zeta.
        rewrite (bind_eq _ _ _ _ _ Hini). cbv beta iota zeta.
        rewrite (bind_eq _ _ _ _ _ Hbdy). cbv beta iota zeta.
        rewrite Ec. unfold new_node, with_fresh, zoom, fresh, reuse_Set, modify, bind, ret.
        simpl. reflexivity. }
      reflexivity.
    + split; [discriminate|]. split.
      * intros _. simpl. apply lookup_insert_eq.
      * unfold same_block_signature. simpl. auto 10.
  - exists b, false, f2. split.
    + eapply bind_eq_to.
      { rewrite (bind_eq get _ f f f eq_refl). rewrite E1, E2, E3, E4.
        cbv beta iota zeta.
        rewrite (bind_eq _ _ _ _ _ Hini). cbv beta iota zeta.
        rewrite (bind_eq _ _ _ _ _ Hbdy). cbv beta iota zeta.
        rewrite Ec. reflexivity. }
      reflexivity.
    + repeat (apply orb_false_iff in Ec as [Ec ?]). subst.
      split; [intros _; split; [reflexivity|]|].
      * rewrite Hs6 by reflexivity. apply Hs5. reflexivity.
      * split; [discriminate|]. unfold same_block_signature. auto 10.
Qed.

Lemma Replacer_VisitStmt_settles sub : forall s, visit_settles sub s.
Proof.
  induction s as [l IH|seq IH|c t IHt e IHe|r IH|b IH|bf v idx|v] using Stmt_ind.
  - destruct IH as [node lv mn ex k body IHb tb an]. intros f.
    cbn [Replacer_VisitStmt For.min For.extent For.body].
    rewrite (bind_eq get _ f f f eq_refl).
    destruct (Replacer_VisitExpr sub (analyzer f) mn) as [mn' c1].
    destruct (Replacer_VisitExpr sub (analyzer f) ex) as [ex' c2].
    destruct (IHb f) as (b' & c3 & f1 & Hb & Hs).
    rewrite (bind_eq _ _ _ _ _ Hb). cbv beta iota zeta.
    destruct (c1 || c2 || c3) eqn:Ec.
    + unfold new_node, with_fresh, zoom, fresh, bind, ret. simpl.
      eexists _, true, _. split; [reflexivity|discriminate].
    + eexists _, false, f1. split; [reflexivity|]. intros _.
      apply orb_false_iff in Ec as [_ ->]. apply Hs. reflexivity.
  - intros f. cbn [Replacer_VisitStmt].
    assert (Hgo : forall f, exists seq' c f',
      (fix go (l : list Stmt) : M Frame (list Stmt * bool) :=
         match l with
         | [] => ret ([], false)
         | x :: l' =>
             bind (Replacer_VisitStmt sub x) (fun '(x', c1) =>
             bind (go l') (fun '(l'', c2) => ret (x' :: l'', c1 || c2)))
         end) seq f = Ok ((seq', c), f') /\ (c = false -> f' = f)).
    { clear f. induction IH as [|x Hx l Hl IHl]; intros f.
      - exists [], false, f. split; [reflexivity|auto].
      - destruct (Hx f) as (x' & c1 & f1 & Hrun & Hs).
        destruct (IHl f1) as (l' & c2 & f2 & Hrun2 & Hs2).
        exists (x' :: l'), (c1 || c2), f2.
        rewrite (bind_eq _ _ _ _ _ Hrun). cbv beta iota zeta.
        rewrite (bind_eq _ _ _ _ _ Hrun2). split; [reflexivity|].
        intros Ec. apply orb_false_iff in Ec as [-> ->].
        rewrite Hs2 by reflexivity. apply Hs. reflexivity. }
    destruct (Hgo f) as (seq' & c & f' & Hrun & Hs).
    rewrite (bind_eq _ _ _ _ _ Hrun). cbv beta iota zeta.
    destruct c; eexists _, _, _; (split; [reflexivity|]); [discriminate|].
    intros _. apply Hs. reflexivity.
  - intros f. cbn [Replacer_VisitStmt].
    rewrite (bind_eq get _ f f f eq_refl).
    destruct (Replacer_VisitExpr sub (analyzer f) c) as [c' c1].
    destruct (IHt f) as (t' & c2 & f1 & Ht & Hs2).
    rewrite (bind_eq _ _ _ _ _ Ht). cbv beta iota zeta.
    assert (He : exists e' c3 f2,
              (match e with
               | Some e0 => bind (Replacer_VisitStmt sub e0) (fun '(e1, c) => ret (Some e1, c))
               | None => ret (None, false)
               end) f1 = Ok ((e', c3), f2) /\ (c3 = false -> f2 = f1)).
    { destruct IHe as [e IHe|].
      - destruct (IHe f1) as (e' & c3 & f2 & He & Hs3).
        exists (Some e'), c3, f2. rewrite (bind_eq _ _ _ _ _ He). split; [reflexivity|auto].
      - exists None, false, f1. split; [reflexivity|auto]. }
    destruct He as (e' & c3 & f2 & He & Hs3).
    rewrite (bind_eq _ _ _ _ _ He). cbv beta iota zeta.
    destruct (c1 || c2 || c3) eqn:Ec; eexists _, _, _; (split; [reflexivity|]);
      [discriminate|].
    intros _. apply orb_false_iff in Ec as [Ec ->].
    apply orb_false_iff in Ec as [_ ->].
    rewrite Hs3 by reflexivity. apply Hs2. reflexivity.
  - destruct IH as [vals prd blk IHb].
    destruct IHb as [node ivs rd wr nm body IHbody ini IHini ab mb an].
    intros f.
    set (b := Block.mk node ivs rd wr nm body ini ab mb an) in *.
    assert (Hi : forall i, Block.init b = Some i -> visit_settles sub i).
    { simpl. intros i ->. inversion IHini. assumption. }
    destruct (visit_block_settles sub b IHbody Hi f) as (b' & c3 & f1 & Hblk & Hs & _).
    cbn [Replacer_VisitStmt BlockRealize.iter_values BlockRealize.predicate
         BlockRealize.block] in Hblk |- *.
    rewrite (bind_eq get _ f f f eq_refl).
    destruct (Replacer_exprs sub (analyzer f) vals) as [vals' c1].
    destruct (Replacer_VisitExpr sub (analyzer f) prd) as [prd' c2].
    apply bind_ok in Hblk as ([blk' c'] & f' & Hvb & Hret).
    injection Hret as E1 E2 E3. subst.
    rewrite (bind_eq _ _ _ _ _ Hvb). cbv beta iota zeta.
    destruct (c1 || c2 || c3) eqn:Ec; eexists _, _, _; (split; [reflexivity|]);
      [discriminate|].
    intros _. apply orb_false_iff in Ec as [_ ->]. apply Hs. reflexivity.
  - destruct IH as [node ivs rd wr nm body IHbody ini IHini ab mb an].
    intros f.
    set (b := Block.mk node ivs rd wr nm body ini ab mb an) in *.
    assert (Hi : forall i, Block.init b = Some i -> visit_settles sub i).
    { simpl. intros i ->. inversion IHini. assumption. }
    destruct (visit_block_settles sub b IHbody Hi f) as (b' & c3 & f1 & Hblk & Hs & _).
    exists (SBlock b'), c3, f1. split; [exact Hblk|]. intros Hc. apply Hs. exact Hc.
  - intros f. cbn [Replacer_VisitStmt]. rewrite (bind_eq get _ f f f eq_refl).
    destruct (Replacer_VisitExpr sub (analyzer f) v) as [v' c1].
    destruct (Replacer_exprs sub (analyzer f) idx) as [idx' c2].
    destruct (c1 || c2); eexists _, _, _; (split; [reflexivity|]); [discriminate|auto].
  - intros f. cbn [Replacer_VisitStmt]. rewrite (bind_eq get _ f f f eq_refl).
    destruct (Replacer_VisitExpr sub (analyzer f) v) as [v' c1].
    destruct c1; eexists _, _, _; (split; [reflexivity|]); [discriminate|auto].
Qed.

Lemma Substitute_block_spec block sub f :
  exists b' c f',
    Substitute_block block sub f = Ok ((b', c), f') /\
    (c = false -> b' = block /\ f' = f) /\
    (c = true -> block_sref_reuse f' !! Block.node block = Some b') /\
    same_block_signature b' block.
Proof.
  destruct (visit_block_settles sub block (Replacer_VisitStmt_settles sub _)
              (fun i _ => Replacer_VisitStmt_settles sub i) f)
    as (b' & c & f' & Hrun & Hrest).
  exists b', c, f'. split; [|exact Hrest].
  unfold Substitute_block. rewrite (bind_eq _ _ _ _ _ Hrun). reflexivity.
Qed.

(** X7. [Substitute] on a block always returns a block.  When it reports no
    change, the block is the one given and the frame (identity supply,
    reuse map, analyzer) is as before; when it reports a change, the reuse
    map binds the given block to the returned one.  In both cases the
    returned block has the name, the iterator variables and kinds, the
    buffers of the read and write regions, the allocations and the
    annotations of the given one, and an init exactly when that one has. *)
Theorem Substitute_block_tracks block sub f :
  exists b' c f',
    Substitute_block block sub f = Ok ((b', c), f') /\
    (c = false -> b' = block /\ f' = f) /\
    (c = true -> block_sref_reuse f' !! Block.node block = Some b') /\
    same_block_signature b' block.
Proof. apply Substitute_block_spec. Qed.

(** ** Relaxation and union of regions *)

Lemma EvalSetRegions_inv {St} regions dom_map (s : St) rs s' :
  EvalSetRegions regions dom_map s = Ok (rs, s') ->
  s' = s /\
  map buffer rs = map buffer regions /\
  Forall (fun r => length (region r) = length (shape (buffer r))) rs.
Proof.
  revert s rs s'.
  induction regions as [|br rest IH]; intros s rs s' Hrun; simpl in Hrun.
  - injection Hrun as <- <-. auto.
  - apply bind_ok in Hrun as (u & s1 & Hc & Hrun). apply ICHECK_ok in Hc as [Hc ->].
    apply bind_ok in Hrun as (rs' & s2 & Hr & Hrun). apply IH in Hr as (-> & Hb & Hd).
    injection Hrun as <- <-. split; [reflexivity|]. simpl. split; [f_equal; exact Hb|].
    constructor; [|exact Hd]. simpl.
    apply Nat.eqb_eq in Hc. rewrite length_zip_with. lia.
Qed.

(** X8. A successful [EvalSetRegions] leaves the state alone and returns one
    region per input region, for the same buffers in the same order, each
    with exactly one range per dimension of its buffer. *)
Theorem EvalSetRegions_shape {St} regions dom_map (s : St) rs s' :
  EvalSetRegions regions dom_map s = Ok (rs, s') ->
  s' = s /\
  map buffer rs = map buffer regions /\
  Forall (fun r => length (region r) = length (shape (buffer r))) rs.
Proof. apply EvalSetRegions_inv. Qed.

Lemma union_add_dims_length region :
  forall sets dim sets',
    union_add_dims region dim sets = Ok sets' -> length sets' = length sets.
Proof.
  induction sets as [|d rest IH]; intros dim sets' Hrun; simpl in Hrun.
  - injection Hrun as <-. reflexivity.
  - destruct (at_index region dim) as [r|]; [|discriminate]. simpl in Hrun.
    destruct (union_add_dims region (S dim) rest) as [rest'|] eqn:E; [|discriminate].
    simpl in Hrun. injection Hrun as <-. simpl. f_equal. eapply IH. exact E.
Qed.

Lemma union_add_dims_total region :
  forall sets dim,
    (dim + length sets <= length region)%nat ->
    exists sets', union_add_dims region dim sets = Ok sets'.
Proof.
  induction sets as [|d rest IH]; intros dim Hle; simpl.
  - eauto.
  - simpl in Hle. destruct (lookup_lt_is_Some_2 region dim) as [r Hr]; [lia|].
    unfold at_index. rewrite Hr. simpl.
    destruct (IH (S dim)) as (rest' & Hrest); [lia|]. rewrite Hrest. simpl. eauto.
Qed.

Lemma union_collect_spec regions :
  forall acc acc',
    union_collect regions acc = Ok acc' ->
    union_acc_ok acc ->
    buffer_order acc' = buffer_order acc ++ first_buffers (base.dom (intset_map acc)) regions /\
    union_acc_ok acc'.
Proof.
  induction regions as [|br rest IH]; intros acc acc' Hrun Hok; simpl in Hrun.
  - injection Hrun as <-. simpl. rewrite app_nil_r. auto.
  - simpl. destruct (intset_map acc !! buf_id (buffer br)) as [old|] eqn:E.
    + rewrite ?E in Hrun. simpl in Hrun.
      destruct (union_add_dims (region br) 0 old) as [sets|] eqn:Hadd; [|discriminate].
      simpl in Hrun. apply IH in Hrun as [Horder Hok'].
      * simpl in Horder. rewrite Horder.
        rewrite decide_True by (apply elem_of_dom; eauto).
        split; [|exact Hok'].
        f_equal. f_equal. apply set_eq. intros k. rewrite !elem_of_dom.
        destruct (decide (k = buf_id (buffer br))) as [->|Hne].
        -- rewrite lookup_insert_eq, E. split; eauto.
        -- rewrite lookup_insert_ne by congruence. reflexivity.
      * intros b Hb. simpl in *. destruct (Hok b Hb) as (sets0 & Hs0 & Hl0).
        destruct (decide (buf_id b = buf_id (buffer br))) as [Heq|Hne].
        -- rewrite Heq, lookup_insert_eq. eexists. split; [reflexivity|].
           rewrite (union_add_dims_length _ _ _ _ Hadd).
           rewrite Heq, E in Hs0. injection Hs0 as <-. exact Hl0.
        -- rewrite lookup_insert_ne by congruence. eauto.
    + simpl in Hrun. rewrite lookup_insert_eq in Hrun. simpl in Hrun.
      destruct (union_add_dims (region br) 0 (replicate (length (shape (buffer br))) []))
        as [sets|] eqn:Hadd; [|discriminate].
      simpl in Hrun. apply IH in Hrun as [Horder Hok'].
      * simpl in Horder. rewrite Horder.
        rewrite decide_False by (rewrite elem_of_dom, E; intros [? ?]; discriminate).
        split; [|exact Hok'].
        rewrite <- app_assoc. simpl. f_equal. f_equal. f_equal.
        apply set_eq. intros k. rewrite elem_of_union, elem_of_singleton, !elem_of_dom.
        destruct (decide (k = buf_id (buffer br))) as [->|Hne].
        -- rewrite lookup_insert_eq. split; eauto.
        -- rewrite !lookup_insert_ne by congruence. tauto.
      * intros b Hb. simpl in *. apply elem_of_app in Hb as [Hb|Hb].
        -- destruct (Hok b Hb) as (sets0 & Hs0 & Hl0).
           destruct (decide (buf_id b = buf_id (buffer br))) as [Heq|Hne].
           ++ rewrite Heq, E in Hs0. discriminate.
           ++ rewrite !lookup_insert_ne by congruence. eauto.
        -- apply list_elem_of_singleton in Hb as ->.
           rewrite lookup_insert_eq. eexists. split; [reflexivity|].
           rewrite (union_add_dims_length _ _ _ _ Hadd). apply length_replicate.
Qed.

Lemma first_buffers_NoDup regions :
  forall seen,
    NoDup (map buf_id (first_buffers seen regions)) /\
    forall k, k ∈ map buf_id (first_buffers seen regions) <->
              (k ∉ seen) /\ (k ∈ map (fun r => buf_id (buffer r)) regions).
Proof.
  induction regions as [|br rest IH]; intros seen; simpl.
  - split; [constructor|]. intros k. split; [intros Hk; inversion Hk|].
    intros [_ Hk]. inversion Hk.
  - destruct (decide (buf_id (buffer br) ∈ seen)) as [Hin|Hnin].
    + destruct (IH seen) as [Hnd Hmem]. split; [exact Hnd|].
      intros k. rewrite Hmem, elem_of_cons. split; [tauto|].
      intros [Hk [->|Hk']]; [contradiction|tauto].
    + destruct (IH ({[buf_id (buffer br)]} ∪ seen)) as [Hnd Hmem]. simpl. split.
      * apply NoDup_cons_2; [|exact Hnd]. rewrite Hmem.
        intros [Hk _]. apply Hk. apply elem_of_union_l, elem_of_singleton. reflexivity.
      * intros k. rewrite !elem_of_cons, Hmem, not_elem_of_union, not_elem_of_singleton.
        destruct (decide (k = buf_id (buffer br))) as [->|Hne]; [tauto|tauto].
Qed.

(** X10. A successful [UnionRegions] returns one region per distinct buffer
    of the input, in the order in which the buffers first appear, and each
    returned region has one range per dimension of its buffer. *)
Theorem UnionRegions_buffers regions rs :
  UnionRegions regions = Ok rs ->
  map buffer rs = first_buffers ∅ regions /\
  NoDup (map (fun r => buf_id (buffer r)) rs) /\
  (forall k, k ∈ map (fun r => buf_id (buffer r)) rs <->
             k ∈ map (fun r => buf_id (buffer r)) regions) /\
  Forall (fun r => length (region r) = length (shape (buffer r))) rs.
Proof.
  unfold UnionRegions. intros Hrun.
  destruct (union_collect regions (mkUnionAcc ∅ [])) as [acc|] eqn:Hc; [|discriminate].
  simpl in Hrun. injection Hrun as <-.
  apply union_collect_spec in Hc as [Horder Hok];
    [|intros b Hb; simpl in Hb; inversion Hb].
  simpl in Horder. rewrite dom_empty_L in Horder.
  assert (Hbuf : map buffer
            (map (fun buffer0 =>
                    mkBufferRegion buffer0
                      (map (fun s =>
                              Range_begin_end (Simplify [] (is_min (IntSet_Union s)))
                                (Simplify []
                                   (add (is_max (IntSet_Union s))
                                      (make_const (dtype (is_max (IntSet_Union s))) 1))))
                         (default [] (intset_map acc !! buf_id buffer0))))
               (buffer_order acc)) = buffer_order acc).
  { rewrite map_map. simpl. apply map_id. }
  split; [rewrite Hbuf; exact Horder|].
  destruct (first_buffers_NoDup regions ∅) as [Hnd Hmem].
  assert (Hids : forall l : list BufferRegion,
            map (fun r => buf_id (buffer r)) l = map buf_id (map buffer l)).
  { intros l. rewrite map_map. reflexivity. }
  split; [rewrite Hids, Hbuf, Horder; exact Hnd|].
  split.
  - intros k. rewrite Hids, Hbuf, Horder, Hmem. split; [tauto|].
    intros Hk. split; [apply not_elem_of_empty|exact Hk].
  - apply Forall_map. apply Forall_forall. intros b Hb. simpl.
    rewrite length_map. destruct (Hok b Hb) as (sets & -> & Hl). exact Hl.
Qed.

(** X11. [UnionRegions] succeeds when every input region has at least as
    many ranges as its buffer has dimensions (regions are indexed by the
    dimensions of the buffer); buffers of equal identity are the same
    buffer. *)
Theorem UnionRegions_succeeds regions :
  Forall (fun br => (length (shape (buffer br)) <= length (region br))%nat) regions ->
  (forall a b, a ∈ regions -> b ∈ regions ->
     buf_id (buffer a) = buf_id (buffer b) -> buffer a = buffer b) ->
  exists rs, UnionRegions regions = Ok rs.
Proof.
  intros Hdims Hid. unfold UnionRegions.
  assert (Hc : forall acc,
            (forall br sets, br ∈ regions ->
               intset_map acc !! buf_id (buffer br) = Some sets ->
               length sets = length (shape (buffer br))) ->
            exists acc', union_collect regions acc = Ok acc').
  { clear -Hdims Hid. induction regions as [|br rest IH]; intros acc Hacc; simpl.
    - eauto.
    - apply Forall_cons in Hdims as [Hd Hdims].
      assert (Hrest : forall a b, a ∈ rest -> b ∈ rest ->
                buf_id (buffer a) = buf_id (buffer b) -> buffer a = buffer b).
      { intros a b Ha Hb. apply Hid; right; assumption. }
      destruct (intset_map acc !! buf_id (buffer br)) as [old|] eqn:E; rewrite ?E; simpl.
      + pose proof (Hacc br old ltac:(left) E) as Hl.
        destruct (union_add_dims_total (region br) old 0) as (sets & Hs); [simpl; lia|].
        rewrite Hs. simpl. apply (IH Hdims Hrest).
        intros br' sets' Hin Hlk. simpl in Hlk.
        destruct (decide (buf_id (buffer br') = buf_id (buffer br))) as [Heq|Hne].
        * rewrite Heq, lookup_insert_eq in Hlk. injection Hlk as <-.
          rewrite (union_add_dims_length _ _ _ _ Hs), Hl.
          rewrite (Hid br' br); [reflexivity|right; exact Hin|left|exact Heq].
        * rewrite lookup_insert_ne in Hlk by congruence.
          apply (Hacc br' sets'); [right; exact Hin|exact Hlk].
      + rewrite lookup_insert_eq. simpl.
        destruct (union_add_dims_total (region br)
                    (replicate (length (shape (buffer br))) []) 0) as (sets & Hs);
          [rewrite length_replicate; simpl; lia|].
        rewrite Hs. simpl. apply (IH Hdims Hrest).
        intros br' sets' Hin Hlk. simpl in Hlk.
        destruct (decide (buf_id (buffer br') = buf_id (buffer br))) as [Heq|Hne].
        * rewrite Heq, lookup_insert_eq in Hlk. injection Hlk as <-.
          rewrite (union_add_dims_length _ _ _ _ Hs), length_replicate.
          rewrite (Hid br' br); [reflexivity|right; exact Hin|left|exact Heq].
        * rewrite !lookup_insert_ne in Hlk by congruence.
          apply (Hacc br' sets'); [right; exact Hin|exact Hlk]. }
  destruct (Hc (mkUnionAcc ∅ [])) as (acc & Hacc).
  { intros br sets _ Hlk. simpl in Hlk. rewrite lookup_empty in Hlk. discriminate. }
  rewrite Hacc. simpl. eauto.
Qed.

(** ** Loop nests and the init subtree *)

Lemma MakeLoopNest_spec loops :
  forall stmt n,
    exists s copies,
      MakeLoopNest stmt loops n = Ok (s, (n + length loops)%nat) /\
      Forall2 loop_rewrap copies (reverse loops) /\
      forall ls core, strip_loops stmt = (ls, core) ->
                      strip_loops s = (copies ++ ls, core).
Proof.
  induction loops as [|loop rest IH]; intros stmt n; simpl.
  - exists stmt, []. split; [unfold ret; do 2 f_equal; lia|].
    split; [constructor|]. auto.
  - unfold bind, fresh.
    set (new_loop := For.mk n (For.loop_var loop) (For.min loop) (For.extent loop)
                       (For.kind loop) stmt (For.thread_binding loop)
                       (For.annotations loop)).
    destruct (IH (SFor new_loop) (S n)) as (s & copies & Hrun & Hcop & Hstrip).
    exists s, (copies ++ [new_loop]). split; [rewrite Hrun; do 2 f_equal; lia|]. split.
    + rewrite reverse_cons. apply Forall2_app; [exact Hcop|].
      constructor; [|constructor]. unfold loop_rewrap. simpl. auto 10.
    + intros ls core Hs. rewrite <- app_assoc. simpl. apply Hstrip.
      simpl. rewrite Hs. reflexivity.
Qed.

Lemma MakeLoopNest_core stmt loops n :
  (forall l, stmt <> SFor l) ->
  exists s copies,
    MakeLoopNest stmt loops n = Ok (s, (n + length loops)%nat) /\
    strip_loops s = (copies, stmt) /\
    Forall2 loop_rewrap copies (reverse loops).
Proof.
  intros Hnf. destruct (MakeLoopNest_spec loops stmt n) as (s & copies & Hrun & Hcop & Hstrip).
  exists s, copies. split; [exact Hrun|]. split; [|exact Hcop].
  rewrite (Hstrip [] stmt), app_nil_r; [reflexivity|].
  destruct stmt; try reflexivity. exfalso. eapply Hnf. reflexivity.
Qed.

(** X12. [MakeLoopNest] never fails and allocates one loop per element of
    [loops]; around a statement that is not itself a loop, the result is
    exactly these loops, the last of the list outermost, each with the loop
    variable, bounds, kind, thread binding and annotations of the original,
    and the statement is what they enclose. *)
Theorem MakeLoopNest_wraps stmt loops n :
  (forall l, stmt <> SFor l) ->
  exists s copies,
    MakeLoopNest stmt loops n = Ok (s, (n + length loops)%nat) /\
    strip_loops s = (copies, stmt) /\
    Forall2 loop_rewrap copies (reverse loops).
Proof. apply MakeLoopNest_core. Qed.

(** ** BlockizeImpl *)

(** The run of a successful [BlockizeImpl], with the frames in between. *)
Lemma BlockizeImpl_trace self loop_sref pui f0 r f1 :
  BlockizeImpl self loop_sref pui f0 = Ok (r, f1) ->
  exists block_realize block_sref loops division last_division opm ipm b fs block_subst c fs'
         inner_realize reads writes body,
    let block := BlockRealize.block block_realize in
    CheckGetSingleChildBlockRealizeOnSRefTree self loop_sref = Ok block_realize /\
    stmt2ref self !! Block.node block = Some block_sref /\
    SubspaceDivide block_realize block_sref loop_sref [] (analyzer f0) pui false
      = Ok (loops, division) /\
    last division = Some last_division /\
    last_division !! 0%nat = Some opm /\ last_division !! 1%nat = Some ipm /\
    (exists n, DeriveBlockBinding (Block.iter_vars block) division
                 (mkBindings [] [] [] [] ∅) pui false (next_id f0) = Ok (b, n)) /\
    Substitute_block block (block_var_subst b) fs = Ok ((block_subst, c), fs') /\
    (exists n n',
       GenerateInner
         (match Block.init block_subst with
          | Some _ => has_reduction (outer_iter_vars b)
          | None => false
          end) (inner_iter_vars b) (inner_bindings b) (mark_extent ipm) block_subst n
       = Ok (inner_realize, n')) /\
    block_sref_reuse f1 =
      <[Block.node block := BlockRealize.block inner_realize]> (block_sref_reuse fs') /\
    (exists d (s : Frame), EvalSetRegions (Block.reads block_subst) d s = Ok (reads, s)) /\
    (exists d (s : Frame), EvalSetRegions (Block.writes block_subst) d s = Ok (writes, s)) /\
    (exists n n', MakeLoopNest (SBlockRealize inner_realize) loops n = Ok (body, n')) /\
    BlockRealize.iter_values r = outer_bindings b /\
    BlockRealize.predicate r = mark_extent opm /\
    exists node init,
      BlockRealize.block r =
        Block.mk node (outer_iter_vars b) reads writes
          (Block.name_hint block_subst +:+ "_o") body init [] [] [] /\
      (is_Some init <-> is_Some (Block.init block_subst)).
Proof.
  unfold BlockizeImpl. intros Hrun.
  apply bind_ok in Hrun as (u0 & fa & Hfor & Hrun).
  assert (fa = f0) as ->.
  { destruct (sref_stmt loop_sref); try discriminate. injection Hfor as _ <-. reflexivity. }
  clear Hfor u0.
  apply bind_ok in Hrun as (block_realize & fa & Hchk & Hrun).
  apply lift_result_ok in Hchk as [Hchk ->].
  apply bind_ok in Hrun as (block_sref & fa & Hsref & Hrun).
  unfold stmt2ref_at in Hsref.
  destruct (stmt2ref self !! _) as [bs|] eqn:Hs2r; [|discriminate].
  injection Hsref as <- <-.
  apply bind_ok in Hrun as (f & fa & Hget & Hrun). injection Hget as <- <-.
  apply bind_ok in Hrun as ([loops division] & fa & Hdiv & Hrun).
  apply lift_result_ok in Hdiv as [Hdiv ->].
  apply bind_ok in Hrun as (u1 & fa & Hemp & Hrun).
  assert (fa = f0) as ->.
  { destruct division; simpl in Hemp.
    - apply bind_ok in Hemp as (x & fx & _ & Hthrow). discriminate.
    - injection Hemp as _ <-. reflexivity. }
  clear Hemp u1.
  apply bind_ok in Hrun as (last_division & fa & Hlast & Hrun).
  apply back_ok in Hlast as [Hlast ->].
  apply bind_ok in Hrun as (opm & fa & Hopm & Hrun).
  apply lift_result_ok in Hopm as [Hopm ->].
  apply bind_ok in Hrun as (ipm & fa & Hipm & Hrun).
  apply lift_result_ok in Hipm as [Hipm ->].
  apply bind_ok in Hrun as (b & fa & Hb & Hrun).
  apply with_fresh_ok in Hb as (Hb & _ & _).
  apply bind_ok in Hrun as (u2 & fb & _ & Hrun).
  apply bind_ok in Hrun as ([block_subst c] & fc & Hsub & Hrun).
  apply bind_ok in Hrun as (inner_realize & fd & Hinner & Hrun).
  apply with_fresh_ok in Hinner as (Hinner & Hreuse_d & Hana_d).
  apply bind_ok in Hrun as (u3 & fe & Hset & Hrun).
  unfold reuse_Set, modify in Hset. injection Hset as _ <-.
  apply bind_ok in Hrun as (reads & ff & Hreads & Hrun).
  pose proof (EvalSetRegions_state _ _ _ _ _ Hreads) as ->.
  apply bind_ok in Hrun as (writes & fg & Hwrites & Hrun).
  pose proof (EvalSetRegions_state _ _ _ _ _ Hwrites) as ->.
  apply bind_ok in Hrun as (body & fh & Hbody & Hrun).
  apply with_fresh_ok in Hbody as (Hbody & Hreuse_h & Hana_h).
  apply bind_ok in Hrun as (init & fi & Hinit & Hrun).
  apply bind_ok in Hrun as (n & fj & Hn & Hrun).
  apply lift_result_ok in Hrun as [Hrun <-].
  apply BlockRealize_new_ok in Hrun as [-> _].
  assert (Hfi : block_sref_reuse fi = block_sref_reuse fh /\
                (is_Some init <-> is_Some (Block.init block_subst))).
  { destruct (Block.init block_subst) as [i|].
    - apply bind_ok in Hinit as (stmt & fk & Hgen & Hret).
      apply with_fresh_ok in Hgen as (_ & Hr & _). injection Hret as <- <-.
      split; [exact Hr|]. split; eauto.
    - injection Hinit as <- <-. split; [reflexivity|]. reflexivity. }
  destruct Hfi as [Hfi Hsome].
  unfold new_node in Hn. apply with_fresh_ok in Hn as (_ & Hrn & _).
  exists block_realize, bs, loops, division, last_division, opm, ipm, b, fb, block_subst, c, fc,
    inner_realize, reads, writes, body.
  cbv zeta. split; [exact Hchk|]. split; [exact Hs2r|]. split; [exact Hdiv|].
  split; [exact Hlast|]. split; [apply at_index_ok; exact Hopm|].
  split; [apply at_index_ok; exact Hipm|]. split; [eauto|]. split; [exact Hsub|].
  split; [eauto|]. split.
  { rewrite Hrn, Hfi, Hreuse_h. simpl. rewrite Hreuse_d. reflexivity. }
  split; [eauto|]. split; [eauto|]. split; [eauto|].
  split; [reflexivity|]. split; [reflexivity|]. eauto.
Qed.



Lemma GenerateInner_fields red ivs vals pred block n r n' :
  GenerateInner red ivs vals pred block n = Ok (r, n') ->
  BlockRealize.iter_values r = vals /\ BlockRealize.predicate r = pred /\
  Block.iter_vars (BlockRealize.block r) = ivs /\
  Block.init (BlockRealize.block r) = None /\
  Block.name_hint (BlockRealize.block r) = Block.name_hint block /\
  Block.body (BlockRealize.block r) = Block.body block /\
  Block.writes (BlockRealize.block r) = Block.writes block /\
  Block.alloc_buffers (BlockRealize.block r) = Block.alloc_buffers block /\
  Block.match_buffers (BlockRealize.block r) = Block.match_buffers block /\
  Block.annotations (BlockRealize.block r) = Block.annotations block.
Proof.
  unfold GenerateInner, bind, fresh, ret. intros Hrun.
  apply lift_result_ok in Hrun as [Hrun _].
  apply BlockRealize_new_ok in Hrun as [-> _]. simpl. auto 12.
Qed.

(** X14. After [BlockizeImpl] the reuse map binds the original block (the
    single block under the loop) to the generated inner block, the block of
    the BlockRealize inside the loop nest of the outer block: the sref of
    the original block is handed to the inner block. *)
Theorem BlockizeImpl_reuses_block_sref self loop_sref preserve_unit_iters f0 r f1 :
  BlockizeImpl self loop_sref preserve_unit_iters f0 = Ok (r, f1) ->
  exists block_realize inner_realize copies,
    CheckGetSingleChildBlockRealizeOnSRefTree self loop_sref = Ok block_realize /\
    strip_loops (Block.body (BlockRealize.block r)) = (copies, SBlockRealize inner_realize) /\
    block_sref_reuse f1 !! Block.node (BlockRealize.block block_realize)
      = Some (BlockRealize.block inner_realize).
Proof.
  intros Hrun. apply BlockizeImpl_trace in Hrun
    as (block_realize & block_sref & loops & division & ld & opm & ipm & b & fs & block_subst
        & c & fs' & inner_realize & reads & writes & body & Hchk & _ & _ & _ & _ & _ & _ & _
        & _ & Hreuse & _ & _ & (n & n' & Hnest) & _ & _ & node & init & Hblk & _).
  destruct (MakeLoopNest_core (SBlockRealize inner_realize) loops n)
    as (s & copies & Hrun' & Hstrip & _); [discriminate|].
  rewrite Hnest in Hrun'. injection Hrun' as <- _.
  exists block_realize, inner_realize, copies.
  split; [exact Hchk|]. rewrite Hblk. simpl. split; [exact Hstrip|].
  rewrite Hreuse. apply lookup_insert_eq.
Qed.

(** X15. The blocks [BlockizeImpl] generates: the outer block is named
    after the original block with the suffix "_o", reads and writes the
    buffers the original block reads and writes (in that order), has no
    allocations, match buffers or annotations, and has an init exactly
    when the original block has one; the inner block keeps the name, the
    written buffers, the allocations and the annotations of the original
    block and has no init. *)
Theorem BlockizeImpl_block_signatures self loop_sref preserve_unit_iters f0 r f1 :
  BlockizeImpl self loop_sref preserve_unit_iters f0 = Ok (r, f1) ->
  exists block_realize inner_realize copies,
    let block := BlockRealize.block block_realize in
    let outer := BlockRealize.block r in
    let inner := BlockRealize.block inner_realize in
    CheckGetSingleChildBlockRealizeOnSRefTree self loop_sref = Ok block_realize /\
    strip_loops (Block.body outer) = (copies, SBlockRealize inner_realize) /\
    Block.name_hint outer = Block.name_hint block +:+ "_o" /\
    Block.name_hint inner = Block.name_hint block /\
    map buffer (Block.reads outer) = map buffer (Block.reads block) /\
    map buffer (Block.writes outer) = map buffer (Block.writes block) /\
    map buffer (Block.writes inner) = map buffer (Block.writes block) /\
    Block.alloc_buffers outer = [] /\ Block.match_buffers outer = [] /\
    Block.annotations outer = [] /\
    Block.alloc_buffers inner = Block.alloc_buffers block /\
    Block.annotations inner = Block.annotations block /\
    Block.init inner = None /\
    (is_Some (Block.init outer) <-> is_Some (Block.init block)).
Proof.
  intros Hrun. apply BlockizeImpl_trace in Hrun
    as (block_realize & block_sref & loops & division & ld & opm & ipm & b & fs & block_subst
        & c & fs' & inner_realize & reads & writes & body & Hchk & _ & _ & _ & _ & _ & _ & Hsub
        & (m & m' & Hinner) & _ & (d1 & s1 & Hreads) & (d2 & s2 & Hwrites)
        & (n & n' & Hnest) & _ & _ & node & init & Hblk & Hsome).
  destruct (MakeLoopNest_core (SBlockRealize inner_realize) loops n)
    as (s & copies & Hrun' & Hstrip & _); [discriminate|].
  rewrite Hnest in Hrun'. injection Hrun' as <- _.
  destruct (Substitute_block_spec (BlockRealize.block block_realize) (block_var_subst b) fs)
    as (b' & c' & f' & Hsub' & _ & _ & Hsig).
  rewrite Hsub in Hsub'. injection Hsub' as <- <- <-.
  destruct Hsig as (Hname & _ & _ & Hrd & Hwr & Hab & Han & Hinit).
  apply GenerateInner_fields in Hinner
    as (_ & _ & _ & Hii & Hin & _ & Hiw & Hia & _ & Hian).
  apply EvalSetRegions_inv in Hreads as (_ & Hrb & _).
  apply EvalSetRegions_inv in Hwrites as (_ & Hwb & _).
  exists block_realize, inner_realize, copies. cbv zeta.
  split; [exact Hchk|]. rewrite Hblk. simpl.
  split; [exact Hstrip|]. split; [rewrite Hname; reflexivity|].
  split; [congruence|]. split; [congruence|]. split; [congruence|].
  split; [congruence|]. split; [reflexivity|]. split; [reflexivity|].
  split; [reflexivity|]. split; [congruence|]. split; [congruence|].
  split; [exact Hii|].
  rewrite <- Hinit. exact Hsome.
Qed.


Lemma TrivialSubspaceDivision_last iter_vars bindings predicate outer_iters inner_iters d :
  TrivialSubspaceDivision iter_vars bindings predicate outer_iters inner_iters = Ok d ->
  d <> [] -> last d = Some predicate_marks.
Proof.
  unfold TrivialSubspaceDivision. destruct (negb (is_one predicate)); [congruence|].
  destruct (trivial_division_loop _ _ _ _ _ _) as [[res|]|]; simpl; try congruence.
  intros [= <-] _. apply last_snoc.
Qed.

(** X17. When the affine solver gives up and [BlockizeImpl] still succeeds
    (through the trivial division), the predicate of the original block is
    the literal 1 and both generated BlockRealizes, outer and inner, have
    the literal boolean predicate true. *)
Theorem BlockizeImpl_trivial_predicates
    self loop_sref preserve_unit_iters f0 r f1 block_realize block_sref :
  BlockizeImpl self loop_sref preserve_unit_iters f0 = Ok (r, f1) ->
  CheckGetSingleChildBlockRealizeOnSRefTree self loop_sref = Ok block_realize ->
  stmt2ref self !! Block.node (BlockRealize.block block_realize) = Some block_sref ->
  (let w := collect_loops block_sref loop_sref false [] in
   arith_SubspaceDivide (BlockRealize.iter_values block_realize) (w_loop_var_domain w)
     (w_inner_vars w) (BlockRealize.predicate block_realize) (analyzer f0)
     (negb preserve_unit_iters) = []) ->
  is_one (BlockRealize.predicate block_realize) = true /\
  BlockRealize.predicate r = BoolTrue /\
  exists inner_realize copies,
    strip_loops (Block.body (BlockRealize.block r)) = (copies, SBlockRealize inner_realize) /\
    BlockRealize.predicate inner_realize = BoolTrue.
Proof.
  intros Hrun Hchk Hs2r Hsolver. cbv zeta in Hsolver.
  apply BlockizeImpl_trace in Hrun
    as (block_realize' & block_sref' & loops & division & ld & opm & ipm & b & fs & block_subst
        & c & fs' & inner_realize & reads & writes & body & Hchk' & Hs2r' & Hdiv & Hlast & Hopm
        & Hipm & _ & _ & (m & m' & Hinner) & _ & _ & _ & (n & n' & Hnest) & _ & Hpred
        & node & init & Hblk & _).
  rewrite Hchk in Hchk'. injection Hchk' as <-.
  rewrite Hs2r in Hs2r'. injection Hs2r' as <-.
  unfold SubspaceDivide in Hdiv. rewrite Hsolver in Hdiv. simpl in Hdiv.
  destruct (TrivialSubspaceDivision _ _ _ _ _) as [d|] eqn:Htriv; [|discriminate].
  simpl in Hdiv. injection Hdiv as <- <-.
  assert (Hne : d <> []) by (intros ->; discriminate).
  assert (Hone : is_one (BlockRealize.predicate block_realize) = true).
  { unfold TrivialSubspaceDivision in Htriv.
    destruct (is_one (BlockRealize.predicate block_realize)); [reflexivity|].
    simpl in Htriv. congruence. }
  rewrite (TrivialSubspaceDivision_last _ _ _ _ _ _ Htriv Hne) in Hlast.
  injection Hlast as <-. simpl in Hopm, Hipm. injection Hopm as <-. injection Hipm as <-.
  split; [exact Hone|]. split; [rewrite Hpred; reflexivity|].
  destruct (MakeLoopNest_core (SBlockRealize inner_realize)
              (w_loops (collect_loops block_sref loop_sref false [])) n)
    as (s & copies & Hrun' & Hstrip & _); [discriminate|].
  rewrite Hnest in Hrun'. injection Hrun' as <- _.
  exists inner_realize, copies. rewrite Hblk. simpl. split; [exact Hstrip|].
  apply GenerateInner_fields in Hinner as (_ & Hp & _). rewrite Hp. reflexivity.
Qed.

(** ** The mappings and the rewrite of Tensorize *)

Lemma annot_get_cons a kv k :
  annot_get (kv :: a) k = if String.eqb (fst kv) k then Some (snd kv) else annot_get a k.
Proof. unfold annot_get. simpl. destruct (String.eqb (fst kv) k); reflexivity. Qed.

Lemma annot_get_app a b k :
  annot_get (a ++ b) k =
    match annot_get a k with Some v => Some v | None => annot_get b k end.
Proof.
  induction a as [|kv a IH]; [reflexivity|].
  rewrite <- app_comm_cons, !annot_get_cons.
  destruct (String.eqb (fst kv) k); [reflexivity|exact IH].
Qed.

Lemma annot_get_replace a key val k :
  annot_get (map (fun kv => if String.eqb (fst kv) key then (key, val) else kv) a) k =
    match annot_get a k with
    | Some v => if String.eqb key k then Some val else Some v
    | None => None
    end.
Proof.
  induction a as [|kv a IH]; [reflexivity|].
  rewrite map_cons, !annot_get_cons.
  destruct (String.eqb (fst kv) key) eqn:E1; simpl.
  - apply String.eqb_eq in E1. rewrite E1.
    destruct (String.eqb key k) eqn:E2; [reflexivity|].
    rewrite IH. destruct (annot_get a k); reflexivity.
  - destruct (String.eqb (fst kv) k) eqn:E2.
    + apply String.eqb_eq in E2. rewrite E2 in E1. rewrite String.eqb_sym, E1. reflexivity.
    + exact IH.
Qed.

Lemma annot_get_set a key val k :
  annot_get (annot_set a key val) k =
    if String.eqb key k then Some val else annot_get a k.
Proof.
  unfold annot_set. destruct (annot_get a key) as [v|] eqn:E.
  - rewrite annot_get_replace. destruct (String.eqb key k) eqn:E2.
    + apply String.eqb_eq in E2. subst k. rewrite E. reflexivity.
    + destruct (annot_get a k); reflexivity.
  - rewrite annot_get_app. destruct (String.eqb key k) eqn:E2.
    + apply String.eqb_eq in E2. subst k. rewrite E.
      rewrite annot_get_cons. simpl. rewrite String.eqb_refl. reflexivity.
    + destruct (annot_get a k); [reflexivity|].
      rewrite annot_get_cons. simpl. rewrite E2. reflexivity.
Qed.

Lemma merge_annotations_get block_annotations impl_annotations key :
  annot_get (merge_annotations block_annotations impl_annotations) key =
    match annot_get block_annotations key with
    | Some v => Some v
    | None => annot_get impl_annotations key
    end.
Proof.
  unfold merge_annotations.
  revert block_annotations.
  induction impl_annotations as [|kv rest IH]; intros a; simpl.
  - destruct (annot_get a key); reflexivity.
  - rewrite IH. rewrite annot_get_cons.
    assert (Hstep :
      annot_get
        match annot_get a (fst kv) with
        | Some v => if negb (String.eqb v (snd kv)) then a else annot_set a (fst kv) (snd kv)
        | None => annot_set a (fst kv) (snd kv)
        end key =
      match annot_get a key with
      | Some v => Some v
      | None => if String.eqb (fst kv) key then Some (snd kv) else None
      end).
    { destruct (annot_get a (fst kv)) as [v|] eqn:E.
      - destruct (String.eqb v (snd kv)) eqn:Ev; simpl.
        + rewrite annot_get_set. destruct (String.eqb (fst kv) key) eqn:E2.
          * apply String.eqb_eq in E2. subst key. rewrite E.
            apply String.eqb_eq in Ev. subst v. reflexivity.
          * destruct (annot_get a key); reflexivity.
        + destruct (annot_get a key) eqn:E3; [reflexivity|].
          destruct (String.eqb (fst kv) key) eqn:E2; [|reflexivity].
          apply String.eqb_eq in E2. subst key. congruence.
      - rewrite annot_get_set. destruct (String.eqb (fst kv) key) eqn:E2.
        + apply String.eqb_eq in E2. subst key. rewrite E. reflexivity.
        + destruct (annot_get a key); reflexivity. }
    rewrite Hstep. destruct (annot_get a key); [reflexivity|].
    destruct (String.eqb (fst kv) key); reflexivity.
Qed.

(** X25. The annotations of a tensorized block: a key the block already has
    keeps the value of the block, whatever the intrinsic says; a key only
    the intrinsic has gets the value of the intrinsic; no other key
    appears. *)
Theorem merge_annotations_lookup block_annotations impl_annotations key :
  annot_get (merge_annotations block_annotations impl_annotations) key =
    match annot_get block_annotations key with
    | Some v => Some v
    | None => annot_get impl_annotations key
    end.
Proof. apply merge_annotations_get. Qed.

Lemma emplace_regions_lookup_gen regions : forall m k,
  emplace_regions regions m !! k =
    match m !! k with
    | Some r => Some r
    | None => region <$> List.find (fun br => Nat.eqb (buf_id (buffer br)) k) regions
    end.
Proof.
  unfold emplace_regions.
  induction regions as [|br rest IH]; intros m k; simpl.
  - destruct (m !! k); reflexivity.
  - rewrite IH. destruct (m !! buf_id (buffer br)) as [r0|] eqn:E.
    + destruct (m !! k) eqn:Ek; [reflexivity|].
      destruct (Nat.eqb (buf_id (buffer br)) k) eqn:E2; [|reflexivity].
      apply Nat.eqb_eq in E2. congruence.
    + destruct (Nat.eqb (buf_id (buffer br)) k) eqn:E2.
      * apply Nat.eqb_eq in E2. subst k. rewrite lookup_insert_eq, E. reflexivity.
      * apply Nat.eqb_neq in E2. rewrite lookup_insert_ne by exact E2. reflexivity.
Qed.

Lemma find_app_first {A} (f : A -> bool) (l1 l2 : list A) :
  List.find f (l1 ++ l2) =
    match List.find f l1 with Some x => Some x | None => List.find f l2 end.
Proof.
  induction l1 as [|x l1 IH]; simpl; [reflexivity|].
  destruct (f x); [reflexivity|exact IH].
Qed.

(** X23. The region Tensorize takes for a buffer of the implementation is
    the region of the first access to that buffer, looking through the
    reads of the implementation block and then through its writes
    ([emplace] never overwrites). *)
Theorem emplace_regions_first_wins reads writes k :
  emplace_regions writes (emplace_regions reads ∅) !! k =
    region <$> List.find (fun br => Nat.eqb (buf_id (buffer br)) k) (reads ++ writes).
Proof.
  rewrite !emplace_regions_lookup_gen, lookup_empty.
  rewrite find_app_first.
  destruct (List.find _ reads); reflexivity.
Qed.

Lemma point_dims_total indices_base :
  forall n i acc,
    (i + n <= length indices_base)%nat ->
    exists r, point_dims indices_base n i acc = Ok r /\ length r = (length acc + n)%nat.
Proof.
  induction n as [|n IH]; intros i acc Hle; simpl.
  - exists acc. split; [reflexivity|lia].
  - destruct (lookup_lt_is_Some_2 indices_base i) as [x Hx]; [lia|].
    unfold at_index. rewrite Hx. simpl.
    destruct (IH (S i) (acc ++ [FromMinExtent x (make_const (dtype x) 1)])) as (r & Hr & Hl);
      [lia|].
    exists r. split; [exact Hr|]. rewrite Hl, length_app. simpl. lia.
Qed.

Lemma region_dims_total indices_base old_region offset :
  forall n i acc,
    (i + n <= length old_region)%nat ->
    (length old_region + offset <= length indices_base)%nat ->
    exists r, region_dims indices_base old_region offset n i acc = Ok r /\
              length r = (length acc + n)%nat.
Proof.
  induction n as [|n IH]; intros i acc Hle Hoff; simpl.
  - exists acc. split; [reflexivity|lia].
  - destruct (lookup_lt_is_Some_2 indices_base (i + offset)) as [x Hx]; [lia|].
    destruct (lookup_lt_is_Some_2 old_region i) as [rg Hrg]; [lia|].
    unfold at_index. rewrite Hx, Hrg. simpl.
    destruct (IH (S i) (acc ++ [FromMinExtent x (cast (dtype x) (r_extent rg))]))
      as (r & Hr & Hl); [lia|lia|].
    exists r. split; [exact Hr|]. rewrite Hl, length_app. simpl. lia.
Qed.

(** X24. The region matched against a buffer of the implementation is
    defined exactly when the implementation's region has no more
    dimensions than there are base indices: then it has one range per base
    index, and otherwise the check [offset >= 0] fails. *)
Theorem match_region_defined {St} indices_base old_region (s : St) :
  ((length old_region <= length indices_base)%nat ->
     exists r, match_region indices_base old_region s = Ok (r, s) /\
               length r = length indices_base) /\
  ((length indices_base < length old_region)%nat ->
     match_region indices_base old_region s = Err (InternalError "offset >= 0")).
Proof.
  unfold match_region. split; intros Hlen.
  - unfold bind at 1.
    assert (Hc : Z.leb 0 (Z.of_nat (length indices_base) - Z.of_nat (length old_region)) = true)
      by (apply Z.leb_le; lia).
    rewrite Hc. simpl.
    replace (Z.to_nat (Z.of_nat (length indices_base) - Z.of_nat (length old_region)))
      with (length indices_base - length old_region)%nat by lia.
    destruct (point_dims_total indices_base (length indices_base - length old_region) 0 [])
      as (r1 & Hr1 & Hl1); [lia|].
    unfold bind, lift_result. rewrite Hr1.
    destruct (region_dims_total indices_base old_region
                (length indices_base - length old_region) (length old_region) 0 r1)
      as (r & Hr & Hl); [lia|lia|].
    rewrite Hr. exists r. split; [reflexivity|]. rewrite Hl, Hl1. simpl. lia.
  - unfold bind at 1.
    assert (Hc : Z.leb 0 (Z.of_nat (length indices_base) - Z.of_nat (length old_region)) = false)
      by (apply Z.leb_gt; lia).
    rewrite Hc. reflexivity.
Qed.


Lemma match_buffers_of_params_length {St} intrin_impl cmp impl2cur impl2region :
  forall ps (s : St) ms s',
    match_buffers_of_params intrin_impl cmp impl2cur impl2region ps s = Ok (ms, s') ->
    length ms = length ps /\
    map mb_buffer ms = omap (fun p => buffer_map intrin_impl !! vid p) ps.
Proof.
  induction ps as [|p rest IH]; intros s ms s' Hrun; simpl in Hrun.
  - injection Hrun as <- _. auto.
  - apply bind_ok in Hrun as (m & s1 & Hm & Hrun).
    apply bind_ok in Hrun as (ms' & s2 & Hms & Hrun).
    injection Hrun as <- _. apply IH in Hms as [Hl Hb]. simpl.
    split; [f_equal; exact Hl|].
    unfold match_buffer_of_param in Hm.
    apply bind_ok in Hm as (impl & s3 & Himpl & Hm). apply map_at_ok in Himpl as [Himpl _].
    apply bind_ok in Hm as (cur & s4 & _ & Hm).
    apply bind_ok in Hm as (old & s5 & _ & Hm).
    apply bind_ok in Hm as (ib & s6 & _ & Hm).
    apply bind_ok in Hm as (nr & s7 & _ & Hm).
    injection Hm as <- _. simpl. rewrite Himpl. simpl. f_equal. exact Hb.
Qed.

(** X26. Tensorize changes the body, the match buffers and the annotations
    of the block and nothing else: the rewritten BlockRealize has the iter
    values, predicate, iter vars, reads, writes, name, init and
    allocations of the BlockRealize it started from; its body is the body
    of the implementation block; it has one match buffer per parameter of
    the intrinsic, for the buffers of the implementation's parameters in
    order; and its annotations are those of the block completed by those
    of the implementation block. *)
Theorem Tensorize_rewrite_keeps_signature
    self sref intrin preserve_unit_iters n0 r old n1 :
  Tensorize_rewrite self sref intrin preserve_unit_iters n0 = Ok ((r, old), n1) ->
  exists r0 nmid impl_realize,
    let intrin_impl :=
      IndexDataTypeNormalizer_Rewrite
        (DInt (index_dtype_bits_of (BlockRealize.block r0))) (DeepCopy (impl intrin)) in
    let b := BlockRealize.block r in
    let b0 := BlockRealize.block r0 in
    let impl_block := BlockRealize.block impl_realize in
    Tensorize_target self sref preserve_unit_iters n0 = Ok ((r0, old), nmid) /\
    func_body intrin_impl = SBlockRealize impl_realize /\
    BlockRealize.iter_values r = BlockRealize.iter_values r0 /\
    BlockRealize.predicate r = BlockRealize.predicate r0 /\
    Block.iter_vars b = Block.iter_vars b0 /\
    Block.reads b = Block.reads b0 /\ Block.writes b = Block.writes b0 /\
    Block.name_hint b = Block.name_hint b0 /\ Block.init b = Block.init b0 /\
    Block.alloc_buffers b = Block.alloc_buffers b0 /\
    Block.body b = Block.body impl_block /\
    length (Block.match_buffers b) = length (params (desc intrin)) /\
    map mb_buffer (Block.match_buffers b) =
      omap (fun p => buffer_map intrin_impl !! vid p) (params intrin_impl) /\
    forall key,
      annot_get (Block.annotations b) key =
        match annot_get (Block.annotations b0) key with
        | Some v => Some v
        | None => annot_get (Block.annotations impl_block) key
        end.
Proof.
  unfold Tensorize_rewrite. intros Hrw.
  apply bind_ok in Hrw as ([r0 old0] & nmid & Htgt & Hrw).
  apply bind_ok in Hrw as (intrin_impl & s1 & Hnorm & Hrw).
  unfold normalized_impl in Hnorm.
  apply bind_ok in Hnorm as (u & s0 & Hchk & Hnorm).
  apply ICHECK_ok in Hchk as [Hw ->].
  injection Hnorm as <- <-.
  apply bind_ok in Hrw as (cmp & s1 & Hcmp & Hrw).
  apply lift_result_ok in Hcmp as [Hcmp ->].
  apply bind_ok in Hrw as (u1 & s1 & Hchk & Hrw). apply ICHECK_ok in Hchk as [Hsz ->].
  apply Nat.eqb_eq in Hsz.
  apply bind_ok in Hrw as (impl2desc & s1 & Hi2d & Hrw).
  apply bind_ok in Hrw as (impl2cur & s2 & Hi2c & Hrw).
  apply bind_ok in Hrw as (impl_block & s3 & Hblk & Hrw).
  destruct (func_body _) as [| | |impl_realize| | |] eqn:Hbody in Hblk; try discriminate.
  injection Hblk as <- <-.
  apply bind_ok in Hrw as (mbs & s4 & Hmbs & Hrw).
  apply bind_ok in Hrw as (n & s5 & Hn & Hrw).
  injection Hrw as <- <- <-.
  apply match_buffers_of_params_length in Hmbs as [Hlen Hbufs].
  exists r0, nmid, impl_realize. cbv zeta. simpl.
  split; [exact Htgt|]. split; [exact Hbody|].
  do 9 (split; [reflexivity|]).
  split; [rewrite Hlen, Hsz; reflexivity|]. split; [exact Hbufs|].
  intros key. apply merge_annotations_get.
Qed.

(** X27. Tensorize of an sref that is neither a loop nor a block fails with
    the type error, before anything else is looked at. *)
Theorem Tensorize_rejects_other_targets self sref intrin preserve_unit_iters n :
  (forall l, sref_stmt sref <> SFor l) ->
  (forall b, sref_stmt sref <> SBlock b) ->
  Tensorize self sref intrin preserve_unit_iters n =
    Err (InternalError "TypeError: Tensorize only support For or Block").
Proof.
  intros Hf Hb. unfold Tensorize, Tensorize_rewrite, Tensorize_target, bind.
  destruct (sref_stmt sref) as [l| | | |b| |]; try reflexivity.
  - exfalso. eapply Hf. reflexivity.
  - exfalso. eapply Hb. reflexivity.
Qed.

End FurtherProperties.

(** * Further properties of the group form *)

Section CollectorProperties.
Import CollectSubstInfo.
Context `{Arith, TirLib, Schedule}.

Lemma collector_step_refl c : collector_step c c.
Proof. intros Hok. unfold same_lists. auto 10. Qed.

Lemma collector_step_trans c1 c2 c3 :
  collector_step c1 c2 -> collector_step c2 c3 -> collector_step c1 c3.
Proof.
  intros H12 H23 Hok. destruct (H12 Hok) as (Hok2 & Hn2 & Hup2 & Hsame2).
  destruct (H23 Hok2) as (Hok3 & Hn3 & Hup3 & Hsame3).
  split; [exact Hok3|]. split; [lia|]. split.
  - intros Hn Hin. apply Hup3; [lia|]. apply Hup2; assumption.
  - intros Hn Hout.
    assert (Hout2 : in_lca c2 = false).
    { destruct (in_lca c2) eqn:E; [|reflexivity].
      rewrite Hup3 in Hout; [discriminate|lia|reflexivity]. }
    destruct (Hsame2 Hn Hout2) as (A1 & A2 & A3 & A4).
    destruct (Hsame3 ltac:(lia) Hout) as (B1 & B2 & B3 & B4).
    unfold same_lists. repeat split; congruence.
Qed.

Lemma fresh_id_ok c n c' :
  fresh_id c = Ok (n, c') ->
  c' = mk (outer_iter_vars_ c) (outer_bindings_ c) (block_var_subst_ c) (outer_extent c)
         (in_lca c) (num_outer_iter_vars c) (num_travered c) (S (next c)).
Proof. unfold fresh_id, zoom, fresh. intros [= _ <-]. reflexivity. Qed.

Lemma collect_iter_vars_spec :
  forall ivs i c u c',
    collect_iter_vars ivs i c = Ok (u, c') ->
    outer_bindings_ c' = outer_bindings_ c /\ outer_extent c' = outer_extent c /\
    in_lca c' = in_lca c /\ num_outer_iter_vars c' = num_outer_iter_vars c /\
    num_travered c' = num_travered c /\
    (num_outer_iter_vars c <> 0 -> outer_iter_vars_ c' = outer_iter_vars_ c) /\
    (num_outer_iter_vars c = 0 ->
     arr_size (outer_iter_vars_ c) = Nat.min i (length (outer_extent c)) ->
     arr_size (outer_iter_vars_ c') =
       Nat.min (i + length ivs) (length (outer_extent c))).
Proof.
  induction ivs as [|iv rest IH]; intros i c u c' Hrun; simpl in Hrun.
  - injection Hrun as _ <-. do 6 (split; [reflexivity|]).
    intros _ Hs. rewrite Hs. f_equal. simpl. lia.
  - apply bind_ok in Hrun as (c0 & c1 & Hget & Hrun). injection Hget as <- <-.
    apply bind_ok in Hrun as (u1 & c2 & Hstep & Hrun).
    apply IH in Hrun as (R1 & R2 & R3 & R4 & R5 & R6 & R7).
    assert (Hs : outer_bindings_ c2 = outer_bindings_ c /\
                 outer_extent c2 = outer_extent c /\
                 in_lca c2 = in_lca c /\ num_outer_iter_vars c2 = num_outer_iter_vars c /\
                 num_travered c2 = num_travered c /\
                 (num_outer_iter_vars c <> 0 -> outer_iter_vars_ c2 = outer_iter_vars_ c) /\
                 (num_outer_iter_vars c = 0 ->
                  arr_size (outer_iter_vars_ c) = Nat.min i (length (outer_extent c)) ->
                  arr_size (outer_iter_vars_ c2) =
                    Nat.min (S i) (length (outer_extent c)))).
    { destruct (Nat.ltb i (length (outer_extent c))) eqn:Hlt.
      - apply bind_ok in Hstep as (oe & s1 & Hoe & Hstep).
        apply lift_result_ok in Hoe as [_ ->].
        apply bind_ok in Hstep as (u2 & s1 & Hc & Hstep). apply ICHECK_ok in Hc as [_ ->].
        apply bind_ok in Hstep as (ob & s1 & Hob & Hstep).
        apply lift_result_ok in Hob as [_ ->].
        apply bind_ok in Hstep as (v & s1 & Hv & Hstep).
        assert (s1 = c) as ->.
        { destruct ob; try discriminate. injection Hv as _ <-. reflexivity. }
        apply bind_ok in Hstep as (n & s2 & Hn & Hstep).
        apply fresh_id_ok in Hn as ->.
        apply Nat.ltb_lt in Hlt.
        destruct (Z.eqb (num_outer_iter_vars c) 0) eqn:Hz.
        + injection Hstep as _ <-.
          cbn [outer_bindings_ outer_extent in_lca num_outer_iter_vars num_travered
               outer_iter_vars_ set_lists].
          do 5 (split; [reflexivity|]). apply Z.eqb_eq in Hz.
          split; [intros Hne; contradiction|].
          intros _ Hsz. unfold arr_size, arr_push_back in *. cbn [arr_list].
          rewrite length_app. cbn [length]. lia.
        + injection Hstep as _ <-. simpl.
          do 6 (split; [reflexivity|]). apply Z.eqb_neq in Hz.
          intros Hzero. contradiction.
      - injection Hstep as _ <-. apply Nat.ltb_ge in Hlt.
        do 6 (split; [reflexivity|]).
        intros _ Hsz. rewrite Hsz. lia. }
    destruct Hs as (S1 & S2 & S3 & S4 & S5 & S6 & S7).
    split; [congruence|]. split; [congruence|]. split; [congruence|].
    split; [congruence|]. split; [congruence|]. split.
    + intros Hne. rewrite R6 by congruence. apply S6. exact Hne.
    + intros Hz Hsz. rewrite R7; [rewrite S2; f_equal; simpl; lia|congruence|].
      rewrite S2. apply S7; assumption.
Qed.


Lemma removelast_snoc {A} (l : list A) x : removelast (l ++ [x]) = l.
Proof. apply removelast_last. Qed.

(** The loop case of the collector, given the step of the body. *)
Lemma collector_loop_step lca (loop : For) c u c' :
  (forall c1 u1 c2, VisitStmt lca (For.body loop) c1 = Ok (u1, c2) -> collector_step c1 c2) ->
  VisitStmt lca (SFor loop) c = Ok (u, c') ->
  collector_step c c'.
Proof.
  intros Hbody Hrun. cbn [VisitStmt] in Hrun.
  apply bind_ok in Hrun as (c0 & cx & Hget & Hrun). injection Hget as <- <-.
  destruct (in_lca c) eqn:Hin; cbn [negb] in Hrun; [eapply Hbody; exact Hrun|].
  apply bind_ok in Hrun as (u1 & ca & Hlca & Hrun).
  apply bind_ok in Hrun as (u2 & cb & Hpush & Hrun). injection Hpush as _ <-.
  apply bind_ok in Hrun as (u3 & cc & Hcnt & Hrun). injection Hcnt as _ <-.
  apply bind_ok in Hrun as (u4 & c2 & Hvisit & Hrun).
  apply bind_ok in Hrun as (u5 & cd & Hcnt & Hrun). injection Hcnt as _ <-.
  apply bind_ok in Hrun as (c3 & ce & Hget & Hrun). injection Hget as <- <-.
  apply bind_ok in Hrun as (u6 & c4 & Hpop & Hrun).
  apply bind_ok in Hrun as (c5 & cf & Hget & Hrun). injection Hget as <- <-.
  assert (Hca : outer_iter_vars_ ca = outer_iter_vars_ c /\
                outer_bindings_ ca = outer_bindings_ c /\
                outer_extent ca = outer_extent c /\
                num_outer_iter_vars ca = num_outer_iter_vars c /\
                num_travered ca = num_travered c /\
                in_lca ca = is_lca_loop lca loop).
  { destruct (is_lca_loop lca loop); injection Hlca as _ <-; simpl; auto 10. }
  destruct Hca as (A1 & A2 & A3 & A4 & A5 & A6).
  apply Hbody in Hvisit.
  intros Hok. destruct Hok as (K1 & K2 & K3 & K4 & K5 & K6).
  destruct Hvisit as (Hok2 & Hn2 & Hup2 & Hsame2).
  { unfold collector_ok, arr_size, arr_push_back in *. simpl.
    rewrite A1, A2, A3, A4, A5, !length_app. simpl.
    split; [lia|]. split; [apply Forall_app; split; [exact K2|]; repeat constructor; eauto|].
    split; [lia|]. split; [exact K4|]. split; [exact K5|]. lia. }
  simpl in Hn2. rewrite A5 in Hn2.
  assert (Hn1 : 1 <= num_travered c + 1) by lia.
  simpl in Hup2, Hsame2. rewrite A5, A6 in Hup2. rewrite A5 in Hsame2.
  specialize (Hup2 Hn1). specialize (Hsame2 Hn1).
    assert (H4 : collector_ok c4 /\ num_travered c4 = num_travered c /\
               in_lca c4 = in_lca c2 /\
               (in_lca c2 = false -> same_lists c c4)).
  { simpl in Hpop. destruct (in_lca c2) eqn:Hin2; cbn [negb] in Hpop.
    - injection Hpop as _ <-. simpl.
      split; [|split; [lia|split; [exact Hin2|discriminate]]].
      destruct Hok2 as (L1 & L2 & L3 & L4 & L5 & L6).
      unfold collector_ok. simpl. repeat (split; [assumption|]). lia.
    - destruct (Hsame2 eq_refl) as (S1 & S2 & S3 & S4). simpl in S1, S2, S3, S4.
      rewrite A1 in S1. rewrite A3 in S3. rewrite A4 in S4.
      unfold arr_push_back in S2. simpl in S2. rewrite A2 in S2.
      apply bind_ok in Hpop as (ob & cg & Hob & Hpop). injection Hpop as _ E4.
      unfold arr_pop_back in Hob.
      cbn [set_counts outer_bindings_] in Hob.
      destruct (outer_bindings_ c2) as [[|x l]|] eqn:Eob; try discriminate.
      injection Hob as Eob' Ecg. cbn [arr_list] in S2.
      change (Some (removelast (x :: l)) = ob) in Eob'.
      rewrite S2, removelast_snoc in Eob'.
      assert (Hlists : same_lists c c4).
      { rewrite <- E4, <- Ecg, <- Eob'. unfold same_lists.
        cbn [set_lists set_counts outer_iter_vars_ outer_bindings_
             outer_extent num_outer_iter_vars arr_list].
        rewrite S1, S3, S4, !removelast_snoc. auto. }
      assert (Hn4 : num_travered c4 = num_travered c).
      { rewrite <- E4, <- Ecg. cbn [set_lists set_counts num_travered]. lia. }
      assert (Hi4 : in_lca c4 = false).
      { rewrite <- E4, <- Ecg. cbn [set_lists set_counts in_lca]. exact Hin2. }
      split; [|split; [exact Hn4|split; [exact Hi4|intros _; exact Hlists]]].
      destruct Hlists as (T1 & T2 & T3 & T4).
      unfold collector_ok, arr_size in *. rewrite T1, T2, T3, T4, Hn4.
      repeat (split; [assumption|]). assumption. }
  destruct H4 as (Hok4 & Hn4 & Hin4 & Hsame4).
  assert (Hfin : collector_ok c' /\ num_travered c' = num_travered c4 /\
                 same_lists c4 c' /\
                 in_lca c' = if Z.eqb (num_travered c4) 0 then false else in_lca c4).
  { destruct (Z.eqb (num_travered c4) 0); injection Hrun as _ <-;
      unfold same_lists; simpl; auto 10. }
  destruct Hfin as (Hok' & Hn' & (F1 & F2 & F3 & F4) & Hin').
  split; [exact Hok'|]. split; [lia|]. split; [intros _ Hc; congruence|].
  intros Hn Hout.
  assert (Hz : Z.eqb (num_travered c4) 0 = false) by (apply Z.eqb_neq; lia).
  rewrite Hz, Hin4 in Hin'. rewrite Hin' in Hout.
  destruct (Hsame4 Hout) as (G1 & G2 & G3 & G4).
  unfold same_lists. repeat split; congruence.
Qed.

(** The block case. *)
Lemma collector_block_step lca (block : Block) c u c' :
  (forall c1 u1 c2, VisitStmt lca (Block.body block) c1 = Ok (u1, c2) ->
                    collector_step c1 c2) ->
  (forall i c1 u1 c2, Block.init block = Some i ->
                      VisitStmt lca i c1 = Ok (u1, c2) -> collector_step c1 c2) ->
  VisitStmt lca (SBlock block) c = Ok (u, c') ->
  collector_step c c'.
Proof.
  intros Hbody Hinit Hrun. cbn [VisitStmt] in Hrun.
  destruct (is_lca_block lca block && String.eqb (Block.name_hint block) "root").
  { injection Hrun as _ <-. apply collector_step_refl. }
  apply bind_ok in Hrun as (c0 & cx & Hget & Hrun). injection Hget as <- <-.
  destruct (in_lca c && negb (arr_empty (Block.iter_vars block))) eqn:Hcond.
  - apply andb_true_iff in Hcond as [Hin _].
    apply bind_ok in Hrun as (u1 & c1 & Hcol & Hrun). injection Hrun as _ <-.
    apply collect_iter_vars_spec in Hcol as (R1 & R2 & R3 & R4 & R5 & R6 & R7).
    intros (K1 & K2 & K3 & K4 & K5 & K6).
    split.
    + unfold collector_ok. simpl. rewrite R1, R2, R5.
      split; [exact K1|]. split; [exact K2|]. split.
      * destruct (decide (num_outer_iter_vars c = 0)) as [Hz|Hnz].
        -- rewrite R7; [|exact Hz|rewrite (K4 Hz); reflexivity]. lia.
        -- rewrite R6 by exact Hnz. exact K3.
      * split; [intros Hz; lia|]. split; [lia|exact K6].
    + simpl. split; [exact R5|]. split; [intros _ _; congruence|].
      intros _ Hout. congruence.
  - apply bind_ok in Hrun as (u1 & c1 & Hi & Hrun).
    eapply collector_step_trans; [|eapply Hbody; exact Hrun].
    destruct (Block.init block) as [i|].
    + eapply Hinit; [reflexivity|exact Hi].
    + injection Hi as _ <-. apply collector_step_refl.
Qed.

Lemma collector_VisitStmt_step lca :
  forall s c u c', VisitStmt lca s c = Ok (u, c') -> collector_step c c'.
Proof.
  induction s as [l IH|seq IH|cnd t0 IHt e IHe|r IH|b IH|bf v idx|v] using Stmt_ind;
    intros c u c' Hrun.
  - destruct IH as [node lv mn ex k body IHb tb an].
    eapply collector_loop_step; [|exact Hrun]. exact IHb.
  - cbn [VisitStmt] in Hrun. revert c u c' Hrun.
    induction IH as [|x Hx l Hl IHl]; intros c u c' Hrun.
    + injection Hrun as _ <-. apply collector_step_refl.
    + apply bind_ok in Hrun as (u1 & c1 & Hv & Hrun).
      eapply collector_step_trans; [eapply Hx; exact Hv|eapply IHl; exact Hrun].
  - cbn [VisitStmt] in Hrun.
    apply bind_ok in Hrun as (u1 & c1 & Hv & Hrun).
    eapply collector_step_trans; [eapply IHt; exact Hv|].
    destruct IHe as [e IHe|].
    + eapply IHe; exact Hrun.
    + injection Hrun as _ <-. apply collector_step_refl.
  - destruct IH as [vals prd blk IHb].
    destruct IHb as [node ivs rd wr nm body IHbody ini IHini ab mb an].
    eapply (collector_block_step lca (Block.mk node ivs rd wr nm body ini ab mb an));
      [exact IHbody| |exact Hrun].
    simpl. intros i c1 u1 c2 ->. inversion IHini. eauto.
  - destruct IH as [node ivs rd wr nm body IHbody ini IHini ab mb an].
    eapply (collector_block_step lca (Block.mk node ivs rd wr nm body ini ab mb an));
      [exact IHbody| |exact Hrun].
    simpl. intros i c1 u1 c2 ->. inversion IHini. eauto.
  - injection Hrun as _ <-. apply collector_step_refl.
  - injection Hrun as _ <-. apply collector_step_refl.
Qed.

Lemma Collect_collector_ok self lca block_sref n c n' :
  Collect self lca block_sref n = Ok (c, n') -> collector_ok c.
Proof.
  unfold Collect. intros Hrun.
  destruct (GetScopeRoot self block_sref) as [root|]; [|simpl in Hrun; discriminate].
  cbn [res_bind] in Hrun. destruct (sref_stmt root) as [| | | |b| |]; try discriminate.
  destruct (VisitStmt lca (SBlock b) (initial n)) as [[u c1]|] eqn:Hv; [|discriminate].
  injection Hrun as <- _. apply collector_VisitStmt_step in Hv.
  apply Hv. unfold collector_ok, initial, arr_size. simpl.
  repeat (split; [first [reflexivity|constructor|lia]|]). lia.
Qed.

(** X18. What the collector hands to the rewriter: never more outer
    iterators than outer bindings, one outer extent per outer binding, and
    outer bindings that are all loop variables. *)
Theorem Collect_outer_lists self lca block_sref n c n' :
  CollectSubstInfo.Collect self lca block_sref n = Ok (c, n') ->
  (arr_size (CollectSubstInfo.outer_iter_vars_ c)
     <= arr_size (CollectSubstInfo.outer_bindings_ c))%nat /\
  length (CollectSubstInfo.outer_extent c) = arr_size (CollectSubstInfo.outer_bindings_ c) /\
  Forall (fun e => exists v, e = EVar v) (arr_list (CollectSubstInfo.outer_bindings_ c)).
Proof.
  intros Hrun. apply Collect_collector_ok in Hrun as (K1 & K2 & K3 & _). auto.
Qed.

Lemma make_loop_var_subst_total bindings iter_vars :
  forall n i m,
    (i + n <= length bindings)%nat -> (i + n <= length iter_vars)%nat ->
    exists m', BlockizeBlocks.make_loop_var_subst n i bindings iter_vars m = Ok m'.
Proof.
  induction n as [|n IH]; intros i m Hb Hi; simpl; [eauto|].
  destruct (lookup_lt_is_Some_2 bindings i) as [ob Hob]; [lia|].
  destruct (lookup_lt_is_Some_2 iter_vars i) as [oiv Hoiv]; [lia|].
  unfold at_index. rewrite Hob, Hoiv. simpl. apply IH; lia.
Qed.

(** X19. The constructor of the rewriter fails only when the list of
    targets is empty or the collector fails: its loop over the outer
    iterators never indexes the outer bindings out of range. *)
Theorem create_succeeds_iff self blocks lca f :
  (exists rw0, BlockizeBlocks.create self blocks lca f = Ok rw0) <->
  (exists first c n,
     BlockizeBlocks.front blocks = Ok first /\
     CollectSubstInfo.Collect self lca first (next_id f) = Ok (c, n)).
Proof.
  unfold BlockizeBlocks.create. split.
  - intros (rw0 & Hrun).
    destruct (BlockizeBlocks.front blocks) as [first|] eqn:Hf; [|discriminate].
    cbn [res_bind] in Hrun.
    destruct (CollectSubstInfo.Collect self lca first (next_id f)) as [[c n]|] eqn:Hc;
      [|discriminate].
    exists first, c, n. split; [reflexivity|exact Hc].
  - intros (first & c & n & -> & Hc). cbn [res_bind]. rewrite Hc. cbn [res_bind].
    apply Collect_collector_ok in Hc as (_ & _ & K3 & _).
    destruct (make_loop_var_subst_total
                (arr_list (CollectSubstInfo.outer_bindings_ c))
                (arr_list (CollectSubstInfo.outer_iter_vars_ c))
                (arr_size (CollectSubstInfo.outer_iter_vars_ c)) 0 ∅) as (m & Hm).
    + unfold arr_size in *. simpl. lia.
    + unfold arr_size. simpl. lia.
    + rewrite Hm. cbn [res_bind]. eauto.
Qed.

End CollectorProperties.

Section GroupRewriterProperties.
Import BlockizeBlocks.
Context `{Arith, TirLib, Schedule}.

Section Generic.
Variable I : t -> Prop.
Hypothesis I_frame : forall st f, I st -> I (set_frame f st).
Hypothesis I_first_in : forall st v, I st -> I (set_first_in v st).
Hypothesis I_target_in : forall st v, I st -> I (set_target_in v st).
Hypothesis I_inner : forall st iiv sub, I st -> I (set_inner iiv sub st).
Hypothesis I_tmp : forall st b, I st -> I (set_tmp_in_block b st).
Hypothesis I_seq_body : forall st b, I st -> I (set_seq_body b st).
Hypothesis I_regions :
  forall st rd wr suffix d,
    I st -> I (set_regions rd wr (outer_block_name st +:+ suffix) d st).
Hypothesis I_make_blockized : keeps I make_blockized.

Lemma keeps_ret {A} (a : A) : keeps I (ret a).
Proof. intros st x st' [= <- <-] Hi. exact Hi. Qed.

Lemma keeps_throw {A} e : keeps I (@throw _ A e).
Proof. intros st x st' Hx. discriminate. Qed.

Lemma keeps_get : keeps I get.
Proof. intros st x st' [= <- <-] Hi. exact Hi. Qed.

Lemma keeps_bind {A B} (m : M t A) (k : A -> M t B) :
  keeps I m -> (forall a, keeps I (k a)) -> keeps I (bind m k).
Proof.
  intros Hm Hk st b st' Hrun Hi.
  apply bind_ok in Hrun as (a & s1 & Ha & Hb). eapply Hk; eauto.
Qed.

Lemma keeps_lift_result {A} (r : Result A) : keeps I (lift_result r).
Proof. intros st x st' Hx Hi. apply lift_result_ok in Hx as [_ ->]. exact Hi. Qed.

Lemma keeps_ICHECK c msg : keeps I (ICHECK c msg).
Proof. intros st x st' Hx Hi. apply ICHECK_ok in Hx as [_ ->]. exact Hi. Qed.

Lemma keeps_modify (f : t -> t) : (forall st, I st -> I (f st)) -> keeps I (modify f).
Proof. intros Hf st x st' [= _ <-] Hi. apply Hf. exact Hi. Qed.

Lemma keeps_in_frame {A} (m : M Frame A) : keeps I (in_frame m).
Proof.
  intros st x st' Hx Hi. unfold in_frame, zoom in Hx.
  destruct (m (frame st)) as [[a f]|]; [|discriminate]. injection Hx as _ <-.
  apply I_frame. exact Hi.
Qed.

Lemma keeps_EvalSetRegions regions d : keeps I (EvalSetRegions regions d).
Proof. intros st x st' Hx Hi. apply EvalSetRegions_state in Hx as ->. exact Hi. Qed.

Lemma set_regions_same_name st rd wr d :
  I st -> I (set_regions rd wr (outer_block_name st) d st).
Proof.
  intros Hi. rewrite <- (append_empty_r (outer_block_name st)) at 1.
  apply I_regions. exact Hi.
Qed.

Ltac keeps_step :=
  match goal with
  | |- keeps _ (ret _) => apply keeps_ret
  | |- keeps _ (throw _) => apply keeps_throw
  | |- keeps _ get => apply keeps_get
  | |- keeps _ (bind _ _) => apply keeps_bind; [|intros ?]
  | |- keeps _ (lift_result _) => apply keeps_lift_result
  | |- keeps _ (ICHECK _ _) => apply keeps_ICHECK
  | |- keeps _ (in_frame _) => apply keeps_in_frame
  | |- keeps _ fresh_id => apply keeps_in_frame
  | |- keeps _ (fresh_var _) => apply keeps_in_frame
  | |- keeps _ (EvalSetRegions _ _) => apply keeps_EvalSetRegions
  | |- keeps _ make_blockized => apply I_make_blockized
  | |- keeps _ (modify _) =>
      apply keeps_modify; intros;
      first [ apply I_first_in | apply I_target_in | apply I_inner | apply I_tmp
            | apply I_seq_body | apply set_regions_same_name | apply I_regions ];
      assumption
  | |- keeps _ (if ?c then _ else _) => destruct c
  | |- keeps _ (match ?x with _ => _ end) => destruct x
  | Hk : keeps _ ?m |- keeps _ ?m => exact Hk
  end.

Ltac keeps_all := repeat keeps_step.

Lemma keeps_rewrite_seq_step is_last it stmt l :
  keeps I (rewrite_seq_step is_last it stmt l).
Proof. unfold rewrite_seq_step. keeps_all. Qed.

Lemma keeps_mint_inner_iters ivs : keeps I (mint_inner_iters ivs).
Proof. induction ivs as [|iv rest IH]; simpl; [apply keeps_ret|]. keeps_all. Qed.

Lemma keeps_visit_target block : keeps I (visit_target block).
Proof.
  unfold visit_target. keeps_all; try apply keeps_mint_inner_iters.
Qed.

Lemma keeps_realize_target blockrealize stmt : keeps I (realize_target blockrealize stmt).
Proof. unfold realize_target. keeps_all. Qed.

Lemma keeps_rewrite_seq_loop visit seq_size :
  forall items i l,
    Forall (fun it => keeps I (visit it)) items ->
    keeps I (rewrite_seq_loop visit seq_size items i l).
Proof.
  induction items as [|it rest IH]; intros i l Hall; simpl; [apply keeps_ret|].
  apply Forall_cons in Hall as [Hit Hrest].
  keeps_all. - apply keeps_rewrite_seq_step. - apply IH. exact Hrest.
Qed.

Lemma keeps_RewriteSeq visit stmt :
  (forall seq, stmt = SSeqStmt seq -> Forall (fun it => keeps I (visit it)) seq) ->
  keeps I (RewriteSeq visit stmt).
Proof.
  intros Hall. unfold RewriteSeq. destruct stmt; try apply keeps_throw.
  specialize (Hall _ eq_refl). keeps_all. apply keeps_rewrite_seq_loop. exact Hall.
Qed.

Lemma keeps_visit_seq visit :
  forall l, Forall (fun it => keeps I (visit it)) l -> keeps I (visit_seq visit l).
Proof.
  induction l as [|x l IH]; intros Hall; simpl; [apply keeps_ret|].
  apply Forall_cons in Hall as [Hx Hl]. specialize (IH Hl). keeps_all.
Qed.

Lemma keeps_VisitBlock visit blocks lca block :
  (forall seq, Block.body block = SSeqStmt seq ->
               Forall (fun it => keeps I (visit it)) seq) ->
  keeps I (VisitBlock visit blocks lca block).
Proof.
  intros Hall. unfold VisitBlock. keeps_all.
  - apply keeps_RewriteSeq. exact Hall.
  - apply keeps_visit_target.
Qed.

Lemma keeps_VisitStmt blocks lca :
  forall s,
    keeps I (VisitStmt blocks lca s) /\
    (forall seq, s = SSeqStmt seq ->
                 Forall (fun it => keeps I (VisitStmt blocks lca it)) seq).
Proof.
  induction s as [f IH|seq IH|c t0 IHt e IHe|r IH|b IH| |] using Stmt_ind.
  - split; [|discriminate]. destruct IH as [node lv mn ex k body [IHb IHseq] tb an].
    simpl. keeps_all. apply keeps_RewriteSeq. exact IHseq.
  - apply list_all_Forall in IH.
    assert (Hall : Forall (fun it => keeps I (VisitStmt blocks lca it)) seq).
    { eapply Forall_impl; [exact IH|]. intros x [Hx _]. exact Hx. }
    split; [|intros seq' [= <-]; exact Hall].
    simpl. keeps_all. apply keeps_visit_seq. exact Hall.
  - split; [|discriminate]. destruct IHt as [IHt _]. simpl.
    destruct IHe as [e [IHe _]|]; keeps_all.
  - split; [|discriminate].
    destruct IH as [vals prd blk IHb].
    destruct IHb as [node ivs rd wr nm body [IHbody IHseq] ini IHini ab mb an].
    simpl. keeps_all.
    + apply keeps_VisitBlock. exact IHseq.
    + apply keeps_realize_target.
  - split; [|discriminate].
    destruct IH as [node ivs rd wr nm body [IHbody IHseq] ini IHini ab mb an].
    simpl. apply keeps_VisitBlock. exact IHseq.
  - split; [|discriminate]. simpl. apply keeps_ret.
  - split; [|discriminate]. simpl. apply keeps_ret.
Qed.

Lemma keeps_Rewrite self blocks lca f rw0 new_lca rw :
  create self blocks lca f = Ok rw0 ->
  Rewrite self blocks lca f = Ok (new_lca, rw) ->
  I rw0 -> I rw.
Proof.
  intros Hcreate Hrun Hi. unfold Rewrite in Hrun. rewrite Hcreate in Hrun. simpl in Hrun.
  destruct (VisitStmt blocks lca (sref_stmt lca) rw0) as [[[nl c] rw']|] eqn:Hvisit;
    [|discriminate].
  injection Hrun as <- <-.
  destruct (keeps_VisitStmt blocks lca (sref_stmt lca)) as [Hkeep _].
  apply (Hkeep _ _ _ Hvisit). exact Hi.
Qed.

End Generic.

Lemma make_blockized_run st r st' :
  make_blockized st = Ok (r, st') ->
  exists oiv ob reads writes n f',
    (if arr_defined (outer_iter_vars st) then
       oiv = outer_iter_vars st /\ ob = outer_bindings st
     else
       exists v,
         oiv = Some [mkIterVar (RangeFromExtent (IntImm (DInt 32) 1)) v kDataPar] /\
         name_hint v = "init_o" /\ vdtype v = DInt 32 /\
         ob = arr_push_back (arr_clear (outer_bindings st)) (make_zero (DInt 32))) /\
    UnionRegions (read_regions st) = Ok reads /\
    UnionRegions (write_regions st) = Ok writes /\
    length (arr_list ob) = length (arr_list oiv) /\
    r = BlockRealize.mk (arr_list ob) (make_const DBool 1)
          (Block.mk n (arr_list oiv) reads writes (outer_block_name st)
             (SSeqStmt (seq_body st)) None [] [] []) /\
    st' = set_blockized r None None (set_frame f' st).
Proof.
  unfold make_blockized. intros Hrun.
  apply bind_ok in Hrun as (s0 & s1 & Hget & Hrun). injection Hget as <- <-.
  apply bind_ok in Hrun as (u & s1 & Hdummy & Hrun).
  apply bind_ok in Hrun as (s2 & s3 & Hget & Hrun). injection Hget as <- <-.
  apply bind_ok in Hrun as (reads & s3 & Hr & Hrun). apply lift_result_ok in Hr as [Hr ->].
  apply bind_ok in Hrun as (writes & s3 & Hw & Hrun). apply lift_result_ok in Hw as [Hw ->].
  apply bind_ok in Hrun as (n & s3 & Hn & Hrun).
  apply bind_ok in Hrun as (r0 & s4 & Hnew & Hrun).
  apply lift_result_ok in Hnew as [Hnew ->].
  apply BlockRealize_new_ok in Hnew as [-> Hsz].
  apply bind_ok in Hrun as (u2 & s5 & Hm & Hrun).
  injection Hm as _ <-. injection Hrun as <- <-.
  unfold fresh_id, in_frame, zoom in Hn.
  destruct (new_node (frame s1)) as [[n' fn]|] eqn:Hnn; [|discriminate].
  injection Hn as <- <-.
  destruct (arr_defined (outer_iter_vars st)) eqn:Hdef; simpl in Hdummy.
  - injection Hdummy as _ <-.
    exists (outer_iter_vars st), (outer_bindings st), reads, writes, n', fn.
    split; [auto|]. split; [exact Hr|]. split; [exact Hw|].
    split; [simpl in Hsz; exact Hsz|]. split; reflexivity.
  - apply bind_ok in Hdummy as (i & s5 & Hi & Hdummy).
    apply bind_ok in Hdummy as (v & s6 & Hv & Hdummy).
    injection Hdummy as _ <-.
    unfold fresh_id, in_frame, zoom in Hi.
    destruct (new_node (frame st)) as [[i' fi]|] eqn:Hni; [|discriminate].
    injection Hi as <- <-.
    unfold fresh_var, in_frame, zoom, with_fresh, zoom, copy_with_suffix, bind, fresh, ret
      in Hv. simpl in Hv. injection Hv as <- <-.
    simpl in *.
    exists (Some [mkIterVar (RangeFromExtent (IntImm (DInt 32) 1))
                    (mkVar (next_id fi) "init_o" (DInt 32)) kDataPar]),
      (arr_push_back (arr_clear (outer_bindings st)) (make_zero (DInt 32))),
      reads, writes, n', fn.
    split; [eexists; split; [reflexivity|]; split; [reflexivity|]; split; reflexivity|].
    split; [exact Hr|]. split; [exact Hw|].
    split; [destruct (outer_bindings st) as [?|]; reflexivity|].
    destruct (outer_iter_vars st); [discriminate|]. simpl. split; reflexivity.
Qed.

(** *** The shape of the outer block *)

Lemma group_outer_make_blockized : keeps group_outer_inv make_blockized.
Proof.
  intros st r st' Hrun [[sfx Hname] Hinv].
  apply make_blockized_run in Hrun
    as (oiv & ob & reads & writes & n & f' & _ & _ & _ & _ & -> & ->).
  split; [exists sfx; exact Hname|].
  intros r' [= <-]. unfold group_outer_shape. simpl.
  repeat (split; [reflexivity|]). split; [eauto|]. exists sfx. exact Hname.
Qed.

Lemma Rewrite_group_outer_inv self blocks lca f new_lca rw :
  Rewrite self blocks lca f = Ok (new_lca, rw) -> group_outer_inv rw.
Proof.
  intros Hrun. pose proof Hrun as Hrun0. unfold Rewrite in Hrun.
  destruct (create self blocks lca f) as [rw0|] eqn:Hcreate; [|discriminate].
  refine (keeps_Rewrite group_outer_inv _ _ _ _ _ _ _ _ self blocks lca f rw0 new_lca rw
            Hcreate Hrun0 _).
  - intros st f0 Hi. exact Hi.
  - intros st v Hi. exact Hi.
  - intros st v Hi. exact Hi.
  - intros st iiv sub Hi. exact Hi.
  - intros st b Hi. exact Hi.
  - intros st b Hi. exact Hi.
  - intros st rd wr suffix d [[sfx Hname] Hinv]. split; [|exact Hinv].
    simpl. exists (sfx +:+ suffix). rewrite Hname. reflexivity.
  - exact group_outer_make_blockized.
  - unfold create in Hcreate.
    destruct (front blocks); [|discriminate]. simpl in Hcreate.
    destruct (CollectSubstInfo.Collect _ _ _ _) as [[c0 n]|]; [|discriminate].
    simpl in Hcreate.
    destruct (make_loop_var_subst _ _ _ _ _); [|discriminate].
    injection Hcreate as <-. split; [exists ""; reflexivity|]. discriminate.
Qed.

(** X21. The outer block of the group form has no init, no allocations, no
    match buffers and no annotations; its body is a SeqStmt and its name
    starts with "outer_". *)
Theorem Rewrite_outer_block_shape self blocks lca f new_lca rw r :
  Rewrite self blocks lca f = Ok (new_lca, rw) ->
  blockized_ rw = Some r ->
  group_outer_shape r.
Proof.
  intros Hrun Hr. apply Rewrite_group_outer_inv in Hrun as [_ Hinv]. apply Hinv. exact Hr.
Qed.

(** *** The common ancestor is the root block *)

Lemma Collect_root_lca self lca block_sref n root b :
  GetScopeRoot self block_sref = Ok root ->
  sref_stmt root = SBlock b ->
  is_lca_block lca b = true ->
  Block.name_hint b = "root" ->
  CollectSubstInfo.Collect self lca block_sref n = Ok (CollectSubstInfo.initial n, n).
Proof.
  intros Hroot Hb Hlca Hname. unfold CollectSubstInfo.Collect.
  rewrite Hroot. simpl. rewrite Hb. simpl. rewrite Hlca, Hname. reflexivity.
Qed.

Lemma unit_outer_make_blockized : keeps unit_outer_inv make_blockized.
Proof.
  intros st r st' Hrun (Hoiv & Hob & Hinv).
  apply make_blockized_run in Hrun
    as (oiv & ob & reads & writes & n & f' & Hshape & _ & _ & _ & -> & ->).
  rewrite Hoiv in Hshape. simpl in Hshape.
  destruct Hshape as (v & -> & Hv1 & Hv2 & ->). rewrite Hob. simpl.
  split; [reflexivity|]. split; [reflexivity|].
  intros r' [= <-]. split; [reflexivity|]. exists v. simpl. auto.
Qed.

(** X22. When the common ancestor is the root block (named "root"), the
    collector hands over nothing and the outer BlockRealize gets the
    synthesized iterator: one data-parallel iterator named "init_o" over
    [0, 1), bound to the constant 0. *)
Theorem Rewrite_root_lca_unit_iter self blocks lca f first root b new_lca rw r :
  front blocks = Ok first ->
  GetScopeRoot self first = Ok root ->
  sref_stmt root = SBlock b ->
  is_lca_block lca b = true ->
  Block.name_hint b = "root" ->
  Rewrite self blocks lca f = Ok (new_lca, rw) ->
  blockized_ rw = Some r ->
  unit_outer r.
Proof.
  intros Hfront Hroot Hb Hlca Hname Hrun Hr.
  pose proof Hrun as Hrun0. unfold Rewrite in Hrun.
  destruct (create self blocks lca f) as [rw0|] eqn:Hcreate; [|discriminate].
  assert (Hinv : unit_outer_inv rw).
  { refine (keeps_Rewrite unit_outer_inv _ _ _ _ _ _ _ _ self blocks lca f rw0 new_lca rw
              Hcreate Hrun0 _).
    - intros st f0 Hi. exact Hi.
    - intros st v Hi. exact Hi.
    - intros st v Hi. exact Hi.
    - intros st iiv sub Hi. exact Hi.
    - intros st b0 Hi. exact Hi.
    - intros st b0 Hi. exact Hi.
    - intros st rd wr suffix d Hi. exact Hi.
    - exact unit_outer_make_blockized.
    - unfold create in Hcreate. rewrite Hfront in Hcreate. simpl in Hcreate.
      rewrite (Collect_root_lca _ _ _ _ _ _ Hroot Hb Hlca Hname) in Hcreate.
      simpl in Hcreate. injection Hcreate as <-.
      split; [reflexivity|]. split; [reflexivity|]. discriminate. }
  destruct Hinv as (_ & _ & Hinv). apply Hinv. exact Hr.
Qed.

(** X20. The group form requires the statement under the common ancestor
    to be a SeqStmt: for any other body the rewrite fails with "Target
    blocks must not be nested with each other!" (whenever the constructor
    of the rewriter itself succeeded). *)
Theorem Rewrite_needs_seq_body self blocks lca f rw0 body :
  BlockizeBlocks.create self blocks lca f = Ok rw0 ->
  lca_body lca = Some body ->
  (forall seq, body <> SSeqStmt seq) ->
  Rewrite self blocks lca f =
    Err (InternalError "Target blocks must not be nested with each other!").
Proof.
  intros Hcreate Hbody Hns. unfold Rewrite. rewrite Hcreate. simpl.
  unfold lca_body in Hbody.
  assert (Hseq : forall visit st, RewriteSeq visit body st =
            Err (InternalError "Target blocks must not be nested with each other!")).
  { intros visit st. unfold RewriteSeq. destruct body; try reflexivity.
    exfalso. eapply Hns. reflexivity. }
  destruct (sref_stmt lca) as [l| | | |b| |] eqn:Hs; try discriminate;
    injection Hbody as <-.
  - simpl. unfold is_lca_loop. rewrite Hs, Nat.eqb_refl.
    unfold bind at 1. simpl. unfold bind at 1. rewrite Hseq. reflexivity.
  - simpl. unfold VisitBlock, is_lca_block. rewrite Hs, Nat.eqb_refl.
    unfold bind at 1. simpl. unfold bind at 1. rewrite Hseq. reflexivity.
Qed.

End GroupRewriterProperties.

(** * The size invariant of BlockRealize *)

Section SizedReplacer.
Context `{Arith, TirLib, Schedule}.

Lemma realizes_sized_seq seq :
  realizes_sized (SSeqStmt seq) = true <-> Forall (fun x => realizes_sized x = true) seq.
Proof.
  cbn [realizes_sized]. induction seq as [|x l IH].
  - split; [constructor|reflexivity].
  - rewrite andb_true_iff, IH, Forall_cons. reflexivity.
Qed.

Lemma realizes_sized_block (b : Block) :
  realizes_sized (SBlock b) = true <->
  realizes_sized (Block.body b) = true /\
  forall i, Block.init b = Some i -> realizes_sized i = true.
Proof.
  cbn [realizes_sized]. rewrite andb_true_iff. destruct (Block.init b) as [i|].
  - split; intros [Hb Hi]; (split; [exact Hb|]).
    + intros i' [= <-]. exact Hi.
    + apply Hi. reflexivity.
  - split; intros [Hb _]; (split; [exact Hb|]); [discriminate|reflexivity].
Qed.

Lemma realizes_sized_realize (r : BlockRealize) :
  realizes_sized (SBlockRealize r) = true <->
  sizes_equal r /\ realizes_sized (SBlock (BlockRealize.block r)) = true.
Proof.
  unfold sizes_equal. cbn [realizes_sized]. rewrite andb_true_iff, Nat.eqb_eq.
  reflexivity.
Qed.

Lemma Replacer_exprs_length sub ana l :
  length (fst (Replacer_exprs sub ana l)) = length l.
Proof. unfold Replacer_exprs. simpl. rewrite !length_map. reflexivity. Qed.

Lemma Replacer_iter_vars_length sub ana l :
  length (fst (Replacer_iter_vars sub ana l)) = length l.
Proof. unfold Replacer_iter_vars. simpl. rewrite !length_map. reflexivity. Qed.

Lemma visit_block_keeps_sized sub (b : Block) :
  visit_keeps_sized sub (Block.body b) ->
  (forall i, Block.init b = Some i -> visit_keeps_sized sub i) ->
  forall f s' c f',
    Replacer_VisitStmt sub (SBlock b) f = Ok ((s', c), f') ->
    exists b',
      s' = SBlock b' /\
      length (Block.iter_vars b') = length (Block.iter_vars b) /\
      (realizes_sized (SBlock b) = true -> realizes_sized (SBlock b') = true).
Proof.
  intros Hbody Hinit f s' c f' Hrun.
  cbn [Replacer_VisitStmt] in Hrun.
  apply bind_ok in Hrun as ([blk cb] & f1 & Hvb & Hret). injection Hret as <- <- <-.
  exists blk. split; [reflexivity|].
  apply bind_ok in Hvb as (f0 & fa & Hget & Hvb). injection Hget as <- <-.
  pose proof (Replacer_iter_vars_length sub (analyzer f) (Block.iter_vars b)) as Hlen.
  destruct (Replacer_iter_vars sub (analyzer f) (Block.iter_vars b)) as [ivs c1].
  destruct (Replacer_regions sub (analyzer f) (Block.reads b)) as [rds c2].
  destruct (Replacer_regions sub (analyzer f) (Block.writes b)) as [wrs c3].
  destruct (Replacer_match_buffers sub (analyzer f) (Block.match_buffers b)) as [mbs c4].
  simpl in Hlen.
  apply bind_ok in Hvb as ([ini c5] & fb & Hini & Hvb).
  apply bind_ok in Hvb as ([bdy c6] & fc & Hbdy & Hvb).
  assert (Hi : realizes_sized (SBlock b) = true ->
               realizes_sized bdy = true /\
               match ini with Some i => realizes_sized i = true | None => True end).
  { intros Hs. apply realizes_sized_block in Hs as [Hsb Hsi].
    split; [eapply Hbody; eauto|].
    destruct (Block.init b) as [i|] eqn:Ei.
    - apply bind_ok in Hini as ([i' ci] & fd & Hvi & Hret). injection Hret as <- _ _.
      eapply Hinit; eauto.
    - injection Hini as <- _ _. exact I. }
  destruct (c1 || c2 || c3 || c4 || c5 || c6).
  - apply bind_ok in Hvb as (n & fd & _ & Hvb).
    apply bind_ok in Hvb as (u & fe & _ & Hvb). injection Hvb as <- _ _.
    split; [exact Hlen|]. intros Hs. destruct (Hi Hs) as [Hb' Hi'].
    apply realizes_sized_block. simpl. split; [exact Hb'|].
    intros i ->. exact Hi'.
  - injection Hvb as <- _ _. split; [reflexivity|auto].
Qed.

Lemma Replacer_VisitStmt_keeps_sized sub : forall s, visit_keeps_sized sub s.
Proof.
  induction s as [l IH|seq IH|cnd t IHt e IHe|r IH|b IH|bf v idx|v] using Stmt_ind.
  - destruct IH as [node lv mn ex k body IHb tb an]. intros f s' c f' Hrun Hs.
    cbn [Replacer_VisitStmt For.min For.extent For.body] in Hrun.
    apply bind_ok in Hrun as (f0 & fa & Hget & Hrun). injection Hget as <- <-.
    destruct (Replacer_VisitExpr sub (analyzer f) mn) as [mn' c1].
    destruct (Replacer_VisitExpr sub (analyzer f) ex) as [ex' c2].
    apply bind_ok in Hrun as ([bdy c3] & fb & Hb & Hrun).
    destruct (c1 || c2 || c3).
    + apply bind_ok in Hrun as (n & fc & _ & Hrun). injection Hrun as <- _ _.
      cbn [realizes_sized For.body] in Hs |- *. eapply IHb; eauto.
    + injection Hrun as <- _ _. exact Hs.
  - intros f s' c f' Hrun Hs. cbn [Replacer_VisitStmt] in Hrun.
    apply bind_ok in Hrun as ([seq' c'] & fa & Hgo & Hrun).
    assert (Hall : Forall (fun x => realizes_sized x = true) seq').
    { apply realizes_sized_seq in Hs. clear Hrun. revert f seq' c' fa Hgo Hs.
      induction IH as [|x Hx l Hl IHl]; intros f seq' c' fa Hgo Hs.
      - injection Hgo as <- _ _. constructor.
      - apply bind_ok in Hgo as ([x' c1] & fb & Hvx & Hgo).
        apply bind_ok in Hgo as ([l' c2] & fc & Hvl & Hgo). injection Hgo as <- _ _.
        apply Forall_cons in Hs as [Hsx Hsl]. constructor.
        + eapply Hx; eauto.
        + eapply IHl; eauto. }
    destruct c'; injection Hrun as <- _ _; [|exact Hs].
    apply realizes_sized_seq. exact Hall.
  - intros f s' c f' Hrun Hs. cbn [Replacer_VisitStmt] in Hrun.
    apply bind_ok in Hrun as (f0 & fa & Hget & Hrun). injection Hget as <- <-.
    destruct (Replacer_VisitExpr sub (analyzer f) cnd) as [cnd' c1].
    apply bind_ok in Hrun as ([t' c2] & fb & Ht & Hrun).
    apply bind_ok in Hrun as ([e' c3] & fc & He & Hrun).
    cbn [realizes_sized] in Hs. apply andb_true_iff in Hs as [Hst Hse].
    assert (Hse' : match e' with Some x => realizes_sized x = true | None => True end).
    { destruct IHe as [e0 IHe|].
      - apply bind_ok in He as ([e1 ce] & fd & Hve & Hret). injection Hret as <- _ _.
        eapply IHe; eauto.
      - injection He as <- _ _. exact I. }
    destruct (c1 || c2 || c3); injection Hrun as <- _ _.
    + cbn [realizes_sized]. apply andb_true_iff. split; [eapply IHt; eauto|].
      destruct e'; [exact Hse'|reflexivity].
    + cbn [realizes_sized]. apply andb_true_iff. split; assumption.
  - destruct IH as [vals prd blk IHb].
    destruct IHb as [node ivs rd wr nm body IHbody ini IHini ab mb an].
    intros f s' c f' Hrun Hs.
    set (b := Block.mk node ivs rd wr nm body ini ab mb an) in *.
    assert (Hi : forall i, Block.init b = Some i -> visit_keeps_sized sub i).
    { simpl. intros i ->. inversion IHini. assumption. }
    cbn [Replacer_VisitStmt BlockRealize.iter_values BlockRealize.predicate
         BlockRealize.block] in Hrun.
    apply bind_ok in Hrun as (f0 & fa & Hget & Hrun). injection Hget as <- <-.
    pose proof (Replacer_exprs_length sub (analyzer f) vals) as Hlen.
    destruct (Replacer_exprs sub (analyzer f) vals) as [vals' c1].
    destruct (Replacer_VisitExpr sub (analyzer f) prd) as [prd' c2].
    apply bind_ok in Hrun as ([blk' c3] & fb & Hvb & Hrun).
    assert (Hblk : Replacer_VisitStmt sub (SBlock b) f = Ok ((SBlock blk', c3), fb)).
    { cbn [Replacer_VisitStmt]. eapply bind_eq_to; [exact Hvb|reflexivity]. }
    destruct (visit_block_keeps_sized sub b IHbody Hi _ _ _ _ Hblk)
      as (b' & Eb & Hlb & Hsb). injection Eb as <-.
    destruct (c1 || c2 || c3); injection Hrun as <- _ _; [|exact Hs].
    apply realizes_sized_realize in Hs as [Hsz Hs].
    apply realizes_sized_realize. split; [|apply Hsb; exact Hs].
    unfold sizes_equal in *. simpl in *. rewrite Hlen, Hlb. exact Hsz.
  - destruct IH as [node ivs rd wr nm body IHbody ini IHini ab mb an].
    intros f s' c f' Hrun Hs.
    set (b := Block.mk node ivs rd wr nm body ini ab mb an) in *.
    assert (Hi : forall i, Block.init b = Some i -> visit_keeps_sized sub i).
    { simpl. intros i ->. inversion IHini. assumption. }
    destruct (visit_block_keeps_sized sub b IHbody Hi _ _ _ _ Hrun)
      as (b' & -> & _ & Hsb). apply Hsb. exact Hs.
  - intros f s' c f' Hrun Hs. cbn [Replacer_VisitStmt] in Hrun.
    apply bind_ok in Hrun as (f0 & fa & Hget & Hrun). injection Hget as <- <-.
    destruct (Replacer_VisitExpr sub (analyzer f) v) as [v' c1].
    destruct (Replacer_exprs sub (analyzer f) idx) as [idx' c2].
    destruct (c1 || c2); injection Hrun as <- _ _; reflexivity.
  - intros f s' c f' Hrun Hs. cbn [Replacer_VisitStmt] in Hrun.
    apply bind_ok in Hrun as (f0 & fa & Hget & Hrun). injection Hget as <- <-.
    destruct (Replacer_VisitExpr sub (analyzer f) v) as [v' c1].
    destruct c1; injection Hrun as <- _ _; reflexivity.
Qed.

Lemma Substitute_block_keeps_sized block sub f b' c f' :
  Substitute_block block sub f = Ok ((b', c), f') ->
  length (Block.iter_vars b') = length (Block.iter_vars block) /\
  (realizes_sized (SBlock block) = true -> realizes_sized (SBlock b') = true).
Proof.
  unfold Substitute_block. intros Hrun.
  apply bind_ok in Hrun as ([s' c'] & f1 & Hv & Hret).
  destruct (visit_block_keeps_sized sub block (Replacer_VisitStmt_keeps_sized sub _)
              (fun i _ => Replacer_VisitStmt_keeps_sized sub i) _ _ _ _ Hv)
    as (b1 & -> & Hl & Hs).
  injection Hret as <- _ _. auto.
Qed.

End SizedReplacer.

Section SizedRewriter.
Import BlockizeBlocks.
Context `{Arith, TirLib, Schedule}.

Lemma sized_run_ret {A} (a : A) (Q : A -> Prop) : Q a -> sized_run (ret a) Q.
Proof. intros Hq st x st' [= <- <-] Hi. auto. Qed.

Lemma sized_run_bind {A B} (m : M t A) (k : A -> M t B) (P : A -> Prop) (Q : B -> Prop) :
  sized_run m P -> (forall a, P a -> sized_run (k a) Q) -> sized_run (bind m k) Q.
Proof.
  intros Hm Hk st b st' Hrun Hi.
  apply bind_ok in Hrun as (a & s1 & Ha & Hb).
  destruct (Hm _ _ _ Ha Hi) as [Hi1 Hp]. exact (Hk a Hp _ _ _ Hb Hi1).
Qed.

Lemma sized_run_keeps {A} (m : M t A) : keeps sized_state m -> sized_run m (fun _ => True).
Proof. intros Hk st a st' Hrun Hi. split; [exact (Hk _ _ _ Hrun Hi)|exact I]. Qed.

Lemma sized_state_frame st f : sized_state st -> sized_state (set_frame f st).
Proof. intros Hs. exact Hs. Qed.

Lemma sized_state_first_in st v : sized_state st -> sized_state (set_first_in v st).
Proof. intros Hs. exact Hs. Qed.

Lemma sized_state_target_in st v : sized_state st -> sized_state (set_target_in v st).
Proof. intros Hs. exact Hs. Qed.

Lemma sized_state_inner st iiv sub : sized_state st -> sized_state (set_inner iiv sub st).
Proof. intros Hs. exact Hs. Qed.

Lemma sized_state_tmp st b : sized_state st -> sized_state (set_tmp_in_block b st).
Proof. intros Hs. exact Hs. Qed.

Lemma sized_state_regions st rd wr name d :
  sized_state st -> sized_state (set_regions rd wr name d st).
Proof. intros Hs. exact Hs. Qed.

Lemma sized_run_fresh_id : sized_run fresh_id (fun _ => True).
Proof.
  apply sized_run_keeps. apply keeps_in_frame. intros st f. apply sized_state_frame.
Qed.

Lemma sized_run_modify (f : t -> t) :
  (forall st, sized_state st -> sized_state (f st)) -> sized_run (modify f) (fun _ => True).
Proof. intros Hf st x st' [= _ <-] Hi. split; [apply Hf; exact Hi|exact I]. Qed.

(** The outer BlockRealize: the constructor checks its sizes, and its body
    is the sequence of the collected inner statements. *)
Lemma sized_run_make_blockized :
  sized_run make_blockized (fun r => realizes_sized (SBlockRealize r) = true).
Proof.
  intros st r st' Hrun [Hseq Hb].
  apply make_blockized_run in Hrun
    as (oiv & ob & reads & writes & n & f' & _ & _ & _ & Hsz & -> & ->).
  assert (Hr : realizes_sized
                 (SBlockRealize
                    (BlockRealize.mk (arr_list ob) (make_const DBool 1)
                       (Block.mk n (arr_list oiv) reads writes (outer_block_name st)
                          (SSeqStmt (seq_body st)) None [] [] []))) = true).
  { apply realizes_sized_realize. split; [exact Hsz|].
    apply realizes_sized_block. simpl. split; [|discriminate].
    apply (proj2 (realizes_sized_seq _)). exact Hseq. }
  split; [|exact Hr]. split; [exact Hseq|]. simpl. intros r' [= <-]. exact Hr.
Qed.

Lemma sized_run_rewrite_seq_step is_last it stmt l :
  realizes_sized it = true -> realizes_sized stmt = true ->
  Forall (fun x => realizes_sized x = true) (new_seq l) ->
  sized_run (rewrite_seq_step is_last it stmt l)
    (fun l' => Forall (fun x => realizes_sized x = true) (new_seq l')).
Proof.
  intros Hit Hstmt Hns st l' st' Hrun Hi. unfold rewrite_seq_step in Hrun.
  apply bind_ok in Hrun as (s0 & s1 & Hget & Hrun). injection Hget as <- <-.
  destruct (_target_in st).
  - apply bind_ok in Hrun as (ids & s1 & Hids & Hrun).
    assert (s1 = st) as ->.
    { destruct (Z.eqb (idx_start l) (-1)).
      - injection Hids as _ <-. reflexivity.
      - apply bind_ok in Hids as (u & s2 & Hc & Hids). apply ICHECK_ok in Hc as [_ ->].
        injection Hids as _ <-. reflexivity. }
    apply bind_ok in Hrun as (u & s2 & Hm & Hrun). injection Hm as _ <-.
    assert (Hi2 : sized_state (set_seq_body (seq_body st ++ [stmt]) st)).
    { destruct Hi as [Hseq Hb]. split; [|exact Hb]. simpl.
      apply Forall_app. split; [exact Hseq|]. constructor; [exact Hstmt|constructor]. }
    apply bind_ok in Hrun as (l2 & s3 & Hl2 & Hrun). injection Hrun as <- <-.
    destruct is_last.
    + apply bind_ok in Hl2 as (r & s4 & Hmk & Hl2). injection Hl2 as <- <-.
      destruct (sized_run_make_blockized _ _ _ Hmk Hi2) as [Hi3 Hr].
      split; [exact Hi3|]. simpl. apply Forall_app. split; [exact Hns|].
      constructor; [exact Hr|constructor].
    + injection Hl2 as <- <-. split; [exact Hi2|exact Hns].
  - apply bind_ok in Hrun as (ns & s1 & Hnsr & Hrun). injection Hrun as <- <-. simpl.
    destruct (negb (Z.eqb (idx_start l) (-1)) && Z.eqb (last_found_idx l) (cur_idx l - 1)).
    + apply bind_ok in Hnsr as (r & s4 & Hmk & Hnsr). injection Hnsr as <- <-.
      destruct (sized_run_make_blockized _ _ _ Hmk Hi) as [Hi3 Hr].
      split; [exact Hi3|]. rewrite !Forall_app. split; [split; [exact Hns|]|].
      * constructor; [exact Hr|constructor].
      * constructor; [exact Hit|constructor].
    + injection Hnsr as <- <-. split; [exact Hi|].
      apply Forall_app. split; [exact Hns|]. constructor; [exact Hit|constructor].
Qed.

Lemma sized_run_rewrite_seq_loop visit seq_size :
  forall items i l,
    Forall (visit_sized visit) items ->
    Forall (fun x => realizes_sized x = true) items ->
    Forall (fun x => realizes_sized x = true) (new_seq l) ->
    sized_run (rewrite_seq_loop visit seq_size items i l)
      (fun l' => Forall (fun x => realizes_sized x = true) (new_seq l')).
Proof.
  induction items as [|it rest IH]; intros i l Hv Hs Hns; simpl.
  - apply sized_run_ret. exact Hns.
  - apply Forall_cons in Hv as [Hvit Hvrest]. apply Forall_cons in Hs as [Hsit Hsrest].
    eapply sized_run_bind.
    { apply sized_run_modify. intros st. apply sized_state_target_in. }
    intros _ _. eapply sized_run_bind; [exact (Hvit Hsit)|].
    intros [stmt c] Hstmt. simpl in Hstmt.
    eapply sized_run_bind; [apply sized_run_rewrite_seq_step; assumption|].
    intros l' Hl'. apply IH; assumption.
Qed.

Lemma sized_run_RewriteSeq visit stmt :
  (forall seq, stmt = SSeqStmt seq -> Forall (visit_sized visit) seq) ->
  realizes_sized stmt = true ->
  sized_run (RewriteSeq visit stmt) (fun a => realizes_sized a = true).
Proof.
  intros Hall Hs. unfold RewriteSeq.
  destruct stmt; try (intros st a st' Hrun; discriminate).
  specialize (Hall _ eq_refl). apply realizes_sized_seq in Hs.
  eapply sized_run_bind.
  { apply sized_run_rewrite_seq_loop; [exact Hall|exact Hs|constructor]. }
  intros l Hl. simpl in Hl.
  destruct (new_seq l) as [|x [|y ns]] eqn:E; apply sized_run_ret.
  - reflexivity.
  - apply Forall_cons in Hl as [Hx _]. exact Hx.
  - apply realizes_sized_seq. exact Hl.
Qed.

Lemma sized_run_visit_seq visit :
  forall l,
    Forall (visit_sized visit) l ->
    Forall (fun x => realizes_sized x = true) l ->
    sized_run (visit_seq visit l)
      (fun a => Forall (fun x => realizes_sized x = true) (fst a)).
Proof.
  induction l as [|x l IH]; intros Hv Hs; simpl.
  - apply sized_run_ret. constructor.
  - apply Forall_cons in Hv as [Hvx Hvl]. apply Forall_cons in Hs as [Hsx Hsl].
    eapply sized_run_bind; [exact (Hvx Hsx)|]. intros [x' c1] Hx'. simpl in Hx'.
    eapply sized_run_bind; [exact (IH Hvl Hsl)|]. intros [l' c2] Hl'. simpl in Hl'.
    apply sized_run_ret. simpl. constructor; assumption.
Qed.

Lemma visit_target_result block st a c st' :
  visit_target block st = Ok ((a, c), st') ->
  exists block_subst sub f f',
    a = SBlock block_subst /\
    Substitute_block block sub f = Ok ((block_subst, c), f').
Proof.
  unfold visit_target. intros Hrun.
  apply bind_ok in Hrun as (u0 & s0 & _ & Hrun).
  apply bind_ok in Hrun as (u1 & s1 & _ & Hrun).
  apply bind_ok in Hrun as (u2 & s2 & _ & Hrun).
  apply bind_ok in Hrun as (s3 & s4 & _ & Hrun).
  apply bind_ok in Hrun as ([block_subst c'] & s5 & Hsub & Hrun).
  apply bind_ok in Hrun as (u3 & s6 & _ & Hrun).
  apply bind_ok in Hrun as (u4 & s7 & _ & Hrun).
  injection Hrun as <- <- _.
  unfold in_frame, zoom in Hsub.
  destruct (Substitute_block block (block_var_subst s3) (frame s4)) as [[[b cc] f']|] eqn:E;
    [|discriminate].
  injection Hsub as <- <- _.
  exists b, (block_var_subst s3), (frame s4), f'. split; [reflexivity|exact E].
Qed.

Lemma sized_run_visit_target block :
  realizes_sized (SBlock block) = true ->
  sized_run (visit_target block) (fun a => realizes_sized (fst a) = true).
Proof.
  intros Hs st [a c] st' Hrun Hi. split.
  - eapply (keeps_visit_target sized_state); eauto.
  - apply visit_target_result in Hrun as (bs & sub & f & f' & -> & Hsub).
    apply Substitute_block_keeps_sized in Hsub as [_ Hk]. simpl. apply Hk. exact Hs.
Qed.

Lemma sized_run_realize_target blockrealize stmt :
  realizes_sized stmt = true ->
  sized_run (realize_target blockrealize stmt) (fun a => realizes_sized (fst a) = true).
Proof.
  intros Hs st [a c] st' Hrun Hi. split.
  - eapply (keeps_realize_target sized_state); eauto.
  - unfold realize_target in Hrun. destruct stmt as [| | | |block_subst| |]; try discriminate.
    apply bind_ok in Hrun as (s0 & s1 & _ & Hrun).
    apply bind_ok in Hrun as (u & s2 & _ & Hrun).
    apply bind_ok in Hrun as (inner_realize & s3 & Hgen & Hrun).
    apply bind_ok in Hrun as (u' & s4 & _ & Hrun). injection Hrun as <- _ _.
    unfold fresh_var, in_frame, zoom in Hgen.
    destruct (with_fresh _ _) as [[ir f']|] eqn:E in Hgen; [|discriminate].
    injection Hgen as <- _.
    apply with_fresh_ok in E as (Hgen & _ & _).
    apply GenerateInner_ok in Hgen as (_ & Ev & _ & Eiv & Einit & Ebody & _ & _ & Hlen).
    simpl. apply realizes_sized_realize. split.
    + unfold sizes_equal. rewrite Ev, Eiv. exact Hlen.
    + apply realizes_sized_block. rewrite Ebody, Einit.
      apply realizes_sized_block in Hs as [Hb _]. split; [exact Hb|discriminate].
Qed.

Lemma sized_run_VisitBlock visit blocks lca block :
  (forall seq, Block.body block = SSeqStmt seq -> Forall (visit_sized visit) seq) ->
  realizes_sized (SBlock block) = true ->
  sized_run (VisitBlock visit blocks lca block) (fun a => realizes_sized (fst a) = true).
Proof.
  intros Hall Hs. unfold VisitBlock. destruct (is_lca_block lca block).
  - eapply sized_run_bind.
    { apply sized_run_modify. intros st. apply sized_state_first_in. }
    intros _ _. pose proof Hs as Hs0. apply realizes_sized_block in Hs as [Hb Hinit].
    eapply sized_run_bind; [apply sized_run_RewriteSeq; [exact Hall|exact Hb]|].
    intros body Hbody. eapply sized_run_bind; [apply sized_run_fresh_id|].
    intros n _. apply sized_run_ret. cbn [fst].
    apply realizes_sized_block. cbn [Block.body Block.init].
    split; [exact Hbody|exact Hinit].
  - intros st a st' Hrun Hi.
    apply bind_ok in Hrun as (s0 & s1 & Hget & Hrun). injection Hget as <- <-.
    destruct (_first_in st && is_target blocks block).
    + exact (sized_run_visit_target block Hs _ _ _ Hrun Hi).
    + injection Hrun as <- <-. split; [exact Hi|exact Hs].
Qed.

Lemma sized_run_VisitStmt blocks lca :
  forall s,
    visit_sized (VisitStmt blocks lca) s /\
    (forall seq, s = SSeqStmt seq -> Forall (visit_sized (VisitStmt blocks lca)) seq).
Proof.
  induction s as [f IH|seq IH|c t IHt e IHe|r IH|b IH| |] using Stmt_ind.
  - split; [|discriminate]. destruct IH as [node lv mn ex k body [IHb IHseq] tb an].
    intros Hs. cbn [realizes_sized For.body] in Hs.
    cbn [VisitStmt For.body For.loop_var For.min For.extent For.kind For.thread_binding
         For.annotations].
    destruct (is_lca_loop lca _).
    + eapply sized_run_bind.
      { apply sized_run_modify. intros st. apply sized_state_first_in. }
      intros _ _. eapply sized_run_bind; [apply sized_run_RewriteSeq; [exact IHseq|exact Hs]|].
      intros body' Hbody'. eapply sized_run_bind; [apply sized_run_fresh_id|].
      intros n _. apply sized_run_ret. exact Hbody'.
    + intros st a st' Hrun Hi.
      apply bind_ok in Hrun as (s0 & s1 & Hget & Hrun). injection Hget as <- <-.
      destruct (negb (map_is_empty (loop_var_subst st))).
      * apply bind_ok in Hrun as (v & s1 & Hv & Hrun).
        assert (s1 = st) as ->.
        { destruct (Substitute_expr_vars _ _); try discriminate.
          injection Hv as _ <-. reflexivity. }
        apply bind_ok in Hrun as ([body' c'] & s2 & Hb & Hrun).
        destruct (IHb Hs _ _ _ Hb Hi) as [Hi2 Hb'].
        apply bind_ok in Hrun as (n & s3 & Hn & Hrun). injection Hrun as <- <-.
        destruct (sized_run_fresh_id _ _ _ Hn Hi2) as [Hi3 _].
        split; [exact Hi3|exact Hb'].
      * apply bind_ok in Hrun as ([body' c'] & s2 & Hb & Hrun).
        destruct (IHb Hs _ _ _ Hb Hi) as [Hi2 Hb'].
        destruct c'.
        -- apply bind_ok in Hrun as (n & s3 & Hn & Hrun). injection Hrun as <- <-.
           destruct (sized_run_fresh_id _ _ _ Hn Hi2) as [Hi3 _].
           split; [exact Hi3|exact Hb'].
        -- injection Hrun as <- <-. split; [exact Hi2|exact Hs].
  - apply list_all_Forall in IH.
    assert (Hall : Forall (visit_sized (VisitStmt blocks lca)) seq).
    { eapply Forall_impl; [exact IH|]. intros x [Hx _]. exact Hx. }
    split; [|intros seq' [= <-]; exact Hall].
    intros Hs. pose proof (proj1 (realizes_sized_seq _) Hs) as Hs'.
    cbn [VisitStmt].
    eapply sized_run_bind; [apply sized_run_visit_seq; [exact Hall|exact Hs']|].
    intros [seq' c] Hseq'. simpl in Hseq'.
    destruct c; apply sized_run_ret; [|exact Hs].
    apply realizes_sized_seq. exact Hseq'.
  - split; [|discriminate]. destruct IHt as [IHt _].
    intros Hs. cbn [realizes_sized] in Hs. apply andb_true_iff in Hs as [Hst Hse].
    intros st a st' Hrun Hi. cbn [VisitStmt] in Hrun.
    apply bind_ok in Hrun as (s0 & s1 & Hget & Hrun). injection Hget as <- <-.
    destruct (negb (map_is_empty (loop_var_subst st))).
    + apply bind_ok in Hrun as ([t' c1] & s2 & Ht & Hrun).
      destruct (IHt Hst _ _ _ Ht Hi) as [Hi2 Ht'].
      apply bind_ok in Hrun as (e' & s3 & He & Hrun). injection Hrun as <- <-.
      destruct IHe as [e0 [IHe _]|].
      * apply bind_ok in He as ([e1 c2] & s4 & Hve & He). injection He as <- <-.
        destruct (IHe Hse _ _ _ Hve Hi2) as [Hi3 He1].
        split; [exact Hi3|]. simpl. apply andb_true_iff. split; assumption.
      * injection He as <- <-. split; [exact Hi2|]. simpl.
        apply andb_true_iff. split; [exact Ht'|reflexivity].
    + apply bind_ok in Hrun as ([t' c1] & s2 & Ht & Hrun).
      destruct (IHt Hst _ _ _ Ht Hi) as [Hi2 Ht'].
      apply bind_ok in Hrun as ([e' c2] & s3 & He & Hrun).
      assert (He' : sized_state s3 /\
                    match e' with Some x => realizes_sized x = true | None => True end).
      { destruct IHe as [e0 [IHe _]|].
        - apply bind_ok in He as ([e1 c3] & s4 & Hve & He). injection He as <- _ <-.
          exact (IHe Hse _ _ _ Hve Hi2).
        - injection He as <- _ <-. split; [exact Hi2|exact I]. }
      destruct He' as [Hi3 He'].
      destruct (c1 || c2); injection Hrun as <- <-; (split; [exact Hi3|]).
      * simpl. apply andb_true_iff. split; [exact Ht'|].
        destruct e'; [exact He'|reflexivity].
      * simpl. apply andb_true_iff. split; assumption.
  - split; [|discriminate].
    destruct IH as [vals prd blk IHb].
    destruct IHb as [node ivs rd wr nm body [IHbody IHseq] ini IHini ab mb an].
    intros Hs. apply realizes_sized_realize in Hs as [Hsz Hsb].
    cbn [BlockRealize.block] in Hsb.
    intros st a st' Hrun Hi. cbn [VisitStmt BlockRealize.block] in Hrun.
    apply bind_ok in Hrun as (u & s1 & Hm & Hrun). injection Hm as _ <-.
    apply bind_ok in Hrun as ([stmt c] & s2 & Hvb & Hrun).
    destruct (sized_run_VisitBlock (VisitStmt blocks lca) blocks lca
                (Block.mk node ivs rd wr nm body ini ab mb an) IHseq Hsb _ _ _ Hvb
                (sized_state_inner _ _ _ Hi)) as [Hi2 Hstmt].
    simpl in Hstmt.
    apply bind_ok in Hrun as (s3 & s4 & Hget & Hrun). injection Hget as <- <-.
    destruct (negb (_target_in s2)).
    + injection Hrun as <- <-. split; [exact Hi2|].
      apply realizes_sized_realize. split; assumption.
    + exact (sized_run_realize_target _ _ Hstmt _ _ _ Hrun Hi2).
  - split; [|discriminate].
    destruct IH as [node ivs rd wr nm body [IHbody IHseq] ini IHini ab mb an].
    intros Hs. cbn [VisitStmt].
    exact (sized_run_VisitBlock (VisitStmt blocks lca) blocks lca
             (Block.mk node ivs rd wr nm body ini ab mb an) IHseq Hs).
  - split; [|discriminate]. intros Hs. cbn [VisitStmt]. apply sized_run_ret. exact Hs.
  - split; [|discriminate]. intros Hs. cbn [VisitStmt]. apply sized_run_ret. exact Hs.
Qed.

End SizedRewriter.

Section SizeEquality.
Import BlockizeBlocks.
Context `{Arith, TirLib, Schedule}.

Lemma create_fresh_state self blocks lca f rw0 :
  create self blocks lca f = Ok rw0 -> blockized_ rw0 = None /\ seq_body rw0 = [].
Proof.
  unfold create. intros Hc.
  destruct (front blocks); [|discriminate]. simpl in Hc.
  destruct (CollectSubstInfo.Collect _ _ _ _) as [[c0 n]|]; [|discriminate].
  simpl in Hc.
  destruct (make_loop_var_subst _ _ _ _ _); [|discriminate].
  injection Hc as <-. split; reflexivity.
Qed.

(** The outer BlockRealize of the group passed the check of its
    constructor. *)
Lemma Rewrite_outer_sizes self blocks lca f new_lca rw r :
  Rewrite self blocks lca f = Ok (new_lca, rw) ->
  blockized_ rw = Some r -> sizes_equal r.
Proof.
  intros Hrun Hr.
  destruct (create self blocks lca f) as [rw0|] eqn:Hcreate;
    [|unfold Rewrite in Hrun; rewrite Hcreate in Hrun; discriminate].
  refine (keeps_Rewrite (fun st => forall r, blockized_ st = Some r -> sizes_equal r)
            _ _ _ _ _ _ _ _ self blocks lca f rw0 new_lca rw Hcreate Hrun _ r Hr);
    try (intros; auto; fail).
  - intros st r0 st' Hmk _ r' Hr'.
    apply make_blockized_run in Hmk
      as (oiv & ob & reads & writes & n & f' & _ & _ & _ & Hsz & -> & ->).
    simpl in Hr'. injection Hr' as <-. exact Hsz.
  - intros r0 Hr0. apply create_fresh_state in Hcreate as [Hb _]. congruence.
Qed.

(** The rewrite of the group form keeps the size invariant of every
    BlockRealize of the subtree it rewrites. *)
Lemma Rewrite_keeps_sized self blocks lca f new_lca rw :
  realizes_sized (sref_stmt lca) = true ->
  Rewrite self blocks lca f = Ok (new_lca, rw) ->
  realizes_sized new_lca = true /\ sized_state rw.
Proof.
  intros Hs Hrun. unfold Rewrite in Hrun.
  destruct (create self blocks lca f) as [rw0|] eqn:Hcreate; [|discriminate].
  simpl in Hrun.
  destruct (VisitStmt blocks lca (sref_stmt lca) rw0) as [[[nl c] rw']|] eqn:Hvisit;
    [|discriminate].
  injection Hrun as <- <-.
  apply create_fresh_state in Hcreate as [Hb Hseq].
  destruct (sized_run_VisitStmt blocks lca (sref_stmt lca)) as [Hv _].
  destruct (Hv Hs _ _ _ Hvisit) as [Hi Hnl].
  - split; [rewrite Hseq; constructor|]. intros r Hr. congruence.
  - split; [exact Hnl|exact Hi].
Qed.

Lemma Tensorize_target_sizes self sref pui n0 r0 old nmid :
  Tensorize_target self sref pui n0 = Ok ((r0, old), nmid) ->
  (forall r, GetBlockRealize self sref = Ok r -> sizes_equal r) ->
  sizes_equal r0.
Proof.
  unfold Tensorize_target. intros Htgt Hwf.
  destruct (sref_stmt sref); try discriminate.
  - destruct (BlockizeImpl self sref pui (mkFrame n0 ∅ [])) as [[r fi]|] eqn:Himpl;
      [|discriminate].
    injection Htgt as <- _ _.
    apply BlockizeImpl_lockstep_sizes in Himpl as [Hsz _]. exact Hsz.
  - apply bind_ok in Htgt as (r & s1 & Hget & Htgt).
    apply lift_result_ok in Hget as [Hget ->]. injection Htgt as <- _ _.
    apply Hwf. exact Hget.
Qed.

(** C1. Every BlockRealize generated by a successful Blockize, in the
    single-loop form or in the group form, or by a successful Tensorize has
    as many iter values as its block has iter vars.  Single-loop form: the
    outer BlockRealize, the inner one inside the loop nest and the one of
    the init subtree.  Group form: the outer BlockRealize, whose bindings
    come one per enclosing loop and whose iterators one per iterator of the
    first target, passes the size check of its constructor, so that a
    Blockize that succeeds has equal sizes; and with it every BlockRealize
    of the rewritten subtree (the inner ones included) has equal sizes when
    those of the subtree had.  Tensorize: the rewritten BlockRealize has
    equal sizes when the BlockRealize of a target block has. *)
Theorem generated_BlockRealize_sizes_equal :
  (forall self loop_sref preserve_unit_iters n0 self' result n1,
     Blockize self loop_sref preserve_unit_iters n0 = Ok ((self', result), n1) ->
     exists blockized f,
       BlockizeImpl self loop_sref preserve_unit_iters (mkFrame n0 ∅ [])
         = Ok (blockized, f) /\
       sizes_equal blockized /\
       exists inner_realize loops,
         (exists n n', MakeLoopNest (SBlockRealize inner_realize) loops n
                       = Ok (Block.body (BlockRealize.block blockized), n')) /\
         sizes_equal inner_realize /\
         forall init,
           Block.init (BlockRealize.block blockized) = Some init ->
           exists nest subst_map init_realize copies,
             init = Substitute_stmt_vars nest subst_map /\
             strip_loops nest = (reverse copies, SBlockRealize init_realize) /\
             sizes_equal init_realize) /\
  (forall self blocks preserve_unit_iters n0 self' result n1,
     Blockize_blocks self blocks preserve_unit_iters n0 = Ok ((self', result), n1) ->
     exists lca new_lca rw blockized,
       GetSRefLowestCommonAncestor blocks = Ok lca /\
       Rewrite self blocks lca (mkFrame n0 ∅ []) = Ok (new_lca, rw) /\
       blockized_ rw = Some blockized /\
       sizes_equal blockized /\
       (realizes_sized (sref_stmt lca) = true ->
        realizes_sized new_lca = true /\
        realizes_sized (SBlockRealize blockized) = true)) /\
  (forall self sref intrin preserve_unit_iters n0 self' n1,
     Tensorize self sref intrin preserve_unit_iters n0 = Ok (self', n1) ->
     (forall r0, GetBlockRealize self sref = Ok r0 -> sizes_equal r0) ->
     exists r old nmid,
       Tensorize_rewrite self sref intrin preserve_unit_iters n0 = Ok ((r, old), nmid) /\
       sizes_equal r).
Proof.
  split; [|split].
  - intros self loop_sref pui n0 self' result n1 Hrun. unfold Blockize in Hrun.
    destruct (BlockizeImpl self loop_sref pui (mkFrame n0 ∅ []))
      as [[blockized f]|e] eqn:Himpl; [|discriminate].
    exists blockized, f. split; [reflexivity|].
    exact (BlockizeImpl_lockstep_sizes _ _ _ _ _ _ Himpl).
  - intros self blocks pui n0 self' result n1 Hrun. unfold Blockize_blocks in Hrun.
    destruct (GetSRefLowestCommonAncestor blocks) as [lca|] eqn:Hlca; [|discriminate].
    simpl in Hrun.
    destruct (Rewrite self blocks lca (mkFrame n0 ∅ [])) as [[new_lca rw]|] eqn:Hrw;
      [|discriminate].
    simpl in Hrun.
    destruct (blockized_ rw) as [blockized|] eqn:Hb; [|discriminate].
    exists lca, new_lca, rw, blockized.
    split; [reflexivity|]. split; [exact Hrw|]. split; [exact Hb|].
    split; [exact (Rewrite_outer_sizes _ _ _ _ _ _ _ Hrw Hb)|].
    intros Hs. destruct (Rewrite_keeps_sized _ _ _ _ _ _ Hs Hrw) as [Hnl [_ Hst]].
    split; [exact Hnl|exact (Hst _ Hb)].
  - intros self sref intrin pui n0 self' n1 Hrun Hwf. unfold Tensorize in Hrun.
    apply bind_ok in Hrun as ([r old] & nmid & Hrw & _).
    exists r, old, nmid. split; [exact Hrw|].
    apply Tensorize_rewrite_inv in Hrw
      as (r0 & nm & cmp & i2d & s1 & s2 & i2c & s3 & s4 & impl_realize & Htgt & _ & _ & _
          & _ & _ & _ & Hv & _ & Hiv & _).
    unfold sizes_equal. rewrite Hv, Hiv.
    exact (Tensorize_target_sizes _ _ _ _ _ _ _ Htgt Hwf).
Qed.

End SizeEquality.

(** * The further properties on the sample programs *)

(** Single-loop Blockize of the reduction at loop [i]: two outer iterators
    and two outer bindings. *)
Lemma BlockizeImpl_sizes_witness :
  exists r f1,
    @BlockizeImpl ref_arith ref_tir ref_schedule red_state sref_red_loop_i false
      (mkFrame 500 ∅ []) = Ok (r, f1) /\
    length (BlockRealize.iter_values r) = length (Block.iter_vars (BlockRealize.block r)) /\
    length (BlockRealize.iter_values r) = 2%nat.
Proof.
  destruct (@BlockizeImpl ref_arith ref_tir ref_schedule red_state sref_red_loop_i false
              (mkFrame 500 ∅ [])) as [[r f1]|e] eqn:Hrun;
    [|vm_compute in Hrun; discriminate].
  destruct (@BlockizeImpl_sizes ref_arith ref_tir ref_schedule _ _ _ _ _ _ Hrun)
    as [Hsz _].
  exists r, f1. split; [reflexivity|]. split; [exact Hsz|].
  vm_compute in Hrun. injection Hrun as <- _. reflexivity.
Defined.

(** The deriver on [sample_division]: both pairs of lists grow in
    lockstep, and the plan binds [vi]. *)
Lemma DeriveBlockBinding_lockstep_witness :
  exists b n1,
    @DeriveBlockBinding ref_arith sample_iter_vars sample_division
      (mkBindings [] [] [] [] ∅) false false 0%nat = Ok (b, n1) /\
    length (outer_iter_vars b) = length (outer_bindings b) /\
    length (inner_iter_vars b) = length (inner_bindings b) /\
    is_Some (block_var_subst b !! 11%nat).
Proof.
  destruct (@DeriveBlockBinding ref_arith sample_iter_vars sample_division
              (mkBindings [] [] [] [] ∅) false false 0%nat) as [[b n1]|e] eqn:Hrun;
    [|vm_compute in Hrun; discriminate].
  destruct (@DeriveBlockBinding_lockstep ref_arith _ _ _ _ _ _ _ _ Hrun)
    as (Ho & Hi & Hdom).
  exists b, n1. split; [reflexivity|].
  split; [apply Ho; reflexivity|]. split; [apply Hi; reflexivity|].
  apply Hdom. simpl. left.
Defined.

(** Substituting loop variable [i] in the sample block, which mentions only
    its own iterators. *)
Lemma Substitute_block_unused_witness :
  @Substitute_block ref_arith sample_block (<[1%nat := i32 7]> ∅) (mkFrame 0 ∅ [])
    = Ok ((sample_block, false), mkFrame 0 ∅ []).
Proof.
  apply (@Substitute_block_unused ref_arith). vm_compute. reflexivity.
Defined.

(** The reads of the reduction block, relaxed over no variable. *)
Lemma EvalSetRegions_shape_witness :
  exists rs,
    @EvalSetRegions ref_arith nat (Block.reads red_block) ∅ 0%nat = Ok (rs, 0%nat) /\
    map buffer rs = [buf_A2] /\
    Forall (fun r => length (region r) = length (shape (buffer r))) rs.
Proof.
  destruct (@EvalSetRegions ref_arith nat (Block.reads red_block) ∅ 0%nat)
    as [[rs s']|e] eqn:Hrun; [|vm_compute in Hrun; discriminate].
  destruct (@EvalSetRegions_shape ref_arith nat _ _ _ _ _ Hrun) as (-> & Hb & Hd).
  exists rs. split; [reflexivity|]. split; [exact Hb|exact Hd].
Defined.

(** The union of three regions over two buffers: [C] first, then [A]. *)
Lemma UnionRegions_buffers_witness :
  exists rs,
    @UnionRegions ref_arith
      [mkBufferRegion buf_C [point (i32 0)];
       mkBufferRegion buf_A2 [point (i32 0); point (i32 1)];
       mkBufferRegion buf_C [point (i32 1)]] = Ok rs /\
    map buffer rs = [buf_C; buf_A2] /\
    Forall (fun r => length (region r) = length (shape (buffer r))) rs.
Proof.
  destruct (@UnionRegions ref_arith
              [mkBufferRegion buf_C [point (i32 0)];
               mkBufferRegion buf_A2 [point (i32 0); point (i32 1)];
               mkBufferRegion buf_C [point (i32 1)]]) as [rs|e] eqn:Hrun;
    [|vm_compute in Hrun; discriminate].
  destruct (@UnionRegions_buffers ref_arith _ _ Hrun) as (Hb & _ & _ & Hd).
  exists rs. split; [reflexivity|]. split; [|exact Hd].
  rewrite Hb. vm_compute. reflexivity.
Defined.

Lemma UnionRegions_succeeds_witness :
  exists rs,
    @UnionRegions ref_arith
      [mkBufferRegion buf_C [point (i32 0)];
       mkBufferRegion buf_A2 [point (i32 0); point (i32 1)];
       mkBufferRegion buf_C [point (i32 1)]] = Ok rs.
Proof.
  apply (@UnionRegions_succeeds ref_arith).
  - repeat constructor.
  - intros a b Ha Hb Hid.
    repeat match goal with
           | Hx : _ ∈ (_ :: _) |- _ => apply elem_of_cons in Hx as [->|Hx]
           | Hx : _ ∈ [] |- _ => inversion Hx
           end; first [reflexivity|discriminate Hid].
Defined.

(** The two loops of the sample program around a statement: loop [i], the
    last of the list, is outermost. *)
Lemma MakeLoopNest_wraps_witness :
  exists s copies,
    MakeLoopNest (SEvaluate (i32 0)) [sample_loop_j; sample_loop_i] 0%nat = Ok (s, 2%nat) /\
    strip_loops s = (copies, SEvaluate (i32 0)) /\
    map (fun l => name_hint (For.loop_var l)) copies = ["i"; "j"].
Proof.
  destruct (MakeLoopNest_wraps (SEvaluate (i32 0)) [sample_loop_j; sample_loop_i] 0%nat)
    as (s & copies & Hrun & Hstrip & Hcop); [discriminate|].
  exists s, copies. split; [exact Hrun|]. split; [exact Hstrip|].
  vm_compute in Hrun. injection Hrun as <-.
  vm_compute in Hstrip. injection Hstrip as <-. reflexivity.
Defined.

(** Blockize of the reduction at loop [i]: the sref of block [C] (node 130)
    goes to the inner block, which keeps the name. *)
Lemma BlockizeImpl_reuses_block_sref_witness :
  exists r f1 inner_realize copies,
    @BlockizeImpl ref_arith ref_tir ref_schedule red_state sref_red_loop_i false
      (mkFrame 500 ∅ []) = Ok (r, f1) /\
    strip_loops (Block.body (BlockRealize.block r)) = (copies, SBlockRealize inner_realize) /\
    block_sref_reuse f1 !! 130%nat = Some (BlockRealize.block inner_realize).
Proof.
  destruct (@BlockizeImpl ref_arith ref_tir ref_schedule red_state sref_red_loop_i false
              (mkFrame 500 ∅ [])) as [[r f1]|e] eqn:Hrun;
    [|vm_compute in Hrun; discriminate].
  destruct (@BlockizeImpl_reuses_block_sref ref_arith ref_tir ref_schedule _ _ _ _ _ _ Hrun)
    as (block_realize & inner_realize & copies & Hchk & Hstrip & Hreuse).
  vm_compute in Hchk. injection Hchk as <-.
  exists r, f1, inner_realize, copies. auto.
Defined.

Lemma BlockizeImpl_block_signatures_witness :
  exists r f1 inner_realize copies,
    @BlockizeImpl ref_arith ref_tir ref_schedule red_state sref_red_loop_i false
      (mkFrame 500 ∅ []) = Ok (r, f1) /\
    strip_loops (Block.body (BlockRealize.block r)) = (copies, SBlockRealize inner_realize) /\
    Block.name_hint (BlockRealize.block r) = "C_o" /\
    Block.name_hint (BlockRealize.block inner_realize) = "C" /\
    map buffer (Block.reads (BlockRealize.block r)) = [buf_A2] /\
    map buffer (Block.writes (BlockRealize.block r)) = [buf_C] /\
    Block.annotations (BlockRealize.block r) = [] /\
    Block.init (BlockRealize.block inner_realize) = None /\
    is_Some (Block.init (BlockRealize.block r)).
Proof.
  destruct (@BlockizeImpl ref_arith ref_tir ref_schedule red_state sref_red_loop_i false
              (mkFrame 500 ∅ [])) as [[r f1]|e] eqn:Hrun;
    [|vm_compute in Hrun; discriminate].
  destruct (@BlockizeImpl_block_signatures ref_arith ref_tir ref_schedule _ _ _ _ _ _ Hrun)
    as (block_realize & inner_realize & copies & Hchk & Hstrip & Hno & Hni & Hrd & Hwr & _
        & _ & _ & Han & _ & _ & Hii & Hinit).
  vm_compute in Hchk. injection Hchk as <-.
  exists r, f1, inner_realize, copies.
  split; [reflexivity|]. split; [exact Hstrip|]. split; [exact Hno|]. split; [exact Hni|].
  split; [exact Hrd|]. split; [exact Hwr|]. split; [exact Han|]. split; [exact Hii|].
  apply Hinit. simpl. eauto.
Defined.


(** The same run goes through the trivial division: both predicates are
    the literal true. *)
Lemma BlockizeImpl_trivial_predicates_witness :
  exists r f1 inner_realize copies,
    @BlockizeImpl ref_arith ref_tir ref_schedule red_state sref_red_loop_i false
      (mkFrame 500 ∅ []) = Ok (r, f1) /\
    BlockRealize.predicate r = BoolTrue /\
    strip_loops (Block.body (BlockRealize.block r)) = (copies, SBlockRealize inner_realize) /\
    BlockRealize.predicate inner_realize = BoolTrue.
Proof.
  destruct (@BlockizeImpl ref_arith ref_tir ref_schedule red_state sref_red_loop_i false
              (mkFrame 500 ∅ [])) as [[r f1]|e] eqn:Hrun;
    [|vm_compute in Hrun; discriminate].
  destruct (@BlockizeImpl_trivial_predicates ref_arith ref_tir ref_schedule
              red_state sref_red_loop_i false (mkFrame 500 ∅ []) r f1 red_realize
              sref_red_block Hrun eq_refl eq_refl eq_refl)
    as (_ & Hp & inner_realize & copies & Hstrip & Hip).
  exists r, f1, inner_realize, copies. auto.
Defined.

(** A two-dimensional access against a one-dimensional region, and the
    other way round. *)
Lemma match_region_defined_witness :
  (exists r, @match_region ref_arith unit [i32 0; i32 1] [point (i32 0)] tt = Ok (r, tt) /\
             length r = 2%nat) /\
  @match_region ref_arith unit [i32 0] [point (i32 0); point (i32 1)] tt =
    Err (InternalError "offset >= 0").
Proof.
  split.
  - apply (proj1 (@match_region_defined ref_arith unit [i32 0; i32 1] [point (i32 0)] tt)).
    simpl. lia.
  - apply (proj2 (@match_region_defined ref_arith unit [i32 0] [point (i32 0); point (i32 1)] tt)).
    simpl. lia.
Defined.

(** The collector on the first block of the sibling group under loop [j]. *)
Lemma Collect_outer_lists_witness :
  exists c n',
    @CollectSubstInfo.Collect ref_arith ref_schedule grp_state sref_grp_loop_j
      sref_grp_B1 500%nat = Ok (c, n') /\
    (arr_size (CollectSubstInfo.outer_iter_vars_ c)
       <= arr_size (CollectSubstInfo.outer_bindings_ c))%nat /\
    length (CollectSubstInfo.outer_extent c) = arr_size (CollectSubstInfo.outer_bindings_ c).
Proof.
  destruct (@CollectSubstInfo.Collect ref_arith ref_schedule grp_state sref_grp_loop_j
              sref_grp_B1 500%nat) as [[c n']|e] eqn:Hrun;
    [|vm_compute in Hrun; discriminate].
  destruct (@Collect_outer_lists ref_arith ref_schedule _ _ _ _ _ _ Hrun) as (H1 & H2 & _).
  exists c, n'. auto.
Defined.

(** Group Blockize of the reduction block alone under loop [k], whose body
    is the BlockRealize itself and no sequence. *)
Lemma Rewrite_needs_seq_body_witness :
  @BlockizeBlocks.Rewrite ref_arith ref_tir ref_schedule red_state [sref_red_block]
    sref_red_loop_k (mkFrame 500 ∅ []) =
  Err (InternalError "Target blocks must not be nested with each other!").
Proof.
  destruct (@BlockizeBlocks.create ref_arith ref_schedule red_state [sref_red_block]
              sref_red_loop_k (mkFrame 500 ∅ [])) as [rw0|e] eqn:Hcreate;
    [|vm_compute in Hcreate; discriminate].
  apply (@Rewrite_needs_seq_body ref_arith ref_tir ref_schedule red_state [sref_red_block]
           sref_red_loop_k (mkFrame 500 ∅ []) rw0 (SBlockRealize red_realize) Hcreate).
  - reflexivity.
  - intros seq; discriminate.
Defined.

(** The outer block of the group of two blocks under loops [i] and [j]. *)
Lemma Rewrite_outer_block_shape_witness :
  exists new_lca rw r,
    @BlockizeBlocks.Rewrite ref_arith ref_tir ref_schedule pair_state
      [sref_pair_P1; sref_pair_P2] sref_pair_loop_j (mkFrame 500 ∅ []) = Ok (new_lca, rw) /\
    BlockizeBlocks.blockized_ rw = Some r /\
    group_outer_shape r.
Proof.
  destruct (@BlockizeBlocks.Rewrite ref_arith ref_tir ref_schedule pair_state
              [sref_pair_P1; sref_pair_P2] sref_pair_loop_j (mkFrame 500 ∅ []))
    as [[new_lca rw]|e] eqn:Hrun; [|vm_compute in Hrun; discriminate].
  destruct (BlockizeBlocks.blockized_ rw) as [r|] eqn:Hr;
    [|vm_compute in Hrun; injection Hrun as _ <-; discriminate Hr].
  exists new_lca, rw, r. split; [reflexivity|]. split; [exact Hr|].
  exact (@Rewrite_outer_block_shape ref_arith ref_tir ref_schedule _ _ _ _ _ _ _ Hrun Hr).
Defined.

(** The two blocks directly under the root block: the outer block gets the
    unit iterator. *)
Lemma Rewrite_root_lca_unit_iter_witness :
  exists new_lca rw r,
    @BlockizeBlocks.Rewrite ref_arith ref_tir ref_schedule top_state
      [sref_top_B1; sref_top_B2] sref_top_root (mkFrame 500 ∅ []) = Ok (new_lca, rw) /\
    BlockizeBlocks.blockized_ rw = Some r /\
    unit_outer r.
Proof.
  destruct (@BlockizeBlocks.Rewrite ref_arith ref_tir ref_schedule top_state
              [sref_top_B1; sref_top_B2] sref_top_root (mkFrame 500 ∅ []))
    as [[new_lca rw]|e] eqn:Hrun; [|vm_compute in Hrun; discriminate].
  destruct (BlockizeBlocks.blockized_ rw) as [r|] eqn:Hr;
    [|vm_compute in Hrun; injection Hrun as _ <-; discriminate Hr].
  exists new_lca, rw, r. split; [reflexivity|]. split; [exact Hr|].
  apply (@Rewrite_root_lca_unit_iter ref_arith ref_tir ref_schedule top_state
           [sref_top_B1; sref_top_B2] sref_top_root (mkFrame 500 ∅ []) sref_top_B1
           sref_top_root top_root new_lca rw r);
    solve [reflexivity | exact Hrun | exact Hr].
Defined.

(** Tensorize of the sample block with the sample intrinsic: iterators,
    regions and name stay, the body is the implementation's. *)
Lemma Tensorize_rewrite_keeps_signature_witness :
  exists r old n1,
    @Tensorize_rewrite ref_arith ref_tir ref_schedule tensor_state sref_tensor_block
      sample_intrin false 500%nat = Ok ((r, old), n1) /\
    BlockRealize.iter_values r = BlockRealize.iter_values tensor_realize /\
    Block.iter_vars (BlockRealize.block r) = Block.iter_vars tensor_block /\
    Block.reads (BlockRealize.block r) = Block.reads tensor_block /\
    Block.writes (BlockRealize.block r) = Block.writes tensor_block /\
    Block.name_hint (BlockRealize.block r) = Block.name_hint tensor_block /\
    length (Block.match_buffers (BlockRealize.block r)) = length (params (desc sample_intrin)).
Proof.
  destruct (@Tensorize_rewrite ref_arith ref_tir ref_schedule tensor_state sref_tensor_block
              sample_intrin false 500%nat) as [[[r old] n1]|e] eqn:Hrun;
    [|vm_compute in Hrun; discriminate].
  destruct (@Tensorize_rewrite_keeps_signature ref_arith ref_tir ref_schedule
              _ _ _ _ _ _ _ _ Hrun)
    as (r0 & nmid & impl_realize & Htgt & _ & Hiv & _ & Hvars & Hrd & Hwr & Hname & _ & _
        & _ & Hmb & _).
  assert (Hr0 : r0 = tensor_realize).
  { vm_compute in Htgt. injection Htgt as <- _ _. reflexivity. }
  subst r0.
  exists r, old, n1. split; [reflexivity|]. auto 10.
Defined.

(** A sref to an Evaluate statement is neither a loop nor a block. *)
Lemma Tensorize_rejects_other_targets_witness :
  @Tensorize ref_arith ref_tir ref_schedule tensor_state
    (mkSRef 900 (SEvaluate (i32 0)) None) sample_intrin false 500%nat =
  Err (InternalError "TypeError: Tensorize only support For or Block").
Proof.
  apply (@Tensorize_rejects_other_targets ref_arith ref_tir ref_schedule);
    intros x; discriminate.
Defined.

(** Group Blockize of two blocks with one iterator each under the two
    loops [i] and [j]: the collector hands over two outer bindings and one
    outer iterator, and the constructor of the outer BlockRealize refuses
    them. *)
Example Blockize_blocks_unequal_lists_abort :
  (exists c n,
     @CollectSubstInfo.Collect ref_arith ref_schedule grp_state sref_grp_loop_j
       sref_grp_B1 500%nat = Ok (c, n) /\
     arr_size (CollectSubstInfo.outer_bindings_ c) = 2%nat /\
     arr_size (CollectSubstInfo.outer_iter_vars_ c) = 1%nat) /\
  @Blockize_blocks ref_arith ref_tir ref_schedule grp_state
    [sref_grp_B1; sref_grp_B2] false 500%nat
  = Err (InternalError "BlockRealize: |iter_values| == |block.iter_vars|").
Proof.
  split; [|vm_compute; reflexivity].
  destruct (@CollectSubstInfo.Collect ref_arith ref_schedule grp_state sref_grp_loop_j
              sref_grp_B1 500%nat) as [[c n]|e] eqn:Hc; [|vm_compute in Hc; discriminate].
  exists c, n. split; [reflexivity|].
  vm_compute in Hc. injection Hc as <- _. split; reflexivity.
Qed.

(** Blockize of the reduction at loop [i], group Blockize of the two blocks
    under loops [i] and [j], and Tensorize of the sample block. *)
Lemma generated_BlockRealize_sizes_equal_witness :
  (exists blockized f,
     @BlockizeImpl ref_arith ref_tir ref_schedule red_state sref_red_loop_i false
       (mkFrame 500 ∅ []) = Ok (blockized, f) /\
     sizes_equal blockized /\ length (BlockRealize.iter_values blockized) = 2%nat) /\
  (exists new_lca rw blockized,
     @BlockizeBlocks.Rewrite ref_arith ref_tir ref_schedule pair_state
       [sref_pair_P1; sref_pair_P2] sref_pair_loop_j (mkFrame 500 ∅ []) = Ok (new_lca, rw) /\
     BlockizeBlocks.blockized_ rw = Some blockized /\
     sizes_equal blockized /\ length (BlockRealize.iter_values blockized) = 2%nat /\
     realizes_sized new_lca = true) /\
  (exists r old nmid,
     @Tensorize_rewrite ref_arith ref_tir ref_schedule tensor_state sref_tensor_block
       sample_intrin false 500%nat = Ok ((r, old), nmid) /\
     sizes_equal r).
Proof.
  destruct (@generated_BlockRealize_sizes_equal ref_arith ref_tir ref_schedule)
    as (Hsingle & Hgroup & Htens).
  split; [|split].
  - destruct (@Blockize ref_arith ref_tir ref_schedule red_state sref_red_loop_i false
                500%nat) as [[[self' result] n1]|e] eqn:Hrun;
      [|vm_compute in Hrun; discriminate].
    destruct (Hsingle _ _ _ _ _ _ _ Hrun) as (blockized & f & Himpl & Hsz & _).
    exists blockized, f. split; [exact Himpl|]. split; [exact Hsz|].
    vm_compute in Himpl. injection Himpl as <- _. reflexivity.
  - destruct (@Blockize_blocks ref_arith ref_tir ref_schedule pair_state
                [sref_pair_P1; sref_pair_P2] false 500%nat)
      as [[[self' result] n1]|e] eqn:Hrun; [|vm_compute in Hrun; discriminate].
    destruct (Hgroup _ _ _ _ _ _ _ Hrun)
      as (lca & new_lca & rw & blockized & Hlca & Hrw & Hb & Hsz & Hdeep).
    vm_compute in Hlca. injection Hlca as <-.
    exists new_lca, rw, blockized. split; [exact Hrw|]. split; [exact Hb|].
    split; [exact Hsz|]. split; [|apply Hdeep; reflexivity].
    vm_compute in Hrw. injection Hrw as _ <-. vm_compute in Hb. injection Hb as <-.
    reflexivity.
  - destruct (@Tensorize ref_arith ref_tir ref_schedule tensor_state sref_tensor_block
                sample_intrin false 500%nat) as [[self' n1]|e] eqn:Hrun;
      [|vm_compute in Hrun; discriminate].
    apply (Htens _ _ _ _ _ _ _ Hrun).
    intros r0 Hr0. vm_compute in Hr0. injection Hr0 as <-. reflexivity.
Defined.
